(** * TinyTRL: capacity arithmetic, arrays, flat containers, strings, streams

    A shallow embedding of the TinyTRL runtime library (TinyTRL_Math.inl,
    TinyTRL_Containers.inl, TinyTRL_Strings.cpp, TinyTRL_Streams.cpp) and the
    properties of it that the specification states.

    Conventions of the embedding.
    - Machine integers are [Z] values; every arithmetic result that the C++
      code stores in a fixed-width variable goes through [wrap].  The library
      is compiled for two targets ([__PLATFORM_X64], [__PLATFORM_X32]); the
      target is the [Platform] argument of the definitions.
    - A [while] loop without a syntactic bound is a [Fixpoint] on a fuel
      argument and returns [None] when the fuel runs out.
    - [malloc]/[realloc]/[operator new] may fail; every operation that can
      allocate takes the outcome of its (single) allocation as an argument.
      An array allocation that succeeds is a block for the number of
      elements asked for; where the caller chooses that number, the
      [_sized] definitions take [sizeof(Element)] and follow the byte count
      through [size_t].
    - Memory that holds no constructed object is [None] (array slots) or an
      arbitrary fill byte chosen by the allocation (string buffers). *)

From stdpp Require Import base option list numbers list_numbers.
From Stdlib Require Import ZArith Lia.

Local Open Scope Z_scope.

(* ================================================================== *)
(** * Part I: the embedding                                            *)
(* ================================================================== *)

(** ** Targets and integer types (TinyTRL_TypeDef.h) *)

Inductive Platform := X64 | X32.

(** Width in bits of [Length], [Size] and [size_t] on the target. *)
Definition wordBits (p : Platform) : Z :=
  match p with X64 => 64 | X32 => 32 end.

(** The [ValueType] of the templates in TinyTRL_Math.inl. *)
Inductive IntType := Signed (w : Z) | Unsigned (w : Z).

(** Two's-complement reduction of a mathematical result into the type. *)
Definition wrap (t : IntType) (x : Z) : Z :=
  match t with
  | Unsigned w => x mod 2 ^ w
  | Signed w => (x + 2 ^ (w - 1)) mod 2 ^ w - 2 ^ (w - 1)
  end.

Definition inRange (t : IntType) (x : Z) : Prop :=
  match t with
  | Unsigned w => 0 <= x < 2 ^ w
  | Signed w => - 2 ^ (w - 1) <= x < 2 ^ (w - 1)
  end.

Definition LengthT (p : Platform) : IntType := Signed (wordBits p).
Definition SizeT (p : Platform) : IntType := Unsigned (wordBits p).

(** ** TinyTRL_Math.inl *)

Module Math.

Definition max (left right : Z) : Z := if left <? right then right else left.

Definition min (value1 value2 : Z) : Z :=
  if value1 <=? value2 then value1 else value2.

Definition saturate (value minLimit maxLimit : Z) : Z :=
  let temp := if minLimit <? value then value else minLimit in
  if temp <? maxLimit then temp else maxLimit.

Definition isPowerOfTwo (t : IntType) (value : Z) : bool :=
  (1 <=? value) && (Z.land value (wrap t (value - 1)) =? 0).

(** The loop shared by [floorPowerOfTwo] and [ceilPowerOfTwo]:
    [while (!isPowerOfTwo(tempValue)) tempValue &= tempValue - 1;] *)
Fixpoint clearLowest (t : IntType) (fuel : nat) (tempValue : Z) : option Z :=
  match fuel with
  | O => None
  | S fuel' =>
      if isPowerOfTwo t tempValue then Some tempValue
      else clearLowest t fuel' (Z.land tempValue (wrap t (tempValue - 1)))
  end.

(** Fuel given to [clearLowest]: the number of bits of the operand.  Every
    iteration on a positive operand clears its lowest set bit, so the loop
    exits within that many iterations ([clearLowest_enough]); an operand that
    is zero or negative never becomes a power of two, the loop does not exit
    and the model answers [None] whatever the fuel ([clearLowest_stuck]). *)
Definition loopFuel (value : Z) : nat := S (Z.to_nat (Z.log2 value)).

Definition floorPowerOfTwo (t : IntType) (value : Z) : option Z :=
  if 2 <? value then clearLowest t (loopFuel value) value else Some value.

Definition ceilPowerOfTwo (t : IntType) (value : Z) : option Z :=
  if (2 <? value) && negb (isPowerOfTwo t value) then
    let tempValue := wrap t (Z.shiftl value 1) in
    clearLowest t (loopFuel tempValue) tempValue
  else Some value.

(** [computeNextCapacity(capacity)] *)
Definition computeNextCapacity1 (t : IntType) (capacity : Z) : option Z :=
  if (capacity <? 16) || negb (isPowerOfTwo t capacity) then
    nextCapacity ← ceilPowerOfTwo t (wrap t (capacity + 1));
    if wrap t (nextCapacity - capacity) <? capacity ÷ 3
    then Some (wrap t (nextCapacity + nextCapacity ÷ 2))
    else Some nextCapacity
  else Some (wrap t (capacity + capacity ÷ 2)).

(** [computeNextCapacity(capacity, currentCapacity, initialCapacity)] *)
Definition computeNextCapacity (t : IntType)
    (capacity currentCapacity initialCapacity : Z) : option Z :=
  if negb (currentCapacity =? initialCapacity) then
    capacityNext ← computeNextCapacity1 t currentCapacity;
    if capacityNext <? capacity then
      if negb (isPowerOfTwo t capacity) then
        capacityPred0 ← floorPowerOfTwo t capacity;
        let capacityPred := wrap t (capacityPred0 + capacityPred0 ÷ 2) in
        if capacity <=? capacityPred then Some capacityPred
        else ceilPowerOfTwo t capacity
      else Some capacity
    else Some capacityNext
  else Some capacity.

(** [average(value1, value2)] for the integer types: every intermediate
    result is of the operands' type. *)
Definition average (t : IntType) (value1 value2 : Z) : Z :=
  wrap t (wrap t (value1 ÷ 2 + value2 ÷ 2)
          + wrap t (Z.rem value1 2 + Z.rem value2 2) ÷ 2).

(** TinyTRL_Math.cpp: [size_t average(size_t value1, size_t value2)] *)
Definition averageSize (p : Platform) (value1 value2 : Z) : Z :=
  wrap (SizeT p) (Z.land value1 value2 + Z.shiftr (Z.lxor value1 value2) 1).

End Math.

(** ** TinyTRL_Containers.h: class [Containers] *)

Module Containers.

(** [INT64_MAX] / [INT32_MAX] *)
Definition MaxLength (p : Platform) : Z := 2 ^ (wordBits p - 1) - 1.

Definition NotFound : Z := -1.

(** [0x7FFF...F] and [0x8000...0] *)
Definition LengthMask (p : Platform) : Z := 2 ^ (wordBits p - 1) - 1.
Definition PolluteBit (p : Platform) : Z := 2 ^ (wordBits p - 1).

Definition computeCapacity (p : Platform)
    (targetCapacity currentCapacity : Z) : option Z :=
  limit ← Math.floorPowerOfTwo (SizeT p) (wrap (SizeT p) (MaxLength p));
  if targetCapacity <? wrap (LengthT p) limit
  then Math.computeNextCapacity (LengthT p) targetCapacity currentCapacity 0
  else Some targetCapacity.

Record Pair (Key Value : Type) := mkPair { key : Key; value : Value }.
Arguments mkPair {Key Value}.
Arguments key {Key Value}.
Arguments value {Key Value}.

Record Location := mkLocation { index : Z }.

(** [Location::operator bool] *)
Definition Location_bool (location : Location) : bool :=
  negb (index location =? NotFound).

(** [DefaultCompare::perform], over the element type's [operator <]. *)
Definition DefaultCompare_perform {Value : Type}
    (less : Value -> Value -> bool) (left right : Value) : Z :=
  if less left right then -1 else if less right left then 1 else 0.

(** Implicit conversion of a [Length] to [bool]. *)
Definition toBool (x : Z) : bool := negb (x =? 0).

End Containers.

(** ** Raw element storage and counted loops *)

(** A slot of an array buffer: [Some x] holds a constructed element, [None]
    is raw memory (never constructed, moved from and destroyed, or freed). *)
Abbreviation Slot Element := (option Element) (only parsing).

Section Slots.
Context {Element : Type}.

(** [data[i]] read as an element; raw memory reads as [None]. *)
Definition rd (data : list (Slot Element)) (i : Z) : Slot Element :=
  if i <? 0 then None else default None (data !! Z.to_nat i).

(** Placement [new (data + i) Element(...)] with [Some], destructor call
    [data[i].~Element()] with [None]. *)
Definition wr (data : list (Slot Element)) (i : Z) (x : Slot Element)
    : list (Slot Element) :=
  if i <? 0 then data else <[Z.to_nat i := x]> data.

(** [new (dst + j) Element(static_cast<Element&&>(src[i])); src[i].~Element();]
    inside one buffer. *)
Definition moveSlot (i j : Z) (data : list (Slot Element)) : list (Slot Element) :=
  wr (wr data j (rd data i)) i None.

(** The same between two buffers. *)
Definition moveAcross (i j : Z) (bufs : list (Slot Element) * list (Slot Element))
    : list (Slot Element) * list (Slot Element) :=
  (wr (fst bufs) i None, wr (snd bufs) j (rd (fst bufs) i)).

End Slots.

(** [for (Length i = from; i < to; ++i) body] *)
Definition forUp {S : Type} (from to : Z) (body : Z -> S -> S) (s : S) : S :=
  foldl (fun s i => body i s) s (seqZ from (to - from)).

(** [for (Length i = from; i > to; --i) body] *)
Definition forDown {S : Type} (from to : Z) (body : Z -> S -> S) (s : S) : S :=
  foldl (fun s i => body i s) s (reverse (seqZ (to + 1) (from - to))).

(** Fuel for a loop whose distance to its exit condition is [n]. *)
Definition fuelOf (n : Z) : nat := S (S (Z.to_nat n)).

(** ** TinyTRL_Containers.inl: [Array<Element, Alloc>] *)

Module Array.
Import Containers.

Section Array.
Context (p : Platform) {Element : Type}.

(** The data members [_data], [_capacity] (top bit: pollute flag),
    [_length].  [_data] is the whole allocated buffer ([nullptr] is []). *)
Record t := mk {
  _data : list (Slot Element);
  _capacity : Z;
  _length : Z
}.

(** [_alloc.alloc(count * sizeof(Element), alignof(Element))]; [ok] tells
    whether [operator new (nothrow)] finds the memory for [count]
    elements.  The byte count itself is [allocBytes], and [alloc_sized] is
    the block obtained when that product wraps around in [size_t]. *)
Definition alloc (ok : bool) (count : Z) : option (list (Slot Element)) :=
  if ok then Some (replicate (Z.to_nat count) None) else None.

(** [Array(Alloc&&)] *)
Definition empty : t := mk [] 0 0.

Definition operator_bool (a : t) : bool :=
  negb (negb (Z.land (_capacity a) (PolluteBit p) =? 0)).

Definition capacity (a : t) : Z :=
  wrap (LengthT p) (Z.land (_capacity a) (LengthMask p)).

Definition length (a : t) : Z := wrap (LengthT p) (_length a).

Definition pollute (a : t) : t :=
  mk (_data a) (Z.lor (_capacity a) (PolluteBit p)) (_length a).

Definition unpollute (a : t) : t :=
  mk (_data a) (Z.ldiff (_capacity a) (PolluteBit p)) (_length a).

(** The live elements, as [begin()] .. [end()] visits them. *)
Definition elements (a : t) : list (Slot Element) :=
  take (Z.to_nat (length a)) (_data a).

Definition reallocate (ok : bool) (capacity' : Z) (a : t) : bool * t :=
  let polluteBit := Z.land (_capacity a) (PolluteBit p) in
  match alloc ok capacity' with
  | Some data =>
      let length' := length a in
      let bufs := forUp 0 length' (fun i => moveAcross i i) (_data a, data) in
      (true, mk (snd bufs) (Z.lor (wrap (SizeT p) capacity') polluteBit) (_length a))
  | None => (false, a)
  end.

(** [bool capacity(Length capacity)] *)
Definition capacity1 (ok : bool) (capacity' : Z) (a : t) : option (bool * t) :=
  let capacity' := Math.max capacity' 0 in
  let currentCapacity := capacity a in
  if currentCapacity <? capacity' then
    c ← computeCapacity p capacity' currentCapacity;
    Some (reallocate ok c a)
  else Some (true, a).

(** [elementAdd]; the functor [elementAssign] constructs [element] in the
    slot it is given. *)
Definition elementAdd (ok : bool) (element : Element) (a : t) : option (Z * t) :=
  let length' := length a in
  if length' <? MaxLength p then
    '(r, a) ← capacity1 ok (length' + 1) a;
    if r : bool then
      Some (length', mk (wr (_data a) length' (Some element)) (_capacity a)
                        (wrap (SizeT p) (length' + 1)))
    else Some (NotFound, a)
  else Some (NotFound, a).

Definition elementInsert (ok : bool) (index : Z) (element : Element) (a : t)
    : option (bool * t) :=
  let length' := length a in
  if length' <? MaxLength p then
    let index := Math.saturate index 0 length' in
    let capacity' := capacity a in
    if length' + 1 <=? capacity' then
      let data := forDown length' index (fun i => moveSlot (i - 1) i) (_data a) in
      let data := wr data index (Some element) in
      Some (true, mk data (_capacity a) (wrap (SizeT p) (length' + 1)))
    else
      let polluteBit := Z.land (_capacity a) (PolluteBit p) in
      nextCapacity ← computeCapacity p (length' + 1) capacity';
      match alloc ok nextCapacity with
      | None => Some (false, a)
      | Some data =>
          let bufs := forUp 0 index (fun i => moveAcross i i) (_data a, data) in
          let bufs := (fst bufs, wr (snd bufs) index (Some element)) in
          let bufs := forUp index length' (fun i => moveAcross i (i + 1)) bufs in
          Some (true, mk (snd bufs)
                         (Z.lor (wrap (SizeT p) nextCapacity) polluteBit)
                         (wrap (SizeT p) (length' + 1)))
      end
  else Some (false, a).

Definition add := elementAdd.
Definition insert := elementInsert.

Definition addp (ok : bool) (element : Element) (a : t) : option t :=
  '(r, a) ← add ok element a;
  Some (if r =? NotFound then pollute a else a).

Definition insertp (ok : bool) (index : Z) (element : Element) (a : t) : option t :=
  '(r, a) ← insert ok index element a;
  Some (if negb r then pollute a else a).

(** [bool populate(Length count, Element const& value)]; the [Length] values
    it returns are converted to its [bool] result type. *)
Definition populate (ok : bool) (count : Z) (value : Element) (a : t)
    : option (bool * t) :=
  let count := Math.max count 0 in
  let length' := length a in
  if length' <=? MaxLength p - count then
    '(r, a) ← capacity1 ok (length' + count) a;
    if r : bool then
      let data := forUp 0 count (fun _ data => wr data length' (Some value)) (_data a) in
      Some (toBool length', mk data (_capacity a) (_length a))
    else Some (toBool NotFound, a)
  else Some (toBool NotFound, a).

(** [Array(Length length, Element const& value, Alloc&&)] *)
Definition Array_fill (ok : bool) (length' : Z) (value : Element) : option t :=
  '(r, a) ← populate ok length' value empty;
  Some (if negb r then pollute a else a).

(** [Array(std::initializer_list<Element>, Alloc&&)] *)
Definition Array_list (ok : bool) (elems : list Element) : t :=
  let size := wrap (SizeT p) (Z.of_nat (Datatypes.length elems)) in
  let length' := wrap (LengthT p) (Math.min size (MaxLength p)) in
  let a :=
    if toBool length' then
      match alloc ok length' with
      | Some data =>
          let data := snd (foldl (fun '(index, data) element =>
                                    (index + 1, wr data index (Some element)))
                                 (0, data) elems) in
          mk data (wrap (SizeT p) length') (wrap (SizeT p) length')
      | None => pollute empty
      end
    else empty in
  if MaxLength p <? size then pollute a else a.

(** [bool erase(Length index)] *)
Definition erase1 (index : Z) (a : t) : bool * t :=
  let length' := length a in
  if (0 <=? index) && (index <? length') then
    let data := wr (_data a) index None in
    let data := forUp index (length' - 1) (fun i => moveSlot (i + 1) i) data in
    (true, mk data (_capacity a) (wrap (SizeT p) (length' - 1)))
  else (false, a).

(** [bool erase(Length start, Length count)] *)
Definition erase2 (start count : Z) (a : t) : bool * t :=
  let length' := length a in
  if toBool length' then
    let count := if start <? 0 then wrap (LengthT p) (count + start) else count in
    let start := if start <? 0 then 0 else start in
    if (length' <=? start) || (count <=? 0) then (false, a)
    else
      let right := Math.min (wrap (LengthT p) (start + count)) length' in
      let cut := wrap (LengthT p) (right - start) in
      let data := forDown (right - 1) (start - 1) (fun i data => wr data i None) (_data a) in
      let data := forUp start (length' - cut) (fun i => moveSlot (i + cut) i) data in
      (true, mk data (_capacity a) (wrap (SizeT p) (length' - cut)))
  else (false, a).

(** [bool length(Length length, Element const& value)] *)
Definition length1 (ok : bool) (length' : Z) (value : Element) (a : t)
    : option (bool * t) :=
  let length' := Math.max length' 0 in
  let currentLength := length a in
  if negb (currentLength =? length') then
    if currentLength <? length' then
      '(r, a) ← capacity1 ok length' a;
      if r : bool then
        let data := forUp currentLength length'
                      (fun i data => wr data i (Some value)) (_data a) in
        Some (true, mk data (_capacity a) (wrap (SizeT p) length'))
      else Some (false, a)
    else
      let data := forDown (currentLength - 1) (length' - 1)
                    (fun i data => wr data i None) (_data a) in
      Some (true, mk data (_capacity a) (wrap (SizeT p) length'))
  else Some (true, a).

(** [void clear()]: the buffer stays allocated. *)
Definition clear (a : t) : t :=
  let data := forDown (length a - 1) (-1) (fun i data => wr data i None) (_data a) in
  mk data (Z.ldiff (_capacity a) (PolluteBit p)) 0.

(** [bool shrink()]; [deallocate()] destroys the elements and frees the
    buffer. *)
Definition shrink (ok : bool) (a : t) : bool * t :=
  let length' := length a in
  if negb (length' =? capacity a) then
    if toBool length' then reallocate ok length' a
    else (true, mk [] 0 0)
  else (true, a).

(** [void purge()] *)
Definition purge (a : t) : t := if toBool (length a) then mk [] 0 0 else a.

(** [Array(Array const& array)] *)
Definition Array_copy (ok : bool) (array : t) : t :=
  let length' := length array in
  if toBool length' then
    match alloc ok length' with
    | Some data =>
        let data := forUp 0 length'
                      (fun i data => wr data i (rd (_data array) i)) data in
        mk data (wrap (SizeT p) length') (wrap (SizeT p) length')
    | None => pollute empty
    end
  else empty.

(** [Element* alloc(Length count)] asks the allocator for
    [static_cast<size_t>(count) * sizeof(Element)] bytes; the product is
    taken in [size_t]. *)
Definition allocBytes (sizeofElement count : Z) : Z :=
  wrap (SizeT p) (wrap (SizeT p) count * sizeofElement).

(** The block such a request obtains has room for
    [allocBytes / sizeof(Element)] elements: [count] of them when the
    product did not wrap around, fewer when it did. *)
Definition alloc_sized (sizeofElement : Z) (ok : bool) (count : Z)
    : option (list (Slot Element)) :=
  if ok
  then Some (replicate (Z.to_nat (allocBytes sizeofElement count / sizeofElement)) None)
  else None.

(** [reallocate], [capacity(Length)] and [length(Length, Element const&)]
    for an element type of [sizeofElement] bytes, where the count that the
    caller chooses reaches [alloc].  An element constructed behind the end
    of the block has no defined behaviour: the answer is [None]. *)
Definition reallocate_sized (sizeofElement : Z) (ok : bool) (capacity' : Z) (a : t)
    : option (bool * t) :=
  let polluteBit := Z.land (_capacity a) (PolluteBit p) in
  match alloc_sized sizeofElement ok capacity' with
  | Some data =>
      let length' := length a in
      if length' <=? Z.of_nat (Datatypes.length data) then
        let bufs := forUp 0 length' (fun i => moveAcross i i) (_data a, data) in
        Some (true, mk (snd bufs) (Z.lor (wrap (SizeT p) capacity') polluteBit)
                       (_length a))
      else None
  | None => Some (false, a)
  end.

Definition capacity1_sized (sizeofElement : Z) (ok : bool) (capacity' : Z) (a : t)
    : option (bool * t) :=
  let capacity' := Math.max capacity' 0 in
  let currentCapacity := capacity a in
  if currentCapacity <? capacity' then
    c ← computeCapacity p capacity' currentCapacity;
    reallocate_sized sizeofElement ok c a
  else Some (true, a).

Definition length1_sized (sizeofElement : Z) (ok : bool) (length' : Z)
    (value : Element) (a : t) : option (bool * t) :=
  let length' := Math.max length' 0 in
  let currentLength := length a in
  if negb (currentLength =? length') then
    if currentLength <? length' then
      '(r, a) ← capacity1_sized sizeofElement ok length' a;
      if r : bool then
        if length' <=? Z.of_nat (Datatypes.length (_data a)) then
          let data := forUp currentLength length'
                        (fun i data => wr data i (Some value)) (_data a) in
          Some (true, mk data (_capacity a) (wrap (SizeT p) length'))
        else None
      else Some (false, a)
    else
      let data := forDown (currentLength - 1) (length' - 1)
                    (fun i data => wr data i None) (_data a) in
      Some (true, mk data (_capacity a) (wrap (SizeT p) length'))
  else Some (true, a).

(** [utility::swap(_data[first], _data[second])]: three moves through a
    stack buffer. *)
Definition swap (first second : Z) (a : t) : t :=
  let data := _data a in
  let temp := rd data first in
  let data := wr data first None in
  let data := wr (wr data first (rd data second)) second None in
  let data := wr data second temp in
  mk data (_capacity a) (_length a).

Section Comparer.
Context (comparer : Element -> Element -> Z).

(** [comparer(_data[i], _data[j])]; comparing raw memory has no result. *)
Definition compareAt (data : list (Slot Element)) (i j : Z) : option Z :=
  x ← rd data i; y ← rd data j; Some (comparer x y).

(** [while (left <= last && comparer(_data[left], pivot) < 0) ++left;] *)
Fixpoint scanLeft (fuel : nat) (data : list (Slot Element))
    (first last left : Z) : option Z :=
  match fuel with
  | O => None
  | S fuel' =>
      if left <=? last then
        c ← compareAt data left first;
        if c <? 0 then scanLeft fuel' data first last (left + 1) else Some left
      else Some left
  end.

(** [while (right > first && comparer(_data[right], pivot) >= 0) --right;] *)
Fixpoint scanRight (fuel : nat) (data : list (Slot Element))
    (first right : Z) : option Z :=
  match fuel with
  | O => None
  | S fuel' =>
      if first <? right then
        c ← compareAt data right first;
        if 0 <=? c then scanRight fuel' data first (right - 1) else Some right
      else Some right
  end.

(** The [while (left <= right)] loop of [partitionQuickSort]. *)
Fixpoint partitionLoop (fuel : nat) (first last left right : Z) (a : t)
    : option (Z * t) :=
  match fuel with
  | O => None
  | S fuel' =>
      if left <=? right then
        left ← scanLeft (fuelOf (last - left)) (_data a) first last left;
        right ← scanRight (fuelOf (right - first)) (_data a) first right;
        let a := if left <? right then swap left right a else a in
        partitionLoop fuel' first last left right a
      else Some (right, a)
  end.

Definition partitionQuickSort (first last : Z) (a : t) : option (Z * t) :=
  '(right', a) ← partitionLoop (fuelOf (last - first)) first last (first + 1) last a;
  Some (right', if negb (first =? right') then swap first right' a else a).

Fixpoint recursiveQuickSort (fuel : nat) (first last : Z) (a : t) : option t :=
  match fuel with
  | O => None
  | S fuel' =>
      if first <? last then
        let middle := first + (last - first) ÷ 2 in
        let a := if negb (first =? middle) then swap first middle a else a in
        '(split, a) ← partitionQuickSort first last a;
        a ← recursiveQuickSort fuel' first (split - 1) a;
        recursiveQuickSort fuel' (split + 1) last a
      else Some a
  end.

Definition quickSort (first last : Z) (a : t) : option t :=
  let length' := length a in
  if 1 <? length' then
    recursiveQuickSort (fuelOf length')
      (Math.saturate first 0 (length' - 1))
      (Math.saturate last 0 (length' - 1)) a
  else Some a.

(** The [while (left <= right)] loop of [binarySearch]. *)
Fixpoint binarySearchLoop (fuel : nat) (data : list (Slot Element))
    (element : Element) (left right : Z) : option Z :=
  match fuel with
  | O => None
  | S fuel' =>
      if left <=? right then
        let pivot := left + (right - left) ÷ 2 in
        x ← rd data pivot;
        let res := comparer x element in
        if res =? 0 then Some pivot
        else if res <? 0 then binarySearchLoop fuel' data element (pivot + 1) right
        else binarySearchLoop fuel' data element left (pivot - 1)
      else Some NotFound
  end.

Definition binarySearch (element : Element) (first last : Z) (a : t) : option Z :=
  let length' := length a in
  if toBool length' then
    binarySearchLoop (fuelOf length') (_data a) element
      (Math.saturate first 0 (length' - 1))
      (Math.saturate last 0 (length' - 1))
  else Some NotFound.

End Comparer.
End Array.

Arguments t : clear implicits.
Arguments mk {Element}.
Arguments empty {Element}.

End Array.

(** [DefaultComparer<int32_t>] *)
Definition DefaultComparer_int (left right : Z) : Z :=
  Containers.DefaultCompare_perform Z.ltb left right.

(** ** TinyTRL_Containers.inl: [FlatMap<Key, Value, Comparer, Alloc>] *)

Module FlatMap.
Import Containers.

Section FlatMap.
Context (p : Platform) {Key Value : Type} (_comparer : Key -> Key -> Z).

Record t := mk { _pairs : Array.t (Pair Key Value) }.

(** The [while (left <= right)] loop of [search]. *)
Fixpoint searchLoop (fuel : nat) (data : list (Slot (Pair Key Value)))
    (key' : Key) (left right : Z) : option (bool * Z) :=
  match fuel with
  | O => None
  | S fuel' =>
      if left <=? right then
        let pivot := wrap (LengthT p) (left + right) ÷ 2 in
        kv ← rd data pivot;
        let res := _comparer (key kv) key' in
        if res <? 0 then searchLoop fuel' data key' (pivot + 1) right
        else if 0 <? res then searchLoop fuel' data key' left (pivot - 1)
        else Some (true, pivot)
      else Some (false, left)
  end.

(** [bool search(Length& index, Key const& key)]: the pair is the returned
    flag and the value left in [index]. *)
Definition search (key' : Key) (m : t) : option (bool * Z) :=
  let length' := Array.length p (_pairs m) in
  searchLoop (fuelOf length') (Array._data (_pairs m)) key'
    0 (wrap (LengthT p) (length' - 1)).

Definition exists_ (key' : Key) (m : t) : option bool :=
  fst <$> search key' m.

Definition add (ok : bool) (key' : Key) (value' : Value) (m : t)
    : option (Location * t) :=
  '(found, index) ← search key' m;
  if found : bool then
    let a := _pairs m in
    kv ← rd (Array._data a) index;
    Some (mkLocation index,
          mk (Array.mk (wr (Array._data a) index (Some (mkPair (key kv) value')))
                       (Array._capacity a) (Array._length a)))
  else
    '(r, a) ← Array.insert p ok index (mkPair key' value') (_pairs m);
    Some (mkLocation (if r : bool then index else NotFound), mk a).

(** [bool erase(Key const& key)] *)
Definition erase (key' : Key) (m : t) : option (bool * t) :=
  '(found, index) ← search key' m;
  if found : bool then
    let '(r, a) := Array.erase1 p index (_pairs m) in Some (r, mk a)
  else Some (false, m).

(** [bool erase(Location const& location)] *)
Definition eraseAt (location : Location) (m : t) : bool * t :=
  if Location_bool location then
    let '(r, a) := Array.erase1 p (index location) (_pairs m) in (r, mk a)
  else (false, m).

Definition value_of (key' : Key) (m : t) : option (option Value) :=
  '(found, index) ← search key' m;
  Some (if found : bool then value <$> rd (Array._data (_pairs m)) index else None).

End FlatMap.

Arguments t : clear implicits.
Arguments mk {Key Value}.

End FlatMap.

(** ** TinyTRL_Containers.inl: [FlatSet<Value, Comparer, Alloc>] *)

Module FlatSet.
Import Containers.

Section FlatSet.
Context (p : Platform) {Value : Type} (_comparer : Value -> Value -> Z).

Record t := mk { _values : Array.t Value }.

Fixpoint searchLoop (fuel : nat) (data : list (Slot Value))
    (value' : Value) (left right : Z) : option (bool * Z) :=
  match fuel with
  | O => None
  | S fuel' =>
      if left <=? right then
        let pivot := wrap (LengthT p) (left + right) ÷ 2 in
        v ← rd data pivot;
        let res := _comparer v value' in
        if res <? 0 then searchLoop fuel' data value' (pivot + 1) right
        else if 0 <? res then searchLoop fuel' data value' left (pivot - 1)
        else Some (true, pivot)
      else Some (false, left)
  end.

Definition search (value' : Value) (s : t) : option (bool * Z) :=
  let length' := Array.length p (_values s) in
  searchLoop (fuelOf length') (Array._data (_values s)) value'
    0 (wrap (LengthT p) (length' - 1)).

Definition add (ok : bool) (value' : Value) (s : t) : option (Location * t) :=
  '(found, index) ← search value' s;
  if negb found then
    '(r, a) ← Array.insert p ok index value' (_values s);
    Some (mkLocation (if negb r then NotFound else index), mk a)
  else Some (mkLocation index, s).

Definition update (ok : bool) (value' : Value) (s : t) : option (bool * t) :=
  '(found, index) ← search value' s;
  if negb found then
    '(r, a) ← Array.insert p ok index value' (_values s);
    Some (r, mk a)
  else
    let a := _values s in
    Some (true, mk (Array.mk (wr (Array._data a) index (Some value'))
                             (Array._capacity a) (Array._length a))).

(** [bool erase(Value const& value)] *)
Definition erase (value' : Value) (s : t) : option (bool * t) :=
  '(found, index) ← search value' s;
  if found : bool then
    let '(r, a) := Array.erase1 p index (_values s) in Some (r, mk a)
  else Some (false, s).

(** [bool erase(Location const& location)] *)
Definition eraseAt (location : Location) (s : t) : bool * t :=
  let '(r, a) := Array.erase1 p (index location) (_values s) in (r, mk a).

End FlatSet.

Arguments t : clear implicits.
Arguments mk {Value}.

End FlatSet.

(** ** Operation sequences on the flat containers *)

Inductive MapOp (Key Value : Type) :=
  | MapAdd (ok : bool) (k : Key) (v : Value)
  | MapErase (k : Key)
  | MapEraseAt (location : Containers.Location).
Arguments MapAdd {Key Value}.
Arguments MapErase {Key Value}.
Arguments MapEraseAt {Key Value}.

Inductive SetOp (Value : Type) :=
  | SetAdd (ok : bool) (v : Value)
  | SetUpdate (ok : bool) (v : Value)
  | SetErase (v : Value)
  | SetEraseAt (location : Containers.Location).
Arguments SetAdd {Value}.
Arguments SetUpdate {Value}.
Arguments SetErase {Value}.
Arguments SetEraseAt {Value}.

Section RunOps.
Context (p : Platform).

Definition mapStep {Key Value : Type} (comparer : Key -> Key -> Z)
    (op : MapOp Key Value) (m : FlatMap.t Key Value) : option (FlatMap.t Key Value) :=
  match op with
  | MapAdd ok k v => snd <$> FlatMap.add p comparer ok k v m
  | MapErase k => snd <$> FlatMap.erase p comparer k m
  | MapEraseAt location => Some (snd (FlatMap.eraseAt p location m))
  end.

Fixpoint mapRun {Key Value : Type} (comparer : Key -> Key -> Z)
    (ops : list (MapOp Key Value)) (m : FlatMap.t Key Value)
    : option (FlatMap.t Key Value) :=
  match ops with
  | [] => Some m
  | op :: ops' => m' ← mapStep comparer op m; mapRun comparer ops' m'
  end.

Definition setStep {Value : Type} (comparer : Value -> Value -> Z)
    (op : SetOp Value) (s : FlatSet.t Value) : option (FlatSet.t Value) :=
  match op with
  | SetAdd ok v => snd <$> FlatSet.add p comparer ok v s
  | SetUpdate ok v => snd <$> FlatSet.update p comparer ok v s
  | SetErase v => snd <$> FlatSet.erase p comparer v s
  | SetEraseAt location => Some (snd (FlatSet.eraseAt p location s))
  end.

Fixpoint setRun {Value : Type} (comparer : Value -> Value -> Z)
    (ops : list (SetOp Value)) (s : FlatSet.t Value) : option (FlatSet.t Value) :=
  match ops with
  | [] => Some s
  | op :: ops' => s' ← setStep comparer op s; setRun comparer ops' s'
  end.

(** What iteration from [begin()] to [end()] visits. *)
Definition mapKeys {Key Value : Type} (m : FlatMap.t Key Value) : list (option Key) :=
  (fun slot : Slot (Containers.Pair Key Value) => Containers.key <$> slot)
    <$> Array.elements p (FlatMap._pairs m).

Definition setValues {Value : Type} (s : FlatSet.t Value) : list (option Value) :=
  Array.elements p (FlatSet._values s).

End RunOps.

(** Strictly ascending order of the visited keys under a three-way
    comparer; a raw slot among them is not ascending with anything. *)
Definition ascending {K : Type} (comparer : K -> K -> Z) (l : list (option K)) : Prop :=
  forall (i j : nat) (x y : option K),
    (i < j)%nat -> l !! i = Some x -> l !! j = Some y ->
    exists kx ky, x = Some kx /\ y = Some ky /\ comparer kx ky < 0.

(** No two visited keys are equivalent under the comparer. *)
Definition noDuplicates {K : Type} (comparer : K -> K -> Z) (l : list (option K)) : Prop :=
  forall (i j : nat) (x y : K),
    i <> j -> l !! i = Some (Some x) -> l !! j = Some (Some y) -> comparer x y <> 0.

(** A three-way comparer that is a strict weak ordering: "less" is
    irreflexive and transitive, "greater" is "less" with the arguments
    exchanged, and a key between equivalent keys is equivalent. *)
Record StrictWeakOrder {K : Type} (comparer : K -> K -> Z) : Prop := {
  swo_irrefl : forall a, comparer a a = 0;
  swo_flip : forall a b, 0 < comparer a b <-> comparer b a < 0;
  swo_trans : forall a b c, comparer a b < 0 -> comparer b c < 0 -> comparer a c < 0;
  swo_equiv : forall a b c, comparer a b = 0 -> comparer b c = 0 -> comparer a c = 0
}.

(** ** Byte buffers *)

(** [memcpy(buffer + at', src, length src)] (and [memmove], [memset]): the
    bytes [src] replace those of [buffer] from offset [at'] on. *)
Definition blit (buffer : list Z) (at' : Z) (src : list Z) : list Z :=
  take (Z.to_nat at') buffer ++ src
    ++ drop (Z.to_nat at' + length src) buffer.

(** ** TinyTRL_Streams.cpp: [Stream::copy] *)

Module Stream.

(** [Stream::Failure] *)
Definition Failure : Z := -1.

(** [Status::Pollute] *)
Definition Pollute : Z := 128.

(** [Offset] is [int64_t] on both targets, [Size] follows the target. *)
Definition OffsetT : IntType := Signed 64.
Definition StreamSizeT (p : Platform) : IntType := Signed (wordBits p).

(** The virtual interface that [copy] uses.  [read] returns the byte count
    (or a failure code) and the bytes it stored in the caller's buffer;
    [write] receives the bytes of the buffer it is asked to write. *)
Class Ops (S : Type) := {
  read : S -> Z -> Z * list Z * S;
  write : S -> list Z -> Z * S;
  position : S -> Z * S;
  size : S -> Z * S
}.

(** Which statement left the [while (true)] loop. *)
Inductive LoopExit := ReadError | WriteError | Finished.

Section Copy.
Context (p : Platform) {Src Dst : Type} `{Ops Src} `{Ops Dst}.

(** The local variables of the loop, the two streams, and one counter of
    the model's own: [bytesReadExact], the sum of the successful read
    results without the 64-bit wrap-around of [totalBytesRead]. *)
Record Loop := mkLoop {
  totalBytesRead : Z;
  storedBytes : Z;
  available : bool;
  buffer : list Z;
  source : Src;
  dest : Dst;
  bytesReadExact : Z
}.

(** The first [if] of the loop body; the flag tells that the read failed
    and the loop is left. *)
Definition readStep (size' blockSize : Z) (st : Loop) : bool * Loop :=
  if (storedBytes st <? blockSize) && available st then
    let availableSize := wrap (StreamSizeT p) (blockSize - storedBytes st) in
    let bytesToRead :=
      if negb (size' =? 0)
      then wrap (StreamSizeT p)
             (Math.min (wrap OffsetT (size' - totalBytesRead st)) availableSize)
      else availableSize in
    let '(bytesRead, data, source') := read (source st) bytesToRead in
    if bytesRead <? 0 then
      (true, mkLoop (totalBytesRead st) (storedBytes st) (available st)
                    (buffer st) source' (dest st) (bytesReadExact st))
    else
      (false,
       mkLoop (wrap OffsetT (totalBytesRead st + bytesRead))
              (wrap (StreamSizeT p) (storedBytes st + bytesRead))
              (negb (bytesRead =? 0))
              (blit (buffer st) (storedBytes st) (take (Z.to_nat bytesRead) data))
              source' (dest st)
              (bytesReadExact st + bytesRead))
  else (false, st).

Fixpoint copyLoop (fuel : nat) (size' blockSize : Z) (st : Loop)
    : option (LoopExit * Loop) :=
  match fuel with
  | O => None
  | S fuel' =>
      let '(failed, st) := readStep size' blockSize st in
      if failed : bool then Some (ReadError, st)
      else if negb (storedBytes st =? 0) then
        let '(bytesWritten, dest') :=
          write (dest st) (take (Z.to_nat (storedBytes st)) (buffer st)) in
        if bytesWritten <=? 0 then
          Some (WriteError,
                mkLoop (totalBytesRead st) (storedBytes st) (available st)
                       (buffer st) (source st) dest' (bytesReadExact st))
        else
          let bytesRemaining :=
            Math.max (wrap (StreamSizeT p) (storedBytes st - bytesWritten)) 0 in
          let buffer' :=
            if negb (bytesRemaining =? 0)
            then blit (buffer st) 0
                   (take (Z.to_nat bytesRemaining)
                         (drop (Z.to_nat bytesWritten) (buffer st)))
            else buffer st in
          copyLoop fuel' size' blockSize
            (mkLoop (totalBytesRead st)
                    (wrap (StreamSizeT p) (storedBytes st - bytesWritten))
                    (available st) buffer' (source st) dest'
                    (bytesReadExact st))
      else Some (Finished, st)
  end.

(** What a call of [copy] leaves behind: the returned offset, the status
    byte and state of the destination, the state of the source, and, when
    the loop ran, how it was left and the exact count of bytes read. *)
Record Outcome := mkOutcome {
  result : Z;
  status : Z;
  destAfter : Dst;
  sourceAfter : Src;
  loopExit : option LoopExit;
  readExact : Z
}.

(** [pollute()] *)
Definition pollute (status' : Z) : Z := Z.lor status' Pollute.

(** [operator bool] *)
Definition operator_bool (status' : Z) : bool :=
  negb (negb (Z.land status' Pollute =? 0)).

(** [Offset copy(Stream& source, Offset size, Size blockSize)] called on
    the stream with status byte [_status] and state [this]; [malloc] is the
    block that [::malloc(blockSize)] returns, [None] for a null pointer. *)
Definition copy (fuel : nat) (malloc : Z -> option (list Z))
    (_status : Z) (this : Dst) (source' : Src) (size' blockSize : Z)
    : option Outcome :=
  let '(position', source') := position source' in
  let '(sourceSize, source') := size source' in
  let blockSize :=
    if (0 <=? position') && (0 <? sourceSize) then
      wrap (StreamSizeT p)
        (Math.max
           (Math.min (Math.min (wrap OffsetT (sourceSize - position')) blockSize)
                     (if 0 <? size' then size' else blockSize))
           0)
    else blockSize in
  let notStarted :=
    Some (mkOutcome Failure (pollute _status) this source' None 0) in
  if (0 <? blockSize) && (0 <=? size') then
    match malloc blockSize with
    | Some buffer' =>
        '(e, st) ← copyLoop fuel size' blockSize
                     (mkLoop 0 0 true buffer' source' this 0);
        let _status :=
          match e with Finished => _status | _ => pollute _status end in
        let _status :=
          if totalBytesRead st =? Failure then pollute _status else _status in
        Some (mkOutcome (totalBytesRead st) _status (dest st) (source st)
                        (Some e) (bytesReadExact st))
    | None => notStarted
    end
  else notStarted.

End Copy.

(** A stream that answers from a script: the results of its successive
    [read] and [write] calls, and what [position()] and [size()] report.
    An exhausted read script is the end of the stream; an exhausted write
    script fails. *)
Record Scripted := mkScripted {
  s_position : Z;
  s_size : Z;
  s_reads : list (Z * list Z);
  s_writes : list Z
}.

#[export] Instance Scripted_Ops : Ops Scripted := {
  read s _ :=
    match s_reads s with
    | [] => (0, [], s)
    | r :: rs => (fst r, snd r, mkScripted (s_position s) (s_size s) rs (s_writes s))
    end;
  write s _ :=
    match s_writes s with
    | [] => (Failure, s)
    | w :: ws => (w, mkScripted (s_position s) (s_size s) (s_reads s) ws)
    end;
  position s := (s_position s, s);
  size s := (s_size s, s)
}.

(** A stream that keeps a record of its own: the results its [read] and
    [write] calls returned, in the order of the calls.  The stream [inner]
    does the work. *)
Record Logged (S : Type) := mkLogged {
  inner : S;
  readResults : list Z;
  writeResults : list Z
}.
Arguments mkLogged {S}.
Arguments inner {S}.
Arguments readResults {S}.
Arguments writeResults {S}.

#[export] Instance Logged_Ops {S : Type} `{Ops S} : Ops (Logged S) := {
  read s n :=
    let '(r, data, s') := read (inner s) n in
    (r, data, mkLogged s' (readResults s ++ [r]) (writeResults s));
  write s bytes :=
    let '(w, s') := write (inner s) bytes in
    (w, mkLogged s' (readResults s) (writeResults s ++ [w]));
  position s :=
    let '(x, s') := position (inner s) in
    (x, mkLogged s' (readResults s) (writeResults s));
  size s :=
    let '(x, s') := size (inner s) in
    (x, mkLogged s' (readResults s) (writeResults s))
}.

End Stream.

(** ** TinyTRL_Streams.cpp: [BaseMemoryStream], [MemoryStream] *)

Module MemoryStream.
Import Stream.

Inductive SeekOrigin := Beginning | Current | End'.

Section MemoryStream.
Context (p : Platform).

(** [SIZE_MAX] *)
Definition SizeMax : Z := 2 ^ wordBits p - 1.

(** The data members: [_buffer] is the allocated block ([nullptr] is []),
    [_capacity], [_position] and [_size] are [size_t], [_status] the status
    byte of [Stream]. *)
Record t := mk {
  _buffer : list Z;
  _capacity : Z;
  _position : Z;
  _size : Z;
  _status : Z
}.

(** [MemoryStream(size_t capacity)] with [capacity] zero. *)
Definition empty : t := mk [] 0 0 0 0.

Definition position (s : t) : Z := wrap OffsetT (_position s).

Definition size (s : t) : Z := wrap OffsetT (_size s).

(** [BaseMemoryStream::seek] *)
Definition seek (offset : Z) (origin : SeekOrigin) (s : t) : Z * t :=
  let position' :=
    match origin with
    | Current =>
        if 0 <=? offset then wrap (SizeT p) (_position s + wrap (SizeT p) offset)
        else
          let displace := wrap (SizeT p) (wrap OffsetT (- offset)) in
          if _position s <? displace then 0
          else wrap (SizeT p) (_position s - displace)
    | End' =>
        if 0 <=? offset then wrap (SizeT p) (_size s + wrap (SizeT p) offset)
        else
          let displace := wrap (SizeT p) (wrap OffsetT (- offset)) in
          if _size s <? displace then 0
          else wrap (SizeT p) (_size s - displace)
    | Beginning => if 0 <=? offset then wrap (SizeT p) offset else 0
    end in
  (wrap OffsetT position',
   mk (_buffer s) (_capacity s) position' (_size s) (_status s)).

(** [MemoryStream::read], that is [readBytes(buffer, _buffer, size)]: the
    result, the bytes stored at [buffer], and the stream. *)
Definition read (size' : Z) (s : t) : Z * list Z * t :=
  if 0 <=? size' then
    if negb (size' =? 0) then
      let remainingBytes :=
        if _position s <=? _size s then wrap (SizeT p) (_size s - _position s)
        else 0 in
      let bytesRead := Math.min size' (wrap (StreamSizeT p) remainingBytes) in
      if negb (bytesRead =? 0) then
        (bytesRead,
         take (Z.to_nat bytesRead) (drop (Z.to_nat (_position s)) (_buffer s)),
         mk (_buffer s) (_capacity s)
            (wrap (SizeT p) (_position s + wrap (SizeT p) bytesRead))
            (_size s) (_status s))
      else (bytesRead, [], s)
    else (0, [], s)
  else (Failure, [], s).

(** [MemoryStream::reallocate]; [realloc] is the answer of [::realloc]:
    [None] for a null pointer, else the byte that the added part of the
    block happens to hold. *)
Definition reallocate (realloc : option Z) (capacity' : Z) (s : t) : bool * t :=
  match realloc with
  | Some fill =>
      (true,
       mk (take (Z.to_nat capacity') (_buffer s)
             ++ replicate (Z.to_nat capacity' - length (_buffer s)) fill)
          capacity' (_position s) (_size s) (_status s))
  | None =>
      if capacity' =? 0
      then (true, mk [] capacity' (_position s) (_size s) (_status s))
      else (false, s)
  end.

(** [MemoryStream::write(buffer, size)]; [buffer] holds the bytes at the
    pointer. *)
Definition write (realloc : option Z) (buffer : list Z) (size' : Z) (s : t)
    : option (Z * t) :=
  if 0 <=? size' then
    let size' :=
      wrap (StreamSizeT p)
        (Math.min (wrap (SizeT p) size') (wrap (SizeT p) (SizeMax - _position s))) in
    if negb (size' =? 0) then
      let tentativeSize := wrap (SizeT p) (_position s + wrap (SizeT p) size') in
      '(ok, s) ←
        (if tentativeSize <=? _capacity s then Some (true, s)
         else
           c ← Math.computeNextCapacity (SizeT p) tentativeSize (_capacity s) 0;
           Some (reallocate realloc c s));
      if ok : bool then
        let position' := wrap (SizeT p) (_position s + wrap (SizeT p) size') in
        Some (size',
              mk (blit (_buffer s) (_position s) (take (Z.to_nat size') buffer))
                 (_capacity s) position' (Math.max (_size s) position')
                 (_status s))
      else Some (Failure, s)
    else Some (0, s)
  else Some (Failure, s).

(** [MemoryStream::truncate] *)
Definition truncate (realloc : option Z) (s : t) : option (bool * t) :=
  if _position s <? _size s then
    Some (true, mk (_buffer s) (_capacity s) (_position s) (_position s) (_status s))
  else if _size s <? _position s then
    '(ok, s) ←
      (if _position s <=? _capacity s then Some (true, s)
       else
         c ← Math.computeNextCapacity (SizeT p) (_position s) (_capacity s) 0;
         Some (reallocate realloc c s));
    if ok : bool then
      Some (true, mk (_buffer s) (_capacity s) (_position s) (_position s) (_status s))
    else Some (false, s)
  else Some (true, s).

End MemoryStream.
End MemoryStream.

(** ** TinyTRL_Strings.h / .cpp: class [String]

    The object is the union of [uint8_t _bytes[ShortLength]] with the
    struct of three words [_chars], [_capacity], [_length]; the model keeps
    the bytes and reads the words out of them (little-endian target), and
    pairs them with [heap], the memory block that the pointer [_chars]
    designates (owned when the string is long, the caller's when it is
    wrapped, nothing of interest when it is short). *)

Module Str.

(** The block handed out by a successful [malloc]/[realloc]: its address,
    and the byte that its uninitialised part happens to hold. *)
Record Alloc := mkAlloc { addr : Z; fill : Z }.

Section Str.
Context (p : Platform).

Definition wordBytes : nat := match p with X64 => 8 | X32 => 4 end.

Definition MaxLength : Z := 2 ^ (wordBits p - 1) - 2.
Definition NotFound : Z := -1.
Definition ShortLength : Z := match p with X64 => 24 | X32 => 12 end.
Definition ShortCapacity : Z := ShortLength - 1.
Definition ShortLengthOffset : Z := ShortLength - 1.
Definition ShortLengthMask : Z := 63.
Definition ShortLongBit : Z := 128.
Definition ShortPolluteBit : Z := 64.
Definition LongLengthMask : Z := 2 ^ (wordBits p - 1) - 1.
Definition LongBit : Z := 2 ^ (wordBits p - 1).
Definition NullLength : Z := 1.

Record t := mk { _bytes : list Z; heap : list Z }.

(** [_bytes[i]] *)
Definition getByte (i : Z) (s : t) : Z := default 0 (_bytes s !! Z.to_nat i).

Definition setByte (i : Z) (b : Z) (s : t) : t :=
  mk (<[Z.to_nat i := b]> (_bytes s)) (heap s).

(** The [k]-th word of the struct. *)
Definition loadWord (k : nat) (s : t) : Z :=
  little_endian_to_Z 8 (take wordBytes (drop (k * wordBytes) (_bytes s))).

Definition storeWord (k : nat) (v : Z) (s : t) : t :=
  mk (take (k * wordBytes) (_bytes s)
        ++ Z_to_little_endian (Z.of_nat wordBytes) 8 v
        ++ drop ((k + 1) * wordBytes) (_bytes s))
     (heap s).

Definition set_chars (address : Z) (s : t) : t := storeWord 0 address s.
Definition endianCapacity (s : t) : Z := loadWord 1 s.
Definition set_endianCapacity (capacity' : Z) (s : t) : t := storeWord 1 capacity' s.
Definition endianLength (s : t) : Z := loadWord 2 s.
Definition set_endianLength (length' : Z) (s : t) : t := storeWord 2 length' s.

(** [String()] *)
Definition empty : t := mk (replicate (Z.to_nat ShortLength) 0) [].

Definition longBit (s : t) : bool :=
  negb (Z.land (getByte ShortLengthOffset s) ShortLongBit =? 0).

Definition wrappedBit (s : t) : bool :=
  Z.land (endianCapacity s) LongLengthMask =? 0.

Definition longLength (s : t) : Z :=
  wrap (LengthT p) (Z.land (endianLength s) LongLengthMask).

Definition shortLength (s : t) : Z :=
  Z.land (getByte ShortLengthOffset s) ShortLengthMask.

Definition length (s : t) : Z :=
  if longBit s then longLength s else shortLength s.

Definition operator_bool (s : t) : bool :=
  if longBit s then negb (negb (Z.land (endianCapacity s) LongBit =? 0))
  else negb (negb (Z.land (getByte ShortLengthOffset s) ShortPolluteBit =? 0)).

Definition capacity (s : t) : Z :=
  if longBit s then
    if negb (wrappedBit s)
    then wrap (LengthT p) (Z.land (endianCapacity s) LongLengthMask) - NullLength
    else 0
  else ShortCapacity - NullLength.

Definition wrapped (s : t) : bool := longBit s && wrappedBit s.

Definition pollute (s : t) : t :=
  if longBit s then set_endianCapacity (Z.lor (endianCapacity s) LongBit) s
  else setByte ShortLengthOffset
         (Z.lor (getByte ShortLengthOffset s) ShortPolluteBit) s.

(** [data() const]: the bytes at the returned pointer. *)
Definition data (s : t) : list Z := if longBit s then heap s else _bytes s.

(** The string as a reader of [data()] sees it: [length()] characters and
    the terminator. *)
Definition c_str (s : t) : list Z := take (Z.to_nat (length s + NullLength)) (data s).

(** A [memcpy]/[memmove] whose destination is [data() + at']. *)
Definition writeData (at' : Z) (src : list Z) (s : t) : t :=
  if longBit s then mk (_bytes s) (blit (heap s) at' src)
  else mk (blit (_bytes s) at' src) (heap s).

Definition writeLength (length' : Z) (s : t) : t :=
  if longBit s then
    let s := set_endianLength (Z.lor (wrap (SizeT p) length') LongBit) s in
    mk (_bytes s) (blit (heap s) length' [0])
  else
    let s := setByte ShortLengthOffset
               (Z.lor (length' mod 256)
                      (Z.land (getByte ShortLengthOffset s) ShortPolluteBit)) s in
    setByte length' 0 s.

(** The short-string length byte written by [shrink] and [reallocate]. *)
Definition shortTag (length' polluteBit : Z) : Z :=
  Z.lor (length' mod 256) (if negb (polluteBit =? 0) then ShortPolluteBit else 0).

Definition reallocate (alloc : option Alloc) (capacity' copyNullLength : Z) (s : t)
    : bool * t :=
  if longBit s then
    let polluteBit := Z.land (endianCapacity s) LongBit in
    if negb (wrappedBit s) then
      (* Change size of a long string. *)
      match alloc with
      | Some a =>
          let block :=
            take (Z.to_nat capacity') (heap s)
              ++ replicate (Z.to_nat capacity' - Datatypes.length (heap s)) (fill a) in
          let s := set_chars (addr a) (mk (_bytes s) block) in
          (true, set_endianCapacity (Z.lor (wrap (SizeT p) capacity') polluteBit) s)
      | None => (false, s)
      end
    else
      let length' := longLength s in
      if ShortCapacity <? capacity' then
        (* Convert wrapped to long string. *)
        match alloc with
        | Some a =>
            let block :=
              blit (replicate (Z.to_nat capacity') (fill a)) 0
                   (take (Z.to_nat (length' + copyNullLength)) (heap s)) in
            let s := set_chars (addr a) (mk (_bytes s) block) in
            (true, set_endianCapacity (Z.lor (wrap (SizeT p) capacity') polluteBit) s)
        | None => (false, s)
        end
      else
        (* Convert wrapped to short string. *)
        let s := mk (blit (_bytes s) 0
                          (take (Z.to_nat (length' + copyNullLength)) (heap s)))
                    (heap s) in
        (true, setByte ShortLengthOffset (shortTag length' polluteBit) s)
  else
    (* Convert from short to long string. *)
    match alloc with
    | Some a =>
        let polluteBit :=
          if negb (Z.land (getByte ShortLengthOffset s) ShortPolluteBit =? 0)
          then LongBit else 0 in
        let length' := shortLength s in
        let shortContent := take (Z.to_nat (length' + NullLength)) (_bytes s) in
        let s := set_chars (addr a)
                   (mk (_bytes s) (replicate (Z.to_nat capacity') (fill a))) in
        let s := set_endianCapacity (Z.lor (wrap (SizeT p) capacity') polluteBit) s in
        let s := set_endianLength (Z.lor length' LongBit) s in
        (true, mk (_bytes s) (blit (heap s) 0 shortContent))
    | None => (false, s)
    end.

Definition internalCapacity (alloc : option Alloc) (capacity' : Z) (s : t)
    : option (bool * t) :=
  let actualCapacity := capacity s in
  if actualCapacity <? capacity' then
    c ← Math.computeNextCapacity (LengthT p)
          (wrap (LengthT p) (capacity' + NullLength)) actualCapacity ShortCapacity;
    Some (reallocate alloc c 0 s)
  else Some (true, s).

(** [bool capacity(Length capacity)] *)
Definition capacity1 (alloc : option Alloc) (capacity' : Z) (s : t)
    : option (bool * t) :=
  if (0 <=? capacity') && (capacity' <=? MaxLength) then
    let actualCapacity := capacity s in
    if actualCapacity <? capacity' then
      c ← Math.computeNextCapacity (LengthT p)
            (wrap (LengthT p) (capacity' + NullLength)) actualCapacity ShortCapacity;
      Some (reallocate alloc c NullLength s)
    else Some (true, s)
  else Some (false, s).

(** [bool length(Length length)] *)
Definition length1 (alloc : option Alloc) (length' : Z) (s : t)
    : option (bool * t) :=
  if (0 <=? length') && (length' <=? MaxLength) then
    let currentLength := length s in
    if negb (currentLength =? length') then
      '(ok, s) ← internalCapacity alloc length' s;
      if ok : bool then Some (true, writeLength length' s) else Some (false, s)
    else Some (true, s)
  else Some (false, s).

(** [utility::calculateLength(string, length)] for a non-null pointer to
    the bytes [string], the byte behind the last of them being zero:
    [for (; *string && count < length; ++string) ++count;] *)
Fixpoint calculateLengthLoop (string : list Z) (count length' : Z) : Z :=
  match string with
  | [] => count
  | c :: string' =>
      if negb (c =? 0) && (count <? length')
      then calculateLengthLoop string' (wrap (LengthT p) (count + 1)) length'
      else count
  end.

Definition calculateLength (string : list Z) (length' : Z) : Z :=
  let length' := if length' <=? 0 then MaxLength else length' in
  calculateLengthLoop string 0 length'.

(** [String(char const* string)] for a non-null pointer to the bytes [cs],
    the byte behind the last of them being zero. *)
Definition fromCString (alloc : option Alloc) (cs : list Z) : option t :=
  let length' := wrap (SizeT p) (calculateLength cs 0) in
  if length' <=? wrap (SizeT p) MaxLength then
    '(ok, s) ← length1 alloc (wrap (LengthT p) length') empty;
    Some (if ok : bool
          then writeData 0 (take (Z.to_nat (length' + NullLength)) (cs ++ [0])) s
          else pollute s)
  else Some (pollute empty).

(** [String::Invalid()] *)
Definition Invalid : t := pollute empty.

(** [String::Wrap(string, length)] for a non-null pointer at [address] to
    the [length] characters [cs] followed by the terminator; [aligned]
    tells whether the address is a multiple of [alignof(String)]. *)
Definition Wrap (alloc : option Alloc) (address : Z) (aligned : bool)
    (cs : list Z) : option t :=
  let length' := Z.of_nat (Datatypes.length cs) in
  if (0 <=? length') && (length' <=? MaxLength) then
    if length' <=? ShortCapacity then
      Some (setByte ShortLengthOffset (length' mod 256)
              (mk (blit (_bytes empty) 0 cs) (heap empty)))
    else if negb aligned then
      '(ok, s) ← length1 alloc length' empty;
      Some (if ok : bool then mk (_bytes s) (blit (heap s) 0 (cs ++ [0]))
            else pollute s)
    else
      Some (set_endianLength (Z.lor (wrap (SizeT p) length') LongBit)
              (set_chars address (mk (_bytes empty) (cs ++ [0]))))
  else Some (pollute empty).

Definition unwrap (alloc : option Alloc) (s : t) : bool * t :=
  if negb (wrapped s) then (true, s)
  else reallocate alloc (longLength s + NullLength) NullLength s.

Definition shrink (alloc : option Alloc) (s : t) : bool * t :=
  if negb (wrapped s) then
    let length' := length s in
    if negb (length' =? 0) then
      if length' + NullLength <=? ShortCapacity then
        if longBit s then
          (* Convert from long to short string. *)
          let polluteBit := Z.land (endianCapacity s) LongBit in
          let s := mk (blit (_bytes s) 0
                            (take (Z.to_nat (length' + NullLength)) (heap s)))
                      (heap s) in
          (true, setByte ShortLengthOffset (shortTag length' polluteBit) s)
        else (true, s)
      else reallocate alloc (length' + NullLength) NullLength s
    else
      (* Release string contents. *)
      (true, empty)
  else (false, s).

(** [String& erase(Length position, Length length)] *)
Definition erase (alloc : option Alloc) (position length' : Z) (s : t) : t :=
  let length' := if length' =? NotFound then length s else length' in
  let length' := Math.max length' 0 in
  if negb (length' =? 0) then
    let currentLength := length s in
    let length' := if position <? 0 then wrap (LengthT p) (length' + position) else length' in
    let position := if position <? 0 then 0 else position in
    let clip := currentLength <? wrap (LengthT p) (position + length') in
    let length'' := if clip then Math.max (currentLength - position) 0 else length' in
    let position := if clip then Math.min position currentLength else position in
    if negb (length'' =? 0) then
      let '(ok, s) := unwrap alloc s in
      if negb ok then pollute s
      else
        let moveLength := currentLength - (position + length'') in
        let s := if negb (moveLength =? 0)
                 then writeData position
                        (take (Z.to_nat moveLength)
                              (drop (Z.to_nat (position + length'')) (data s))) s
                 else s in
        writeLength (currentLength - length'') s
    else s
  else s.

(** [internalAppend(String const& suffix)], [internalPrepend(String const&
    prefix)]: the operand is an object other than the receiver [s], so the
    reallocation of [s] leaves [data suffix] as it was. *)
Definition internalAppend (alloc : option Alloc) (suffix : t) (s : t)
    : option (bool * t) :=
  let length' := length s in
  let suffixLength := length suffix in
  let overflow := MaxLength - suffixLength <? length' in
  let destLength := if overflow then MaxLength else length' + suffixLength in
  let suffixLength := if overflow then MaxLength - length' else suffixLength in
  let complete := negb overflow in
  if negb (suffixLength =? 0) then
    '(ok, s) ← internalCapacity alloc destLength s;
    if ok : bool then
      let s := writeData length' (take (Z.to_nat suffixLength) (data suffix)) s in
      Some (complete, writeLength destLength s)
    else Some (false, s)
  else Some (complete, s).

Definition internalPrepend (alloc : option Alloc) (prefix : t) (s : t)
    : option (bool * t) :=
  let prefixLength := length prefix in
  if negb (prefixLength =? 0) then
    let length' := length s in
    let overflow := MaxLength - prefixLength <? length' in
    let destLength := if overflow then MaxLength else length' + prefixLength in
    let length' := if overflow then MaxLength - prefixLength else length' in
    let complete := negb overflow in
    '(ok, s) ← internalCapacity alloc destLength s;
    if ok : bool then
      let s := if negb (length' =? 0)
               then writeData prefixLength (take (Z.to_nat length') (data s)) s
               else s in
      let s := writeData 0 (take (Z.to_nat prefixLength) (data prefix)) s in
      Some (complete, writeLength destLength s)
    else Some (false, s)
  else Some (true, s).

(** [internalConcatenate(String const& prefix, String const& suffix)] *)
Definition internalConcatenate (alloc : option Alloc) (prefix suffix : t) (s : t)
    : option (bool * t) :=
  let prefixLength := length prefix in
  let suffixLength := length suffix in
  let overflow := MaxLength - prefixLength <? suffixLength in
  let destLength := if overflow then MaxLength else prefixLength + suffixLength in
  let suffixLength := if overflow then MaxLength - prefixLength else suffixLength in
  let complete := negb overflow in
  '(ok, s) ← internalCapacity alloc destLength s;
  if ok : bool then
    let s := if negb (prefixLength =? 0)
             then writeData 0 (take (Z.to_nat prefixLength) (data prefix)) s
             else s in
    let s := if negb (suffixLength =? 0)
             then writeData prefixLength (take (Z.to_nat suffixLength) (data suffix)) s
             else s in
    Some (complete, writeLength destLength s)
  else Some (false, s).

(** [String& append(String const& suffix)] *)
Definition append (alloc : option Alloc) (suffix : t) (s : t) : option t :=
  '(ok, s) ← internalAppend alloc suffix s;
  Some (if negb ok || negb (operator_bool suffix) then pollute s else s).

(** [String& prepend(String const& prefix)] *)
Definition prepend (alloc : option Alloc) (prefix : t) (s : t) : option t :=
  '(ok, s) ← internalPrepend alloc prefix s;
  Some (if negb ok then pollute s else s).

(** [String& concatenate(String const& prefix, String const& suffix)] *)
Definition concatenate (alloc : option Alloc) (prefix suffix : t) (s : t) : option t :=
  '(ok, s) ← internalConcatenate alloc prefix suffix s;
  Some (if negb ok || negb (operator_bool prefix) || negb (operator_bool suffix)
        then pollute s else s).

(** [String operator + (String const& prefix, String const& suffix)] *)
Definition plus (alloc : option Alloc) (prefix suffix : t) : option t :=
  '(ok, res) ← internalConcatenate alloc prefix suffix empty;
  Some (if negb ok || negb (operator_bool prefix) || negb (operator_bool suffix)
        then pollute res else res).

(** *** Namespace [utility] *)

(** [upperCase(unsigned char)], [lowerCase(unsigned char)] *)
Definition upperCase (charCode : Z) : Z :=
  if (97 <=? charCode) && (charCode <=? 122)
  then wrap (Unsigned 8) (charCode - 32) else charCode.

Definition lowerCase (charCode : Z) : Z :=
  if (65 <=? charCode) && (charCode <=? 90)
  then wrap (Unsigned 8) (charCode + 32) else charCode.

(** [pointer[i]]; a byte outside the modelled buffer reads as 0. *)
Definition byteAt (pointer : list Z) (i : Z) : Z :=
  default 0 (pointer !! Z.to_nat i).

(** [::memcmp(left, right, count)]: zero when the first [count] bytes
    agree.  The C library fixes only the sign of a non-zero result, that of
    the difference of the first two bytes that differ; the model answers
    -1 or 1. *)
Fixpoint memcmp (left right : list Z) (count : nat) : Z :=
  match count with
  | O => 0
  | S count' =>
      let x := byteAt left 0 in
      let y := byteAt right 0 in
      if x =? y then memcmp (tail left) (tail right) count'
      else if x <? y then -1 else 1
  end.

(** [compareStr(String const& left, String const& right, Length length)] *)
Definition compareStr (left right : t) (length' : Z) : Z :=
  let lengthLeft := length left in
  let lengthRight := length right in
  let lengthLeft := if 0 <? length' then Math.min lengthLeft length' else lengthLeft in
  let lengthRight := if 0 <? length' then Math.min lengthRight length' else lengthRight in
  let comparison :=
    if (0 <? lengthLeft) && (0 <? lengthRight)
    then memcmp (data left) (data right) (Z.to_nat (Math.min lengthLeft lengthRight))
    else 0 in
  if comparison =? 0 then wrap (LengthT p) (lengthLeft - lengthRight) else comparison.

(** [sameStr(String const&, String const&, Length)] and the global
    operators [==] and [<]. *)
Definition sameStr (left right : t) (length' : Z) : bool :=
  compareStr left right length' =? 0.

Definition operator_eq (left right : t) : bool := compareStr left right 0 =? 0.

Definition operator_lt (left right : t) : bool := compareStr left right 0 <? 0.

(** The adjustment of [position] and [length] at the head of [findStr],
    [findStrLast], [findChar] and [findCharLast]. *)
Definition clipWindow (stringLength position length' : Z) : Z * Z :=
  let length' := if length' =? 0 then stringLength else length' in
  let length' :=
    if position <? 0 then wrap (LengthT p) (length' + position) else length' in
  let position := if position <? 0 then 0 else position in
  if stringLength <? wrap (LengthT p) (position + length') then
    (Math.min position stringLength,
     Math.max (wrap (LengthT p) (stringLength - position)) 0)
  else (position, length').

(** [for (Length i = from; ...; ++i) if (test(i)) return i;] over [count]
    values of [i], followed by [return String::NotFound]. *)
Fixpoint findLoop (test : Z -> bool) (count : nat) (i : Z) : Z :=
  match count with
  | O => NotFound
  | S count' => if test i then i else findLoop test count' (i + 1)
  end.

(** [findStr(String const& string, String const& match, Length position,
    Length length)] *)
Definition findStr (string match' : t) (position length' : Z) : Z :=
  let stringLength := length string in
  let '(position, length') := clipWindow stringLength position length' in
  if negb (length' =? 0) then
    let matchLength := length match' in
    if negb (matchLength =? 0) then
      let matchMaxLength :=
        wrap (LengthT p)
          (Math.min (wrap (LengthT p) (position + length')) stringLength
           - matchLength) in
      let matchData := data match' in
      let stringData := data string in
      findLoop
        (fun i => memcmp matchData (drop (Z.to_nat i) stringData)
                         (Z.to_nat matchLength) =? 0)
        (Z.to_nat (matchMaxLength - position + 1)) position
    else NotFound
  else NotFound.

Definition containsStr (string match' : t) (position length' : Z) : bool :=
  negb (findStr string match' position length' =? NotFound).

(** [findChar(String const& string, char charCode, Length position,
    Length length)]; [charCode] is the byte of the character. *)
Definition findChar (string : t) (charCode : Z) (position length' : Z) : Z :=
  let stringLength := length string in
  let '(position, length') := clipWindow stringLength position length' in
  if negb (length' =? 0) then
    let data' := drop (Z.to_nat position) (data string) in
    let i := findLoop (fun i => byteAt data' i =? charCode) (Z.to_nat length') 0 in
    if i =? NotFound then NotFound else wrap (LengthT p) (position + i)
  else NotFound.

(** [findCharLast]: the loop runs to its end and keeps the last hit. *)
Definition findCharLast (string : t) (charCode : Z) (position length' : Z) : Z :=
  let stringLength := length string in
  let '(position, length') := clipWindow stringLength position length' in
  if negb (length' =? 0) then
    let data' := drop (Z.to_nat position) (data string) in
    forUp 0 length'
      (fun i index =>
         if byteAt data' i =? charCode then wrap (LengthT p) (position + i)
         else index)
      NotFound
  else NotFound.

(** [startsWith(String const& string, String const& match, Length position)] *)
Definition startsWith (string match' : t) (position : Z) : bool :=
  let position := Math.max position 0 in
  let matchLength := length match' in
  if negb (matchLength =? 0)
     && (matchLength <=? wrap (LengthT p) (length string - position))
  then memcmp (drop (Z.to_nat position) (data string)) (data match')
              (Z.to_nat matchLength) =? 0
  else false.

(** [startsWithText]: the loop reads [stringContents[i]], whatever
    [position] is. *)
Definition startsWithText (string match' : t) (position : Z) : bool :=
  let position := Math.max position 0 in
  let matchLength := length match' in
  if negb (matchLength =? 0)
     && (matchLength <=? wrap (LengthT p) (length string - position))
  then
    let stringContents := data string in
    let matchContents := data match' in
    forallb
      (fun i =>
         let codeString := byteAt stringContents i in
         let codeMatch := byteAt matchContents i in
         (codeString =? codeMatch)
         || (upperCase codeString =? upperCase codeMatch))
      (seqZ 0 matchLength)
  else false.

(** [endsWith(String const& string, String const& match)] *)
Definition endsWith (string match' : t) : bool :=
  if negb (length string =? 0) && negb (length match' =? 0)
     && (length match' <=? length string)
  then
    let matchLength := length match' in
    memcmp (drop (Z.to_nat (wrap (LengthT p) (length string - matchLength)))
                 (data string))
           (data match') (Z.to_nat matchLength) =? 0
  else false.

End Str.
End Str.

(* ================================================================== *)
(** * Part II: properties                                              *)
(* ================================================================== *)

(** ** Integer types *)

Lemma wrap_inRange (t : IntType) (x : Z) : inRange t x -> wrap t x = x.
Proof.
  destruct t as [w|w]; simpl; intros H.
  - destruct (Z_lt_le_dec w 1) as [Hw|Hw].
    + assert (2 ^ (w - 1) = if w =? 0 then 0 else if w <? 0 then 0 else 1) as E.
      { destruct (Z.eqb_spec w 0) as [->|]; [reflexivity|].
        destruct (Z.ltb_spec w 0); [apply Z.pow_neg_r; lia|lia]. }
      destruct (Z.eqb_spec w 0); [lia|].
      destruct (Z.ltb_spec w 0); [lia|lia].
    + replace (2 ^ w) with (2 * 2 ^ (w - 1)).
      * rewrite Z.mod_small; lia.
      * rewrite <- Z.pow_succ_r by lia. f_equal. lia.
  - apply Z.mod_small. exact H.
Qed.

Lemma inRange_pred (t : IntType) (x : Z) :
  inRange t x -> 1 <= x -> inRange t (x - 1).
Proof. destruct t; simpl; lia. Qed.

Lemma wrap_pred (t : IntType) (x : Z) :
  inRange t x -> 1 <= x -> wrap t (x - 1) = x - 1.
Proof. intros. apply wrap_inRange, inRange_pred; assumption. Qed.

(** ** Bit-level facts used by the power-of-two functions *)

Lemma land_le_l (a b : Z) : 0 <= a -> Z.land a b <= a.
Proof.
  intros Ha.
  assert (Z.ldiff a b + Z.land a b = a) as E.
  { rewrite Z.add_nocarry_lor.
    - apply Z.lor_ldiff_and.
    - rewrite (Z.land_comm a b), Z.land_assoc. rewrite Z.land_ldiff.
      apply Z.land_0_l. }
  assert (0 <= Z.ldiff a b) by (apply Z.ldiff_nonneg; lia).
  lia.
Qed.

Lemma land_le_r (a b : Z) : 0 <= b -> Z.land a b <= b.
Proof. rewrite Z.land_comm. apply land_le_l. Qed.

Lemma testbit_true_ge (a k : Z) :
  0 <= a -> 0 <= k -> Z.testbit a k = true -> 2 ^ k <= a.
Proof.
  intros Ha Hk Hb.
  destruct (Z.eq_dec a 0) as [->|Hne]; [rewrite Z.bits_0 in Hb; discriminate|].
  apply Z.log2_le_pow2; [lia|].
  destruct (Z_lt_le_dec (Z.log2 a) k) as [Hlt|]; [|assumption].
  rewrite Z.bits_above_log2 in Hb by lia. discriminate.
Qed.

(** A positive number that is not [2 ^ log2] shares its top bit with its
    predecessor. *)
Lemma land_pred_top (x : Z) :
  0 < x -> x <> 2 ^ Z.log2 x -> 2 ^ Z.log2 x <= Z.land x (x - 1).
Proof.
  intros Hx Hne.
  pose proof (Z.log2_spec x Hx) as [Hlo Hhi].
  pose proof (Z.log2_nonneg x) as Hk.
  apply testbit_true_ge; [apply Z.land_nonneg; lia|assumption|].
  rewrite Z.land_spec, Z.bit_log2 by assumption. simpl.
  assert (Z.log2 (x - 1) = Z.log2 x) as E.
  { apply Z.log2_unique; [assumption|]. lia. }
  rewrite <- E. apply Z.bit_log2. lia.
Qed.

Lemma land_pow2_pred (k : Z) : 0 <= k -> Z.land (2 ^ k) (2 ^ k - 1) = 0.
Proof.
  intros Hk. replace (2 ^ k - 1) with (Z.ones k).
  - rewrite Z.land_ones by assumption. apply Z.mod_same. lia.
  - rewrite Z.ones_equiv. lia.
Qed.

Lemma lor_lt_pow2 (n a b : Z) :
  0 <= a < 2 ^ n -> 0 <= b < 2 ^ n -> Z.lor a b < 2 ^ n.
Proof.
  intros Ha Hb.
  assert (0 <= Z.lor a b) by (apply Z.lor_nonneg; lia).
  destruct (Z.eq_dec (Z.lor a b) 0) as [->|Hne]; [lia|].
  destruct (Z.eq_dec a 0) as [->|Ha0]; [rewrite Z.lor_0_l; lia|].
  destruct (Z.eq_dec b 0) as [->|Hb0]; [rewrite Z.lor_0_r; lia|].
  apply Z.log2_lt_pow2; [lia|].
  rewrite Z.log2_lor by lia.
  apply Z.max_lub_lt; apply Z.log2_lt_pow2; lia.
Qed.

Lemma land_neg_lower (n x y : Z) :
  0 <= n -> - 2 ^ n <= x < 0 -> - 2 ^ n <= y < 0 -> - 2 ^ n <= Z.land x y < 0.
Proof.
  intros Hn Hx Hy. split; [|apply Z.land_neg; lia].
  assert (Z.land x y = Z.lnot (Z.lor (Z.lnot x) (Z.lnot y))) as E
    by (rewrite <- Z.lnot_land, Z.lnot_involutive; reflexivity).
  rewrite E. rewrite (Z.lnot_eq_pred_opp (Z.lor _ _)).
  pose proof (lor_lt_pow2 n (Z.lnot x) (Z.lnot y)) as H.
  rewrite !Z.lnot_eq_pred_opp in *. lia.
Qed.

(** Clearing the lowest set bit of a multiple of [2 ^ k] gives a multiple
    of [2 ^ (k + 1)]. *)
Lemma land_pred_div (x k : Z) :
  0 < x -> 0 <= k -> x mod 2 ^ k = 0 -> Z.land x (x - 1) mod 2 ^ (k + 1) = 0.
Proof.
  intros Hx Hk Hdiv.
  apply Z.bits_inj'. intros j Hj. rewrite Z.bits_0.
  destruct (Z_lt_le_dec j (k + 1)) as [Hlt|Hge];
    [|apply Z.mod_pow2_bits_high; lia].
  rewrite Z.mod_pow2_bits_low by lia. rewrite Z.land_spec.
  destruct (Z_lt_le_dec j k) as [Hjk|Hjk].
  - rewrite <- (Z.mod_pow2_bits_low x k j) by lia.
    rewrite Hdiv, Z.bits_0. reflexivity.
  - assert (j = k) as -> by lia.
    destruct (Z.testbit x k) eqn:Hb; [|reflexivity]. simpl.
    assert (0 < 2 ^ k) as Hp by (apply Z.pow_pos_nonneg; lia).
    pose proof (Z.div_mod x (2 ^ k) ltac:(lia)) as Ex. rewrite Hdiv in Ex.
    set (q := x / 2 ^ k) in *.
    assert (Z.odd q = true) as Hq.
    { rewrite <- Z.bit0_odd. unfold q. rewrite Z.div_pow2_bits by lia.
      exact Hb. }
    assert ((x - 1) / 2 ^ k = q - 1) as Ediv.
    { symmetry. apply (Z.div_unique_pos _ _ _ (2 ^ k - 1)); lia. }
    replace k with (0 + k) at 1 by lia.
    rewrite <- Z.div_pow2_bits by lia. rewrite Ediv, Z.bit0_odd.
    replace (q - 1) with (Z.pred q) by lia. rewrite Z.odd_pred.
    rewrite <- Z.negb_odd, Hq. reflexivity.
Qed.

Module MathFacts.
Import Math.

Lemma isPowerOfTwo_true (t : IntType) (x : Z) :
  inRange t x -> isPowerOfTwo t x = true -> 0 < x /\ x = 2 ^ Z.log2 x.
Proof.
  unfold isPowerOfTwo. intros Hr H.
  apply andb_true_iff in H as [H1 H2].
  apply Z.leb_le in H1. apply Z.eqb_eq in H2.
  rewrite wrap_pred in H2 by (assumption || lia).
  split; [lia|].
  destruct (Z.eq_dec x (2 ^ Z.log2 x)) as [|Hne]; [assumption|].
  pose proof (land_pred_top x ltac:(lia) Hne).
  assert (0 < 2 ^ Z.log2 x) by (apply Z.pow_pos_nonneg; [lia|apply Z.log2_nonneg]).
  lia.
Qed.

Lemma isPowerOfTwo_pow2 (t : IntType) (k : Z) :
  0 <= k -> inRange t (2 ^ k) -> isPowerOfTwo t (2 ^ k) = true.
Proof.
  intros Hk Hr. unfold isPowerOfTwo.
  assert (0 < 2 ^ k) by (apply Z.pow_pos_nonneg; lia).
  rewrite wrap_pred by (assumption || lia).
  rewrite land_pow2_pred by assumption.
  apply andb_true_iff. split; [apply Z.leb_le; lia|reflexivity].
Qed.

Lemma isPowerOfTwo_nonpos (t : IntType) (x : Z) :
  x <= 0 -> isPowerOfTwo t x = false.
Proof.
  intros H. unfold isPowerOfTwo.
  destruct (Z.leb_spec 1 x); [lia|reflexivity].
Qed.

(** One iteration of the loop on a positive operand that is not a power of
    two: the operand decreases, stays positive and keeps its top bit. *)
Lemma clear_step (t : IntType) (x : Z) :
  inRange t x -> 0 < x -> isPowerOfTwo t x = false ->
  let x' := Z.land x (wrap t (x - 1)) in
  0 < x' < x /\ Z.log2 x' = Z.log2 x /\ inRange t x'.
Proof.
  intros Hr Hx Hp. rewrite wrap_pred by (assumption || lia). simpl.
  assert (x <> 2 ^ Z.log2 x) as Hne.
  { intros E. rewrite E in Hp. rewrite isPowerOfTwo_pow2 in Hp.
    - discriminate.
    - apply Z.log2_nonneg.
    - rewrite <- E. assumption. }
  pose proof (land_pred_top x Hx Hne) as Hlo.
  pose proof (land_le_r x (x - 1) ltac:(lia)) as Hhi.
  assert (0 < 2 ^ Z.log2 x) by (apply Z.pow_pos_nonneg; [lia|apply Z.log2_nonneg]).
  pose proof (Z.log2_spec x Hx) as [_ Hup].
  repeat split; try lia.
  - apply Z.log2_unique; [apply Z.log2_nonneg|]. lia.
  - destruct t; simpl in *; lia.
Qed.

(** The loop exits for every positive operand within [loopFuel] iterations,
    and more fuel does not change the answer. *)
Lemma clearLowest_enough_gen (t : IntType) (n : nat) (x k : Z) :
  inRange t x -> 0 < x -> 0 <= k -> x mod 2 ^ k = 0 ->
  Z.log2 x < k + Z.of_nat n ->
  clearLowest t n x = Some (2 ^ Z.log2 x).
Proof.
  revert x k. induction n as [|n IH]; intros x k Hr Hx Hk Hdiv Hlog.
  - exfalso.
    assert (2 ^ k <= x).
    { apply Z.mod_divide in Hdiv; [|lia]. apply Z.divide_pos_le; [lia|assumption]. }
    assert (k <= Z.log2 x) by (apply Z.log2_le_pow2; lia). lia.
  - simpl. destruct (isPowerOfTwo t x) eqn:Hp.
    + apply isPowerOfTwo_true in Hp as [_ E]; [|assumption]. congruence.
    + pose proof (clear_step t x Hr Hx Hp) as (Hlt & Hlg & Hr').
      simpl in Hlt, Hlg, Hr'.
      rewrite (IH _ (k + 1)); [rewrite Hlg; reflexivity|assumption|lia|lia| |lia].
      rewrite wrap_pred by (assumption || lia).
      apply land_pred_div; assumption.
Qed.

Lemma clearLowest_enough (t : IntType) (n : nat) (x : Z) :
  inRange t x -> 0 < x -> (loopFuel x <= n)%nat ->
  clearLowest t n x = Some (2 ^ Z.log2 x).
Proof.
  unfold loopFuel. intros Hr Hx Hn.
  apply (clearLowest_enough_gen t n x 0); [assumption|assumption|lia| |].
  - apply Z.mod_1_r.
  - pose proof (Z.log2_nonneg x). lia.
Qed.

(** The loop never exits on an operand that is zero or negative, whatever
    the fuel. *)
Lemma clear_step_nonpos (t : IntType) (x : Z) :
  inRange t x -> x <= 0 ->
  let x' := Z.land x (wrap t (x - 1)) in inRange t x' /\ x' <= 0.
Proof.
  intros Hr Hx. simpl.
  destruct (Z.eq_dec x 0) as [->|Hne]; [rewrite Z.land_0_l; auto|].
  destruct t as [w|w]; simpl in *; [|lia].
  assert (0 < 2 ^ (w - 1)) as Hpos by lia.
  assert (0 < w) as Hw.
  { destruct (Z_lt_le_dec 0 w); [assumption|].
    rewrite Z.pow_neg_r in Hpos by lia. lia. }
  assert (2 ^ w = 2 * 2 ^ (w - 1)) as Ew
    by (rewrite <- Z.pow_succ_r by lia; f_equal; lia).
  destruct (Z.eq_dec x (- 2 ^ (w - 1))) as [->|Hmin].
  - replace ((- 2 ^ (w - 1) - 1 + 2 ^ (w - 1)) mod 2 ^ w - 2 ^ (w - 1))
      with (Z.ones (w - 1)).
    + rewrite Z.land_ones by lia.
      rewrite Z.mod_opp_l_z by (try apply Z.mod_same; lia). lia.
    + replace (- 2 ^ (w - 1) - 1 + 2 ^ (w - 1)) with (-1) by lia.
      rewrite Z.ones_equiv, Ew.
      replace (-1) with (2 * 2 ^ (w - 1) - 1 + (-1) * (2 * 2 ^ (w - 1))) by lia.
      rewrite Z.mod_add by lia. rewrite Z.mod_small by lia. lia.
  - assert (wrap (Signed w) (x - 1) = x - 1) as E
      by (apply wrap_inRange; simpl; lia).
    simpl in E. rewrite E.
    pose proof (land_neg_lower (w - 1) x (x - 1) ltac:(lia) ltac:(lia) ltac:(lia)).
    lia.
Qed.

Lemma clearLowest_stuck (t : IntType) (n : nat) (x : Z) :
  inRange t x -> x <= 0 -> clearLowest t n x = None.
Proof.
  revert x. induction n as [|n IH]; intros x Hr Hx; [reflexivity|].
  simpl. rewrite isPowerOfTwo_nonpos by assumption.
  pose proof (clear_step_nonpos t x Hr Hx) as [Hr' Hx'].
  apply IH; assumption.
Qed.

Lemma floorPowerOfTwo_some (t : IntType) (v : Z) :
  inRange t v ->
  floorPowerOfTwo t v = Some (if 2 <? v then 2 ^ Z.log2 v else v).
Proof.
  intros Hr. unfold floorPowerOfTwo.
  destruct (Z.ltb_spec 2 v); [|reflexivity].
  apply clearLowest_enough; [assumption|lia|lia].
Qed.

Lemma ceilPowerOfTwo_some (t : IntType) (v : Z) :
  inRange t v -> inRange t (2 * v) ->
  ceilPowerOfTwo t v =
    Some (if (2 <? v) && negb (isPowerOfTwo t v) then 2 ^ (Z.log2 v + 1) else v).
Proof.
  intros Hr Hr2. unfold ceilPowerOfTwo.
  destruct ((2 <? v) && negb (isPowerOfTwo t v)) eqn:Hc; [|reflexivity].
  apply andb_true_iff in Hc as [Hv _]. apply Z.ltb_lt in Hv.
  rewrite Z.shiftl_mul_pow2 by lia. change (2 ^ 1) with 2.
  rewrite (Z.mul_comm v 2), wrap_inRange by assumption.
  rewrite clearLowest_enough; [|assumption|lia|lia].
  f_equal. f_equal.
  replace (2 * v) with (v * 2 ^ 1) by (change (2 ^ 1) with 2; lia).
  rewrite Z.log2_mul_pow2 by lia. lia.
Qed.

(** [ceilPowerOfTwo] brackets its argument when twice the argument fits. *)
Lemma ceilPowerOfTwo_bounds (t : IntType) (v r : Z) :
  inRange t v -> inRange t (2 * v) ->
  ceilPowerOfTwo t v = Some r -> v <= r /\ (0 <= v -> r <= 2 * v).
Proof.
  intros Hr Hr2. rewrite ceilPowerOfTwo_some by assumption.
  intros [= <-].
  destruct ((2 <? v) && negb (isPowerOfTwo t v)) eqn:Hc; [|lia].
  apply andb_true_iff in Hc as [Hv _]. apply Z.ltb_lt in Hv.
  pose proof (Z.log2_spec v ltac:(lia)) as [Hlo Hhi].
  rewrite Z.pow_succ_r in Hhi by apply Z.log2_nonneg.
  rewrite Z.pow_add_r by (try apply Z.log2_nonneg; lia).
  change (2 ^ 1) with 2. lia.
Qed.

Lemma pow2_split (w : Z) : 3 <= w ->
  2 ^ w = 2 * 2 ^ (w - 1) /\ 2 ^ (w - 1) = 2 * 2 ^ (w - 2) /\
  2 ^ (w - 2) = 2 * 2 ^ (w - 3) /\ 0 < 2 ^ (w - 3).
Proof.
  intros Hw. repeat split.
  - rewrite <- Z.pow_succ_r by lia. f_equal. lia.
  - rewrite <- Z.pow_succ_r by lia. f_equal. lia.
  - rewrite <- Z.pow_succ_r by lia. f_equal. lia.
  - apply Z.pow_pos_nonneg; lia.
Qed.

(** The one-argument variant returns, and returns a strictly bigger
    capacity, for every argument up to a quarter of the type's span. *)
Lemma computeNextCapacity1_grows (w c : Z) :
  6 <= w -> - 2 ^ (w - 1) <= c <= 2 ^ (w - 2) ->
  exists r, computeNextCapacity1 (Signed w) c = Some r /\ c < r < 2 ^ (w - 1).
Proof.
  intros Hw Hc. set (t := Signed w).
  pose proof (pow2_split w ltac:(lia)) as (E1 & E2 & E3 & Hp).
  assert (16 <= 2 ^ (w - 2)) as H16.
  { change 16 with (2 ^ 4). apply Z.pow_le_mono_r; lia. }
  assert (inRange t c) as Hrc by (simpl; lia).
  unfold computeNextCapacity1.
  destruct ((c <? 16) || negb (isPowerOfTwo t c)) eqn:Hbr.
  - assert (c < 2 ^ (w - 2)) as Hlt.
    { destruct (Z.eq_dec c (2 ^ (w - 2))) as [->|]; [|lia]. exfalso.
      apply orb_true_iff in Hbr as [Hb|Hb].
      - apply Z.ltb_lt in Hb. lia.
      - rewrite isPowerOfTwo_pow2 in Hb by (simpl; lia). discriminate. }
    assert (inRange t (c + 1)) as Hr1 by (simpl; lia).
    rewrite (wrap_inRange t (c + 1)) by assumption.
    destruct (ceilPowerOfTwo t (c + 1)) as [n|] eqn:Hn.
    + assert (c + 1 <= n /\ n <= 2 ^ (w - 2)) as [Hn1 Hn2].
      { unfold ceilPowerOfTwo in Hn.
        destruct ((2 <? c + 1) && negb (isPowerOfTwo t (c + 1))) eqn:Hcc.
        - apply andb_true_iff in Hcc as [Hv Hnp]. apply Z.ltb_lt in Hv.
          rewrite Z.shiftl_mul_pow2 in Hn by lia. change (2 ^ 1) with 2 in Hn.
          assert (c + 1 <> 2 ^ (w - 2)) as Hne.
          { intros E. rewrite E, isPowerOfTwo_pow2 in Hnp by (simpl; lia).
            discriminate. }
          rewrite wrap_inRange in Hn by (simpl; lia).
          rewrite clearLowest_enough in Hn by (simpl; lia).
          injection Hn as <-.
          replace ((c + 1) * 2) with ((c + 1) * 2 ^ 1) by (change (2 ^ 1) with 2; lia).
          rewrite Z.log2_mul_pow2 by lia.
          pose proof (Z.log2_spec (c + 1) ltac:(lia)) as [Hlo Hhi].
          rewrite Z.pow_succ_r in Hhi by apply Z.log2_nonneg.
          rewrite Z.pow_add_r by (try apply Z.log2_nonneg; lia).
          change (2 ^ 1) with 2. split; [lia|].
          assert (Z.log2 (c + 1) < w - 2) as Hlg
            by (apply Z.log2_lt_pow2; lia).
          assert (2 ^ (Z.log2 (c + 1) + 1) <= 2 ^ (w - 2))
            by (apply Z.pow_le_mono_r; lia).
          rewrite Z.pow_add_r in H by (try apply Z.log2_nonneg; lia).
          change (2 ^ 1) with 2 in H. lia.
        - injection Hn as <-. lia. }
      cbn -[wrap Z.quot].
      destruct (Z.ltb_spec (wrap t (n - c)) (c ÷ 3)) as [Hcmp|Hcmp].
      * assert (0 < c) as Hc0.
        { destruct (Z_lt_le_dec 0 c); [assumption|]. exfalso.
          assert (n = c + 1) as ->.
          { unfold ceilPowerOfTwo in Hn.
            destruct (Z.ltb_spec 2 (c + 1)); [lia|]. simpl in Hn. congruence. }
          rewrite wrap_inRange in Hcmp by (simpl; lia).
          pose proof (Z.quot_opp_l c 3 ltac:(lia)) as Hq.
          assert (0 <= (- c) ÷ 3) by (apply Z.quot_pos; lia).
          lia. }
        assert (0 <= n ÷ 2 < n).
        { rewrite Z.quot_div_nonneg by lia. split.
          - apply Z.div_pos; lia.
          - apply Z.div_lt; lia. }
        eexists. split; [reflexivity|].
        rewrite wrap_inRange by (simpl; lia). lia.
      * eexists. split; [reflexivity|]. lia.
    + exfalso. unfold ceilPowerOfTwo in Hn.
      destruct ((2 <? c + 1) && negb (isPowerOfTwo t (c + 1))) eqn:Hcc;
        [|discriminate].
      apply andb_true_iff in Hcc as [Hv Hnp]. apply Z.ltb_lt in Hv.
      rewrite Z.shiftl_mul_pow2 in Hn by lia. change (2 ^ 1) with 2 in Hn.
      assert (c + 1 <> 2 ^ (w - 2)) as Hne.
      { intros E. rewrite E, isPowerOfTwo_pow2 in Hnp by (simpl; lia).
        discriminate. }
      rewrite wrap_inRange in Hn by (simpl; lia).
      rewrite clearLowest_enough in Hn by (simpl; lia). discriminate.
  - apply orb_false_iff in Hbr as [Hb _]. apply Z.ltb_ge in Hb.
    assert (0 < c ÷ 2 <= c).
    { rewrite Z.quot_div_nonneg by lia. split.
      - apply Z.div_str_pos; lia.
      - apply Z.div_le_upper_bound; lia. }
    assert (c ÷ 2 <= 2 ^ (w - 3)).
    { rewrite Z.quot_div_nonneg by lia. apply Z.div_le_upper_bound; lia. }
    eexists. split; [reflexivity|].
    rewrite wrap_inRange by (simpl; lia). lia.
Qed.

(** C3 (as the specification states it) fails: with
    [currentCapacity == initialCapacity] the three-argument function hands
    the request back, whereas the one-argument variant rounds it up. *)
Lemma computeNextCapacity_initial_differs :
  computeNextCapacity (LengthT X64) 5 0 0 = Some 5 /\
  computeNextCapacity1 (LengthT X64) 5 = Some 8 /\
  computeNextCapacity (LengthT X64) 5 0 0 <> computeNextCapacity1 (LengthT X64) 5.
Proof. vm_compute. repeat split; discriminate. Qed.

(** C3 (amended): for every requested capacity [r] and current capacity [c]
    with [c == initialCapacity], [computeNextCapacity(r, c, c)] returns [r]
    itself, unchanged; the one-argument variant returns a capacity strictly
    bigger than its argument for every argument up to [2 ^ (w - 2)], [w] the
    width of [Length], so the two differ on all such requests. *)
Theorem computeNextCapacity_initial (p : Platform) (r c : Z) :
  computeNextCapacity (LengthT p) r c c = Some r /\
  (- 2 ^ (wordBits p - 1) <= r <= 2 ^ (wordBits p - 2) ->
   exists v, computeNextCapacity1 (LengthT p) r = Some v /\ r < v).
Proof.
  split.
  - unfold computeNextCapacity. rewrite Z.eqb_refl. reflexivity.
  - intros Hr.
    destruct (computeNextCapacity1_grows (wordBits p) r) as (v & Hv & Hlt).
    + destruct p; simpl; lia.
    + assumption.
    + exists v. split; [exact Hv|lia].
Qed.

Lemma computeNextCapacity_initial_witness :
  (- 2 ^ (wordBits X64 - 1) <= 100 <= 2 ^ (wordBits X64 - 2)) /\
  computeNextCapacity (LengthT X64) 100 23 23 = Some 100 /\
  exists v, computeNextCapacity1 (LengthT X64) 100 = Some v /\ 100 < v.
Proof.
  assert (- 2 ^ (wordBits X64 - 1) <= 100 <= 2 ^ (wordBits X64 - 2)) as H
    by (simpl; lia).
  split; [exact H|].
  split.
  - exact (proj1 (computeNextCapacity_initial X64 100 23)).
  - exact (proj2 (computeNextCapacity_initial X64 100 23) H).
Defined.

End MathFacts.

(** ** Array: scenarios and error paths *)

Module ArrayFacts.
Import Containers Array.

(** Scenario A of the specification, every allocation succeeding:
    [Array<int32_t> values = {25, 100, 75}; values.addp(80);
     values.addp(200); values.insertp(1, 5);] *)
Definition scenarioA (p : Platform) : option (Array.t Z) :=
  let values := Array_list p true [25; 100; 75] in
  values ← addp p true 80 values;
  values ← addp p true 200 values;
  insertp p true 1 5 values.

(** [values.quickSort()] with its default arguments. *)
Definition scenarioA_sorted (p : Platform) : option (Array.t Z) :=
  values ← scenarioA p;
  quickSort p DefaultComparer_int 0 (MaxLength p) values.

(** [values.binarySearch(75)] with its default arguments. *)
Definition scenarioA_search (p : Platform) : option Z :=
  values ← scenarioA_sorted p;
  binarySearch p DefaultComparer_int 75 0 (MaxLength p) values.

(** C1 (as the specification states it) fails in its last part: the search
    does not return index 3. *)
Lemma scenarioA_search_not_3 : scenarioA_search X64 <> Some 3.
Proof. vm_compute. discriminate. Qed.

(** C1 (amended): from [{25,100,75}], [addp(80)], [addp(200)],
    [insertp(1,5)] the array holds [25,5,100,75,80,200]; after [quickSort()]
    with the default comparer it holds [5,25,75,80,100,200]; and
    [binarySearch(75)] on the sorted array returns index 2, the position of
    75 in that sequence. *)
Theorem scenarioA_runs (p : Platform) :
  (elements p <$> scenarioA p) =
    Some (Some <$> [25; 5; 100; 75; 80; 200]) /\
  (elements p <$> scenarioA_sorted p) =
    Some (Some <$> [5; 25; 75; 80; 100; 200]) /\
  scenarioA_search p = Some 2 /\
  (operator_bool p <$> scenarioA_sorted p) = Some true.
Proof. destruct p; vm_compute; repeat split. Qed.

(** *** [erase(start, count)] *)

(** The start after clamping and the count after a negative start has been
    added to it, as the specification words them. *)
Definition clampedStart (start : Z) : Z := Z.max start 0.
Definition effectiveCount (start count : Z) : Z :=
  if start <? 0 then count + start else count.

(** C8: [erase(start, count)] returns false when the array is empty, when
    the clamped start lies at or beyond the end, or when the effective count
    is not positive, and then leaves the array (elements, length, capacity,
    pollute bit) as it was; in every other case it returns true.  The sum
    [count + start] is taken to be representable, signed overflow being
    undefined in the source language. *)
Theorem erase2_refuses (p : Platform) {Element : Type}
    (a : Array.t Element) (start count : Z) :
  inRange (LengthT p) (effectiveCount start count) ->
  (length p a = 0 \/ length p a <= clampedStart start \/
   effectiveCount start count <= 0 ->
   erase2 p start count a = (false, a)) /\
  (~ (length p a = 0 \/ length p a <= clampedStart start \/
      effectiveCount start count <= 0) ->
   fst (erase2 p start count a) = true).
Proof.
  intros Hr. unfold erase2, toBool, clampedStart, effectiveCount in *.
  destruct (Z.eqb_spec (length p a) 0) as [E0|N0]; cbn [negb].
  - split; [reflexivity|]. intros H. exfalso. apply H. left. exact E0.
  - destruct (Z.ltb_spec start 0) as [Hs|Hs].
    + rewrite (wrap_inRange _ _ Hr).
      destruct (Z.leb_spec (length p a) 0) as [Hl|Hl];
        destruct (Z.leb_spec (count + start) 0) as [Hc|Hc]; cbn [orb];
        (split; [intros H; reflexivity || (exfalso; lia)
                |intros H; reflexivity || (exfalso; apply H; lia)]).
    + destruct (Z.leb_spec (length p a) start) as [Hl|Hl];
        destruct (Z.leb_spec count 0) as [Hc|Hc]; cbn [orb];
        (split; [intros H; reflexivity || (exfalso; lia)
                |intros H; reflexivity || (exfalso; apply H; lia)]).
Qed.

Lemma erase2_refuses_witness :
  inRange (LengthT X64) (effectiveCount (-3) 2) /\
  erase2 X64 (-3) 2 (Array_list X64 true [25; 5; 100]) =
    (false, Array_list X64 true [25; 5; 100]).
Proof.
  assert (inRange (LengthT X64) (effectiveCount (-3) 2)) as H
    by (vm_compute; split; [discriminate|reflexivity]).
  split; [exact H|].
  apply (proj1 (erase2_refuses X64 (Array_list X64 true [25; 5; 100]) (-3) 2 H)).
  right. right. vm_compute. discriminate.
Defined.

(** *** [populate] and [Array(length, value)] *)

Lemma reallocate_length (p : Platform) {Element : Type}
    (ok : bool) (c : Z) (a : Array.t Element) :
  _length (snd (reallocate p ok c a)) = _length a.
Proof. unfold reallocate. destruct (alloc ok c); reflexivity. Qed.

Lemma capacity1_length (p : Platform) {Element : Type}
    (ok : bool) (c : Z) (a a' : Array.t Element) (r : bool) :
  capacity1 p ok c a = Some (r, a') -> _length a' = _length a.
Proof.
  unfold capacity1. destruct (_ <? _).
  - destruct (computeCapacity p _ _) as [c'|]; [|discriminate].
    cbn [mbind option_bind]. intros [= E].
    pose proof (reallocate_length p ok c' a) as H.
    destruct (reallocate p ok c' a) as [r0 a0]. simpl in *. congruence.
  - intros [= _ <-]. reflexivity.
Qed.

(** [populate] never advances the length, and answers false only on an
    array that was empty. *)
Lemma populate_length (p : Platform) {Element : Type} (ok : bool)
    (count : Z) (value : Element) (a a' : Array.t Element) (r : bool) :
  populate p ok count value a = Some (r, a') ->
  length p a' = length p a /\ (r = false -> length p a = 0).
Proof.
  unfold populate.
  destruct (_ <=? _).
  - destruct (capacity1 p ok _ a) as [[r1 a1]|] eqn:Hc; [|discriminate].
    cbn [mbind option_bind]. apply capacity1_length in Hc.
    destruct r1; intros [= Hr <-]; unfold length; cbn [_length]; rewrite ?Hc;
      (split; [reflexivity|]); unfold toBool in Hr; intros ->.
    + fold (length p a) in Hr.
      destruct (Z.eqb_spec (length p a) 0); [assumption|discriminate].
    + discriminate.
  - intros [= Hr <-]. split; [reflexivity|]. intros ->. discriminate.
Qed.

(** C9, at the failing input [Array<int>(3, 7)] whose allocation fails:
    [populate] returns [NotFound], which its [bool] result type turns into
    true, so the constructor does not pollute and the caller receives an
    empty array that tests as healthy.  When the allocation succeeds
    [populate] constructs the value three times in slot 0, leaves [length()]
    at 0, returns the old length 0, that is false, and the constructor
    pollutes the array. *)
Theorem Array_fill_failure_unpolluted (p : Platform) :
  populate p false 3 7 empty = Some (true, empty) /\
  Array_fill p false 3 7 = Some empty /\
  operator_bool p (@empty Z) = true /\
  (exists a, Array_fill p true 3 7 = Some a /\
     _data a = [Some 7; None; None] /\ length p a = 0 /\
     operator_bool p a = false).
Proof.
  destruct p;
    (split; [vm_compute; reflexivity|];
     split; [vm_compute; reflexivity|];
     split; [vm_compute; reflexivity|];
     eexists; split; [vm_compute; reflexivity|];
     split; [reflexivity|]; split; vm_compute; reflexivity).
Qed.

End ArrayFacts.

Arguments wrap : simpl never.

(** ** Counted loops and slot accesses *)

Section Loops.
Context {S : Type}.

Lemma forUp_nil (from to : Z) (body : Z -> S -> S) (s : S) :
  to <= from -> forUp from to body s = s.
Proof. intros H. unfold forUp. rewrite seqZ_nil by lia. reflexivity. Qed.

Lemma forUp_step (from to : Z) (body : Z -> S -> S) (s : S) :
  from < to -> forUp from to body s = forUp (from + 1) to body (body from s).
Proof.
  intros H. unfold forUp. rewrite seqZ_cons by lia. simpl.
  replace (Z.succ from) with (from + 1) by lia.
  replace (Z.pred (to - from)) with (to - (from + 1)) by lia. reflexivity.
Qed.

Lemma forDown_nil (from to : Z) (body : Z -> S -> S) (s : S) :
  from <= to -> forDown from to body s = s.
Proof. intros H. unfold forDown. rewrite seqZ_nil by lia. reflexivity. Qed.

Lemma forDown_step (from to : Z) (body : Z -> S -> S) (s : S) :
  to < from -> forDown from to body s = forDown (from - 1) to body (body from s).
Proof.
  intros H. unfold forDown.
  replace (from - to) with (Z.of_nat (Datatypes.S (Z.to_nat (from - to - 1)))) by lia.
  rewrite seqZ_S, reverse_snoc. simpl.
  replace (to + 1 + Z.of_nat (Z.to_nat (from - to - 1))) with from by lia.
  replace (Z.of_nat (Z.to_nat (from - to - 1))) with (from - 1 - to) by lia.
  reflexivity.
Qed.

End Loops.

Section SlotFacts.
Context {Element : Type}.
Implicit Types (l : list (Slot Element)) (x : Slot Element).

Lemma rd_middle l1 l2 x (i : Z) :
  i = Z.of_nat (length l1) -> rd (l1 ++ x :: l2) i = x.
Proof.
  intros ->. unfold rd. destruct (Z.ltb_spec (Z.of_nat (length l1)) 0); [lia|].
  rewrite Nat2Z.id, list_lookup_middle by reflexivity. reflexivity.
Qed.

Lemma wr_middle l1 l2 x y (i : Z) :
  i = Z.of_nat (length l1) -> wr (l1 ++ x :: l2) i y = l1 ++ y :: l2.
Proof.
  intros ->. unfold wr. destruct (Z.ltb_spec (Z.of_nat (length l1)) 0); [lia|].
  rewrite Nat2Z.id.
  replace (length l1) with (length l1 + 0)%nat at 1 by lia.
  rewrite insert_app_r. reflexivity.
Qed.

Lemma rd_next l1 l2 a x (i : Z) :
  i = Z.of_nat (length l1) + 1 -> rd (l1 ++ a :: x :: l2) i = x.
Proof.
  intros ->. replace (l1 ++ a :: x :: l2) with ((l1 ++ [a]) ++ x :: l2)
    by (rewrite <- app_assoc; reflexivity).
  apply rd_middle. rewrite length_app. simpl. lia.
Qed.

Lemma wr_next l1 l2 a x y (i : Z) :
  i = Z.of_nat (length l1) + 1 ->
  wr (l1 ++ a :: x :: l2) i y = l1 ++ a :: y :: l2.
Proof.
  intros ->. replace (l1 ++ a :: x :: l2) with ((l1 ++ [a]) ++ x :: l2)
    by (rewrite <- app_assoc; reflexivity).
  rewrite wr_middle by (rewrite length_app; simpl; lia).
  rewrite <- app_assoc. reflexivity.
Qed.

(** The shifting loop of [elementInsert] opens a gap at [index]. *)
Lemma shift_up_gap l2 : forall l1 x spare,
  exists x',
    forDown (Z.of_nat (length l1 + length l2)) (Z.of_nat (length l1))
      (fun i => moveSlot (i - 1) i) (l1 ++ l2 ++ x :: spare)
    = l1 ++ x' :: l2 ++ spare.
Proof.
  induction l2 as [|y l2 IH] using rev_ind; intros l1 x spare.
  - exists x. rewrite forDown_nil by (simpl; lia). reflexivity.
  - assert (l1 ++ (l2 ++ [y]) ++ x :: spare = (l1 ++ l2) ++ y :: x :: spare) as E1
      by (rewrite <- !app_assoc; reflexivity).
    assert ((l1 ++ l2) ++ y :: x :: spare = ((l1 ++ l2) ++ [y]) ++ x :: spare) as E2
      by (rewrite <- !app_assoc; reflexivity).
    assert (((l1 ++ l2) ++ [y]) ++ y :: spare = (l1 ++ l2) ++ y :: y :: spare) as E3
      by (rewrite <- !app_assoc; reflexivity).
    assert (Z.of_nat (length l1 + length (l2 ++ [y])) - 1
            = Z.of_nat (length (l1 ++ l2))) as Ei
      by (rewrite !length_app; simpl; lia).
    assert (Z.of_nat (length l1 + length (l2 ++ [y]))
            = Z.of_nat (length ((l1 ++ l2) ++ [y]))) as Ej
      by (rewrite !length_app; simpl; lia).
    rewrite forDown_step by (rewrite length_app; simpl; lia).
    unfold moveSlot at 2. rewrite E1.
    rewrite (rd_middle (l1 ++ l2) (x :: spare) y _ Ei).
    rewrite E2, (wr_middle ((l1 ++ l2) ++ [y]) spare x y _ Ej).
    rewrite E3, (wr_middle (l1 ++ l2) (y :: spare) y None _ Ei).
    rewrite Ei, length_app, Nat2Z.inj_add, <- Nat2Z.inj_add.
    destruct (IH l1 None (y :: spare)) as [x' Hx']. exists x'.
    rewrite <- app_assoc, Hx', <- !app_assoc. reflexivity.
Qed.

(** The shifting loop of [erase] closes the gap left at [index]. *)
Lemma shift_down_gap l2 : forall l1 spare,
  forUp (Z.of_nat (length l1)) (Z.of_nat (length l1 + length l2))
    (fun i => moveSlot (i + 1) i) (l1 ++ None :: l2 ++ spare)
  = l1 ++ l2 ++ None :: spare.
Proof.
  induction l2 as [|y l2 IH]; intros l1 spare.
  - rewrite forUp_nil by (simpl; lia). reflexivity.
  - change (l1 ++ None :: (y :: l2) ++ spare)
      with (l1 ++ None :: y :: l2 ++ spare).
    assert (l1 ++ None :: y :: l2 ++ spare
            = (l1 ++ [None]) ++ y :: l2 ++ spare) as E1
      by (rewrite <- app_assoc; reflexivity).
    assert (l1 ++ y :: y :: l2 ++ spare = (l1 ++ [y]) ++ y :: l2 ++ spare) as E3
      by (rewrite <- app_assoc; reflexivity).
    assert (Z.of_nat (length l1) + 1 = Z.of_nat (length (l1 ++ [None]))) as Ei
      by (rewrite length_app; simpl; lia).
    assert (Z.of_nat (length l1) + 1 = Z.of_nat (length (l1 ++ [y]))) as Ej
      by (rewrite length_app; simpl; lia).
    assert (Z.of_nat (length l1 + length (y :: l2))
            = Z.of_nat (length (l1 ++ [y]) + length l2)) as Ek
      by (rewrite length_app; simpl; lia).
    rewrite forUp_step by (simpl; lia).
    unfold moveSlot at 2.
    rewrite (rd_next l1 (l2 ++ spare) None y _ eq_refl).
    rewrite (wr_middle l1 (y :: l2 ++ spare) None y _ eq_refl).
    rewrite (wr_next l1 (l2 ++ spare) y y None _ eq_refl).
    replace (l1 ++ y :: None :: l2 ++ spare)
      with ((l1 ++ [y]) ++ None :: l2 ++ spare)
      by (rewrite <- app_assoc; reflexivity).
    rewrite Ej, Ek, IH, <- app_assoc. reflexivity.
Qed.

(** The element-moving loops of [reallocate] and [elementInsert]: [l] goes
    from the old buffer, at offset [length o1], to the new one, at offset
    [length n1]. *)
Lemma move_across l : forall o1 o2 n1 junk n2 (d : Z),
  length junk = length l ->
  Z.of_nat (length n1) = Z.of_nat (length o1) + d ->
  forUp (Z.of_nat (length o1)) (Z.of_nat (length o1 + length l))
    (fun i => moveAcross i (i + d)) (o1 ++ l ++ o2, n1 ++ junk ++ n2)
  = (o1 ++ replicate (length l) None ++ o2, n1 ++ l ++ n2).
Proof.
  induction l as [|y l IH]; intros o1 o2 n1 junk n2 d Hj Hd.
  - destruct junk; [|discriminate]. rewrite forUp_nil by (simpl; lia). reflexivity.
  - destruct junk as [|z junk]; [discriminate|]. simpl in Hj.
    change (o1 ++ (y :: l) ++ o2) with (o1 ++ y :: l ++ o2).
    change (n1 ++ (z :: junk) ++ n2) with (n1 ++ z :: junk ++ n2).
    change (n1 ++ (y :: l) ++ n2) with (n1 ++ y :: l ++ n2).
    assert (o1 ++ None :: l ++ o2 = (o1 ++ [None]) ++ l ++ o2) as E1
      by (rewrite <- app_assoc; reflexivity).
    assert (n1 ++ y :: junk ++ n2 = (n1 ++ [y]) ++ junk ++ n2) as E2
      by (rewrite <- app_assoc; reflexivity).
    assert (Z.of_nat (length o1) + 1 = Z.of_nat (length (o1 ++ [None]))) as Ei
      by (rewrite length_app; simpl; lia).
    assert (Z.of_nat (length o1 + length (y :: l))
            = Z.of_nat (length (o1 ++ [None]) + length l)) as Ek
      by (rewrite length_app; simpl; lia).
    rewrite forUp_step by (simpl; lia).
    unfold moveAcross at 2. cbn [fst snd].
    rewrite (rd_middle o1 (l ++ o2) y _ eq_refl).
    rewrite (wr_middle o1 (l ++ o2) y None _ eq_refl).
    rewrite (wr_middle n1 (junk ++ n2) z y) by lia.
    rewrite E1, E2, Ei, Ek.
    rewrite (IH (o1 ++ [None]) o2 (n1 ++ [y]) junk n2 d)
      by (rewrite ?length_app; simpl; lia).
    rewrite <- !app_assoc. reflexivity.
Qed.

End SlotFacts.

(** ** Capacity words and the growth policy *)

Module ContainersFacts.
Import Containers MathFacts.

Lemma wordBits_ge (p : Platform) : 32 <= wordBits p.
Proof. destruct p; simpl; lia. Qed.

Lemma MaxLength_eq (p : Platform) :
  MaxLength p = 2 ^ (wordBits p - 1) - 1 /\ LengthMask p = Z.ones (wordBits p - 1).
Proof. unfold MaxLength, LengthMask. rewrite Z.ones_equiv. split; lia. Qed.

Lemma inRange_Length (p : Platform) (x : Z) :
  0 <= x <= MaxLength p -> inRange (LengthT p) x.
Proof. unfold MaxLength, LengthT. simpl. lia. Qed.

Lemma inRange_Size (p : Platform) (x : Z) :
  0 <= x <= MaxLength p -> inRange (SizeT p) x.
Proof.
  unfold MaxLength, SizeT. simpl. intros H.
  pose proof (wordBits_ge p).
  assert (2 ^ (wordBits p - 1) <= 2 ^ wordBits p)
    by (apply Z.pow_le_mono_r; lia).
  lia.
Qed.

(** The pollute bit is either clear or the top bit. *)
Lemma land_PolluteBit (p : Platform) (c : Z) :
  Z.land c (PolluteBit p) = 0 \/ Z.land c (PolluteBit p) = PolluteBit p.
Proof.
  unfold PolluteBit. pose proof (wordBits_ge p).
  destruct (Z.testbit c (wordBits p - 1)) eqn:Hb; [right|left];
    apply Z.bits_inj'; intros i Hi; rewrite Z.land_spec, ?Z.bits_0;
    rewrite Z.pow2_bits_eqb by lia;
    destruct (Z.eqb_spec (wordBits p - 1) i) as [<-|];
    rewrite ?Hb, ?andb_false_r; reflexivity.
Qed.

(** Storing a capacity next to the saved pollute bit keeps the capacity
    readable through the length mask, and the bit through its own mask. *)
Lemma capacity_word (p : Platform) (c old : Z) :
  0 <= c <= MaxLength p ->
  let w := Z.lor (wrap (SizeT p) c) (Z.land old (PolluteBit p)) in
  Z.land w (LengthMask p) = c /\
  Z.land w (PolluteBit p) = Z.land old (PolluteBit p).
Proof.
  intros Hc. rewrite (wrap_inRange (SizeT p) c) by (apply inRange_Size; exact Hc).
  pose proof (wordBits_ge p) as Hw.
  destruct (MaxLength_eq p) as [EM ->]. unfold PolluteBit. cbn zeta.
  assert (c < 2 ^ (wordBits p - 1)) as Hlt by lia.
  assert (forall i, wordBits p - 1 <= i -> Z.testbit c i = false) as Hhigh.
  { intros i Hi. destruct (Z.eq_dec c 0) as [->|]; [apply Z.bits_0|].
    apply Z.bits_above_log2; [lia|].
    assert (Z.log2 c < wordBits p - 1) by (apply Z.log2_lt_pow2; lia). lia. }
  split; apply Z.bits_inj'; intros i Hi;
    rewrite !Z.land_spec, Z.lor_spec, Z.land_spec.
  - rewrite Z.pow2_bits_eqb by lia.
    destruct (Z_lt_le_dec i (wordBits p - 1)).
    + rewrite Z.ones_spec_low by lia.
      destruct (Z.eqb_spec (wordBits p - 1) i); [lia|].
      rewrite andb_false_r, orb_false_r, andb_true_r. reflexivity.
    + rewrite Z.ones_spec_high by lia. rewrite Hhigh by lia.
      rewrite andb_false_r. reflexivity.
  - rewrite Z.pow2_bits_eqb by lia.
    destruct (Z.eqb_spec (wordBits p - 1) i) as [<-|].
    + rewrite Hhigh by lia. rewrite !andb_true_r. reflexivity.
    + rewrite !andb_false_r. reflexivity.
Qed.

Lemma floor_limit (p : Platform) :
  Math.floorPowerOfTwo (SizeT p) (wrap (SizeT p) (MaxLength p))
  = Some (2 ^ (wordBits p - 2)).
Proof. destruct p; vm_compute; reflexivity. Qed.

(** [computeCapacity] always answers, with a capacity that covers the
    target and that [Length] can hold. *)
Lemma computeCapacity_some (p : Platform) (target current : Z) :
  0 <= current < target -> target <= MaxLength p ->
  exists c, computeCapacity p target current = Some c /\
            target <= c <= MaxLength p.
Proof.
  intros Hc Ht. unfold computeCapacity. rewrite floor_limit.
  cbn [mbind option_bind].
  pose proof (wordBits_ge p) as Hw.
  pose proof (pow2_split (wordBits p) ltac:(lia)) as (E1 & E2 & E3 & Hp).
  set (w := wordBits p) in *.
  assert (MaxLength p = 2 ^ (w - 1) - 1) as EM by reflexivity.
  rewrite wrap_inRange by (unfold LengthT; simpl; fold w; lia).
  destruct (Z.ltb_spec target (2 ^ (w - 2))) as [Hlt|Hge];
    [|exists target; split; [reflexivity|lia]].
  unfold LengthT. fold w. set (t := Signed w).
  assert (inRange t target) as Hrt by (simpl; lia).
  unfold Math.computeNextCapacity.
  destruct (Z.eqb_spec current 0) as [->|Hne]; cbn [negb];
    [exists target; split; [reflexivity|lia]|].
  destruct (computeNextCapacity1_grows w current ltac:(lia) ltac:(lia))
    as (n & Hn & Hn1 & Hn2).
  change (Signed w) with t in Hn. rewrite Hn. cbn [mbind option_bind].
  destruct (Z.ltb_spec n target) as [Hnt|Hnt];
    [|exists n; split; [reflexivity|lia]].
  destruct (Math.isPowerOfTwo t target) eqn:Hpow; cbn [negb];
    [exists target; split; [reflexivity|lia]|].
  rewrite floorPowerOfTwo_some by assumption. cbn [mbind option_bind].
  set (f := if 2 <? target then 2 ^ Z.log2 target else target).
  assert (0 < f <= target) as Hf.
  { unfold f. destruct (Z.ltb_spec 2 target); [|lia].
    pose proof (Z.log2_spec target ltac:(lia)).
    assert (0 < 2 ^ Z.log2 target)
      by (apply Z.pow_pos_nonneg; [lia|apply Z.log2_nonneg]). lia. }
  assert (0 <= f ÷ 2 <= f) as Hq.
  { rewrite Z.quot_div_nonneg by lia. split; [apply Z.div_pos; lia|].
    apply Z.div_le_upper_bound; lia. }
  rewrite (wrap_inRange t (f + f ÷ 2)) by (simpl; lia).
  destruct (Z.leb_spec target (f + f ÷ 2)) as [Hle|Hgt];
    [eexists; split; [reflexivity|lia]|].
  destruct (Math.ceilPowerOfTwo t target) as [r|] eqn:Hr.
  - apply ceilPowerOfTwo_bounds in Hr; [|assumption|simpl; lia].
    exists r. split; [reflexivity|lia].
  - rewrite ceilPowerOfTwo_some in Hr by (assumption || (simpl; lia)).
    discriminate.
Qed.

End ContainersFacts.

(** ** Arrays as sequences of live elements *)

Lemma forUp_ext {S : Type} (from to : Z) (body body' : Z -> S -> S) (s : S) :
  (forall i s, body i s = body' i s) ->
  forUp from to body s = forUp from to body' s.
Proof.
  intros H. unfold forUp. generalize (seqZ from (to - from)). intros l.
  revert s. induction l as [|i l IH]; intros s; [reflexivity|].
  simpl. rewrite H. apply IH.
Qed.

Module ArrayInv.
Import Containers ContainersFacts.

Section ArrayInv.
Context (p : Platform) {Element : Type}.
Implicit Types (a : Array.t Element) (live : list Element)
  (spare : list (Slot Element)).

(** [a] holds the constructed elements [live], followed by the slots
    [spare] of its buffer that are not in use. *)
Definition represents a live spare : Prop :=
  Array._data a = (Some <$> live) ++ spare /\
  Array._length a = Z.of_nat (length live) /\
  Z.land (Array._capacity a) (LengthMask p) = Z.of_nat (length live + length spare) /\
  Z.of_nat (length live + length spare) <= MaxLength p.

Lemma represents_empty : represents Array.empty [] [].
Proof.
  unfold represents, Array.empty. simpl. repeat split.
  unfold MaxLength. destruct p; simpl; lia.
Qed.

Lemma represents_length a live spare :
  represents a live spare -> Array.length p a = Z.of_nat (length live).
Proof.
  intros (_ & Hl & _ & Hm). unfold Array.length. rewrite Hl.
  apply wrap_inRange, inRange_Length. lia.
Qed.

Lemma represents_capacity a live spare :
  represents a live spare ->
  Array.capacity p a = Z.of_nat (length live + length spare).
Proof.
  intros (_ & _ & Hc & Hm). unfold Array.capacity. rewrite Hc.
  apply wrap_inRange, inRange_Length. lia.
Qed.

Lemma represents_elements a live spare :
  represents a live spare -> Array.elements p a = Some <$> live.
Proof.
  intros H. unfold Array.elements. rewrite (represents_length _ _ _ H).
  destruct H as (Hd & _). rewrite Hd, Nat2Z.id.
  rewrite <- (length_fmap Some live). apply take_app_length.
Qed.

Lemma represents_rd a live spare (i : nat) :
  represents a live spare ->
  rd (Array._data a) (Z.of_nat i) =
    match live !! i with Some x => Some x | None => default None (spare !! (i - length live)%nat) end.
Proof.
  intros (Hd & _). unfold rd. rewrite Hd.
  destruct (Z.ltb_spec (Z.of_nat i) 0); [lia|]. rewrite Nat2Z.id.
  destruct (live !! i) as [x|] eqn:Hx.
  - rewrite lookup_app_l by (rewrite length_fmap; eapply lookup_lt_Some; eassumption).
    rewrite list_lookup_fmap, Hx. reflexivity.
  - apply lookup_ge_None in Hx.
    rewrite lookup_app_r by (rewrite length_fmap; lia).
    rewrite length_fmap. reflexivity.
Qed.

Lemma saturate_id (x hi : Z) : 0 <= x <= hi -> Math.saturate x 0 hi = x.
Proof.
  intros H. unfold Math.saturate.
  destruct (Z.ltb_spec 0 x); destruct (Z.ltb_spec x hi);
    destruct (Z.ltb_spec 0 hi); lia.
Qed.

(** [insert] either fails without touching the array, or puts the element
    in front of the one that was at [index]. *)
Lemma insert_spec (ok : bool) a live spare (index : nat) (x : Element) :
  represents a live spare ->
  (index <= length live)%nat -> Z.of_nat (length live) < MaxLength p ->
  exists r a',
    Array.insert p ok (Z.of_nat index) x a = Some (r, a') /\
    (if r : bool
     then exists spare',
       represents a' (take index live ++ x :: drop index live) spare'
     else a' = a).
Proof.
  intros H Hi Hmax.
  pose proof (represents_length _ _ _ H) as Hlen.
  pose proof (represents_capacity _ _ _ H) as Hcap.
  destruct H as (Hd & Hl & Hc & Hm).
  unfold Array.insert, Array.elementInsert. rewrite Hlen, Hcap.
  destruct (Z.ltb_spec (Z.of_nat (length live)) (MaxLength p)); [|lia].
  rewrite saturate_id by lia.
  assert (Some <$> live = (Some <$> take index live) ++ (Some <$> drop index live)) as Esplit
    by (rewrite <- fmap_app, take_drop; reflexivity).
  assert (length (Some <$> take index live) = index) as Et
    by (rewrite length_fmap, length_take; lia).
  assert (length (Some <$> drop index live) = (length live - index)%nat) as Edr
    by (rewrite length_fmap, length_drop; lia).
  assert (length (take index live ++ x :: drop index live) = Datatypes.S (length live)) as Enew
    by (rewrite length_app, length_take; simpl; rewrite length_drop; lia).
  destruct (Z.leb_spec (Z.of_nat (length live) + 1) (Z.of_nat (length live + length spare)))
    as [Hfit|Hgrow].
  - (* in place *)
    destruct spare as [|s spare']; [simpl in Hfit; lia|].
    exists true. eexists. split; [reflexivity|]. exists spare'.
    rewrite Hd, Esplit, <- app_assoc.
    destruct (shift_up_gap (Some <$> drop index live) (Some <$> take index live) s spare')
      as [x' Hx'].
    rewrite Et, Edr in Hx'.
    replace (index + (length live - index))%nat with (length live) in Hx' by lia.
    rewrite Hx'. rewrite wr_middle by (rewrite Et; reflexivity).
    unfold represents. cbn [Array._data Array._capacity Array._length].
    rewrite Enew. repeat split.
    + rewrite fmap_app, fmap_cons, <- app_assoc. reflexivity.
    + rewrite wrap_inRange by (apply inRange_Size; lia). lia.
    + rewrite Hc. simpl. lia.
    + simpl in Hm. lia.
  - (* reallocate *)
    destruct (computeCapacity_some p (Z.of_nat (length live) + 1)
                (Z.of_nat (length live + length spare)) ltac:(lia) ltac:(lia))
      as (c & Hcc & Hc1 & Hc2).
    rewrite Hcc. cbn [mbind option_bind].
    destruct ok; cbn [Array.alloc]; [|exists false; eexists; split; reflexivity].
    exists true. eexists. split; [reflexivity|].
    exists (replicate (Z.to_nat c - Datatypes.S (length live)) None).
    rewrite (forUp_ext 0 (Z.of_nat index) _ (fun i => moveAcross i (i + 0)))
      by (intros; rewrite Z.add_0_r; reflexivity).
    rewrite Hd, Esplit, <- app_assoc.
    replace (replicate (Z.to_nat c) (@None Element))
      with ([] ++ replicate index None ++ replicate (Z.to_nat c - index) (@None Element))
      by (simpl; rewrite <- replicate_add; f_equal; lia).
    pose proof (move_across (Some <$> take index live) []
                  ((Some <$> drop index live) ++ spare) []
                  (replicate index None)
                  (replicate (Z.to_nat c - index) None) 0) as Hm1.
    simpl in Hm1. rewrite Et in Hm1. change (Z.of_nat 0) with 0 in Hm1.
    cbn [app].
    rewrite Hm1 by (rewrite ?length_replicate; lia). clear Hm1.
    cbn [fst snd].
    replace (replicate (Z.to_nat c - index) (@None Element))
      with (None :: replicate (length live - index) None
                 ++ replicate (Z.to_nat c - Datatypes.S (length live)) (@None Element)).
    2:{ rewrite <- replicate_add.
        replace (Z.to_nat c - index)%nat
          with (Datatypes.S (length live - index + (Z.to_nat c - Datatypes.S (length live))))
          by lia.
        reflexivity. }
    rewrite wr_middle by (rewrite Et; reflexivity).
    pose proof (move_across (Some <$> drop index live) (replicate index None) spare
                  ((Some <$> take index live) ++ [Some x])
                  (replicate (length live - index) None)
                  (replicate (Z.to_nat c - Datatypes.S (length live)) None) 1) as Hm2.
    rewrite !length_replicate, Edr in Hm2.
    replace (index + (length live - index))%nat with (length live) in Hm2 by lia.
    rewrite <- app_assoc in Hm2. simpl in Hm2.
    rewrite Hm2 by (rewrite ?length_app, ?length_replicate, ?Et; simpl; lia).
    clear Hm2. cbn [snd].
    destruct (capacity_word p c (Array._capacity a) ltac:(lia)) as [Hw1 Hw2].
    unfold represents. cbn [Array._data Array._capacity Array._length].
    rewrite Enew, length_replicate. repeat split.
    + rewrite fmap_app, fmap_cons, <- !app_assoc. reflexivity.
    + rewrite wrap_inRange by (apply inRange_Size; lia). lia.
    + rewrite Hw1. lia.
    + lia.
Qed.

(** [erase(index)] inside the bounds removes that element. *)
Lemma erase1_spec a live spare (index : nat) :
  represents a live spare -> (index < length live)%nat ->
  exists a' spare',
    Array.erase1 p (Z.of_nat index) a = (true, a') /\
    represents a' (delete index live) spare'.
Proof.
  intros H Hi.
  pose proof (represents_length _ _ _ H) as Hlen.
  destruct H as (Hd & Hl & Hc & Hm).
  unfold Array.erase1. rewrite Hlen.
  destruct (Z.leb_spec 0 (Z.of_nat index)); [|lia].
  destruct (Z.ltb_spec (Z.of_nat index) (Z.of_nat (length live))); [|lia].
  cbn [andb].
  destruct (lookup_lt_is_Some_2 live index Hi) as [x Hx].
  pose proof (take_drop_middle live index x Hx) as Emid.
  assert (length (take index live) = index) as Et by (rewrite length_take; lia).
  assert (length (drop (Datatypes.S index) live) = (length live - Datatypes.S index)%nat) as Edr
    by (rewrite length_drop; lia).
  assert (Array._data a = (Some <$> take index live) ++
            Some x :: (Some <$> drop (Datatypes.S index) live) ++ spare) as Hd'.
  { rewrite Hd. rewrite <- Emid at 1.
    rewrite fmap_app, fmap_cons, <- app_assoc. reflexivity. }
  assert (length live = Datatypes.S (index + (length live - Datatypes.S index))) as El by lia.
  eexists. exists (None :: spare). split; [reflexivity|].
  rewrite Hd'.
  rewrite wr_middle by (rewrite length_fmap, Et; reflexivity).
  pose proof (shift_down_gap (Some <$> drop (Datatypes.S index) live)
                (Some <$> take index live) spare) as Hs.
  rewrite !length_fmap, Et, Edr in Hs.
  replace (Z.of_nat (length live) - 1)
    with (Z.of_nat (index + (length live - Datatypes.S index))) by lia.
  rewrite Hs.
  unfold represents. cbn [Array._data Array._capacity Array._length].
  rewrite delete_take_drop, length_app, Et, Edr. repeat split.
  - rewrite fmap_app, <- app_assoc. reflexivity.
  - rewrite wrap_inRange by (apply inRange_Size; lia). lia.
  - rewrite Hc. simpl. lia.
  - simpl. lia.
Qed.

(** [erase(index)] outside the bounds refuses. *)
Lemma erase1_out a live spare (index : Z) :
  represents a live spare -> ~ (0 <= index < Z.of_nat (length live)) ->
  Array.erase1 p index a = (false, a).
Proof.
  intros H Hi. unfold Array.erase1. rewrite (represents_length _ _ _ H).
  destruct (Z.leb_spec 0 index); destruct (Z.ltb_spec index (Z.of_nat (length live)));
    cbn [andb]; reflexivity || lia.
Qed.

(** Assignment to a live element, [_data[index] = y]. *)
Lemma assign_spec a live spare (index : nat) (y : Element) :
  represents a live spare -> (index < length live)%nat ->
  represents (Array.mk (wr (Array._data a) (Z.of_nat index) (Some y))
                       (Array._capacity a) (Array._length a))
             (<[index := y]> live) spare.
Proof.
  intros (Hd & Hl & Hc & Hm) Hi. unfold represents.
  cbn [Array._data Array._capacity Array._length].
  rewrite length_insert. repeat split; try assumption.
  unfold wr. destruct (Z.ltb_spec (Z.of_nat index) 0); [lia|].
  rewrite Nat2Z.id, Hd, insert_app_l by (rewrite length_fmap; lia).
  rewrite list_fmap_insert. reflexivity.
Qed.

End ArrayInv.
End ArrayInv.

(** ** Strictly ascending key sequences *)

Section Ascending.
Context {K : Type} (comparer : K -> K -> Z).

(** [ascending] on keys that are all constructed. *)
Definition asc (ks : list K) : Prop :=
  forall (i j : nat) (x y : K),
    (i < j)%nat -> ks !! i = Some x -> ks !! j = Some y -> comparer x y < 0.

Lemma ascending_Some (ks : list K) :
  asc ks -> ascending comparer (Some <$> ks).
Proof.
  intros H i j x y Hij Hx Hy.
  rewrite list_lookup_fmap in Hx, Hy.
  destruct (ks !! i) as [kx|] eqn:Ex; [|discriminate].
  destruct (ks !! j) as [ky|] eqn:Ey; [|discriminate].
  injection Hx as <-. injection Hy as <-.
  exists kx, ky. repeat split. eapply H; [|exact Ex|exact Ey]. exact Hij.
Qed.

Lemma asc_nil : asc [].
Proof. intros i j x y _ H. rewrite lookup_nil in H. discriminate. Qed.

Lemma asc_delete (ks : list K) (n : nat) : asc ks -> asc (delete n ks).
Proof.
  intros H i j x y Hij Hx Hy.
  destruct (Nat.lt_ge_cases i n) as [Hi|Hi];
    destruct (Nat.lt_ge_cases j n) as [Hj|Hj];
    rewrite ?(list_lookup_delete_lt ks n i Hi), ?(list_lookup_delete_ge ks n i Hi) in Hx;
    rewrite ?(list_lookup_delete_lt ks n j Hj), ?(list_lookup_delete_ge ks n j Hj) in Hy;
    (eapply H; [|exact Hx|exact Hy]); lia.
Qed.

Lemma lookup_inserted (ks : list K) (n i : nat) (k : K) :
  (n <= length ks)%nat ->
  (take n ks ++ k :: drop n ks) !! i =
    if (i <? n)%nat then ks !! i
    else if (i =? n)%nat then Some k else ks !! (i - 1)%nat.
Proof.
  intros Hn.
  assert (length (take n ks) = n) as Et by (rewrite length_take; lia).
  destruct (Nat.ltb_spec i n) as [Hi|Hi].
  - rewrite lookup_app_l by lia. apply lookup_take_lt. exact Hi.
  - rewrite lookup_app_r by lia. rewrite Et.
    destruct (Nat.eqb_spec i n) as [->|Hne].
    + rewrite Nat.sub_diag. reflexivity.
    + destruct (i - n)%nat as [|d] eqn:Ed; [lia|]. simpl.
      rewrite lookup_drop. f_equal. lia.
Qed.

Lemma asc_insert (ks : list K) (n : nat) (k : K) :
  (forall a b c, comparer a b < 0 -> comparer b c < 0 -> comparer a c < 0) ->
  asc ks -> (n <= length ks)%nat ->
  (forall i x, (i < n)%nat -> ks !! i = Some x -> comparer x k < 0) ->
  (forall i x, (n <= i)%nat -> ks !! i = Some x -> comparer k x < 0) ->
  asc (take n ks ++ k :: drop n ks).
Proof.
  intros Htr H Hn Hlo Hhi i j x y Hij Hx Hy.
  rewrite lookup_inserted in Hx, Hy by exact Hn.
  destruct (Nat.ltb_spec i n) as [Hi|Hi];
    destruct (Nat.ltb_spec j n) as [Hj|Hj]; try lia.
  - eapply H; [|exact Hx|exact Hy]. lia.
  - destruct (Nat.eqb_spec j n) as [->|Hjn].
    + injection Hy as <-. eapply Hlo; eassumption.
    + eapply H; [|exact Hx|exact Hy]. lia.
  - destruct (Nat.eqb_spec i n) as [->|Hin];
      destruct (Nat.eqb_spec j n) as [->|Hjn]; try lia.
    + injection Hx as <-. eapply Hhi; [|exact Hy]. lia.
    + eapply H; [|exact Hx|exact Hy]. lia.
Qed.

Context (Hswo : StrictWeakOrder comparer).

Lemma swo_sym (a b : K) : comparer a b = 0 -> comparer b a = 0.
Proof.
  intros H. pose proof (swo_flip _ Hswo a b). pose proof (swo_flip _ Hswo b a). lia.
Qed.

Lemma swo_less_equiv (a b c : K) :
  comparer a b < 0 -> comparer b c = 0 -> comparer a c < 0.
Proof.
  intros Hab Hbc.
  destruct (Z.lt_trichotomy (comparer a c) 0) as [H|[H|H]]; [exact H| |].
  - pose proof (swo_equiv _ Hswo a c b H (swo_sym _ _ Hbc)). lia.
  - apply (swo_flip _ Hswo) in H.
    pose proof (swo_trans _ Hswo c a b H Hab).
    pose proof (swo_sym _ _ Hbc). lia.
Qed.

Lemma swo_equiv_less (a b c : K) :
  comparer a b = 0 -> comparer b c < 0 -> comparer a c < 0.
Proof.
  intros Hab Hbc.
  destruct (Z.lt_trichotomy (comparer a c) 0) as [H|[H|H]]; [exact H| |].
  - pose proof (swo_equiv _ Hswo b a c (swo_sym _ _ Hab) H). lia.
  - apply (swo_flip _ Hswo) in H.
    pose proof (swo_trans _ Hswo b c a Hbc H).
    pose proof (swo_sym _ _ Hab). lia.
Qed.

(** Overwriting a key with an equivalent one keeps the order. *)
Lemma asc_replace (ks : list K) (n : nat) (x y : K) :
  asc ks -> ks !! n = Some x -> comparer x y = 0 -> asc (<[n := y]> ks).
Proof.
  intros H Hn Hxy i j a b Hij Ha Hb.
  pose proof (lookup_lt_Some _ _ _ Hn) as Hlt.
  destruct (Nat.eq_dec i n) as [->|Hi]; destruct (Nat.eq_dec j n) as [->|Hj];
    try lia;
    rewrite ?list_lookup_insert_eq in Ha by exact Hlt;
    rewrite ?list_lookup_insert_eq in Hb by exact Hlt;
    rewrite ?list_lookup_insert_ne in Ha by lia;
    rewrite ?list_lookup_insert_ne in Hb by lia.
  - injection Ha as <-.
    apply (swo_equiv_less y x b); [apply swo_sym; exact Hxy|].
    eapply H; [|exact Hn|exact Hb]. lia.
  - injection Hb as <-.
    apply (swo_less_equiv a x y); [|exact Hxy].
    eapply H; [|exact Ha|exact Hn]. lia.
  - eapply H; [|exact Ha|exact Hb]. exact Hij.
Qed.

(** Strictly ascending keys are pairwise inequivalent: no duplicates. *)
Lemma asc_distinct (ks : list K) (i j : nat) (x y : K) :
  asc ks -> i <> j -> ks !! i = Some x -> ks !! j = Some y -> comparer x y <> 0.
Proof.
  intros H Hij Hx Hy.
  destruct (Nat.lt_ge_cases i j) as [Hlt|Hge].
  - pose proof (H i j x y Hlt Hx Hy). lia.
  - pose proof (H j i y x ltac:(lia) Hy Hx) as Hyx.
    intros E. apply swo_sym in E. lia.
Qed.

End Ascending.

(** ** Binary search for the insertion point *)

Section Search.
Context (p : Platform) {E K : Type} (comparer : K -> K -> Z) (proj : E -> K).

(** The loop shared, up to the key projection, by [FlatMap::search] and
    [FlatSet::search]. *)
Fixpoint searchBy (fuel : nat) (data : list (Slot E)) (k : K) (left right : Z)
    : option (bool * Z) :=
  match fuel with
  | O => None
  | S fuel' =>
      if left <=? right then
        let pivot := wrap (LengthT p) (left + right) ÷ 2 in
        e ← rd data pivot;
        let res := comparer (proj e) k in
        if res <? 0 then searchBy fuel' data k (pivot + 1) right
        else if 0 <? res then searchBy fuel' data k left (pivot - 1)
        else Some (true, pivot)
      else Some (false, left)
  end.

(** What a search answers: the position of an equivalent key, or the
    position in front of which the key belongs. *)
Definition searchPost (live : list E) (k : K) (found : bool) (index : nat) : Prop :=
  if found then exists e, live !! index = Some e /\ comparer (proj e) k = 0
  else (index <= length live)%nat /\
       (forall i e, (i < index)%nat -> live !! i = Some e -> comparer (proj e) k < 0) /\
       (forall i e, (index <= i)%nat -> live !! i = Some e -> 0 < comparer (proj e) k).

Context (Hswo : StrictWeakOrder comparer).

Lemma searchBy_spec (fuel : nat) (data : list (Slot E)) (live : list E) (k : K) :
  (forall i e, live !! i = Some e -> rd data (Z.of_nat i) = Some e) ->
  asc comparer (proj <$> live) ->
  Z.of_nat (length live) <= 2 ^ (wordBits p - 2) ->
  forall left right : Z,
  0 <= left <= right + 1 -> right < Z.of_nat (length live) ->
  right - left + 1 < Z.of_nat fuel ->
  (forall i e, Z.of_nat i < left -> live !! i = Some e -> comparer (proj e) k < 0) ->
  (forall i e, right < Z.of_nat i -> live !! i = Some e -> 0 < comparer (proj e) k) ->
  exists found index,
    searchBy fuel data k left right = Some (found, Z.of_nat index) /\
    searchPost live k found index.
Proof.
  intros Hrd Hasc Hbound.
  pose proof (ContainersFacts.wordBits_ge p) as Hw.
  pose proof (MathFacts.pow2_split (wordBits p) ltac:(lia)) as (E1 & E2 & E3 & Hp).
  induction fuel as [|fuel IH]; intros left right Hlr Hr Hfuel Hlo Hhi; [lia|].
  simpl. destruct (Z.leb_spec left right) as [Hle|Hgt].
  - rewrite wrap_inRange by (unfold LengthT; simpl; lia).
    rewrite Z.quot_div_nonneg by lia.
    set (pivot := (left + right) / 2).
    assert (left <= pivot <= right) as Hpv.
    { unfold pivot. split.
      - apply Z.div_le_lower_bound; lia.
      - apply Z.div_le_upper_bound; lia. }
    destruct (lookup_lt_is_Some_2 live (Z.to_nat pivot) ltac:(lia)) as [e He].
    pose proof (Hrd _ _ He) as Hrde. rewrite Z2Nat.id in Hrde by lia.
    rewrite Hrde. cbn [mbind option_bind].
    assert ((proj <$> live) !! Z.to_nat pivot = Some (proj e)) as Hke
      by (rewrite list_lookup_fmap, He; reflexivity).
    destruct (Z.ltb_spec (comparer (proj e) k) 0) as [Hneg|Hnn].
    + apply IH; try lia; [|exact Hhi].
      intros i e' Hi He'.
      destruct (Z.eq_dec (Z.of_nat i) pivot) as [Eip|Nip].
      * replace i with (Z.to_nat pivot) in He' by lia. congruence.
      * apply (swo_trans _ Hswo _ (proj e)); [|exact Hneg].
        apply (Hasc i (Z.to_nat pivot)); [lia| |exact Hke].
        rewrite list_lookup_fmap, He'. reflexivity.
    + destruct (Z.ltb_spec 0 (comparer (proj e) k)) as [Hpos|Hzero].
      * apply IH; try lia; [exact Hlo|].
        intros i e' Hi He'.
        destruct (Z.eq_dec (Z.of_nat i) pivot) as [Eip|Nip].
        -- replace i with (Z.to_nat pivot) in He' by lia. congruence.
        -- apply (swo_flip _ Hswo).
           apply (swo_trans _ Hswo _ (proj e)); [apply (swo_flip _ Hswo); exact Hpos|].
           apply (Hasc (Z.to_nat pivot) i); [lia|exact Hke|].
           rewrite list_lookup_fmap, He'. reflexivity.
      * exists true, (Z.to_nat pivot). rewrite Z2Nat.id by lia.
        split; [reflexivity|]. exists e. split; [exact He|lia].
  - exists false, (Z.to_nat left). rewrite Z2Nat.id by lia.
    split; [reflexivity|]. repeat split.
    + lia.
    + intros i e Hi He. apply (Hlo i e); [lia|exact He].
    + intros i e Hi He. apply (Hhi i e); [lia|exact He].
Qed.

(** The loop looks at the keys only. *)
Lemma searchBy_keys (fuel : nat) (data data' : list (Slot E)) (k : K) :
  (forall i, proj <$> rd data i = proj <$> rd data' i) ->
  forall left right,
    searchBy fuel data k left right = searchBy fuel data' k left right.
Proof.
  intros Hk. induction fuel as [|fuel IH]; intros left right; [reflexivity|].
  simpl. destruct (left <=? right); [|reflexivity].
  specialize (Hk (wrap (LengthT p) (left + right) ÷ 2)).
  destruct (rd data _) as [e|], (rd data' _) as [e'|]; try discriminate;
    cbn [mbind option_bind]; [|reflexivity].
  injection Hk as ->. rewrite !IH. reflexivity.
Qed.

End Search.

Lemma FlatMap_searchLoop_searchBy (p : Platform) {Key Value : Type}
    (comparer : Key -> Key -> Z) (fuel : nat)
    (data : list (Slot (Containers.Pair Key Value))) (k : Key) (left right : Z) :
  FlatMap.searchLoop p comparer fuel data k left right
  = searchBy p comparer Containers.key fuel data k left right.
Proof.
  revert left right. induction fuel as [|fuel IH]; intros left right; [reflexivity|].
  simpl. destruct (left <=? right); [|reflexivity].
  destruct (rd data _) as [e|]; [|reflexivity]. cbn [mbind option_bind].
  rewrite !IH. reflexivity.
Qed.

Lemma FlatSet_searchLoop_searchBy (p : Platform) {Value : Type}
    (comparer : Value -> Value -> Z) (fuel : nat)
    (data : list (Slot Value)) (v : Value) (left right : Z) :
  FlatSet.searchLoop p comparer fuel data v left right
  = searchBy p comparer id fuel data v left right.
Proof.
  revert left right. induction fuel as [|fuel IH]; intros left right; [reflexivity|].
  simpl. destruct (left <=? right); [|reflexivity].
  destruct (rd data _) as [e|]; [|reflexivity]. cbn [mbind option_bind].
  rewrite !IH. reflexivity.
Qed.

(** ** FlatMap and FlatSet keep their keys strictly ascending *)

Lemma rd_wr {Element : Type} (data : list (Slot Element)) (i j : Z) (x : Slot Element) :
  rd (wr data i x) j =
    if (0 <=? i) && (i =? j) && (i <? Z.of_nat (length data)) then x else rd data j.
Proof.
  unfold rd, wr.
  destruct (Z.ltb_spec i 0), (Z.ltb_spec j 0), (Z.eqb_spec i j),
    (Z.leb_spec 0 i), (Z.ltb_spec i (Z.of_nat (length data)));
    cbn [andb]; try lia; try reflexivity.
  - subst. rewrite list_lookup_insert_eq by lia. reflexivity.
  - subst. rewrite list_insert_ge by lia. reflexivity.
  - rewrite list_lookup_insert_ne by lia. reflexivity.
  - rewrite list_lookup_insert_ne by lia. reflexivity.
Qed.

Module FlatFacts.
Import Containers ContainersFacts ArrayInv.

Section FlatFacts.
Context (p : Platform).

(** The default comparer of integers is a strict weak ordering. *)
Lemma DefaultComparer_int_swo : StrictWeakOrder DefaultComparer_int.
Proof.
  split; unfold DefaultComparer_int, DefaultCompare_perform; intros;
    repeat match goal with
           | |- context [(?a <? ?b)] => destruct (Z.ltb_spec a b)
           | H : context [(?a <? ?b)] |- _ => destruct (Z.ltb_spec a b)
           end; lia.
Qed.

Section Map.
Context {Key Value : Type} (comparer : Key -> Key -> Z)
  (Hswo : StrictWeakOrder comparer).
Implicit Types (m : FlatMap.t Key Value) (live : list (Pair Key Value)).

(** The map stores [live], with strictly ascending keys, and not more than
    [n] of them. *)
Definition MapInv m live (n : nat) : Prop :=
  (exists spare, represents p (FlatMap._pairs m) live spare) /\
  asc comparer (key <$> live) /\ (length live <= n)%nat.

Lemma mapKeys_live m live n :
  MapInv m live n -> mapKeys p m = Some <$> (key <$> live).
Proof.
  intros ([spare H] & _). unfold mapKeys.
  rewrite (represents_elements p _ _ _ H), <- !list_fmap_compose. reflexivity.
Qed.

Lemma map_search m live n (k : Key) :
  MapInv m live n -> Z.of_nat n <= 2 ^ (wordBits p - 2) ->
  exists found index,
    FlatMap.search p comparer k m = Some (found, Z.of_nat index) /\
    searchPost comparer key live k found index.
Proof.
  intros ([spare H] & Hasc & Hn) Hb. unfold FlatMap.search.
  rewrite FlatMap_searchLoop_searchBy, (represents_length p _ _ _ H).
  pose proof (wordBits_ge p) as Hw.
  pose proof (MathFacts.pow2_split (wordBits p) ltac:(lia)) as (E1 & E2 & E3 & Hp).
  rewrite wrap_inRange by (unfold LengthT; simpl; lia).
  apply (searchBy_spec p comparer key Hswo _ _ live); try lia.
  - intros i e He. rewrite (represents_rd p _ _ _ i H), He. reflexivity.
  - exact Hasc.
  - unfold fuelOf. lia.
  - intros i e Hi He. apply lookup_lt_Some in He. lia.
Qed.

Lemma map_add_step (ok : bool) (k : Key) (v : Value) m live n :
  MapInv m live n -> Z.of_nat n < 2 ^ (wordBits p - 2) ->
  exists location m' live',
    FlatMap.add p comparer ok k v m = Some (location, m') /\
    MapInv m' live' (S n).
Proof.
  intros Hinv Hb.
  destruct (map_search m live n k Hinv ltac:(lia)) as (found & index & Hs & Hpost).
  destruct Hinv as ([spare H] & Hasc & Hn).
  pose proof (wordBits_ge p) as Hw.
  pose proof (MathFacts.pow2_split (wordBits p) ltac:(lia)) as (E1 & E2 & E3 & Hp).
  unfold FlatMap.add. rewrite Hs. cbn [mbind option_bind].
  destruct found; simpl in Hpost.
  - destruct Hpost as (e & He & Hcmp).
    rewrite (represents_rd p _ _ _ index H), He. cbn [mbind option_bind].
    eexists _, _, (<[index := mkPair (key e) v]> live).
    split; [reflexivity|]. repeat split.
    + exists spare. apply assign_spec; [exact H|].
      eapply lookup_lt_Some; exact He.
    + rewrite list_fmap_insert. cbn [key].
      rewrite list_insert_id by (rewrite list_lookup_fmap, He; reflexivity).
      exact Hasc.
    + rewrite length_insert. lia.
  - destruct Hpost as (Hidx & Hlo & Hhi).
    destruct (insert_spec p ok _ live spare index (mkPair k v) H Hidx)
      as (r & a' & Hins & Hr).
    { unfold MaxLength. lia. }
    rewrite Hins. cbn [mbind option_bind].
    destruct r.
    + destruct Hr as [spare' Hr].
      eexists _, _, _. split; [reflexivity|]. repeat split.
      * exists spare'. exact Hr.
      * rewrite fmap_app, fmap_cons, fmap_take, fmap_drop. cbn [key].
        apply asc_insert.
        -- apply (swo_trans _ Hswo).
        -- exact Hasc.
        -- rewrite length_fmap. exact Hidx.
        -- intros i x Hi Hx. rewrite list_lookup_fmap in Hx.
           destruct (live !! i) as [e|] eqn:He; [|discriminate].
           injection Hx as <-. eapply Hlo; eassumption.
        -- intros i x Hi Hx. rewrite list_lookup_fmap in Hx.
           destruct (live !! i) as [e|] eqn:He; [|discriminate].
           injection Hx as <-. apply (swo_flip _ Hswo). eapply Hhi; eassumption.
      * rewrite length_app, length_take. simpl. rewrite length_drop. lia.
    + subst a'. eexists _, _, live. split; [reflexivity|]. repeat split.
      * exists spare. destruct m. exact H.
      * exact Hasc.
      * lia.
Qed.

Lemma map_erase1 (index : Z) m live n :
  MapInv m live n ->
  exists r a' live',
    Array.erase1 p index (FlatMap._pairs m) = (r, a') /\
    MapInv (FlatMap.mk a') live' n.
Proof.
  intros ([spare H] & Hasc & Hn).
  destruct (Z_lt_le_dec index 0) as [Hneg|Hnn];
    [|destruct (Z_lt_le_dec index (Z.of_nat (length live))) as [Hin|Hout]].
  - exists false, (FlatMap._pairs m), live. split.
    + apply (erase1_out p _ live spare); [exact H|lia].
    + repeat split; [exists spare; exact H|exact Hasc|exact Hn].
  - destruct (erase1_spec p _ live spare (Z.to_nat index) H ltac:(lia))
      as (a' & spare' & He & Hr).
    rewrite Z2Nat.id in He by lia.
    exists true, a', (delete (Z.to_nat index) live). split; [exact He|].
    repeat split.
    + exists spare'. exact Hr.
    + rewrite list_fmap_delete. apply asc_delete. exact Hasc.
    + pose proof (length_delete live (Z.to_nat index)
                    (lookup_lt_is_Some_2 live (Z.to_nat index) ltac:(lia))). lia.
  - exists false, (FlatMap._pairs m), live. split.
    + apply (erase1_out p _ live spare); [exact H|lia].
    + repeat split; [exists spare; exact H|exact Hasc|exact Hn].
Qed.

Lemma map_step (op : MapOp Key Value) m live n :
  MapInv m live n -> Z.of_nat n < 2 ^ (wordBits p - 2) ->
  exists m' live', mapStep p comparer op m = Some m' /\ MapInv m' live' (S n).
Proof.
  intros Hinv Hb. destruct op as [ok k v|k|location]; unfold mapStep.
  - destruct (map_add_step ok k v m live n Hinv Hb) as (l & m' & live' & Ha & Hi).
    rewrite Ha. exists m', live'. split; [reflexivity|exact Hi].
  - destruct (map_search m live n k Hinv ltac:(lia)) as (found & index & Hs & _).
    unfold FlatMap.erase. rewrite Hs. cbn [mbind option_bind].
    destruct found.
    + destruct (map_erase1 (Z.of_nat index) m live n Hinv) as (r & a' & live' & He & Hi).
      rewrite He. exists (FlatMap.mk a'), live'. split; [reflexivity|].
      destruct Hi as (H1 & H2 & H3). repeat split; [exact H1|exact H2|lia].
    + exists m, live. split; [reflexivity|].
      destruct Hinv as (H1 & H2 & H3). repeat split; [exact H1|exact H2|lia].
  - unfold FlatMap.eraseAt. destruct (Location_bool location).
    + destruct (map_erase1 (index location) m live n Hinv) as (r & a' & live' & He & Hi).
      rewrite He. exists (FlatMap.mk a'), live'. split; [reflexivity|].
      destruct Hi as (H1 & H2 & H3). repeat split; [exact H1|exact H2|lia].
    + exists m, live. split; [reflexivity|].
      destruct Hinv as (H1 & H2 & H3). repeat split; [exact H1|exact H2|lia].
Qed.

Lemma map_run (ops : list (MapOp Key Value)) : forall m live n,
  MapInv m live n ->
  Z.of_nat (n + length ops) <= 2 ^ (wordBits p - 2) ->
  exists m' live',
    mapRun p comparer ops m = Some m' /\ MapInv m' live' (n + length ops).
Proof.
  induction ops as [|op ops IH]; intros m live n Hinv Hb.
  - exists m, live. split; [reflexivity|]. rewrite Nat.add_0_r. exact Hinv.
  - simpl in Hb. destruct (map_step op m live n Hinv ltac:(lia))
      as (m1 & live1 & Hs & Hi1).
    destruct (IH m1 live1 (S n) Hi1 ltac:(lia)) as (m' & live' & Hr & Hi').
    exists m', live'. split.
    + simpl. rewrite Hs. exact Hr.
    + replace (n + length (op :: ops))%nat with (S n + length ops)%nat
        by (simpl; lia).
      exact Hi'.
Qed.

(** Adding a key that is present overwrites its value where it is. *)
Lemma map_add_existing (ok : bool) (k : Key) (v : Value) m live n :
  MapInv m live n -> Z.of_nat n <= 2 ^ (wordBits p - 2) ->
  FlatMap.exists_ p comparer k m = Some true ->
  exists location m',
    FlatMap.add p comparer ok k v m = Some (location, m') /\
    mapKeys p m' = mapKeys p m /\
    FlatMap.value_of p comparer k m' = Some (Some v).
Proof.
  intros Hinv Hb Hex.
  destruct (map_search m live n k Hinv Hb) as (found & index & Hs & Hpost).
  unfold FlatMap.exists_ in Hex. rewrite Hs in Hex. simpl in Hex.
  injection Hex as ->. destruct Hpost as (e & He & Hcmp).
  destruct Hinv as ([spare H] & Hasc & Hn).
  unfold FlatMap.add. rewrite Hs. cbn [mbind option_bind].
  rewrite (represents_rd p _ _ _ index H), He. cbn [mbind option_bind].
  eexists _, _. split; [reflexivity|].
  pose proof (lookup_lt_Some _ _ _ He) as Hlt.
  pose proof (assign_spec p _ live spare index (mkPair (key e) v) H Hlt) as H'.
  split.
  - unfold mapKeys. cbn [FlatMap._pairs].
    rewrite (represents_elements p _ _ _ H), (represents_elements p _ _ _ H').
    rewrite <- !list_fmap_compose, list_fmap_insert. cbn [compose fmap option_fmap option_map key].
    apply list_insert_id. rewrite list_lookup_fmap, He. reflexivity.
  - unfold FlatMap.value_of, FlatMap.search in *.
    cbn [FlatMap._pairs Array._data] in *.
    replace (Array.length p {|
               Array._data := wr (Array._data (FlatMap._pairs m)) (Z.of_nat index)
                                (Some (mkPair (key e) v));
               Array._capacity := Array._capacity (FlatMap._pairs m);
               Array._length := Array._length (FlatMap._pairs m) |})
      with (Array.length p (FlatMap._pairs m)) by reflexivity.
    rewrite FlatMap_searchLoop_searchBy in *.
    rewrite (searchBy_keys p comparer key _ _ (Array._data (FlatMap._pairs m))).
    + rewrite Hs. cbn [mbind option_bind].
      rewrite rd_wr. destruct H as (Hd & _).
      rewrite Hd, length_app, length_fmap.
      destruct (Z.leb_spec 0 (Z.of_nat index)); [|lia].
      rewrite Z.eqb_refl.
      destruct (Z.ltb_spec (Z.of_nat index) (Z.of_nat (length live + length spare)));
        [|lia].
      reflexivity.
    + intros i. rewrite rd_wr.
      destruct ((0 <=? Z.of_nat index) && (Z.of_nat index =? i) && _) eqn:Hc;
        [|reflexivity].
      apply andb_true_iff in Hc as [Hc _]. apply andb_true_iff in Hc as [_ Hc].
      apply Z.eqb_eq in Hc. subst i.
      rewrite (represents_rd p _ _ _ index H), He. reflexivity.
Qed.

End Map.

Section Set_.
Context {Value : Type} (comparer : Value -> Value -> Z)
  (Hswo : StrictWeakOrder comparer).
Implicit Types (s : FlatSet.t Value) (live : list Value).

Definition SetInv s live (n : nat) : Prop :=
  (exists spare, represents p (FlatSet._values s) live spare) /\
  asc comparer live /\ (length live <= n)%nat.

Lemma setValues_live s live n : SetInv s live n -> setValues p s = Some <$> live.
Proof.
  intros ([spare H] & _). unfold setValues. apply (represents_elements p _ _ _ H).
Qed.

Lemma set_search s live n (v : Value) :
  SetInv s live n -> Z.of_nat n <= 2 ^ (wordBits p - 2) ->
  exists found index,
    FlatSet.search p comparer v s = Some (found, Z.of_nat index) /\
    searchPost comparer id live v found index.
Proof.
  intros ([spare H] & Hasc & Hn) Hb. unfold FlatSet.search.
  rewrite FlatSet_searchLoop_searchBy, (represents_length p _ _ _ H).
  pose proof (wordBits_ge p) as Hw.
  pose proof (MathFacts.pow2_split (wordBits p) ltac:(lia)) as (E1 & E2 & E3 & Hp).
  rewrite wrap_inRange by (unfold LengthT; simpl; lia).
  apply (searchBy_spec p comparer id Hswo _ _ live); try lia.
  - intros i e He. rewrite (represents_rd p _ _ _ i H), He. reflexivity.
  - rewrite list_fmap_id. exact Hasc.
  - unfold fuelOf. lia.
  - intros i e Hi He. apply lookup_lt_Some in He. lia.
Qed.

(** The insertion shared by [add] and [update] when the value is absent. *)
Lemma set_insert (ok : bool) (v : Value) (index : nat) s live n :
  SetInv s live n -> Z.of_nat n < 2 ^ (wordBits p - 2) ->
  searchPost comparer id live v false index ->
  exists r a' live',
    Array.insert p ok (Z.of_nat index) v (FlatSet._values s) = Some (r, a') /\
    SetInv (FlatSet.mk a') live' (S n).
Proof.
  intros ([spare H] & Hasc & Hn) Hb (Hidx & Hlo & Hhi).
  pose proof (wordBits_ge p) as Hw.
  pose proof (MathFacts.pow2_split (wordBits p) ltac:(lia)) as (E1 & E2 & E3 & Hp).
  destruct (insert_spec p ok _ live spare index v H Hidx) as (r & a' & Hins & Hr).
  { unfold MaxLength. lia. }
  exists r, a'. destruct r.
  - destruct Hr as [spare' Hr]. eexists. split; [exact Hins|]. repeat split.
    + exists spare'. exact Hr.
    + apply asc_insert.
      * apply (swo_trans _ Hswo).
      * exact Hasc.
      * exact Hidx.
      * intros i x Hi Hx. eapply Hlo; eassumption.
      * intros i x Hi Hx. apply (swo_flip _ Hswo). eapply Hhi; eassumption.
    + rewrite length_app, length_take. simpl. rewrite length_drop. lia.
  - subst a'. exists live. split; [exact Hins|]. repeat split.
    + exists spare. exact H.
    + exact Hasc.
    + lia.
Qed.

Lemma set_erase1 (index : Z) s live n :
  SetInv s live n ->
  exists r a' live',
    Array.erase1 p index (FlatSet._values s) = (r, a') /\
    SetInv (FlatSet.mk a') live' n.
Proof.
  intros ([spare H] & Hasc & Hn).
  destruct (Z_lt_le_dec index 0) as [Hneg|Hnn];
    [|destruct (Z_lt_le_dec index (Z.of_nat (length live))) as [Hin|Hout]].
  - exists false, (FlatSet._values s), live. split.
    + apply (erase1_out p _ live spare); [exact H|lia].
    + repeat split; [exists spare; exact H|exact Hasc|exact Hn].
  - destruct (erase1_spec p _ live spare (Z.to_nat index) H ltac:(lia))
      as (a' & spare' & He & Hr).
    rewrite Z2Nat.id in He by lia.
    exists true, a', (delete (Z.to_nat index) live). split; [exact He|].
    repeat split.
    + exists spare'. exact Hr.
    + apply asc_delete. exact Hasc.
    + pose proof (length_delete live (Z.to_nat index)
                    (lookup_lt_is_Some_2 live (Z.to_nat index) ltac:(lia))). lia.
  - exists false, (FlatSet._values s), live. split.
    + apply (erase1_out p _ live spare); [exact H|lia].
    + repeat split; [exists spare; exact H|exact Hasc|exact Hn].
Qed.

Lemma set_step (op : SetOp Value) s live n :
  SetInv s live n -> Z.of_nat n < 2 ^ (wordBits p - 2) ->
  exists s' live', setStep p comparer op s = Some s' /\ SetInv s' live' (S n).
Proof.
  intros Hinv Hb.
  assert (SetInv s live (S n)) as Hinv'.
  { destruct Hinv as (H1 & H2 & H3). repeat split; [exact H1|exact H2|lia]. }
  destruct op as [ok v|ok v|v|location]; unfold setStep.
  - destruct (set_search s live n v Hinv ltac:(lia)) as (found & index & Hs & Hpost).
    unfold FlatSet.add. rewrite Hs. cbn [mbind option_bind].
    destruct found; cbn [negb].
    + exists s, live. split; [reflexivity|exact Hinv'].
    + destruct (set_insert ok v index s live n Hinv Hb Hpost)
        as (r & a' & live' & Hins & Hi).
      rewrite Hins. exists (FlatSet.mk a'), live'. split; [reflexivity|exact Hi].
  - destruct (set_search s live n v Hinv ltac:(lia)) as (found & index & Hs & Hpost).
    unfold FlatSet.update. rewrite Hs. cbn [mbind option_bind].
    destruct found; cbn [negb].
    + destruct Hpost as (e & He & Hcmp). simpl in Hcmp.
      destruct Hinv as ([spare H] & Hasc & Hn).
      eexists _, (<[index := v]> live). split; [reflexivity|]. repeat split.
      * exists spare. apply assign_spec; [exact H|].
        eapply lookup_lt_Some; exact He.
      * eapply asc_replace; eassumption.
      * rewrite length_insert. lia.
    + destruct (set_insert ok v index s live n Hinv Hb Hpost)
        as (r & a' & live' & Hins & Hi).
      rewrite Hins. exists (FlatSet.mk a'), live'. split; [reflexivity|exact Hi].
  - destruct (set_search s live n v Hinv ltac:(lia)) as (found & index & Hs & _).
    unfold FlatSet.erase. rewrite Hs. cbn [mbind option_bind].
    destruct found.
    + destruct (set_erase1 (Z.of_nat index) s live n Hinv) as (r & a' & live' & He & Hi).
      rewrite He. exists (FlatSet.mk a'), live'. split; [reflexivity|].
      destruct Hi as (H1 & H2 & H3). repeat split; [exact H1|exact H2|lia].
    + exists s, live. split; [reflexivity|exact Hinv'].
  - unfold FlatSet.eraseAt.
    destruct (set_erase1 (index location) s live n Hinv) as (r & a' & live' & He & Hi).
    rewrite He. exists (FlatSet.mk a'), live'. split; [reflexivity|].
    destruct Hi as (H1 & H2 & H3). repeat split; [exact H1|exact H2|lia].
Qed.

Lemma set_run (ops : list (SetOp Value)) : forall s live n,
  SetInv s live n ->
  Z.of_nat (n + length ops) <= 2 ^ (wordBits p - 2) ->
  exists s' live',
    setRun p comparer ops s = Some s' /\ SetInv s' live' (n + length ops).
Proof.
  induction ops as [|op ops IH]; intros s live n Hinv Hb.
  - exists s, live. split; [reflexivity|]. rewrite Nat.add_0_r. exact Hinv.
  - simpl in Hb. destruct (set_step op s live n Hinv ltac:(lia))
      as (s1 & live1 & Hs & Hi1).
    destruct (IH s1 live1 (S n) Hi1 ltac:(lia)) as (s' & live' & Hr & Hi').
    exists s', live'. split.
    + simpl. rewrite Hs. exact Hr.
    + replace (n + length (op :: ops))%nat with (S n + length ops)%nat
        by (simpl; lia).
      exact Hi'.
Qed.

End Set_.
Lemma noDuplicates_Some {K : Type} (comparer : K -> K -> Z) (ks : list K) :
  StrictWeakOrder comparer -> asc comparer ks -> noDuplicates comparer (Some <$> ks).
Proof.
  intros Hswo H i j x y Hij Hx Hy. rewrite list_lookup_fmap in Hx, Hy.
  destruct (ks !! i) as [kx|] eqn:Ex; [|discriminate].
  destruct (ks !! j) as [ky|] eqn:Ey; [|discriminate].
  injection Hx as ->. injection Hy as ->.
  eapply (asc_distinct comparer Hswo ks i j); eassumption.
Qed.

(** C7: after every sequence of [FlatMap::add] and [erase], and of
    [FlatSet::add], [update] and [erase], on a container that starts empty
    and whose comparer is a strict weak ordering, every operation returns,
    iteration visits the keys in strictly ascending order and no two keys
    are equivalent; adding a key that is present leaves the keys as they are
    and stores the new value under it.  The sequences considered are those
    of at most [2 ^ (w - 2)] operations, [w] the width of [Length]: up to
    that many elements the sum [left + right] in [search] cannot overflow. *)
Theorem flat_containers_stay_sorted {Key Value : Type}
    (comparer : Key -> Key -> Z) :
  StrictWeakOrder comparer ->
  (forall ops : list (MapOp Key Value),
     Z.of_nat (length ops) <= 2 ^ (wordBits p - 2) ->
     exists m,
       mapRun p comparer ops (FlatMap.mk Array.empty) = Some m /\
       ascending comparer (mapKeys p m) /\
       noDuplicates comparer (mapKeys p m) /\
       (forall ok k v,
          FlatMap.exists_ p comparer k m = Some true ->
          exists location m',
            FlatMap.add p comparer ok k v m = Some (location, m') /\
            mapKeys p m' = mapKeys p m /\
            FlatMap.value_of p comparer k m' = Some (Some v))) /\
  (forall ops : list (SetOp Key),
     Z.of_nat (length ops) <= 2 ^ (wordBits p - 2) ->
     exists s,
       setRun p comparer ops (FlatSet.mk Array.empty) = Some s /\
       ascending comparer (setValues p s) /\
       noDuplicates comparer (setValues p s)).
Proof.
  intros Hswo. split; intros ops Hb.
  - assert (MapInv comparer (FlatMap.mk (@Array.empty (Pair Key Value))) [] 0) as H0.
    { repeat split; [exists []; apply represents_empty|apply asc_nil|simpl; lia]. }
    destruct (map_run comparer Hswo ops _ _ _ H0 ltac:(simpl; lia))
      as (m & live & Hr & Hinv).
    exists m. split; [exact Hr|].
    pose proof (mapKeys_live comparer m live _ Hinv) as Ek.
    destruct Hinv as (Hrep & Hasc & Hn).
    split; [rewrite Ek; apply ascending_Some; exact Hasc|].
    split; [rewrite Ek; apply noDuplicates_Some; assumption|].
    intros ok k v Hex.
    apply (map_add_existing comparer Hswo ok k v m live (0 + length ops));
      [repeat split; assumption|simpl; lia|exact Hex].
  - assert (SetInv comparer (FlatSet.mk (@Array.empty Key)) [] 0) as H0.
    { repeat split; [exists []; apply represents_empty|apply asc_nil|simpl; lia]. }
    destruct (set_run comparer Hswo ops _ _ _ H0 ltac:(simpl; lia))
      as (s & live & Hr & Hinv).
    exists s. split; [exact Hr|].
    rewrite (setValues_live comparer s live _ Hinv).
    destruct Hinv as (Hrep & Hasc & Hn).
    split; [apply ascending_Some; exact Hasc|].
    apply noDuplicates_Some; assumption.
Qed.

End FlatFacts.

Lemma flat_containers_stay_sorted_witness :
  StrictWeakOrder DefaultComparer_int /\
  exists m,
    mapRun X64 DefaultComparer_int
      [MapAdd true 5 1; MapAdd true 3 2; MapAdd false 9 3; MapAdd true 3 7;
       MapErase 5; MapEraseAt (mkLocation 0)]
      (FlatMap.mk Array.empty) = Some m /\
    ascending DefaultComparer_int (mapKeys X64 m).
Proof.
  split; [exact DefaultComparer_int_swo|].
  destruct (proj1 (@flat_containers_stay_sorted X64 Z Z DefaultComparer_int
                     DefaultComparer_int_swo)
              [MapAdd true 5 1; MapAdd true 3 2; MapAdd false 9 3; MapAdd true 3 7;
               MapErase 5; MapEraseAt (mkLocation 0)])
    as (m & Hr & Hasc & _).
  - vm_compute. discriminate.
  - exists m. split; [exact Hr|exact Hasc].
Defined.

End FlatFacts.

(** ** Stream::copy: what is returned when a transfer fails *)

Module StreamFacts.
Import Stream.

Lemma pollute_polluted (status' : Z) : operator_bool (pollute status') = false.
Proof.
  unfold operator_bool, pollute, Pollute.
  destruct (Z.eqb_spec (Z.land (Z.lor status' 128) 128) 0) as [E|]; [|reflexivity].
  exfalso.
  assert (Z.testbit (Z.land (Z.lor status' 128) 128) 7 = true) as Hb.
  { rewrite Z.land_spec, Z.lor_spec. change 128 with (2 ^ 7).
    rewrite Z.pow2_bits_true by lia. rewrite orb_true_r. reflexivity. }
  rewrite E, Z.bits_0 in Hb. discriminate.
Qed.

Lemma pollute_idem (status' : Z) :
  operator_bool status' = false -> operator_bool (pollute status') = false.
Proof. intros _. apply pollute_polluted. Qed.

Lemma wrap_Offset_add (a b : Z) :
  wrap OffsetT (wrap OffsetT a + b) = wrap OffsetT (a + b).
Proof.
  unfold wrap, OffsetT.
  replace ((a + 2 ^ (64 - 1)) mod 2 ^ 64 - 2 ^ (64 - 1) + b + 2 ^ (64 - 1))
    with ((a + 2 ^ (64 - 1)) mod 2 ^ 64 + b) by lia.
  rewrite Z.add_mod_idemp_l by lia. f_equal. f_equal. lia.
Qed.

Section Copy.
Context (p : Platform) {Src Dst : Type} `{Ops Src} `{Ops Dst}.

(** The exact counter is a sum of non-negative read results, and
    [totalBytesRead] is that sum reduced to 64 bits. *)
Definition counted (st : Loop (Src := Src) (Dst := Dst)) : Prop :=
  0 <= bytesReadExact st /\ totalBytesRead st = wrap OffsetT (bytesReadExact st).

Lemma readStep_counted (size' blockSize : Z) (st st' : Loop) (failed : bool) :
  counted st -> readStep p size' blockSize st = (failed, st') -> counted st'.
Proof.
  intros [Hn Ht]. unfold readStep.
  destruct ((storedBytes st <? blockSize) && available st).
  - destruct (read (source st) _) as [[bytesRead data] source'].
    destruct (Z.ltb_spec bytesRead 0); intros [= _ <-]; split; simpl; try lia;
      try assumption.
    rewrite Ht. apply wrap_Offset_add.
  - intros [= _ <-]. split; assumption.
Qed.

Lemma copyLoop_counted (fuel : nat) (size' blockSize : Z) :
  forall (st st' : Loop) (e : LoopExit),
    counted st -> copyLoop p fuel size' blockSize st = Some (e, st') -> counted st'.
Proof.
  induction fuel as [|fuel IH]; intros st st' e Hc; [discriminate|].
  simpl. destruct (readStep p size' blockSize st) as [failed st1] eqn:Hr.
  pose proof (readStep_counted _ _ _ _ _ Hc Hr) as Hc1.
  destruct failed; [intros [= _ <-]; exact Hc1|].
  destruct (negb (storedBytes st1 =? 0)); [|intros [= _ <-]; exact Hc1].
  destruct (write (dest st1) _) as [bytesWritten dest'].
  destruct (bytesWritten <=? 0).
  - intros [= _ <-]. exact Hc1.
  - apply IH. exact Hc1.
Qed.

(** The answer of the loop does not depend on the fuel once there is
    enough of it. *)
Lemma copyLoop_more_fuel (fuel extra : nat) (size' blockSize : Z) :
  forall (st : Loop (Src := Src) (Dst := Dst)) (r : LoopExit * Loop),
    copyLoop p fuel size' blockSize st = Some r ->
    copyLoop p (fuel + extra) size' blockSize st = Some r.
Proof.
  induction fuel as [|fuel IH]; intros st r; [discriminate|].
  simpl. destruct (readStep p size' blockSize st) as [failed st1].
  destruct failed; [auto|].
  destruct (negb (storedBytes st1 =? 0)); [|auto].
  destruct (write (dest st1) _) as [bytesWritten dest'].
  destruct (bytesWritten <=? 0); [auto|]. apply IH.
Qed.

Lemma copy_more_fuel (fuel extra : nat) (malloc : Z -> option (list Z))
    (_status : Z) (this : Dst) (source' : Src) (size' blockSize : Z)
    (o : Outcome (Src := Src) (Dst := Dst)) :
  copy p fuel malloc _status this source' size' blockSize = Some o ->
  copy p (fuel + extra) malloc _status this source' size' blockSize = Some o.
Proof.
  unfold copy.
  destruct (position source') as [position' source1].
  destruct (size source1) as [sourceSize source2].
  match goal with |- context [malloc ?b] => set (blockSize' := b) end.
  destruct ((0 <? blockSize') && (0 <=? size')); [|auto].
  destruct (malloc blockSize') as [buffer'|]; [|auto].
  destruct (copyLoop p fuel size' blockSize' _) as [r|] eqn:Hloop; [|discriminate].
  rewrite (copyLoop_more_fuel _ extra _ _ _ _ Hloop). auto.
Qed.

End Copy.

(** The bytes that the logged calls delivered or accepted: the sum of the
    results that are not error codes. *)
Definition accepted (results : list Z) : Z :=
  foldr (fun r acc => Z.max 0 r + acc) 0 results.

Lemma accepted_snoc (results : list Z) (r : Z) :
  accepted (results ++ [r]) = accepted results + Z.max 0 r.
Proof.
  unfold accepted. induction results as [|x results IH]; simpl; [lia|].
  rewrite IH. lia.
Qed.

(** The block size [copy] settles on before it asks for the buffer. *)
Definition effectiveBlockSize (p : Platform) (position' sourceSize size' blockSize : Z)
    : Z :=
  if (0 <=? position') && (0 <? sourceSize) then
    wrap (StreamSizeT p)
      (Math.max
         (Math.min (Math.min (wrap OffsetT (sourceSize - position')) blockSize)
                   (if 0 <? size' then size' else blockSize))
         0)
  else blockSize.

Section CopyLogged.
Context (p : Platform) {Src Dst : Type} `{Ops Src} `{Ops Dst}.

Local Abbreviation LLoop := (Loop (Src := Logged Src) (Dst := Logged Dst)).

(** Up to an error every read result is a byte count and every write result
    is positive, and the exact counter is the sum of the read results. *)
Definition clean (st : LLoop) : Prop :=
  Forall (fun r => 0 <= r) (readResults (source st)) /\
  Forall (fun w => 0 < w) (writeResults (dest st)) /\
  bytesReadExact st = accepted (readResults (source st)).

Local Abbreviation reads st := (Datatypes.length (readResults (source st))).

Lemma readStep_logged (size' blockSize : Z) (st st' : LLoop) (failed : bool) :
  clean st -> readStep p size' blockSize st = (failed, st') ->
  dest st' = dest st /\
  bytesReadExact st' = accepted (readResults (source st')) /\
  (reads st <= reads st')%nat /\
  ((storedBytes st <? blockSize) && available st = true ->
   (reads st < reads st')%nat) /\
  (if failed
   then Exists (fun r => r < 0) (readResults (source st'))
   else Forall (fun r => 0 <= r) (readResults (source st'))).
Proof.
  intros (Hr & Hw & Hc). unfold readStep.
  destruct ((storedBytes st <? blockSize) && available st).
  - cbn [read Logged_Ops].
    destruct (read (inner (source st)) _) as [[bytesRead data] source'].
    destruct (Z.ltb_spec bytesRead 0) as [Hneg|Hpos]; intros [= <- <-];
      cbn [dest source bytesReadExact readResults];
      rewrite accepted_snoc, length_app; cbn [Datatypes.length];
      (split; [reflexivity|]); (split; [lia|]); (split; [lia|]);
      (split; [intros _; lia|]).
    + apply Exists_app. right. constructor. exact Hneg.
    + apply Forall_app. split; [exact Hr|]. constructor; [exact Hpos|constructor].
  - intros [= <- <-]. split; [reflexivity|]. split; [exact Hc|].
    split; [lia|]. split; [discriminate|exact Hr].
Qed.

(** How the loop was left, read off the logs of the two streams. *)
Lemma copyLoop_logged (fuel : nat) (size' blockSize : Z) :
  forall (st st' : LLoop) (e : LoopExit),
    clean st -> copyLoop p fuel size' blockSize st = Some (e, st') ->
    bytesReadExact st' = accepted (readResults (source st')) /\
    (reads st <= reads st')%nat /\
    ((storedBytes st <? blockSize) && available st = true ->
     (reads st < reads st')%nat) /\
    match e with
    | ReadError =>
        Exists (fun r => r < 0) (readResults (source st'))
    | WriteError =>
        Exists (fun w => w <= 0) (writeResults (dest st'))
    | Finished =>
        Forall (fun r => 0 <= r) (readResults (source st')) /\
        Forall (fun w => 0 < w) (writeResults (dest st'))
    end.
Proof.
  induction fuel as [|fuel IH]; intros st st' e Hclean; [discriminate|].
  simpl. destruct (readStep p size' blockSize st) as [failed st1] eqn:Hrs.
  destruct (readStep_logged _ _ _ _ _ Hclean Hrs) as (Hd & Hc1 & Hle & Hlt & Hf).
  pose proof Hclean as (Hr & Hw & Hc).
  destruct failed.
  - intros [= <- <-]. split; [exact Hc1|]. split; [exact Hle|].
    split; [exact Hlt|exact Hf].
  - destruct (negb (storedBytes st1 =? 0)).
    + cbn [write Logged_Ops]. rewrite Hd.
      destruct (write (inner (dest st)) _) as [bytesWritten dest'].
      destruct (Z.leb_spec bytesWritten 0) as [Hbad|Hgood].
      * intros [= <- <-]. cbn [bytesReadExact source dest writeResults].
        split; [exact Hc1|]. split; [exact Hle|]. split; [exact Hlt|].
        apply Exists_app. right. constructor. exact Hbad.
      * intros Hloop.
        match type of Hloop with
        | copyLoop _ _ _ _ ?s = _ => set (st2 := s) in *
        end.
        assert (clean st2) as Hclean2.
        { unfold clean, st2. cbn [source dest bytesReadExact writeResults].
          split; [exact Hf|]. split; [|exact Hc1].
          apply Forall_app. split; [exact Hw|].
          constructor; [exact Hgood|constructor]. }
        destruct (IH _ _ _ Hclean2 Hloop) as (I1 & I2 & _ & I3).
        assert (reads st2 = reads st1) as E12 by reflexivity.
        split; [exact I1|]. split; [lia|]. split; [|exact I3].
        intros Hfirst. specialize (Hlt Hfirst). lia.
    + intros [= <- <-]. split; [exact Hc1|]. split; [exact Hle|].
      split; [exact Hlt|]. split; [exact Hf|]. rewrite Hd. exact Hw.
Qed.

(** C2 (amended): a call of [copy] in which a read returned a negative
    result or a write a non-positive one sets the destination's pollute bit
    and returns a count that is not negative, hence never [Failure], also
    when no byte was transferred; when every byte read had been written, the
    count is the number of bytes transferred.  [Failure] is returned exactly
    when [copy] gives up before its first read, which is when the block size
    it settles on is not positive, [size] is negative or there is no memory
    for the buffer; the destination is polluted then too and nothing was
    written.  The reads and writes are those the two streams have seen; the
    count of bytes read is taken to stay below [2 ^ 63], the range of
    [Offset]. *)
Theorem copy_error_outcome (fuel : nat) (malloc : Z -> option (list Z))
    (_status : Z) (this : Dst) (source' : Src) (size' blockSize : Z)
    (o : Outcome (Src := Logged Src) (Dst := Logged Dst)) :
  copy p fuel malloc _status (mkLogged this [] []) (mkLogged source' [] [])
    size' blockSize = Some o ->
  accepted (readResults (sourceAfter o)) < 2 ^ 63 ->
  (Exists (fun r => r < 0) (readResults (sourceAfter o)) \/
   Exists (fun w => w <= 0) (writeResults (destAfter o)) ->
     operator_bool (status o) = false /\
     0 <= result o /\ result o <> Failure /\
     (accepted (readResults (sourceAfter o)) = accepted (writeResults (destAfter o)) ->
      result o = accepted (writeResults (destAfter o)))) /\
  (result o = Failure <-> readResults (sourceAfter o) = []) /\
  (readResults (sourceAfter o) = [] <->
     ~ (0 < effectiveBlockSize p (fst (position source'))
              (fst (size (snd (position source')))) size' blockSize /\
        0 <= size' /\
        is_Some (malloc (effectiveBlockSize p (fst (position source'))
                           (fst (size (snd (position source')))) size' blockSize)))) /\
  (readResults (sourceAfter o) = [] ->
     operator_bool (status o) = false /\ writeResults (destAfter o) = []).
Proof.
  unfold copy. cbn [position size Logged_Ops inner readResults writeResults].
  destruct (position source') as [position' source1].
  cbn [fst snd size Logged_Ops inner readResults writeResults].
  destruct (size source1) as [sourceSize source2].
  cbn [fst snd inner readResults writeResults].
  fold (effectiveBlockSize p position' sourceSize size' blockSize).
  set (bs := effectiveBlockSize p position' sourceSize size' blockSize).
  assert (~ (0 < bs /\ 0 <= size' /\ is_Some (malloc bs)) ->
          Some (mkOutcome Failure (pollute _status) (mkLogged this [] [])
                  (mkLogged source2 [] []) None 0) = Some o ->
          accepted (readResults (sourceAfter o)) < 2 ^ 63 ->
          (Exists (fun r => r < 0) (readResults (sourceAfter o)) \/
           Exists (fun w => w <= 0) (writeResults (destAfter o)) ->
             operator_bool (status o) = false /\
             0 <= result o /\ result o <> Failure /\
             (accepted (readResults (sourceAfter o))
              = accepted (writeResults (destAfter o)) ->
              result o = accepted (writeResults (destAfter o)))) /\
          (result o = Failure <-> readResults (sourceAfter o) = []) /\
          (readResults (sourceAfter o) = [] <->
             ~ (0 < bs /\ 0 <= size' /\ is_Some (malloc bs))) /\
          (readResults (sourceAfter o) = [] ->
             operator_bool (status o) = false /\ writeResults (destAfter o) = []))
    as Hnot.
  { intros Hno [= <-] _.
    cbn [result status sourceAfter destAfter readResults writeResults].
    split; [intros [E|E]; inversion E|].
    split; [split; reflexivity|].
    split; [split; [intros _; exact Hno|reflexivity]|].
    intros _. split; [apply pollute_polluted|reflexivity]. }
  destruct (Z.ltb_spec 0 bs) as [Hbs|Hbs]; cbn [andb];
    [|apply Hnot; intros (? & _); lia].
  destruct (Z.leb_spec 0 size') as [Hsz|Hsz];
    [|apply Hnot; intros (_ & ? & _); lia].
  destruct (malloc bs) as [buffer'|] eqn:Hm;
    [|apply Hnot; intros (_ & _ & [x Hx]); discriminate].
  clear Hnot.
  destruct (copyLoop p fuel size' bs _) as [[e st]|] eqn:Hloop; [|discriminate].
  cbn [mbind option_bind]. intros [= <-].
  cbn [result status sourceAfter destAfter]. intros Hfit.
  set (st0 := mkLoop 0 0 true buffer' (mkLogged source2 [] []) (mkLogged this [] []) 0)
    in *.
  assert (counted st0) as Hstart by (split; [simpl; lia|reflexivity]).
  destruct (copyLoop_counted _ _ _ _ _ _ _ Hstart Hloop) as [Hn Ht].
  assert (clean st0) as Hclean.
  { unfold clean, st0. cbn [source dest readResults writeResults bytesReadExact].
    split; [constructor|]. split; [constructor|reflexivity]. }
  destruct (copyLoop_logged _ _ _ _ _ _ Hclean Hloop) as (Hacc & _ & Hfirst & Hexit).
  assert ((0 < Datatypes.length (readResults (source st)))%nat) as Hread.
  { apply Hfirst. unfold st0. cbn [storedBytes available].
    destruct (Z.ltb_spec 0 bs); [reflexivity|lia]. }
  assert (readResults (source st) <> []) as Hne
    by (intros E; rewrite E in Hread; simpl in Hread; lia).
  assert (totalBytesRead st = bytesReadExact st) as Et.
  { rewrite Ht. apply wrap_inRange. unfold OffsetT. simpl. lia. }
  assert (totalBytesRead st <> Failure) as Hnf by (unfold Failure; lia).
  destruct (Z.eqb_spec (totalBytesRead st) Failure) as [|_]; [contradiction|].
  split; [|split; [|split]].
  - intros Herr.
    assert (e <> Finished) as He.
    { intros ->. destruct Hexit as (Hr & Hw). destruct Herr as [E|E].
      - apply Exists_exists in E as (r & Hin & Hneg).
        rewrite Forall_forall in Hr. specialize (Hr r Hin). lia.
      - apply Exists_exists in E as (w & Hin & Hbad).
        rewrite Forall_forall in Hw. specialize (Hw w Hin). lia. }
    split; [destruct e; try contradiction; apply pollute_polluted|].
    split; [lia|]. split; [exact Hnf|]. intros E. lia.
  - split; [intros E; contradiction|intros E; contradiction].
  - split; [intros E; contradiction|].
    intros Hnot. exfalso. apply Hnot. split; [exact Hbs|]. split; [exact Hsz|].
    eexists. reflexivity.
  - intros E. contradiction.
Qed.

End CopyLogged.
(** C2 (as the specification states it) fails: when the first read of the
    source fails no byte has been transferred, and [copy] returns 0, not
    [Failure]. *)
Lemma copy_error_returns_count :
  exists o,
    copy X64 10 (fun n => Some (replicate (Z.to_nat n) 0)) 0
      (mkLogged (mkScripted 0 0 [] []) [] [])
      (mkLogged (mkScripted 0 0 [(-1, [])] []) [] []) 0 8192 = Some o /\
    readResults (sourceAfter o) = [-1] /\ writeResults (destAfter o) = [] /\
    result o = 0 /\ result o <> Failure /\ operator_bool (status o) = false.
Proof.
  eexists. split; [vm_compute; reflexivity|].
  cbn [sourceAfter destAfter readResults writeResults result status].
  repeat split; try reflexivity. discriminate.
Qed.

(** What the returned count is when bytes were read and not written: three
    bytes read, two of them written, and then a failing read give 3, where
    two bytes were copied. *)
Lemma copy_counts_unwritten_bytes :
  exists o,
    copy X64 10 (fun n => Some (replicate (Z.to_nat n) 0)) 0
      (mkLogged (mkScripted 0 0 [] [2; 1]) [] [])
      (mkLogged (mkScripted 0 0 [(3, [1; 2; 3]); (-1, [])] []) [] []) 0 8192 = Some o /\
    readResults (sourceAfter o) = [3; -1] /\ writeResults (destAfter o) = [2] /\
    result o = 3 /\ operator_bool (status o) = false.
Proof.
  eexists. split; [vm_compute; reflexivity|].
  cbn [sourceAfter destAfter readResults writeResults result status].
  repeat split; reflexivity.
Qed.

Lemma copy_error_outcome_witness :
  exists o,
    copy X64 10 (fun n => Some (replicate (Z.to_nat n) 0)) 0
      (mkLogged (mkScripted 0 0 [] [3]) [] [])
      (mkLogged (mkScripted 0 0 [(3, [1; 2; 3]); (-1, [])] []) [] []) 0 8192 = Some o /\
    accepted (readResults (sourceAfter o)) < 2 ^ 63 /\
    Exists (fun r => r < 0) (readResults (sourceAfter o)) /\
    operator_bool (status o) = false /\ 0 <= result o /\ result o <> Failure /\
    result o = accepted (writeResults (destAfter o)) /\
    accepted (writeResults (destAfter o)) = 3.
Proof.
  set (o := mkOutcome 3 128 (mkLogged (mkScripted 0 0 [] []) [] [3])
              (mkLogged (mkScripted 0 0 [] []) [3; -1] []) (Some ReadError) 3).
  assert (copy X64 10 (fun n => Some (replicate (Z.to_nat n) 0)) 0
            (mkLogged (mkScripted 0 0 [] [3]) [] [])
            (mkLogged (mkScripted 0 0 [(3, [1; 2; 3]); (-1, [])] []) [] []) 0 8192
          = Some o) as Hrun by (vm_compute; reflexivity).
  assert (accepted (readResults (sourceAfter o)) < 2 ^ 63) as Hfit
    by (vm_compute; reflexivity).
  assert (Exists (fun r => r < 0) (readResults (sourceAfter o))) as Herr
    by (change (Exists (fun r => r < 0) [3; -1]); right; left; lia).
  destruct (copy_error_outcome X64 10 (fun n => Some (replicate (Z.to_nat n) 0)) 0
              (mkScripted 0 0 [] [3])
              (mkScripted 0 0 [(3, [1; 2; 3]); (-1, [])] []) 0 8192 o
              Hrun Hfit) as (Hthm & _).
  destruct (Hthm (or_introl Herr)) as (Hp & H0 & Hf & Hr).
  exists o. split; [exact Hrun|]. split; [exact Hfit|]. split; [exact Herr|].
  split; [exact Hp|]. split; [exact H0|]. split; [exact Hf|].
  split; [apply Hr; vm_compute; reflexivity|vm_compute; reflexivity].
Defined.

End StreamFacts.
(** ** Bit fields and byte buffers *)

Lemma land_pow2 (a k : Z) :
  0 <= k -> Z.land a (2 ^ k) = if Z.testbit a k then 2 ^ k else 0.
Proof.
  intros Hk.
  destruct (Z.testbit a k) eqn:Hb;
    apply Z.bits_inj'; intros i Hi; rewrite Z.land_spec, ?Z.bits_0;
    rewrite Z.pow2_bits_eqb by lia;
    destruct (Z.eqb_spec k i) as [<-|];
    rewrite ?Hb, ?andb_false_r; reflexivity.
Qed.

Lemma testbit_small (a k i : Z) : 0 <= a < 2 ^ k -> k <= i -> Z.testbit a i = false.
Proof.
  intros Ha Hi. destruct (Z.eq_dec a 0) as [->|]; [apply Z.bits_0|].
  destruct (Z_lt_le_dec k 0); [rewrite Z.pow_neg_r in Ha by lia; lia|].
  apply Z.bits_above_log2; [lia|].
  assert (Z.log2 a < k) by (apply Z.log2_lt_pow2; lia). lia.
Qed.

Lemma land_pow2_small (a k : Z) : 0 <= k -> 0 <= a < 2 ^ k -> Z.land a (2 ^ k) = 0.
Proof.
  intros Hk Ha. rewrite land_pow2 by assumption.
  rewrite (testbit_small a k k) by (assumption || lia). reflexivity.
Qed.

Lemma land_lor_same (a b : Z) : Z.land (Z.lor a b) b = b.
Proof.
  apply Z.bits_inj'. intros i Hi. rewrite Z.land_spec, Z.lor_spec.
  destruct (Z.testbit a i), (Z.testbit b i); reflexivity.
Qed.

Lemma land_ones_small (a k : Z) : 0 <= k -> 0 <= a < 2 ^ k -> Z.land a (Z.ones k) = a.
Proof. intros Hk Ha. rewrite Z.land_ones by assumption. apply Z.mod_small, Ha. Qed.

Lemma wrap_range (t : IntType) (x : Z) :
  (match t with Signed w | Unsigned w => 0 < w end) -> inRange t (wrap t x).
Proof.
  destruct t as [w|w]; unfold wrap, inRange; intros Hw.
  - assert (2 ^ w = 2 * 2 ^ (w - 1)) as E
      by (rewrite <- Z.pow_succ_r by lia; f_equal; lia).
    assert (0 < 2 ^ (w - 1)) by (apply Z.pow_pos_nonneg; lia).
    pose proof (Z.mod_pos_bound (x + 2 ^ (w - 1)) (2 ^ w) ltac:(lia)). lia.
  - apply Z.mod_pos_bound. apply Z.pow_pos_nonneg; lia.
Qed.

Lemma blit_take0 (l src : list Z) (n : nat) :
  (n <= length src)%nat -> take n (blit l 0 src) = take n src.
Proof.
  intros Hn. unfold blit. change (take (Z.to_nat 0) l) with (@nil Z).
  cbn [app]. apply take_app_le. exact Hn.
Qed.

Section Blit.
Context (l : list Z) (at' : Z) (src : list Z).
Hypothesis Hfit : (Z.to_nat at' + length src <= length l)%nat.

Lemma blit_length : length (blit l at' src) = length l.
Proof.
  unfold blit. rewrite !length_app, length_take, length_drop. lia.
Qed.

Lemma blit_lookup_after (i : nat) :
  (Z.to_nat at' + length src <= i)%nat -> blit l at' src !! i = l !! i.
Proof.
  intros Hi. unfold blit.
  rewrite lookup_app_r by (rewrite length_take; lia).
  rewrite lookup_app_r by (rewrite length_take; lia).
  rewrite lookup_drop, length_take. f_equal. lia.
Qed.

Lemma blit_lookup_before (i : nat) :
  (i < Z.to_nat at')%nat -> blit l at' src !! i = l !! i.
Proof.
  intros Hi. unfold blit.
  rewrite lookup_app_l by (rewrite length_take; lia).
  apply lookup_take_lt. lia.
Qed.

Lemma blit_take_before (n : nat) :
  (n <= Z.to_nat at')%nat -> take n (blit l at' src) = take n l.
Proof.
  intros Hn. unfold blit.
  rewrite take_app_le by (rewrite length_take; lia).
  rewrite take_take. f_equal. lia.
Qed.

Lemma blit_written :
  take (length src) (drop (Z.to_nat at') (blit l at' src)) = src.
Proof.
  unfold blit. rewrite drop_app_length' by (rewrite length_take; lia).
  apply take_app_length.
Qed.

End Blit.
(** ** Capacity growth without a range precondition *)

Module GrowthFacts.
Import Math MathFacts.

Lemma clearLowest_inRange (t : IntType) (n : nat) (x r : Z) :
  inRange t x -> clearLowest t n x = Some r -> inRange t r.
Proof.
  revert x. induction n as [|n IH]; intros x Hr H; [discriminate|].
  simpl in H. destruct (isPowerOfTwo t x) eqn:Hp; [congruence|].
  destruct (Z_lt_le_dec 0 x) as [Hx|Hx].
  - destruct (clear_step t x Hr Hx Hp) as (_ & _ & Hr'). eapply IH; eassumption.
  - destruct (clear_step_nonpos t x Hr Hx) as [Hr' Hx'].
    rewrite clearLowest_stuck in H by assumption. discriminate.
Qed.

Lemma ceilPowerOfTwo_inRange (w x r : Z) :
  0 < w -> inRange (Signed w) x -> ceilPowerOfTwo (Signed w) x = Some r ->
  inRange (Signed w) r.
Proof.
  intros Hw Hx H. unfold ceilPowerOfTwo in H.
  destruct ((2 <? x) && negb (isPowerOfTwo (Signed w) x)); [|congruence].
  eapply clearLowest_inRange; [|exact H]. apply wrap_range. exact Hw.
Qed.

Lemma computeNextCapacity1_inRange (w c r : Z) :
  0 < w -> computeNextCapacity1 (Signed w) c = Some r -> inRange (Signed w) r.
Proof.
  intros Hw H. unfold computeNextCapacity1 in H.
  destruct ((c <? 16) || negb (isPowerOfTwo (Signed w) c)).
  - destruct (ceilPowerOfTwo (Signed w) (wrap (Signed w) (c + 1))) as [n|] eqn:Hn;
      cbn [mbind option_bind] in H; [|discriminate].
    apply ceilPowerOfTwo_inRange in Hn; [|exact Hw|apply wrap_range; exact Hw].
    destruct (wrap (Signed w) (n - c) <? c ÷ 3); injection H as <-;
      [apply wrap_range; exact Hw|exact Hn].
  - injection H as <-. apply wrap_range. exact Hw.
Qed.

(** Whenever the three-argument function returns for a positive request
    that [Length] can hold, the capacity it returns covers the request and
    is itself a [Length]; a request whose double no longer fits makes
    [ceilPowerOfTwo] loop on a negative operand. *)
Lemma computeNextCapacity_covers (w target current initial c : Z) :
  3 <= w -> 0 < target < 2 ^ (w - 1) ->
  computeNextCapacity (Signed w) target current initial = Some c ->
  target <= c < 2 ^ (w - 1).
Proof.
  intros Hw Ht H. set (t := Signed w) in *.
  pose proof (pow2_split w Hw) as (E1 & E2 & _).
  unfold computeNextCapacity in H.
  destruct (negb (current =? initial)); [|injection H as <-; lia].
  destruct (computeNextCapacity1 t current) as [next|] eqn:Hn;
    cbn [mbind option_bind] in H; [|discriminate].
  apply computeNextCapacity1_inRange in Hn; [|lia]. simpl in Hn.
  destruct (Z.ltb_spec next target) as [Hlt|Hge]; [|injection H as <-; lia].
  destruct (isPowerOfTwo t target) eqn:Hp; cbn [negb] in H;
    [injection H as <-; lia|].
  rewrite floorPowerOfTwo_some in H by (simpl; lia).
  cbn [mbind option_bind] in H.
  set (f := if 2 <? target then 2 ^ Z.log2 target else target) in H.
  pose proof (wrap_range t (f + f ÷ 2) ltac:(simpl; lia)) as Hwr. simpl in Hwr.
  destruct (Z.leb_spec target (wrap t (f + f ÷ 2))) as [Hle|Hgt];
    [injection H as <-; lia|].
  unfold ceilPowerOfTwo in H. rewrite Hp in H.
  destruct (Z.ltb_spec 2 target) as [H2|H2]; cbn [andb negb] in H;
    [|injection H as <-; lia].
  rewrite Z.shiftl_mul_pow2 in H by lia. change (2 ^ 1) with 2 in H.
  destruct (Z_lt_le_dec (target * 2) (2 ^ (w - 1))) as [Hfit|Hover].
  - rewrite wrap_inRange in H by (simpl; lia).
    rewrite clearLowest_enough in H by (simpl; lia).
    injection H as <-.
    replace (target * 2) with (target * 2 ^ 1) by (change (2 ^ 1) with 2; lia).
    rewrite Z.log2_mul_pow2 by lia.
    pose proof (Z.log2_spec target ltac:(lia)) as [Hlo Hhi].
    rewrite Z.pow_succ_r in Hhi by apply Z.log2_nonneg.
    rewrite Z.pow_add_r by (try apply Z.log2_nonneg; lia).
    change (2 ^ 1) with 2. lia.
  - exfalso.
    assert (wrap t (target * 2) = target * 2 - 2 ^ w) as Ew.
    { unfold t, wrap.
      replace (target * 2 + 2 ^ (w - 1))
        with (target * 2 - 2 ^ (w - 1) + 1 * 2 ^ w) by lia.
      rewrite Z.mod_add by lia. rewrite Z.mod_small by lia. lia. }
    rewrite clearLowest_stuck in H; [discriminate| |rewrite Ew; lia].
    apply wrap_range. simpl. lia.
Qed.

(** For a request up to a quarter of the span of [Length] the function
    does return. *)
Lemma computeNextCapacity_returns (w target current initial : Z) :
  6 <= w -> 0 <= current -> 0 < target < 2 ^ (w - 2) -> current < target ->
  exists c, computeNextCapacity (Signed w) target current initial = Some c.
Proof.
  intros Hw Hc Ht Hct. set (t := Signed w).
  pose proof (pow2_split w ltac:(lia)) as (E1 & E2 & E3 & Hp).
  assert (inRange t target) as Hrt by (simpl; lia).
  unfold computeNextCapacity.
  destruct (negb (current =? initial)); [|eauto].
  destruct (computeNextCapacity1_grows w current ltac:(lia) ltac:(lia))
    as (n & Hn & Hn1 & Hn2).
  fold t in Hn. rewrite Hn. cbn [mbind option_bind].
  destruct (n <? target); [|eauto].
  destruct (isPowerOfTwo t target); cbn [negb]; [eauto|].
  rewrite floorPowerOfTwo_some by assumption. cbn [mbind option_bind].
  match goal with |- context [if ?b then _ else _] => destruct b end; [eauto|].
  rewrite ceilPowerOfTwo_some by (assumption || (simpl; lia)). eauto.
Qed.

End GrowthFacts.

(** ** Strings: the bytes of the object *)

Module StrFacts.
Import Str.

Section Bytes.
Context (p : Platform).

Local Abbreviation W := (wordBits p).
Local Abbreviation wb := (wordBytes p).
Local Abbreviation E := (Z_to_little_endian (Z.of_nat (wordBytes p)) 8).
Local Abbreviation D := (little_endian_to_Z 8).

Lemma wordBytes_bits : Z.of_nat wb * 8 = W.
Proof. destruct p; reflexivity. Qed.

Lemma ShortLength_words : ShortLength p = 3 * Z.of_nat wb.
Proof. destruct p; reflexivity. Qed.

Lemma ShortLength_ge : 12 <= ShortLength p.
Proof. destruct p; simpl; lia. Qed.

Lemma ShortLength_le : ShortLength p <= 24.
Proof. destruct p; simpl; lia. Qed.

Lemma length_E (v : Z) : Datatypes.length (E v) = wb.
Proof. apply Nat2Z.inj. apply length_Z_to_little_endian. lia. Qed.

Lemma decode_E (v : Z) : 0 <= v < 2 ^ W -> D (E v) = v.
Proof.
  intros Hv. rewrite little_endian_to_Z_to_little_endian by lia.
  rewrite wordBytes_bits. apply Z.mod_small. exact Hv.
Qed.

Lemma top_byte (v : Z) :
  E v !! (wb - 1)%nat = Some (Z.land (v ≫ (W - 8)) (Z.ones 8)).
Proof.
  apply Z_to_little_endian_lookup_Some; [lia|lia|].
  split; [destruct p; simpl; lia|].
  f_equal. f_equal. destruct p; reflexivity.
Qed.

(** The object as its three words. *)
Definition chunks (b x0 x1 x2 : list Z) : Prop :=
  b = x0 ++ x1 ++ x2 /\
  Datatypes.length x0 = wb /\ Datatypes.length x1 = wb /\ Datatypes.length x2 = wb.

Lemma chunks_exist (b : list Z) :
  Z.of_nat (Datatypes.length b) = ShortLength p ->
  exists x0 x1 x2, chunks b x0 x1 x2.
Proof.
  intros Hl. rewrite ShortLength_words in Hl.
  exists (take wb b), (take wb (drop wb b)), (drop wb (drop wb b)).
  unfold chunks. rewrite !take_drop. rewrite !length_take, !length_drop.
  repeat split; lia.
Qed.

Lemma chunks_length (b x0 x1 x2 : list Z) :
  chunks b x0 x1 x2 -> Z.of_nat (Datatypes.length b) = ShortLength p.
Proof.
  intros (-> & H0 & H1 & H2). rewrite !length_app, ShortLength_words. lia.
Qed.

Lemma loadWord_chunks (s : t) (x0 x1 x2 : list Z) :
  chunks (_bytes s) x0 x1 x2 ->
  loadWord p 0 s = D x0 /\ loadWord p 1 s = D x1 /\ loadWord p 2 s = D x2.
Proof.
  intros (E0 & H0 & H1 & H2). unfold loadWord. rewrite E0.
  repeat split; f_equal.
  - rewrite Nat.mul_0_l, drop_0. rewrite take_app_length'; [reflexivity|lia].
  - rewrite Nat.mul_1_l. rewrite drop_app_length' by lia.
    rewrite take_app_length'; [reflexivity|lia].
  - rewrite drop_app_ge by lia. rewrite drop_app_length' by lia.
    apply take_ge. lia.
Qed.

Lemma storeWord_chunks (s : t) (v : Z) (x0 x1 x2 : list Z) :
  chunks (_bytes s) x0 x1 x2 ->
  chunks (_bytes (storeWord p 0 v s)) (E v) x1 x2 /\
  chunks (_bytes (storeWord p 1 v s)) x0 (E v) x2 /\
  chunks (_bytes (storeWord p 2 v s)) x0 x1 (E v).
Proof.
  intros (E0 & H0 & H1 & H2). unfold storeWord, chunks. cbn [_bytes].
  rewrite E0, !length_E.
  repeat split; try assumption.
  - rewrite Nat.mul_0_l, take_0, Nat.add_0_l, Nat.mul_1_l.
    rewrite drop_app_length' by lia. reflexivity.
  - rewrite Nat.mul_1_l. rewrite take_app_length' by lia.
    rewrite drop_app_ge by lia. rewrite drop_app_length' by lia. reflexivity.
  - rewrite take_app_ge by lia. rewrite take_app_length' by lia.
    rewrite drop_app_ge by lia. rewrite drop_app_ge by lia.
    rewrite drop_ge by lia. rewrite app_nil_r, <- app_assoc. reflexivity.
Qed.

Lemma getByte_top (s : t) (x0 x1 x2 : list Z) :
  chunks (_bytes s) x0 x1 x2 ->
  getByte (ShortLengthOffset p) s = default 0 (x2 !! (wb - 1)%nat).
Proof.
  intros (E0 & H0 & H1 & H2). unfold getByte. rewrite E0. f_equal.
  rewrite lookup_app_r by (unfold ShortLengthOffset; rewrite ShortLength_words; lia).
  rewrite lookup_app_r by (unfold ShortLengthOffset; rewrite ShortLength_words; lia).
  f_equal. unfold ShortLengthOffset. rewrite ShortLength_words.
  destruct p; simpl in *; lia.
Qed.


(** *** The two shapes of the object *)

Definition tag (s : t) : Z := getByte (ShortLengthOffset p) s.

(** A length byte without the long bit and with a length that leaves room
    for the terminator. *)
Definition tagOk (b : Z) : Prop :=
  0 <= b < 128 /\ Z.land b (ShortLengthMask) <= ShortCapacity p - NullLength.

(** Short: [ShortLength] bytes, the last one such a length byte. *)
Definition shortOk (s : t) : Prop :=
  Z.of_nat (Datatypes.length (_bytes s)) = ShortLength p /\ tagOk (tag s).

(** Long: three words, [w1] the capacity word and [w2] the length word,
    which carries the long bit. *)
Definition longOk (s : t) (w1 w2 : Z) : Prop :=
  exists w0, _bytes s = E w0 ++ E w1 ++ E w2 /\
    0 <= w1 < 2 ^ W /\ 0 <= w2 < 2 ^ W /\ Z.testbit w2 (W - 1) = true.

Definition wf (s : t) : Prop := shortOk s \/ exists w1 w2, longOk s w1 w2.

Lemma longOk_chunks (s : t) (w1 w2 : Z) :
  longOk s w1 w2 -> exists w0, chunks (_bytes s) (E w0) (E w1) (E w2).
Proof.
  intros (w0 & Eb & _). exists w0. unfold chunks. rewrite !length_E. auto.
Qed.

Lemma longOk_length (s : t) (w1 w2 : Z) :
  longOk s w1 w2 -> Z.of_nat (Datatypes.length (_bytes s)) = ShortLength p.
Proof. intros H. apply longOk_chunks in H as (w0 & H). eapply chunks_length, H. Qed.

Lemma wf_length (s : t) :
  wf s -> Z.of_nat (Datatypes.length (_bytes s)) = ShortLength p.
Proof. intros [[H _]|(w1 & w2 & H)]; [exact H|eapply longOk_length, H]. Qed.

Lemma short_longBit (s : t) : shortOk s -> longBit p s = false.
Proof.
  intros [_ [Ht _]]. unfold longBit. fold (tag s). unfold ShortLongBit.
  change 128 with (2 ^ 7). rewrite land_pow2_small by (lia || exact Ht).
  reflexivity.
Qed.

Lemma long_words (s : t) (w1 w2 : Z) :
  longOk s w1 w2 ->
  endianCapacity p s = w1 /\ endianLength p s = w2 /\ longBit p s = true.
Proof.
  intros H. pose proof H as (w0' & _ & Hr1 & Hr2 & Hb).
  apply longOk_chunks in H as (w0 & Hc).
  pose proof (loadWord_chunks s _ _ _ Hc) as (_ & L1 & L2).
  unfold endianCapacity, endianLength. rewrite L1, L2.
  rewrite !decode_E by assumption. repeat split.
  unfold longBit. rewrite (getByte_top s _ _ _ Hc), top_byte. cbn [default]. unfold id.
  unfold ShortLongBit. change 128 with (2 ^ 7). rewrite land_pow2 by lia.
  rewrite Z.land_spec, Z.shiftr_spec by lia.
  replace (7 + (W - 8)) with (W - 1) by lia.
  rewrite Hb, Z.ones_spec_low by lia. reflexivity.
Qed.

Lemma longBit_cases (s : t) :
  wf s ->
  (longBit p s = false /\ shortOk s) \/
  (longBit p s = true /\ exists w1 w2, longOk s w1 w2).
Proof.
  intros [H|(w1 & w2 & H)].
  - left. split; [apply short_longBit, H|exact H].
  - right. split; [eapply long_words, H|eauto].
Qed.

(** Writes of single words keep the long shape. *)
Lemma long_set_chars (s : t) (w1 w2 a : Z) :
  longOk s w1 w2 -> longOk (set_chars p a s) w1 w2.
Proof.
  intros H. pose proof H as (w0' & _ & Hr1 & Hr2 & Hb).
  apply longOk_chunks in H as (w0 & Hc).
  destruct (storeWord_chunks s a _ _ _ Hc) as ((Eb & _) & _).
  exists a. auto.
Qed.

Lemma long_set_capacity (s : t) (w1 w2 v : Z) :
  longOk s w1 w2 -> 0 <= v < 2 ^ W -> longOk (set_endianCapacity p v s) v w2.
Proof.
  intros H Hv. pose proof H as (w0' & _ & Hr1 & Hr2 & Hb).
  apply longOk_chunks in H as (w0 & Hc).
  destruct (storeWord_chunks s v _ _ _ Hc) as (_ & (Eb & _) & _).
  exists w0. auto.
Qed.

Lemma long_set_length (s : t) (w1 w2 v : Z) :
  longOk s w1 w2 -> 0 <= v < 2 ^ W -> Z.testbit v (W - 1) = true ->
  longOk (set_endianLength p v s) w1 v.
Proof.
  intros H Hv Hvb. pose proof H as (w0' & _ & Hr1 & Hr2 & Hb).
  apply longOk_chunks in H as (w0 & Hc).
  destruct (storeWord_chunks s v _ _ _ Hc) as (_ & _ & (Eb & _)).
  exists w0. auto.
Qed.

(** Storing the three words turns any object into a long one. *)
Lemma long_of_words (s : t) (a w1 w2 : Z) :
  Z.of_nat (Datatypes.length (_bytes s)) = ShortLength p ->
  0 <= w1 < 2 ^ W -> 0 <= w2 < 2 ^ W -> Z.testbit w2 (W - 1) = true ->
  longOk (set_endianLength p w2 (set_endianCapacity p w1 (set_chars p a s))) w1 w2.
Proof.
  intros Hl H1 H2 Hb.
  destruct (chunks_exist _ Hl) as (x0 & x1 & x2 & Hc).
  destruct (storeWord_chunks s a _ _ _ Hc) as (Hc0 & _).
  destruct (storeWord_chunks _ w1 _ _ _ Hc0) as (_ & Hc1 & _).
  destruct (storeWord_chunks _ w2 _ _ _ Hc1) as (_ & _ & (Eb & _)).
  exists a. auto.
Qed.

Lemma longOk_heap (s : t) (w1 w2 : Z) (h : list Z) :
  longOk s w1 w2 -> longOk (mk (_bytes s) h) w1 w2.
Proof. intros H. exact H. Qed.

(** Writes into the bytes of a short string. *)
Lemma tag_setByte (s : t) (i b : Z) :
  Z.of_nat (Datatypes.length (_bytes s)) = ShortLength p -> 0 <= i ->
  tag (setByte i b s) = if i =? ShortLengthOffset p then b else tag s.
Proof.
  intros Hl Hi. unfold tag, getByte, setByte. cbn [_bytes].
  pose proof ShortLength_ge as Hge.
  destruct (Z.eqb_spec i (ShortLengthOffset p)) as [->|Hne].
  - rewrite list_lookup_insert_eq; [reflexivity|].
    unfold ShortLengthOffset. lia.
  - rewrite list_lookup_insert_ne; [reflexivity|].
    unfold ShortLengthOffset in *. lia.
Qed.

Lemma length_setByte (s : t) (i b : Z) :
  Datatypes.length (_bytes (setByte i b s)) = Datatypes.length (_bytes s).
Proof. apply length_insert. Qed.

Lemma short_setTag (s : t) (b : Z) :
  Z.of_nat (Datatypes.length (_bytes s)) = ShortLength p -> tagOk b ->
  shortOk (setByte (ShortLengthOffset p) b s) /\
  tag (setByte (ShortLengthOffset p) b s) = b.
Proof.
  intros Hl Hb.
  assert (tag (setByte (ShortLengthOffset p) b s) = b) as Et.
  { rewrite tag_setByte, Z.eqb_refl; [reflexivity|exact Hl|].
    pose proof ShortLength_ge. unfold ShortLengthOffset. lia. }
  split; [|exact Et]. split; [rewrite length_setByte; exact Hl|].
  rewrite Et. exact Hb.
Qed.

Lemma short_blit (s : t) (at' : Z) (src h : list Z) :
  shortOk s -> 0 <= at' -> at' + Z.of_nat (Datatypes.length src) <= ShortLengthOffset p ->
  shortOk (mk (blit (_bytes s) at' src) h) /\
  tag (mk (blit (_bytes s) at' src) h) = tag s.
Proof.
  intros [Hl Ht] Hat Hfit. unfold ShortLengthOffset in Hfit.
  pose proof ShortLength_ge as Hge.
  assert (tag (mk (blit (_bytes s) at' src) h) = tag s) as Et.
  { unfold tag, getByte. cbn [_bytes]. f_equal.
    apply blit_lookup_after; unfold ShortLengthOffset; lia. }
  split; [|exact Et]. split; [|rewrite Et; exact Ht].
  cbn [_bytes]. rewrite blit_length by lia. exact Hl.
Qed.

(** *** The fields read out of the two shapes *)

Lemma wordBits_ge32 : 32 <= W.
Proof. destruct p; simpl; lia. Qed.

Lemma LongBit_pos : 0 < LongBit p /\ 2 ^ W = 2 * LongBit p /\
  LongLengthMask p = LongBit p - 1 /\ MaxLength p = LongBit p - 2 /\
  ShortLength p < LongBit p.
Proof. destruct p; vm_compute; repeat split; reflexivity. Qed.

Lemma LongBit_ge : 2147483648 <= LongBit p.
Proof. destruct p; vm_compute; discriminate. Qed.

Lemma land_mask_range (x : Z) :
  0 <= Z.land x (LongLengthMask p) <= LongLengthMask p.
Proof.
  pose proof LongBit_pos as (H1 & _ & H2 & _).
  split; [apply Z.land_nonneg; lia|apply land_le_r; lia].
Qed.

Lemma wrap_land_mask (x : Z) :
  wrap (LengthT p) (Z.land x (LongLengthMask p)) = Z.land x (LongLengthMask p).
Proof.
  pose proof (land_mask_range x). pose proof LongBit_pos as (H1 & _ & H2 & _).
  apply wrap_inRange. unfold LengthT, inRange. fold (LongBit p). lia.
Qed.

Lemma pollute_bit_cases (x : Z) :
  Z.land x (LongBit p) = 0 \/ Z.land x (LongBit p) = LongBit p.
Proof. exact (ContainersFacts.land_PolluteBit p x). Qed.

Lemma wrap_Size_small (c : Z) : 0 <= c < LongBit p -> wrap (SizeT p) c = c.
Proof.
  intros Hc. pose proof LongBit_pos as (H1 & H2 & _).
  apply wrap_inRange. unfold SizeT, inRange. lia.
Qed.

(** A capacity or length stored next to a flag in the top bit. *)
Lemma word_fields (c pb : Z) :
  0 <= c < LongBit p -> pb = 0 \/ pb = LongBit p ->
  let w := Z.lor c pb in
  Z.land w (LongLengthMask p) = c /\ Z.land w (LongBit p) = pb /\
  0 <= w < 2 ^ W /\ (pb = LongBit p -> Z.testbit w (W - 1) = true).
Proof.
  intros Hc Hpb. pose proof LongBit_pos as (H1 & H2 & H3 & H4 & _).
  pose proof wordBits_ge32 as Hw.
  assert (Z.land pb (LongBit p) = pb) as Epb.
  { destruct Hpb as [->| ->]; [apply Z.land_0_l|apply Z.land_diag]. }
  destruct (ContainersFacts.capacity_word p c pb) as [E1 E2].
  { unfold Containers.MaxLength. fold (LongBit p). lia. }
  change (Containers.PolluteBit p) with (LongBit p) in E1, E2.
  change (Containers.LengthMask p) with (LongLengthMask p) in E1.
  rewrite Epb, wrap_Size_small in E1, E2 by exact Hc. cbn zeta.
  split; [exact E1|]. split; [exact E2|].
  split.
  - split.
    + apply Z.lor_nonneg. destruct Hpb as [->| ->]; lia.
    + apply lor_lt_pow2; destruct Hpb as [->| ->]; lia.
  - intros ->. rewrite Z.lor_spec. unfold LongBit.
    rewrite Z.pow2_bits_true by lia. apply orb_true_r.
Qed.

Lemma short_fields (s : t) :
  shortOk s ->
  length p s = Z.land (tag s) ShortLengthMask /\
  operator_bool p s = (Z.land (tag s) ShortPolluteBit =? 0) /\
  capacity p s = ShortCapacity p - NullLength /\
  data p s = _bytes s /\ wrapped p s = false.
Proof.
  intros H. pose proof (short_longBit s H) as Hb.
  unfold length, operator_bool, capacity, data, wrapped. rewrite Hb.
  unfold shortLength. fold (tag s). rewrite negb_involutive. auto.
Qed.

Lemma long_fields (s : t) (w1 w2 : Z) :
  longOk s w1 w2 ->
  length p s = Z.land w2 (LongLengthMask p) /\
  operator_bool p s = (Z.land w1 (LongBit p) =? 0) /\
  capacity p s =
    (if Z.land w1 (LongLengthMask p) =? 0 then 0
     else Z.land w1 (LongLengthMask p) - NullLength) /\
  data p s = heap s /\
  wrapped p s = (Z.land w1 (LongLengthMask p) =? 0).
Proof.
  intros H. destruct (long_words s w1 w2 H) as (E1 & E2 & Hb).
  unfold length, operator_bool, capacity, data, wrapped, wrappedBit, longLength.
  rewrite Hb, E1, E2, !wrap_land_mask, negb_involutive.
  repeat split. destruct (Z.land w1 (LongLengthMask p) =? 0); reflexivity.
Qed.

Lemma length_range (s : t) : 0 <= length p s <= LongLengthMask p.
Proof.
  unfold length, longLength, shortLength. destruct (longBit p s).
  - rewrite wrap_land_mask. apply land_mask_range.
  - pose proof LongBit_pos as (H1 & _ & H2 & _ & H5).
    pose proof ShortLength_ge. unfold ShortLengthMask.
    split; [apply Z.land_nonneg; lia|].
    pose proof (land_le_r (getByte (ShortLengthOffset p) s) 63 ltac:(lia)).
    pose proof LongBit_ge. lia.
Qed.

Lemma capacity_range (s : t) : 0 <= capacity p s <= MaxLength p.
Proof.
  pose proof LongBit_pos as (H1 & _ & H2 & H3 & H5).
  pose proof ShortLength_ge.
  unfold capacity, wrappedBit. destruct (longBit p s).
  - rewrite wrap_land_mask.
    pose proof (land_mask_range (endianCapacity p s)).
    destruct (Z.eqb_spec (Z.land (endianCapacity p s) (LongLengthMask p)) 0);
      cbn [negb]; unfold NullLength; lia.
  - unfold ShortCapacity, NullLength. lia.
Qed.

(** Properties that depend on the bytes of the object only. *)
Lemma wf_bytes (s s' : t) : _bytes s' = _bytes s -> wf s -> wf s'.
Proof.
  intros Eb [[Hl Ht]|(w1 & w2 & (w0 & Hw & Hr))].
  - left. split; [rewrite Eb; exact Hl|].
    unfold tag, getByte in *. rewrite Eb. exact Ht.
  - right. exists w1, w2, w0. rewrite Eb. auto.
Qed.

Lemma fields_bytes (s s' : t) :
  _bytes s' = _bytes s ->
  longBit p s' = longBit p s /\ length p s' = length p s /\
  operator_bool p s' = operator_bool p s /\ capacity p s' = capacity p s /\
  wrapped p s' = wrapped p s.
Proof.
  intros Eb.
  unfold wrapped, capacity, operator_bool, length, longLength, shortLength,
    wrappedBit, longBit, endianCapacity, endianLength, loadWord, getByte.
  rewrite Eb. auto.
Qed.

(** *** [pollute] *)

Lemma tagOk_lor (b : Z) : tagOk b -> tagOk (Z.lor b ShortPolluteBit) /\
  Z.land (Z.lor b ShortPolluteBit) ShortPolluteBit = ShortPolluteBit /\
  Z.land (Z.lor b ShortPolluteBit) ShortLengthMask = Z.land b ShortLengthMask.
Proof.
  intros [Hb Hl]. unfold tagOk, ShortPolluteBit, ShortLengthMask in *.
  assert (Z.land (Z.lor b 64) 63 = Z.land b 63) as E.
  { rewrite Z.land_lor_distr_l. change (Z.land 64 63) with 0. apply Z.lor_0_r. }
  assert (Z.land (Z.lor b 64) 64 = 64) as E'.
  { apply land_lor_same. }
  split; [|auto]. split; [|rewrite E; exact Hl].
  split; [apply Z.lor_nonneg; lia|].
  apply (lor_lt_pow2 7); simpl; lia.
Qed.

Lemma pollute_spec (s : t) :
  wf s ->
  wf (pollute p s) /\ operator_bool p (pollute p s) = false /\
  length p (pollute p s) = length p s /\ heap (pollute p s) = heap s /\
  longBit p (pollute p s) = longBit p s.
Proof.
  intros Hwf. destruct (longBit_cases s Hwf) as [[Hb Hs]|[Hb (w1 & w2 & Hl)]];
    unfold pollute; rewrite Hb.
  - destruct Hs as [Hlen Ht]. fold (tag s).
    destruct (tagOk_lor _ Ht) as (Ht' & E1 & E2).
    destruct (short_setTag s _ Hlen Ht') as [Hs' Et].
    destruct (short_fields _ Hs') as (F1 & F2 & _).
    destruct (short_fields s (conj Hlen Ht)) as (G1 & _).
    rewrite (short_longBit _ Hs'), F1, F2, G1, Et, E1, E2.
    split; [left; exact Hs'|]. repeat split.
  - destruct (long_words s w1 w2 Hl) as (E1 & _).
    rewrite E1. pose proof Hl as (_ & _ & Hr1 & _).
    pose proof LongBit_pos as (H1 & H2 & _).
    assert (0 <= Z.lor w1 (LongBit p) < 2 ^ W) as Hr.
    { split; [apply Z.lor_nonneg; lia|apply lor_lt_pow2; lia]. }
    pose proof (long_set_capacity s w1 w2 _ Hl Hr) as Hl'.
    destruct (long_fields _ _ _ Hl') as (F1 & F2 & _).
    destruct (long_fields _ _ _ Hl) as (G1 & _).
    destruct (long_words _ _ _ Hl') as (_ & _ & Hb').
    rewrite F1, F2, G1, Hb'.
    split; [right; eauto|]. repeat split.
    rewrite land_lor_same. apply Z.eqb_neq. lia.
Qed.

(** *** Writes through [data()] and the length field *)

Definition sameHeader (s s' : t) : Prop :=
  longBit p s' = longBit p s /\ length p s' = length p s /\
  operator_bool p s' = operator_bool p s /\ capacity p s' = capacity p s /\
  wrapped p s' = wrapped p s.

Lemma short_same (s s' : t) :
  shortOk s -> shortOk s' -> tag s' = tag s -> sameHeader s s'.
Proof.
  intros H H' Et.
  destruct (short_fields s H) as (F1 & F2 & F3 & _ & F5).
  destruct (short_fields s' H') as (G1 & G2 & G3 & _ & G5).
  unfold sameHeader.
  rewrite (short_longBit s H), (short_longBit s' H'), F1, F2, F3, F5, G1, G2, G3, G5, Et.
  auto.
Qed.

Lemma writeData_keeps (at' : Z) (src : list Z) (s : t) :
  wf s -> 0 <= at' ->
  (longBit p s = false ->
   at' + Z.of_nat (Datatypes.length src) <= ShortLengthOffset p) ->
  wf (writeData p at' src s) /\ sameHeader s (writeData p at' src s).
Proof.
  intros Hwf Hat Hfit.
  destruct (longBit_cases s Hwf) as [[Hb Hs]|[Hb (w1 & w2 & Hl)]];
    unfold writeData; rewrite Hb.
  - destruct (short_blit s at' src (heap s) Hs Hat (Hfit Hb)) as [Hs' Et].
    split; [left; exact Hs'|]. apply short_same; assumption.
  - split; [eapply wf_bytes; [|exact Hwf]; reflexivity|].
    apply fields_bytes. reflexivity.
Qed.

Lemma tag_compose (len pb : Z) :
  0 <= len <= ShortCapacity p - NullLength ->
  pb = 0 \/ pb = ShortPolluteBit ->
  tagOk (Z.lor len pb) /\
  Z.land (Z.lor len pb) ShortLengthMask = len /\
  Z.land (Z.lor len pb) ShortPolluteBit = pb.
Proof.
  intros Hlen Hpb. pose proof ShortLength_le as Hle.
  unfold tagOk, ShortCapacity, NullLength, ShortPolluteBit, ShortLengthMask in *.
  assert (Z.land len 64 = 0) as E0
    by (apply (land_pow2_small len 6); simpl; lia).
  assert (Z.land len 63 = len) as E1
    by (apply (land_ones_small len 6); simpl; lia).
  assert (Z.land pb 63 = 0) as E2 by (destruct Hpb as [->| ->]; reflexivity).
  assert (Z.land pb 64 = pb) as E3 by (destruct Hpb as [->| ->]; reflexivity).
  rewrite !Z.land_lor_distr_l, E0, E1, E2, E3, Z.lor_0_r, Z.lor_0_l.
  repeat split; try lia.
  - apply Z.lor_nonneg. destruct Hpb as [->| ->]; lia.
  - apply (lor_lt_pow2 7); destruct Hpb as [->| ->]; simpl; lia.
Qed.

Lemma short_bit_cases (b : Z) :
  Z.land b ShortPolluteBit = 0 \/ Z.land b ShortPolluteBit = ShortPolluteBit.
Proof.
  unfold ShortPolluteBit. change 64 with (2 ^ 6). rewrite land_pow2 by lia.
  destruct (Z.testbit b 6); auto.
Qed.

Lemma writeLength_spec (len : Z) (s : t) :
  wf s -> 0 <= len <= MaxLength p ->
  (longBit p s = false -> len <= ShortCapacity p - NullLength) ->
  let s' := writeLength p len s in
  wf s' /\ longBit p s' = longBit p s /\ length p s' = len /\
  operator_bool p s' = operator_bool p s /\ capacity p s' = capacity p s.
Proof.
  intros Hwf Hlen Hfit. cbn zeta.
  pose proof LongBit_pos as (H1 & H2 & H3 & H4 & H5).
  destruct (longBit_cases s Hwf) as [[Hb Hs]|[Hb (w1 & w2 & Hl)]];
    unfold writeLength; rewrite Hb.
  - specialize (Hfit Hb). pose proof ShortLength_le as Hle.
    pose proof ShortLength_ge as Hge.
    destruct Hs as [Hl Ht]. fold (tag s).
    assert (len mod 256 = len) as -> 
      by (apply Z.mod_small; unfold ShortCapacity, NullLength in *; lia).
    destruct (tag_compose len (Z.land (tag s) ShortPolluteBit)
                ltac:(lia) (short_bit_cases _)) as (Hok & E1 & E2).
    set (b := Z.lor len (Z.land (tag s) ShortPolluteBit)) in *.
    destruct (short_setTag s b Hl Hok) as [Hs1 Et1].
    set (s1 := setByte (ShortLengthOffset p) b s) in *.
    assert (shortOk (setByte len 0 s1) /\ tag (setByte len 0 s1) = b) as [Hs2 Et2].
    { assert (tag (setByte len 0 s1) = b) as Et.
      { rewrite tag_setByte by (try apply Hs1; lia).
        destruct (Z.eqb_spec len (ShortLengthOffset p)) as [E|_]; [|exact Et1].
        unfold ShortLengthOffset, ShortCapacity, NullLength in *. lia. }
      split; [|exact Et]. split; [rewrite length_setByte; apply Hs1|].
      rewrite Et. exact Hok. }
    destruct (short_fields _ Hs2) as (F1 & F2 & F3 & _).
    destruct (short_fields s (conj Hl Ht)) as (G1 & G2 & G3 & _).
    rewrite (short_longBit _ Hs2), F1, F2, F3, G2, G3, Et2, E1, E2.
    split; [left; exact Hs2|]. auto.
  - rewrite wrap_Size_small by lia.
    destruct (word_fields len (LongBit p) ltac:(lia) (or_intror eq_refl))
      as (E1 & E2 & Hr & Htb).
    pose proof (long_set_length s w1 w2 _ Hl Hr (Htb eq_refl)) as Hl'.
    set (s1 := set_endianLength p (Z.lor len (LongBit p)) s) in *.
    assert (longOk (mk (_bytes s1) (blit (heap s1) len [0])) w1
              (Z.lor len (LongBit p))) as Hl'' by exact Hl'.
    destruct (long_fields _ _ _ Hl'') as (F1 & F2 & F3 & _).
    destruct (long_fields _ _ _ Hl) as (G1 & G2 & G3 & _).
    destruct (long_words _ _ _ Hl'') as (_ & _ & Hb').
    rewrite Hb', F1, F2, F3, G2, G3, E1.
    split; [right; eauto|]. auto.
Qed.

(** *** [reallocate] and [internalCapacity] *)

(** The characters of the string. *)
Definition chars (s : t) : list Z := take (Z.to_nat (length p s)) (data p s).

(** A long string given a new block and capacity. *)
Lemma long_regrow (s : t) (w1 w2 a c : Z) (block : list Z) :
  longOk s w1 w2 -> 1 <= c < LongBit p ->
  let s' := set_endianCapacity p (Z.lor c (Z.land w1 (LongBit p)))
              (set_chars p a (mk (_bytes s) block)) in
  wf s' /\ operator_bool p s' = operator_bool p s /\
  length p s' = length p s /\ capacity p s' = c - 1 /\
  data p s' = block /\ heap s' = block /\
  longBit p s' = true /\ wrapped p s' = false.
Proof.
  intros Hl Hc. cbn zeta.
  destruct (word_fields c (Z.land w1 (LongBit p)) ltac:(lia) (pollute_bit_cases w1))
    as (C1 & C2 & C3 & _).
  assert (longOk (mk (_bytes s) block) w1 w2) as Hl0 by exact Hl.
  pose proof (long_set_capacity _ _ _ _ (long_set_chars _ _ _ a Hl0) C3) as Hl'.
  destruct (long_fields _ _ _ Hl') as (G1 & G2 & G3 & G4 & G5).
  destruct (long_fields _ _ _ Hl) as (F1 & F2 & _).
  destruct (long_words _ _ _ Hl') as (_ & _ & Hb').
  rewrite G1, G2, G3, G4, G5, C1, C2, F1, F2, Hb'.
  split; [right; eauto|]. repeat split.
  - destruct (Z.eqb_spec c 0); [lia|reflexivity].
  - apply Z.eqb_neq. lia.
Qed.

(** Any object turned into a short string holding [src]. *)
Lemma to_short (s : t) (src : list Z) (len pbit : Z) :
  Z.of_nat (Datatypes.length (_bytes s)) = ShortLength p ->
  Z.of_nat (Datatypes.length src) <= ShortLengthOffset p ->
  0 <= len <= ShortCapacity p - NullLength ->
  let s' := setByte (ShortLengthOffset p) (shortTag len pbit)
              (mk (blit (_bytes s) 0 src) (heap s)) in
  shortOk s' /\ length p s' = len /\ operator_bool p s' = (pbit =? 0) /\
  take (Datatypes.length src) (_bytes s') = src /\ heap s' = heap s.
Proof.
  intros Hlen Hsrc Hl. cbn zeta.
  pose proof ShortLength_le as Hle. pose proof ShortLength_ge as Hge.
  unfold ShortLengthOffset in Hsrc.
  set (s1 := mk (blit (_bytes s) 0 src) (heap s)).
  assert (Z.of_nat (Datatypes.length (_bytes s1)) = ShortLength p) as Hlen1.
  { unfold s1. cbn [_bytes]. rewrite blit_length by lia. exact Hlen. }
  unfold shortTag.
  assert (len mod 256 = len) as ->
    by (apply Z.mod_small; unfold ShortCapacity, NullLength in *; lia).
  set (pb := if negb (pbit =? 0) then ShortPolluteBit else 0).
  assert (pb = 0 \/ pb = ShortPolluteBit) as Hpb
    by (unfold pb; destruct (pbit =? 0); auto).
  destruct (tag_compose len pb Hl Hpb) as (Hok & E1 & E2).
  destruct (short_setTag s1 _ Hlen1 Hok) as [Hs' Et].
  destruct (short_fields _ Hs') as (F1 & F2 & _).
  rewrite F1, F2, Et, E1, E2.
  split; [exact Hs'|]. repeat split.
  - unfold pb. destruct (pbit =? 0); reflexivity.
  - unfold setByte, s1. cbn [_bytes].
    rewrite take_insert_ge by (unfold ShortLengthOffset; lia).
    rewrite blit_take0 by lia. apply firstn_all.
Qed.

(** What a successful [reallocate] leaves: the characters, and a block of
    the requested size when the string is long. *)
Definition regrown (c : Z) (s s' : t) : Prop :=
  chars s' = chars s /\
  (longBit p s' = true ->
   Z.of_nat (Datatypes.length (heap s')) = c /\ capacity p s' = c - 1 /\
   wrapped p s' = false).

Lemma reallocate_keeps (alloc : option Alloc) (c n : Z) (s : t) :
  wf s -> 1 <= c < LongBit p -> 0 <= n <= 1 ->
  (wrapped p s = true -> c <= ShortCapacity p -> length p s < c) ->
  let r := reallocate p alloc c n s in
  wf (snd r) /\ operator_bool p (snd r) = operator_bool p s /\
  length p (snd r) = length p s /\
  (fst r = true -> c - 1 <= capacity p (snd r)) /\
  (fst r = false -> snd r = s /\ alloc = None) /\
  (fst r = true -> length p s < c ->
   length p s <= Z.of_nat (Datatypes.length (data p s)) -> regrown c s (snd r)).
Proof.
  intros Hwf Hc Hn Hwr. cbn zeta.
  pose proof LongBit_pos as (H1 & H2 & H3 & H4 & H5).
  pose proof ShortLength_le as Hle. pose proof ShortLength_ge as Hge.
  pose proof (length_range s) as Hlr.
  destruct (longBit_cases s Hwf) as [[Hb Hs]|[Hb (w1 & w2 & Hl)]];
    unfold reallocate; rewrite Hb.
  - destruct alloc as [a|]; cbn [fst snd];
      [|repeat split; auto; discriminate].
    destruct (short_fields s Hs) as (F1 & F2 & _ & F4 & _).
    destruct Hs as [Hlen [Ht Htl]]. unfold shortLength. fold (tag s).
    rewrite wrap_Size_small by lia.
    set (len := Z.land (tag s) ShortLengthMask) in *.
    set (pb := if negb (Z.land (tag s) ShortPolluteBit =? 0) then LongBit p else 0).
    assert (pb = 0 \/ pb = LongBit p) as Hpb
      by (unfold pb; destruct (Z.land (tag s) ShortPolluteBit =? 0); auto).
    unfold ShortCapacity, NullLength in Htl.
    destruct (word_fields c pb ltac:(lia) Hpb) as (C1 & C2 & C3 & _).
    destruct (word_fields len (LongBit p) ltac:(lia) (or_intror eq_refl))
      as (L1 & L2 & L3 & L4).
    pose proof (long_of_words (mk (_bytes s) (replicate (Z.to_nat c) (fill a)))
                  (addr a) _ _ Hlen C3 L3 (L4 eq_refl)) as Hl'.
    match goal with |- wf ?s' /\ _ =>
      assert (longOk s' (Z.lor c pb) (Z.lor len (LongBit p))) as Hl'' by exact Hl';
      set (r := s') in *
    end.
    destruct (long_fields _ _ _ Hl'') as (G1 & G2 & G3 & G4 & G5).
    assert (capacity p r = c - 1) as Ecap.
    { rewrite G3, C1. destruct (Z.eqb_spec c 0); unfold NullLength; lia. }
    split; [right; eauto|].
    split.
    { rewrite G2, C2, F2. unfold pb.
      destruct (Z.land (tag s) ShortPolluteBit =? 0); cbn [negb];
        [reflexivity|]. apply Z.eqb_neq. lia. }
    split; [rewrite G1, L1, F1; reflexivity|].
    split; [intros _; lia|]. split; [discriminate|].
    intros _ Hlc Hdata. split.
    + unfold chars. rewrite G1, L1, F1, G4, F4. unfold r. cbn [heap].
      rewrite blit_take0 by (rewrite length_take; unfold NullLength; lia).
      rewrite take_take. f_equal. unfold NullLength. lia.
    + intros _. split; [|split; [exact Ecap|]].
      * unfold r, set_endianLength, set_endianCapacity, set_chars, storeWord.
        cbn [heap]. rewrite blit_length.
        -- rewrite length_replicate. lia.
        -- rewrite length_take, length_replicate. unfold NullLength. lia.
      * rewrite G5, C1. apply Z.eqb_neq. lia.
  - destruct (long_words s w1 w2 Hl) as (E1 & E2 & _).
    destruct (long_fields s w1 w2 Hl) as (F1 & F2 & F3 & F4 & F5).
    unfold wrappedBit, longLength. rewrite E1, E2, wrap_land_mask.
    set (len := Z.land w2 (LongLengthMask p)) in *.
    destruct (Z.eqb_spec (Z.land w1 (LongLengthMask p)) 0) as [Ew|Ew]; cbn [negb].
    + destruct (Z.ltb_spec (ShortCapacity p) c) as [Hbig|Hsmall].
      * destruct alloc as [a|]; cbn [fst snd];
          [|repeat split; auto; discriminate].
        rewrite wrap_Size_small by lia.
        match goal with |- context [set_chars p _ (mk _ ?b)] =>
          destruct (long_regrow s w1 w2 (addr a) c b Hl Hc)
            as (K1 & K2 & K3 & K4 & K5 & K6 & K7 & K8)
        end.
        split; [exact K1|]. split; [exact K2|]. split; [exact K3|].
        split; [intros _; rewrite K4; lia|]. split; [discriminate|].
        intros _ Hlc Hdata. rewrite F4 in Hdata. split.
        -- unfold chars. rewrite K3, K5, F1, F4.
           rewrite blit_take0 by (rewrite length_take; lia).
           rewrite take_take. f_equal. lia.
        -- intros _. rewrite K6, K4, K8. split; [|auto].
           rewrite blit_length.
           ++ rewrite length_replicate. lia.
           ++ rewrite length_take, length_replicate. lia.
      * cbn [fst snd].
        specialize (Hwr F5 Hsmall). rewrite F1 in Hwr.
        unfold ShortCapacity in Hsmall.
        match goal with |- context [blit (_bytes s) 0 ?src] =>
          destruct (to_short s src len (Z.land w1 (LongBit p)))
            as (T1 & T2 & T3 & T5 & _)
        end.
        { eapply longOk_length, Hl. }
        { rewrite length_take. unfold ShortLengthOffset. lia. }
        { unfold ShortCapacity, NullLength. lia. }
        destruct (short_fields _ T1) as (_ & _ & T4 & T6 & _).
        split; [left; exact T1|].
        split; [rewrite T3, F2; reflexivity|].
        split; [rewrite T2, F1; reflexivity|].
        split; [intros _; rewrite T4; unfold ShortCapacity, NullLength; lia|].
        split; [discriminate|].
        intros _ Hlc Hdata. rewrite F4 in Hdata. split.
        -- unfold chars. rewrite T2, T6, F1, F4.
           match type of T5 with take ?k ?b = ?src =>
             transitivity (take (Z.to_nat len) (take k b));
               [rewrite take_take; f_equal; rewrite length_take; lia
               |rewrite T5, take_take; f_equal; lia]
           end.
        -- rewrite (short_longBit _ T1). discriminate.
    + destruct alloc as [a|]; cbn [fst snd];
        [|repeat split; auto; discriminate].
      rewrite wrap_Size_small by lia.
      match goal with |- context [set_chars p _ (mk _ ?b)] =>
        destruct (long_regrow s w1 w2 (addr a) c b Hl Hc)
          as (K1 & K2 & K3 & K4 & K5 & K6 & K7 & K8)
      end.
      split; [exact K1|]. split; [exact K2|]. split; [exact K3|].
      split; [intros _; rewrite K4; lia|]. split; [discriminate|].
      intros _ Hlc Hdata. rewrite F4 in Hdata. split.
      * unfold chars. rewrite K3, K5, F1, F4.
        rewrite take_app_le by (rewrite length_take; lia).
        rewrite take_take. f_equal. lia.
      * intros _. rewrite K6, K4, K8. split; [|auto].
        rewrite length_app, length_take, length_replicate. lia.
Qed.

Lemma internalCapacity_keeps (alloc : option Alloc) (cap : Z) (s s' : t) (ok : bool) :
  wf s -> 0 <= cap <= MaxLength p ->
  (wrapped p s = true -> cap < ShortCapacity p -> length p s <= cap) ->
  internalCapacity p alloc cap s = Some (ok, s') ->
  wf s' /\ operator_bool p s' = operator_bool p s /\
  length p s' = length p s /\
  (ok = true -> cap <= capacity p s') /\
  (ok = false -> s' = s /\ alloc = None /\ capacity p s < cap) /\
  (ok = true -> capacity p s < cap -> length p s <= cap ->
   length p s <= Z.of_nat (Datatypes.length (data p s)) ->
   exists c, cap < c /\ regrown c s s').
Proof.
  intros Hwf Hcap Hwr H. unfold internalCapacity in H.
  pose proof LongBit_pos as (H1 & H2 & H3 & H4 & H5).
  pose proof wordBits_ge32 as Hw.
  destruct (Z.ltb_spec (capacity p s) cap) as [Hlt|Hge].
  - rewrite wrap_inRange in H
      by (unfold LengthT, inRange; fold (LongBit p); unfold NullLength; lia).
    destruct (Math.computeNextCapacity (LengthT p) (cap + NullLength)
                (capacity p s) (ShortCapacity p)) as [c|] eqn:Hcnc;
      cbn [mbind option_bind] in H; [|discriminate].
    apply GrowthFacts.computeNextCapacity_covers in Hcnc;
      [|lia|fold (LongBit p); unfold NullLength; lia].
    fold (LongBit p) in Hcnc. unfold NullLength in Hcnc.
    injection H as H.
    pose proof (reallocate_keeps alloc c 0 s Hwf ltac:(lia) ltac:(lia)) as K.
    cbn zeta in K. rewrite H in K. cbn [fst snd] in K.
    destruct K as (K1 & K2 & K3 & K4 & K5 & K6);
      [intros Hx Hy; specialize (Hwr Hx); lia|].
    split; [exact K1|]. split; [exact K2|]. split; [exact K3|].
    split; [intros Hok; specialize (K4 Hok); lia|].
    split; [intros Hok; destruct (K5 Hok) as [-> ->]; auto|].
    intros Hok _ Hlc Hdata. exists c. split; [lia|].
    apply K6; [exact Hok|lia|exact Hdata].
  - injection H as <- <-.
    split; [exact Hwf|]. repeat split; try discriminate; try lia.
Qed.

(** Up to a quarter of the span of [Length] the capacity request is
    answered. *)
Lemma internalCapacity_returns (alloc : option Alloc) (cap : Z) (s : t) :
  0 <= cap -> cap + 1 < 2 ^ (W - 2) ->
  exists r, internalCapacity p alloc cap s = Some r.
Proof.
  intros Hcap Hq. unfold internalCapacity.
  pose proof LongBit_pos as (H1 & H2 & H3 & H4 & H5).
  pose proof wordBits_ge32 as Hw.
  pose proof (MathFacts.pow2_split W ltac:(lia)) as (_ & E2 & _).
  fold (LongBit p) in E2.
  destruct (Z.ltb_spec (capacity p s) cap) as [Hlt|Hge]; [|eauto].
  rewrite wrap_inRange
    by (unfold LengthT, inRange; fold (LongBit p); unfold NullLength; lia).
  destruct (GrowthFacts.computeNextCapacity_returns W (cap + NullLength)
              (capacity p s) (ShortCapacity p)) as [c Hc];
    try (unfold NullLength; lia).
  - pose proof (capacity_range s). lia.
  - unfold LengthT. rewrite Hc. cbn [mbind option_bind]. eauto.
Qed.

(** *** [internalAppend], [internalPrepend], [internalConcatenate] *)

Lemma fits_short (dest : Z) (s : t) :
  dest <= capacity p s -> longBit p s = false ->
  dest <= ShortCapacity p - NullLength.
Proof. intros H Hb. unfold capacity in H. rewrite Hb in H. exact H. Qed.

Lemma ShortCapacity_small : ShortCapacity p - NullLength < ShortLengthOffset p /\
  ShortLengthOffset p < MaxLength p /\ ShortCapacity p = ShortLengthOffset p /\
  0 < ShortLengthOffset p.
Proof. destruct p; vm_compute; repeat split; reflexivity. Qed.

Lemma length_take_le (n : Z) (l : list Z) :
  0 <= n -> Z.of_nat (Datatypes.length (take (Z.to_nat n) l)) <= n.
Proof. intros Hn. rewrite length_take. lia. Qed.

Lemma internalAppend_keeps (alloc : option Alloc) (suffix s s' : t) (ok : bool) :
  wf s -> internalAppend p alloc suffix s = Some (ok, s') ->
  wf s' /\ operator_bool p s' = operator_bool p s.
Proof.
  intros Hwf H. unfold internalAppend in H.
  pose proof LongBit_pos as (H1 & H2 & H3 & H4 & H5).
  pose proof ShortCapacity_small as (S1 & S2 & S3 & S4).
  pose proof (length_range s) as Hn. pose proof (length_range suffix) as Hm.
  set (n := length p s) in *. set (m := length p suffix) in *.
  set (overflow := MaxLength p - m <? n) in *.
  set (dest := if overflow then MaxLength p else n + m) in *.
  set (sl := if overflow then MaxLength p - n else m) in *.
  assert (0 <= dest <= MaxLength p /\ (dest < ShortCapacity p -> n + sl = dest /\ 0 <= sl))
    as [Hdest Hsmall].
  { unfold dest, sl, overflow. destruct (Z.ltb_spec (MaxLength p - m) n); lia. }
  destruct (negb (sl =? 0)); [|injection H as <- <-; auto].
  destruct (internalCapacity p alloc dest s) as [[ok1 s1]|] eqn:Hcap;
    cbn [mbind option_bind] in H; [|discriminate].
  destruct (internalCapacity_keeps alloc dest s s1 ok1 Hwf Hdest
              ltac:(intros _ Hx; apply Hsmall in Hx; lia) Hcap)
    as (K1 & K2 & K3 & K4 & K5 & _).
  destruct ok1; injection H as <- <-; [|auto].
  specialize (K4 eq_refl).
  destruct (writeData_keeps n (take (Z.to_nat sl) (data p suffix)) s1 K1
              ltac:(lia)) as (D1 & D2 & _ & D3 & D4 & _).
  { intros Hb. pose proof (fits_short dest s1 K4 Hb) as Hd.
    destruct Hsmall as [E Hsl]; [lia|].
    pose proof (length_take_le sl (data p suffix) Hsl). lia. }
  set (s2 := writeData p n _ s1) in *.
  destruct (writeLength_spec dest s2 D1 Hdest) as (L1 & _ & _ & L2 & _).
  { intros Hb. rewrite D2 in Hb. eapply fits_short; eassumption. }
  cbn zeta in L1, L2. split; [exact L1|]. congruence.
Qed.

Lemma internalPrepend_keeps (alloc : option Alloc) (prefix s s' : t) (ok : bool) :
  wf s -> internalPrepend p alloc prefix s = Some (ok, s') ->
  wf s' /\ operator_bool p s' = operator_bool p s.
Proof.
  intros Hwf H. unfold internalPrepend in H.
  pose proof LongBit_pos as (H1 & H2 & H3 & H4 & H5).
  pose proof ShortCapacity_small as (S1 & S2 & S3 & S4).
  pose proof (length_range s) as Hn. pose proof (length_range prefix) as Hm.
  set (n := length p s) in *. set (m := length p prefix) in *.
  destruct (negb (m =? 0)); [|injection H as <- <-; auto].
  set (overflow := MaxLength p - m <? n) in *.
  set (dest := if overflow then MaxLength p else n + m) in *.
  set (n' := if overflow then MaxLength p - m else n) in *.
  assert (0 <= dest <= MaxLength p /\ (dest < ShortCapacity p -> n' = n /\ n + m = dest))
    as [Hdest Hsmall].
  { unfold dest, n', overflow. destruct (Z.ltb_spec (MaxLength p - m) n); lia. }
  destruct (internalCapacity p alloc dest s) as [[ok1 s1]|] eqn:Hcap;
    cbn [mbind option_bind] in H; [|discriminate].
  destruct (internalCapacity_keeps alloc dest s s1 ok1 Hwf Hdest
              ltac:(intros _ Hx; apply Hsmall in Hx; lia) Hcap)
    as (K1 & K2 & K3 & K4 & K5 & _).
  destruct ok1; injection H as <- <-; [|auto].
  specialize (K4 eq_refl).
  set (s2 := if negb (n' =? 0)
             then writeData p m (take (Z.to_nat n') (data p s1)) s1 else s1).
  assert (wf s2 /\ longBit p s2 = longBit p s1 /\
          operator_bool p s2 = operator_bool p s1 /\
          capacity p s2 = capacity p s1) as (D1 & D2 & D3 & D4).
  { unfold s2. destruct (negb (n' =? 0)); [|auto].
    destruct (writeData_keeps m (take (Z.to_nat n') (data p s1)) s1 K1
                ltac:(lia)) as (D1 & D2 & _ & D3 & D4 & _); [|auto].
    intros Hb. pose proof (fits_short dest s1 K4 Hb) as Hd.
    destruct Hsmall as [E E']; [lia|].
    pose proof (length_take_le n' (data p s1) ltac:(lia)). lia. }
  destruct (writeData_keeps 0 (take (Z.to_nat m) (data p prefix)) s2 D1
              ltac:(lia)) as (P1 & P2 & _ & P3 & P4 & _).
  { intros Hb. rewrite D2 in Hb. pose proof (fits_short dest s1 K4 Hb) as Hd.
    destruct Hsmall as [E E']; [lia|].
    pose proof (length_take_le m (data p prefix) ltac:(lia)). lia. }
  set (s3 := writeData p 0 _ s2) in *.
  destruct (writeLength_spec dest s3 P1 Hdest) as (L1 & _ & _ & L2 & _).
  { intros Hb. rewrite P2, D2 in Hb. eapply fits_short; eassumption. }
  cbn zeta in L1, L2. split; [exact L1|]. congruence.
Qed.


Lemma empty_ok : shortOk (empty p) /\ operator_bool p (empty p) = true /\
  wrapped p (empty p) = false /\ length p (empty p) = 0.
Proof.
  assert (shortOk (empty p)) as H.
  { split; [unfold empty; cbn [_bytes]; rewrite length_replicate;
            pose proof ShortLength_ge; lia|].
    assert (tag (empty p) = 0) as -> by (unfold tag; destruct p; reflexivity).
    pose proof ShortLength_ge.
    unfold tagOk, ShortLengthMask, ShortCapacity, NullLength.
    change (Z.land 0 63) with 0. lia. }
  split; [exact H|]. destruct p; vm_compute; auto.
Qed.

Lemma no_overflow (n m : Z) :
  0 <= n -> 0 <= m -> n + m + 1 < 2 ^ (W - 2) ->
  (MaxLength p - n <? m) = false /\ (MaxLength p - m <? n) = false /\
  0 <= n + m /\ n + m + 1 < 2 ^ (W - 2).
Proof.
  intros Hn Hm Hq. pose proof LongBit_pos as (H1 & H2 & H3 & H4 & H5).
  pose proof wordBits_ge32 as Hw.
  pose proof (MathFacts.pow2_split W ltac:(lia)) as (_ & E2 & _).
  fold (LongBit p) in E2.
  split; [apply Z.ltb_ge; lia|]. split; [apply Z.ltb_ge; lia|lia].
Qed.




(** C10: [prepend(String const&)] does not look at the state of its
    operand.  For a well-formed non-polluted [A] and a polluted [B],
    whenever the byte-level prepend ([internalPrepend]) succeeds,
    [A.prepend(B)] returns with [A] still non-polluted; [A.append(B)], in
    contrast, leaves [A] polluted whenever it returns. *)
Theorem prepend_ignores_operand (alloc : option Alloc) (A B A' : t) :
  wf A -> operator_bool p A = true -> operator_bool p B = false ->
  internalPrepend p alloc B A = Some (true, A') ->
  (prepend p alloc B A = Some A' /\ operator_bool p A' = true) /\
  (forall r, append p alloc B A = Some r -> operator_bool p r = false).
Proof.
  intros Hwf HA HB H. split.
  - unfold prepend. rewrite H. cbn [mbind option_bind negb].
    split; [reflexivity|].
    destruct (internalPrepend_keeps alloc B A A' true Hwf H) as [_ E].
    congruence.
  - intros r Hr. unfold append in Hr.
    destruct (internalAppend p alloc B A) as [[ok res]|] eqn:Hc;
      cbn [mbind option_bind] in Hr; [|discriminate].
    destruct (internalAppend_keeps alloc B A _ _ Hwf Hc) as [Hres _].
    rewrite HB in Hr. cbn [negb] in Hr. rewrite orb_true_r in Hr.
    injection Hr as <-. apply pollute_spec, Hres.
Qed.


(** C6 (amended): a long string that owns its buffer, is null-terminated
    and holds at most [ShortCapacity - NullLength] characters (22 on the
    64-bit target, 10 on the 32-bit one) is returned to the inline
    representation by [shrink()], whatever the allocator answers; the call
    reports success and the characters and terminator that [c_str()] shows
    are unchanged. *)
Theorem shrink_returns_inline (alloc : option Alloc) (A : t) :
  wf A -> longBit p A = true -> wrapped p A = false ->
  length p A + NullLength <= ShortCapacity p ->
  heap A !! Z.to_nat (length p A) = Some 0 ->
  let r := shrink p alloc A in
  fst r = true /\ longBit p (snd r) = false /\
  length p (snd r) = length p A /\ c_str p (snd r) = c_str p A.
Proof.
  intros Hwf Hlong Hnw Hfit Hnul. cbn zeta.
  pose proof (length_range A) as Hn.
  pose proof ShortCapacity_small as (S1 & S2 & S3 & S4).
  destruct (longBit_cases A Hwf) as [[Hb _]|[_ (w1 & w2 & Hl)]]; [congruence|].
  destruct (long_fields A w1 w2 Hl) as (F1 & _ & _ & F4 & _).
  assert (c_str p A = take (Z.to_nat (length p A + NullLength)) (heap A)) as EA
    by (unfold c_str; rewrite F4; reflexivity).
  unfold shrink. rewrite Hnw, Hlong. cbn [negb].
  destruct (Z.eqb_spec (length p A) 0) as [E0|Hne]; cbn [negb fst snd].
  - destruct empty_ok as (He & _ & _ & El).
    rewrite (short_longBit _ He), El, E0, EA, E0.
    repeat split. rewrite E0 in Hnul.
    unfold c_str. rewrite El. destruct (short_fields _ He) as (_ & _ & _ & -> & _).
    destruct (heap A) as [|x l]; [discriminate|]. injection Hnul as ->.
    unfold empty, NullLength. cbn [_bytes].
    pose proof ShortLength_ge as Hge.
    destruct (Z.to_nat (ShortLength p)) as [|k] eqn:Ek; [lia|]. reflexivity.
  - destruct (Z.leb_spec (length p A + NullLength) (ShortCapacity p)) as [_|]; [|lia].
    cbn [fst snd].
    apply lookup_lt_Some in Hnul.
    match goal with |- context [blit (_bytes A) 0 ?src] =>
      destruct (to_short A src (length p A)
                  (Z.land (endianCapacity p A) (LongBit p)))
        as (T1 & T2 & _ & T4 & _);
      [eapply longOk_length, Hl
      |rewrite length_take; unfold NullLength in *; lia
      |unfold NullLength in *; lia|];
      assert (Datatypes.length src = Z.to_nat (length p A + NullLength)) as Esrc
        by (rewrite length_take; unfold NullLength; lia)
    end.
    rewrite Esrc in T4.
    rewrite (short_longBit _ T1), T2. repeat split.
    unfold c_str at 1. rewrite T2.
    destruct (short_fields _ T1) as (_ & _ & _ & -> & _).
    rewrite T4. symmetry. exact EA.
Qed.


(** *** Overflow of [append] *)

(** The buffer behind the string is as big as its fields say. *)
Definition holds (s : t) : Prop :=
  length p s <= Z.of_nat (Datatypes.length (data p s)) /\
  (longBit p s = true -> capacity p s + NullLength <= Z.of_nat (Datatypes.length (heap s))) /\
  (wrapped p s = false -> length p s <= capacity p s).

Lemma data_long (s : t) : longBit p s = true -> data p s = heap s.
Proof. unfold data. intros ->. reflexivity. Qed.

Lemma writeData_long (at' : Z) (src : list Z) (s : t) :
  longBit p s = true ->
  writeData p at' src s = mk (_bytes s) (blit (heap s) at' src).
Proof. unfold writeData. intros ->. reflexivity. Qed.

Lemma writeLength_long (len : Z) (s : t) :
  longBit p s = true -> heap (writeLength p len s) = blit (heap s) len [0].
Proof. unfold writeLength. intros ->. reflexivity. Qed.

Lemma pollute_chars (s : t) : wf s -> chars (pollute p s) = chars s.
Proof.
  intros Hwf. destruct (pollute_spec s Hwf) as (_ & _ & El & Eh & Eb).
  unfold chars. rewrite El.
  destruct (longBit_cases s Hwf) as [[Hb Hs]|[Hb _]].
  - unfold data. rewrite Eb, Hb. unfold pollute. rewrite Hb.
    unfold setByte. cbn [_bytes].
    destruct (short_fields s Hs) as (F1 & _).
    destruct Hs as [_ [_ Hl]]. rewrite <- F1 in Hl.
    pose proof (length_range s). pose proof ShortCapacity_small as (S1 & _).
    apply take_insert_ge. lia.
  - unfold data. rewrite Eb, Hb, Eh. reflexivity.
Qed.

(** The write phase of an overflowing append on a long string whose block
    has room for [MaxLength] characters and the terminator. *)
Lemma overflow_write (s1 : t) (src : list Z) (n : Z) :
  wf s1 -> longBit p s1 = true -> length p s1 = n -> 0 <= n < MaxLength p ->
  MaxLength p + NullLength <= Z.of_nat (Datatypes.length (heap s1)) ->
  Z.of_nat (Datatypes.length src) = MaxLength p - n ->
  let r := pollute p (writeLength p (MaxLength p) (writeData p n src s1)) in
  operator_bool p r = false /\ length p r = MaxLength p /\
  chars r = take (Z.to_nat n) (heap s1) ++ src.
Proof.
  intros Hwf Hb Hlen Hn Hroom Hsrc. cbn zeta. unfold NullLength in Hroom.
  pose proof LongBit_pos as (H1 & H2 & H3 & H4 & H5).
  pose proof ShortCapacity_small as (S1 & S2 & S3 & S4).
  destruct (writeData_keeps n src s1 Hwf ltac:(lia) ltac:(congruence))
    as (D1 & D2 & _).
  rewrite Hb in D2.
  destruct (writeLength_spec (MaxLength p) _ D1 ltac:(lia) ltac:(congruence))
    as (L1 & L2 & L3 & _).
  cbn zeta in L1, L2, L3. rewrite D2 in L2.
  destruct (pollute_spec _ L1) as (_ & P2 & P3 & _ & P5).
  split; [exact P2|]. split; [congruence|].
  rewrite pollute_chars by exact L1. unfold chars.
  rewrite L3, (data_long _ L2), (writeLength_long _ _ D2).
  rewrite (writeData_long _ _ _ Hb). cbn [heap].
  assert (Datatypes.length (blit (heap s1) n src) = Datatypes.length (heap s1))
    as Ebl by (apply blit_length; lia).
  rewrite blit_take_before by (cbn [Datatypes.length]; lia).
  unfold blit. rewrite app_assoc. rewrite take_app_length'; [reflexivity|].
  rewrite length_app, length_take. lia.
Qed.

(** The characters that fit when [B] is appended to [A]. *)
Lemma truncated_chars (A B : t) :
  holds A -> length p B <= Z.of_nat (Datatypes.length (data p B)) ->
  length p A <= MaxLength p -> MaxLength p - length p B < length p A ->
  take (Z.to_nat (MaxLength p)) (chars A ++ chars B) =
  chars A ++ take (Z.to_nat (MaxLength p - length p A)) (data p B).
Proof.
  intros (HA & _) HB Hle Hover.
  pose proof (length_range A) as Hn. pose proof (length_range B) as Hm.
  assert (Datatypes.length (chars A) = Z.to_nat (length p A)) as EA
    by (unfold chars; rewrite length_take; lia).
  rewrite take_app_ge by lia. f_equal. rewrite EA.
  unfold chars. rewrite take_take. f_equal. lia.
Qed.

(** Where the capacity computation answers: [A.append(B)] when
    [length A + length B] exceeds [MaxLength], for a receiver whose
    [capacity()] is [ShortCapacity] or at least [MaxLength].  The call
    returns and leaves [A] polluted.  When [A] already has room for
    [MaxLength] characters, or the reallocation succeeds, [A] ends with
    exactly [MaxLength] characters: its own, followed by as many of [B] as
    fit.  When the reallocation fails, [A] keeps its length and its
    characters. *)
Lemma append_overflow (alloc : option Alloc) (A B : t) :
  wf A -> holds A -> length p B <= Z.of_nat (Datatypes.length (data p B)) ->
  MaxLength p - length p B < length p A ->
  capacity p A = ShortCapacity p \/ MaxLength p <= capacity p A ->
  exists r, append p alloc B A = Some r /\ operator_bool p r = false /\
    if (MaxLength p <=? capacity p A) || bool_decide (is_Some alloc)
    then length p r = MaxLength p /\
         chars r = take (Z.to_nat (MaxLength p)) (chars A ++ chars B)
    else length p r = length p A /\ chars r = chars A.
Proof.
  intros Hwf HA HB Hover Hcap.
  pose proof LongBit_pos as (H1 & H2 & H3 & H4 & H5).
  pose proof ShortCapacity_small as (S1 & S2 & S3 & S4).
  pose proof (length_range A) as Hn. pose proof (length_range B) as Hm.
  pose proof (capacity_range A) as Hc.
  assert (wrapped p A = false) as Hnw.
  { destruct (wrapped p A) eqn:Ew; [|reflexivity]. exfalso.
    unfold wrapped in Ew. apply andb_true_iff in Ew as [Eb Ew].
    unfold capacity in Hcap, Hc. rewrite Eb, Ew in Hcap. cbn [negb] in Hcap. lia. }
  pose proof HA as (HA1 & HA2 & HA3). specialize (HA3 Hnw).
  assert (length p A <= MaxLength p) as Hle by lia.
  pose proof (truncated_chars A B HA HB Hle Hover) as Etr.
  unfold append, internalAppend.
  destruct (Z.ltb_spec (MaxLength p - length p B) (length p A)) as [_|]; [|lia].
  cbn [negb].
  destruct (Z.eqb_spec (MaxLength p - length p A) 0) as [E0|Hne]; cbn [negb].
  - (* the receiver is full already *)
    cbn [mbind option_bind negb orb].
    eexists. split; [reflexivity|].
    destruct (pollute_spec A Hwf) as (_ & P2 & P3 & _).
    split; [exact P2|].
    destruct (Z.leb_spec (MaxLength p) (capacity p A)) as [_|]; [|lia].
    cbn [orb]. split; [lia|].
    rewrite pollute_chars, Etr, E0 by exact Hwf.
    change (Z.to_nat 0) with 0%nat. rewrite take_0, app_nil_r. reflexivity.
  - destruct (internalCapacity p alloc (MaxLength p) A) as [[ok s1]|] eqn:Hic.
    + destruct (internalCapacity_keeps alloc (MaxLength p) A s1 ok Hwf
                  ltac:(lia) ltac:(lia) Hic) as (K1 & K2 & K3 & K4 & K5 & K6).
      cbn [mbind option_bind]. destruct ok; cbn [mbind option_bind negb orb].
      * specialize (K4 eq_refl).
        assert (longBit p s1 = true) as Hb1.
        { destruct (longBit p s1) eqn:E; [reflexivity|].
          pose proof (fits_short _ _ K4 E). lia. }
        assert (chars s1 = chars A /\
                MaxLength p + NullLength <= Z.of_nat (Datatypes.length (heap s1)))
          as [Ech Eroom].
        { destruct (Z_lt_le_dec (capacity p A) (MaxLength p)) as [Hlt|Hge].
          - destruct (K6 eq_refl Hlt ltac:(lia) HA1) as (c & Hc1 & Hc2 & Hc3).
            split; [exact Hc2|]. destruct (Hc3 Hb1) as (-> & _). unfold NullLength. lia.
          - unfold internalCapacity in Hic.
            destruct (Z.ltb_spec (capacity p A) (MaxLength p)); [lia|].
            injection Hic as <-. split; [reflexivity|].
            specialize (HA2 Hb1). lia. }
        set (src := take (Z.to_nat (MaxLength p - length p A)) (data p B)) in *.
        destruct (overflow_write s1 src (length p A) K1 Hb1 K3 ltac:(lia) Eroom)
          as (W1 & W2 & W3).
        { unfold src. rewrite length_take. lia. }
        eexists. split; [reflexivity|]. split; [exact W1|].
        assert ((MaxLength p <=? capacity p A) || bool_decide (is_Some alloc) = true)
          as ->.
        { destruct (Z.leb_spec (MaxLength p) (capacity p A)) as [|Hlt];
            [reflexivity|]. cbn [orb].
          destruct alloc as [a|]; [reflexivity|]. exfalso.
          unfold internalCapacity in Hic.
          destruct (Z.ltb_spec (capacity p A) (MaxLength p)); [|lia].
          destruct (Math.computeNextCapacity _ _ _ _);
            cbn [mbind option_bind] in Hic; [|discriminate].
          unfold reallocate in Hic. unfold wrapped in Hnw.
          destruct (longBit p A); cbn [andb] in Hnw;
            [rewrite Hnw in Hic; cbn [negb] in Hic|]; discriminate. }
        split; [exact W2|].
        rewrite W3, Etr. f_equal.
        rewrite <- Ech. unfold chars. rewrite K3, (data_long _ Hb1). reflexivity.
      * destruct (K5 eq_refl) as (-> & -> & Hlt).
        eexists. split; [reflexivity|].
        destruct (pollute_spec A Hwf) as (_ & P2 & P3 & _).
        split; [exact P2|].
        destruct (Z.leb_spec (MaxLength p) (capacity p A)) as [|_]; [lia|].
        cbn [orb bool_decide]. split; [exact P3|apply pollute_chars, Hwf].
    + exfalso. unfold internalCapacity in Hic.
      destruct (Z.ltb_spec (capacity p A) (MaxLength p)) as [Hlt|]; [|discriminate].
      destruct Hcap as [Hcap|]; [|lia].
      unfold Math.computeNextCapacity in Hic. rewrite Hcap, Z.eqb_refl in Hic.
      discriminate.
Qed.
End Bytes.

(** Strings used as instances: ["hi"], the polluted ["ab"], and the
    invalid string, on the 64-bit target. *)
Definition hi : t :=
  Eval vm_compute in default (empty X64) (fromCString X64 None [104; 105]).

Definition ab_polluted : t :=
  Eval vm_compute in
    pollute X64 (default (empty X64) (fromCString X64 None [97; 98])).

Lemma hi_wf : wf X64 hi.
Proof.
  left. unfold shortOk, tagOk. split; [reflexivity|].
  vm_compute. repeat split; try reflexivity; discriminate.
Defined.


Lemma prepend_ignores_operand_witness :
  wf X64 hi /\ operator_bool X64 hi = true /\
  operator_bool X64 ab_polluted = false /\
  exists A', internalPrepend X64 None ab_polluted hi = Some (true, A') /\
    prepend X64 None ab_polluted hi = Some A' /\ operator_bool X64 A' = true /\
    c_str X64 A' = [97; 98; 104; 105; 0].
Proof.
  split; [exact hi_wf|]. split; [reflexivity|]. split; [reflexivity|].
  eexists. split; [vm_compute; reflexivity|].
  destruct (prepend_ignores_operand X64 None hi ab_polluted _ hi_wf
              eq_refl eq_refl eq_refl) as [[E1 E2] _].
  split; [exact E1|]. split; [exact E2|]. vm_compute. reflexivity.
Defined.

(** Thirty characters given to the constructor (a long string), and what
    [erase] leaves of it. *)
Definition A1 : Alloc := mkAlloc 4096 205.
Definition A2 : Alloc := mkAlloc 8192 221.

Definition long30 : t :=
  Eval vm_compute in
    default (empty X64) (fromCString X64 (Some A1) (replicate 30 97)).

Definition erasedTo (n : Z) : t := erase X64 None n NotFound long30.

(** C6 (as the specification states it) fails at the bound itself: a long
    string erased down to [ShortCapacity] characters is still long after
    [shrink()], whether the reallocation succeeds or not. *)
Lemma shrink_at_ShortCapacity_stays_long :
  longBit X64 long30 = true /\
  length X64 (erasedTo 23) = ShortCapacity X64 /\
  longBit X64 (snd (shrink X64 (Some A2) (erasedTo 23))) = true /\
  longBit X64 (snd (shrink X64 None (erasedTo 23))) = true.
Proof. vm_compute. repeat split; reflexivity. Qed.

Lemma shrink_returns_inline_witness :
  wf X64 (erasedTo 5) /\ longBit X64 (erasedTo 5) = true /\
  wrapped X64 (erasedTo 5) = false /\
  length X64 (erasedTo 5) + NullLength <= ShortCapacity X64 /\
  heap (erasedTo 5) !! Z.to_nat (length X64 (erasedTo 5)) = Some 0 /\
  longBit X64 (snd (shrink X64 None (erasedTo 5))) = false /\
  c_str X64 (snd (shrink X64 None (erasedTo 5))) = [97; 97; 97; 97; 97; 0].
Proof.
  assert (wf X64 (erasedTo 5)) as Hwf.
  { right. exists 32, (2 ^ 63 + 5), 4096.
    split; [vm_compute; reflexivity|].
    split; [simpl; lia|]. split; [simpl; lia|]. vm_compute. reflexivity. }
  assert (length X64 (erasedTo 5) + NullLength <= ShortCapacity X64) as Hfit
    by (vm_compute; discriminate).
  assert (heap (erasedTo 5) !! Z.to_nat (length X64 (erasedTo 5)) = Some 0)
    as Hnul by (vm_compute; reflexivity).
  destruct (shrink_returns_inline X64 None (erasedTo 5) Hwf eq_refl eq_refl
              Hfit Hnul) as (_ & Hb & _ & Hc).
  split; [exact Hwf|]. split; [reflexivity|]. split; [reflexivity|].
  split; [exact Hfit|]. split; [exact Hnul|]. split; [exact Hb|].
  rewrite Hc. vm_compute. reflexivity.
Defined.

(** On the 32-bit target: ["hi"]; eleven characters in a long string that
    [shrink()] has cut to size, so that [capacity()] is [ShortCapacity]; and
    a long string of [2 ^ 31 - 3] characters. *)
Definition eleven : t :=
  Eval vm_compute in
    snd (shrink X32 (Some A2)
           (default (empty X32) (fromCString X32 (Some A1) (replicate 11 97)))).

Definition hi32 : t :=
  Eval vm_compute in default (empty X32) (fromCString X32 None [104; 105]).

Definition hugeBytes : list Z :=
  Eval vm_compute in
    Z_to_little_endian 4 8 65536 ++ Z_to_little_endian 4 8 (2 ^ 31 - 2)
      ++ Z_to_little_endian 4 8 (Z.lor (2 ^ 31 - 3) (LongBit X32)).

Definition hugeHeap : list Z := replicate (Z.to_nat (2 ^ 31 - 3)) 98 ++ [0].

Definition huge : t := mk hugeBytes hugeHeap.

Lemma huge_fields (h : list Z) :
  length X32 (mk hugeBytes h) = 2 ^ 31 - 3 /\ data X32 (mk hugeBytes h) = h /\
  operator_bool X32 (mk hugeBytes h) = true.
Proof. vm_compute. repeat split; reflexivity. Qed.

(** When the block for [MaxLength] characters is refused, the string
    keeps its eleven characters: it is not truncated to [MaxLength], and is
    polluted. *)
Lemma append_overflow_keeps_length :
  MaxLength X32 - length X32 huge < length X32 eleven /\
  append X32 None huge eleven = Some (pollute X32 eleven) /\
  length X32 (pollute X32 eleven) = 11 /\
  length X32 (pollute X32 eleven) <> MaxLength X32 /\
  c_str X32 (pollute X32 eleven) = c_str X32 eleven /\
  operator_bool X32 (pollute X32 eleven) = false.
Proof.
  unfold huge. generalize hugeHeap. intros h. vm_compute.
  repeat split; try reflexivity; discriminate.
Qed.

(** With any other capacity below [MaxLength] the capacity computation
    of the overflowing call does not answer: [ceilPowerOfTwo] is asked to
    round up the largest [Length]. *)
Lemma overflow_capacity_no_answer (alloc : option Alloc) (h : list Z) :
  capacity X32 hi32 <> ShortCapacity X32 /\
  append X32 alloc (mk hugeBytes h) hi32 = None /\
  plus X32 alloc hi32 (mk hugeBytes h) = None.
Proof. vm_compute. repeat split; discriminate. Qed.

Lemma append_overflow_witness :
  wf X32 eleven /\ holds X32 eleven /\
  length X32 huge <= Z.of_nat (Datatypes.length (data X32 huge)) /\
  MaxLength X32 - length X32 huge < length X32 eleven /\
  (capacity X32 eleven = ShortCapacity X32 \/ MaxLength X32 <= capacity X32 eleven) /\
  exists r, append X32 None huge eleven = Some r /\ operator_bool X32 r = false /\
    if (MaxLength X32 <=? capacity X32 eleven) || bool_decide (is_Some (@None Alloc))
    then length X32 r = MaxLength X32 /\
         chars X32 r = take (Z.to_nat (MaxLength X32)) (chars X32 eleven ++ chars X32 huge)
    else length X32 r = length X32 eleven /\ chars X32 r = chars X32 eleven.
Proof.
  assert (wf X32 eleven) as Hwf.
  { right. exists 12, (2 ^ 31 + 11), 8192.
    split; [vm_compute; reflexivity|].
    split; [simpl; lia|]. split; [simpl; lia|]. vm_compute. reflexivity. }
  assert (holds X32 eleven) as Hh.
  { unfold holds. vm_compute. repeat split; intros; discriminate. }
  destruct (huge_fields hugeHeap) as (El & Ed & _).
  fold huge in El, Ed.
  assert (length X32 huge <= Z.of_nat (Datatypes.length (data X32 huge))) as HB.
  { rewrite El, Ed. unfold hugeHeap. rewrite length_app, length_replicate.
    cbn [Datatypes.length]. lia. }
  assert (MaxLength X32 - length X32 huge < length X32 eleven) as Hov.
  { rewrite El. vm_compute. reflexivity. }
  assert (capacity X32 eleven = ShortCapacity X32 \/
          MaxLength X32 <= capacity X32 eleven) as Hc
    by (left; vm_compute; reflexivity).
  split; [exact Hwf|]. split; [exact Hh|]. split; [exact HB|].
  split; [exact Hov|]. split; [exact Hc|].
  exact (append_overflow X32 None eleven huge Hwf Hh HB Hov Hc).
Defined.

Section Overflow.
Context (p : Platform).

(** The capacity that an overflowing call asks for is [MaxLength +
    NullLength], the largest [Length]; from a short string,
    [computeNextCapacity] hands it to [ceilPowerOfTwo], whose doubling leaves
    the type. *)
Lemma overflow_request_no_answer :
  Math.computeNextCapacity (LengthT p)
    (wrap (LengthT p) (MaxLength p + NullLength))
    (ShortCapacity p - NullLength) (ShortCapacity p) = None.
Proof. destruct p; vm_compute; reflexivity. Qed.

Lemma overflow_loop_stuck (fuel : nat) :
  Math.clearLowest (LengthT p) fuel
    (wrap (LengthT p) (Z.shiftl (MaxLength p + NullLength) 1)) = None.
Proof.
  apply MathFacts.clearLowest_stuck.
  - destruct p; vm_compute; (split; [discriminate|reflexivity]).
  - destruct p; vm_compute; discriminate.
Qed.

Lemma internalCapacity_no_answer (alloc : option Alloc) (s : t) :
  longBit p s = false -> internalCapacity p alloc (MaxLength p) s = None.
Proof.
  intros Hs. pose proof (ShortCapacity_small p) as (S1 & S2 & S3 & S4).
  unfold internalCapacity, capacity. rewrite Hs.
  destruct (Z.ltb_spec (ShortCapacity p - NullLength) (MaxLength p)) as [_|]; [|lia].
  rewrite overflow_request_no_answer. reflexivity.
Qed.

Lemma short_length_small (s : t) :
  longBit p s = false -> length p s < MaxLength p.
Proof.
  intros Hs. unfold length, shortLength. rewrite Hs.
  assert (Z.land (getByte (ShortLengthOffset p) s) 63 <= 63)
    by (apply land_le_r; lia).
  unfold ShortLengthMask.
  assert (63 < MaxLength p) by (destruct p; vm_compute; reflexivity). lia.
Qed.

(** C4: an overflowing [append] on a short string, an overflowing
    [concatenate] into a short string and every overflowing [operator +]
    do not return: the capacity they ask for is the largest [Length], the
    doubling in [ceilPowerOfTwo] leaves the type, and its loop then never
    reaches a power of two, whatever the number of iterations.  The string
    is neither truncated nor polluted. *)
Theorem overflow_never_returns (alloc : option Alloc) (A B R : t) :
  MaxLength p - length p B < length p A ->
  (longBit p A = false -> append p alloc B A = None) /\
  (longBit p R = false -> concatenate p alloc A B R = None) /\
  plus p alloc A B = None /\
  (forall fuel : nat,
     Math.clearLowest (LengthT p) fuel
       (wrap (LengthT p) (Z.shiftl (MaxLength p + NullLength) 1)) = None).
Proof.
  intros Hover. split; [|split; [|split]].
  - intros HA. pose proof (short_length_small A HA) as Hsmall.
    unfold append, internalAppend.
    destruct (Z.ltb_spec (MaxLength p - length p B) (length p A)) as [_|]; [|lia].
    destruct (Z.eqb_spec (MaxLength p - length p A) 0) as [|_]; [lia|].
    cbn [negb]. rewrite (internalCapacity_no_answer alloc A HA). reflexivity.
  - intros HR. unfold concatenate, internalConcatenate.
    destruct (Z.ltb_spec (MaxLength p - length p A) (length p B)) as [_|]; [|lia].
    rewrite (internalCapacity_no_answer alloc R HR). reflexivity.
  - unfold plus, internalConcatenate.
    destruct (Z.ltb_spec (MaxLength p - length p A) (length p B)) as [_|]; [|lia].
    rewrite (internalCapacity_no_answer alloc (empty p)); [reflexivity|].
    destruct p; vm_compute; reflexivity.
  - exact overflow_loop_stuck.
Qed.

End Overflow.

Lemma overflow_never_returns_witness :
  MaxLength X32 - length X32 huge < length X32 hi32 /\
  longBit X32 hi32 = false /\
  append X32 None huge hi32 = None /\
  plus X32 None hi32 huge = None.
Proof.
  assert (MaxLength X32 - length X32 huge < length X32 hi32) as Hover.
  { destruct (huge_fields hugeHeap) as (El & _). fold huge in El. rewrite El.
    vm_compute. reflexivity. }
  assert (longBit X32 hi32 = false) as Hs by (vm_compute; reflexivity).
  pose proof (overflow_never_returns X32 None hi32 huge (empty X32) Hover)
    as (Happ & _ & Hplus & _).
  split; [exact Hover|]. split; [exact Hs|]. split; [exact (Happ Hs)|exact Hplus].
Defined.

End StrFacts.

(** ** TinyTRL_Math.inl: powers of two, growth and averages *)

Module MathMore.
Import Math MathFacts.

(** The width of an integer type; values below half its span are values of
    the type whatever its signedness, and [wrap] leaves them alone. *)
Definition width (t : IntType) : Z := match t with Signed w | Unsigned w => w end.

Lemma small_inRange (t : IntType) (x : Z) :
  1 <= width t -> 0 <= x < 2 ^ (width t - 1) -> inRange t x.
Proof.
  destruct t as [w|w]; simpl; intros Hw Hx; [lia|].
  assert (2 ^ (w - 1) <= 2 ^ w) by (apply Z.pow_le_mono_r; lia). lia.
Qed.

Lemma small_wrap (t : IntType) (x : Z) :
  1 <= width t -> 0 <= x < 2 ^ (width t - 1) -> wrap t x = x.
Proof. intros Hw Hx. apply wrap_inRange, small_inRange; assumption. Qed.

(** X1: [isPowerOfTwo] answers [true] on a value of the type exactly when the
    value is a power of two, 1 included; zero and the negative values are
    never powers of two. *)
Theorem isPowerOfTwo_iff (t : IntType) (x : Z) :
  inRange t x ->
  (isPowerOfTwo t x = true <-> exists k, 0 <= k /\ x = 2 ^ k).
Proof.
  intros Hr. split.
  - intros H. destruct (isPowerOfTwo_true t x Hr H) as [Hx E].
    exists (Z.log2 x). split; [apply Z.log2_nonneg|exact E].
  - intros (k & Hk & ->). apply isPowerOfTwo_pow2; assumption.
Qed.

Lemma isPowerOfTwo_iff_witness :
  inRange (LengthT X64) 1024 /\
  (isPowerOfTwo (LengthT X64) 1024 = true <-> exists k, 0 <= k /\ 1024 = 2 ^ k).
Proof.
  assert (inRange (LengthT X64) 1024) as H by (simpl; lia).
  split; [exact H|exact (isPowerOfTwo_iff (LengthT X64) 1024 H)].
Defined.

(** X2: for a positive value of the type, [floorPowerOfTwo] returns, and what
    it returns is the greatest power of two that is not above the value. *)
Theorem floorPowerOfTwo_greatest (t : IntType) (v : Z) :
  inRange t v -> 1 <= v ->
  exists k, 0 <= k /\ floorPowerOfTwo t v = Some (2 ^ k) /\ 2 ^ k <= v < 2 ^ (k + 1).
Proof.
  intros Hr Hv. rewrite floorPowerOfTwo_some by exact Hr.
  destruct (Z.ltb_spec 2 v) as [H2|H2].
  - exists (Z.log2 v). pose proof (Z.log2_spec v ltac:(lia)) as Hs.
    replace (Z.log2 v + 1) with (Z.succ (Z.log2 v)) by lia.
    split; [apply Z.log2_nonneg|]. split; [reflexivity|exact Hs].
  - destruct (Z.eq_dec v 1) as [->|Hne].
    + exists 0. simpl. repeat split; lia.
    + assert (v = 2) as -> by lia. exists 1. simpl. repeat split; lia.
Qed.

Lemma floorPowerOfTwo_greatest_witness :
  inRange (LengthT X32) 100 /\ 1 <= 100 /\
  exists k, 0 <= k /\ floorPowerOfTwo (LengthT X32) 100 = Some (2 ^ k) /\
            2 ^ k <= 100 < 2 ^ (k + 1).
Proof.
  assert (inRange (LengthT X32) 100) as H by (simpl; lia).
  split; [exact H|]. split; [lia|].
  exact (floorPowerOfTwo_greatest (LengthT X32) 100 H ltac:(lia)).
Defined.

(** X3: for a positive value whose double is still a value of the type,
    [ceilPowerOfTwo] returns, and what it returns is the least power of two
    that is not below the value. *)
Theorem ceilPowerOfTwo_least (t : IntType) (v : Z) :
  inRange t v -> inRange t (2 * v) -> 1 <= v ->
  exists k, 0 <= k /\ ceilPowerOfTwo t v = Some (2 ^ k) /\ v <= 2 ^ k < 2 * v.
Proof.
  intros Hr Hr2 Hv. rewrite ceilPowerOfTwo_some by assumption.
  destruct (Z.ltb_spec 2 v) as [H2|H2]; cbn [andb].
  - destruct (isPowerOfTwo t v) eqn:Hp; cbn [negb].
    + destruct (isPowerOfTwo_true t v Hr Hp) as [_ E].
      exists (Z.log2 v). split; [apply Z.log2_nonneg|]. rewrite <- E.
      split; [reflexivity|lia].
    + pose proof (Z.log2_spec v ltac:(lia)) as [Hlo Hhi].
      pose proof (Z.log2_nonneg v) as Hk.
      rewrite Z.pow_succ_r in Hhi by exact Hk.
      assert (v <> 2 ^ Z.log2 v) as Hne.
      { intros E. rewrite E in Hp.
        rewrite isPowerOfTwo_pow2 in Hp; [discriminate|exact Hk|].
        rewrite <- E. exact Hr. }
      exists (Z.log2 v + 1). split; [lia|]. split; [reflexivity|].
      rewrite Z.pow_add_r by lia. change (2 ^ 1) with 2. lia.
  - destruct (Z.eq_dec v 1) as [->|Hne].
    + exists 0. simpl. repeat split; lia.
    + assert (v = 2) as -> by lia. exists 1. simpl. repeat split; lia.
Qed.

Lemma ceilPowerOfTwo_least_witness :
  inRange (LengthT X32) 100 /\ inRange (LengthT X32) (2 * 100) /\ 1 <= 100 /\
  exists k, 0 <= k /\ ceilPowerOfTwo (LengthT X32) 100 = Some (2 ^ k) /\
            100 <= 2 ^ k < 2 * 100.
Proof.
  assert (inRange (LengthT X32) 100) as H by (simpl; lia).
  assert (inRange (LengthT X32) (2 * 100)) as H' by (simpl; lia).
  split; [exact H|]. split; [exact H'|]. split; [lia|].
  exact (ceilPowerOfTwo_least (LengthT X32) 100 H H' ltac:(lia)).
Defined.

Lemma no_power_between (w v : Z) :
  2 <= w -> 2 ^ (w - 2) < v < 2 ^ (w - 1) -> v <> 2 ^ Z.log2 v.
Proof.
  intros Hw Hv E.
  assert (Z.log2 v = w - 2) as El.
  { apply Z.log2_unique; [lia|].
    replace (Z.succ (w - 2)) with (w - 1) by lia. lia. }
  rewrite El in E. lia.
Qed.

(** On a signed type, a value above a quarter of the span makes the
    doubling of [ceilPowerOfTwo] leave the type before it reaches the value:
    the model gives no answer. *)
Lemma ceilPowerOfTwo_overflow (w v : Z) :
  3 <= w -> 2 ^ (w - 2) < v < 2 ^ (w - 1) ->
  ceilPowerOfTwo (Signed w) v = None.
Proof.
  intros Hw Hv. set (t := Signed w).
  pose proof (pow2_split w Hw) as (E1 & E2 & E3 & Hp).
  assert (inRange t v) as Hr by (simpl; lia).
  unfold ceilPowerOfTwo.
  assert (isPowerOfTwo t v = false) as ->.
  { destruct (isPowerOfTwo t v) eqn:Hpw; [|reflexivity].
    destruct (isPowerOfTwo_true t v Hr Hpw) as [_ E].
    exfalso. exact (no_power_between w v ltac:(lia) Hv E). }
  destruct (Z.ltb_spec 2 v) as [_|]; [|lia]. cbn [andb negb].
  rewrite Z.shiftl_mul_pow2 by lia. change (2 ^ 1) with 2.
  assert (wrap t (v * 2) = v * 2 - 2 ^ w) as Ew.
  { unfold t, wrap.
    replace (v * 2 + 2 ^ (w - 1)) with (v * 2 - 2 ^ (w - 1) + 1 * 2 ^ w) by lia.
    rewrite Z.mod_add by lia. rewrite Z.mod_small by lia. lia. }
  apply clearLowest_stuck; [apply wrap_range; simpl; lia|rewrite Ew; lia].
Qed.

Section Growth.
Context (t : IntType).
Local Abbreviation w := (width t).
Hypothesis Hw : 6 <= w.

Lemma ceil_small (v : Z) :
  1 <= v <= 2 ^ (w - 2) ->
  exists n, ceilPowerOfTwo t v = Some n /\ v <= n /\ n <= 2 ^ (w - 2) /\
            n < 2 * v /\ (2 <= v -> n <= 2 * (v - 1)).
Proof.
  intros Hv.
  pose proof (pow2_split w ltac:(lia)) as (E1 & E2 & E3 & Hp).
  assert (inRange t v) as Hr by (apply small_inRange; lia).
  destruct (Z.eq_dec v (2 ^ (w - 2))) as [->|Hne].
  - unfold ceilPowerOfTwo.
    rewrite isPowerOfTwo_pow2 by (lia || exact Hr).
    rewrite andb_false_r. exists (2 ^ (w - 2)). repeat split; lia.
  - assert (inRange t (2 * v)) as Hr2 by (apply small_inRange; lia).
    destruct (ceilPowerOfTwo_least t v Hr Hr2 ltac:(lia)) as (k & Hk & Hc & Hb).
    exists (2 ^ k). split; [exact Hc|]. split; [lia|].
    assert (k <= w - 2 /\ 2 ^ k < 2 * v) as [Hkw Hlt]; [split; [|lia]|].
    { destruct (Z_lt_le_dec (w - 2) k) as [Hgt|]; [|lia]. exfalso.
      assert (2 ^ (w - 1) <= 2 ^ k) by (apply Z.pow_le_mono_r; lia). lia. }
    split; [apply Z.pow_le_mono_r; lia|]. split; [exact Hlt|].
    intros H2. destruct (Z.eq_dec v (2 ^ k)) as [Ev|Hnv]; [|].
    + rewrite <- Ev. (* a power of two: n = v *)
      rewrite ceilPowerOfTwo_some in Hc by assumption.
      lia.
    + destruct (Z.eq_dec k 0) as [->|Hk0]; [simpl in Hb; lia|].
      assert (2 ^ k = 2 * 2 ^ (k - 1)) as Ek
        by (rewrite <- Z.pow_succ_r by lia; f_equal; lia).
      (* v lies strictly above 2^(k-1), so 2^k <= 2 (v - 1) *)
      lia.
Qed.


Lemma computeNextCapacity1_bounds (c : Z) :
  0 <= c <= 2 ^ (w - 2) ->
  exists r, computeNextCapacity1 t c = Some r /\
            c < r /\ r <= 2 * c + 1 /\ (1 <= c -> r <= 2 * c) /\ r < 2 ^ (w - 1).
Proof.
  intros Hc.
  pose proof (pow2_split w ltac:(lia)) as (E1 & E2 & E3 & Hp).
  assert (16 <= 2 ^ (w - 2)) as H16.
  { change 16 with (2 ^ 4). apply Z.pow_le_mono_r; lia. }
  unfold computeNextCapacity1.
  destruct ((c <? 16) || negb (isPowerOfTwo t c)) eqn:Hbr.
  - assert (c < 2 ^ (w - 2)) as Hlt.
    { destruct (Z.eq_dec c (2 ^ (w - 2))) as [->|]; [|lia]. exfalso.
      apply orb_true_iff in Hbr as [Hb|Hb].
      - apply Z.ltb_lt in Hb. lia.
      - rewrite isPowerOfTwo_pow2 in Hb by (lia || (apply small_inRange; lia)).
        discriminate. }
    rewrite (small_wrap t (c + 1)) by lia.
    destruct (ceil_small (c + 1) ltac:(lia)) as (n & -> & Hn1 & Hn2 & Hn3 & Hn4).
    cbn [mbind option_bind].
    rewrite (small_wrap t (n - c)) by lia.
    destruct (Z.ltb_spec (n - c) (c ÷ 3)) as [Hcmp|Hcmp].
    + assert (0 <= c ÷ 3 <= c /\ 3 * (c ÷ 3) <= c) as [Hq Hq'].
      { rewrite Z.quot_div_nonneg by lia. split; [split|].
        - apply Z.div_pos; lia.
        - apply Z.div_le_upper_bound; lia.
        - apply Z.mul_div_le. lia. }
      assert (0 <= n ÷ 2 /\ 2 * (n ÷ 2) <= n) as [Hh Hh'].
      { rewrite Z.quot_div_nonneg by lia. split.
        - apply Z.div_pos; lia.
        - apply Z.mul_div_le. lia. }
      rewrite (small_wrap t (n + n ÷ 2)) by lia.
      eexists. split; [reflexivity|]. lia.
    + eexists. split; [reflexivity|]. lia.
  - apply orb_false_iff in Hbr as [Hb _]. apply Z.ltb_ge in Hb.
    assert (0 < c ÷ 2 /\ 2 * (c ÷ 2) <= c) as [Hh Hh'].
    { rewrite Z.quot_div_nonneg by lia. split.
      - apply Z.div_str_pos; lia.
      - apply Z.mul_div_le. lia. }
    rewrite (small_wrap t (c + c ÷ 2)) by lia.
    eexists. split; [reflexivity|]. lia.
Qed.

Lemma computeNextCapacity_bounds (target current initial : Z) :
  0 <= current < target -> target < 2 ^ (w - 2) ->
  exists r, computeNextCapacity t target current initial = Some r /\
            target <= r < 2 * target.
Proof.
  intros Hc Ht.
  pose proof (pow2_split w ltac:(lia)) as (E1 & E2 & E3 & Hp).
  assert (inRange t target) as Hrt by (apply small_inRange; lia).
  unfold computeNextCapacity.
  destruct (negb (current =? initial));
    [|exists target; split; [reflexivity|lia]].
  destruct (computeNextCapacity1_bounds current ltac:(lia))
    as (n & -> & Hn1 & Hn2 & _). cbn [mbind option_bind].
  destruct (Z.ltb_spec n target) as [Hnt|Hnt];
    [|exists n; split; [reflexivity|lia]].
  destruct (isPowerOfTwo t target) eqn:Hpow; cbn [negb];
    [exists target; split; [reflexivity|lia]|].
  rewrite floorPowerOfTwo_some by assumption. cbn [mbind option_bind].
  set (f := if 2 <? target then 2 ^ Z.log2 target else target).
  assert (0 < f <= target) as Hf.
  { unfold f. destruct (Z.ltb_spec 2 target); [|lia].
    pose proof (Z.log2_spec target ltac:(lia)).
    assert (0 < 2 ^ Z.log2 target)
      by (apply Z.pow_pos_nonneg; [lia|apply Z.log2_nonneg]). lia. }
  assert (0 <= f ÷ 2 /\ 2 * (f ÷ 2) <= f) as [Hq Hq'].
  { rewrite Z.quot_div_nonneg by lia. split; [apply Z.div_pos; lia|].
    apply Z.mul_div_le. lia. }
  rewrite (small_wrap t (f + f ÷ 2)) by lia.
  destruct (Z.leb_spec target (f + f ÷ 2)) as [Hle|Hgt];
    [eexists; split; [reflexivity|lia]|].
  destruct (ceil_small target ltac:(lia)) as (n' & -> & Hc1 & _ & Hc3 & _).
  exists n'. split; [reflexivity|lia].
Qed.

End Growth.

(** X4: [computeNextCapacity(capacity)], on a type of at least 6 bits and for
    a capacity between 1 and a quarter of the span of the type, returns a
    capacity that is strictly bigger than the given one and at most its
    double. *)
Theorem computeNextCapacity1_at_most_doubles (t : IntType) (c : Z) :
  6 <= width t -> 1 <= c <= 2 ^ (width t - 2) ->
  exists r, computeNextCapacity1 t c = Some r /\ c < r <= 2 * c.
Proof.
  intros Hw Hc.
  destruct (computeNextCapacity1_bounds t Hw c ltac:(lia))
    as (r & Hr & H1 & _ & H2 & _).
  exists r. split; [exact Hr|]. split; [exact H1|apply H2; lia].
Qed.

Lemma computeNextCapacity1_at_most_doubles_witness :
  6 <= width (LengthT X64) /\ 1 <= 24 <= 2 ^ (width (LengthT X64) - 2) /\
  exists r, computeNextCapacity1 (LengthT X64) 24 = Some r /\ 24 < r <= 2 * 24.
Proof.
  assert (6 <= width (LengthT X64)) as Hw by (simpl; lia).
  assert (1 <= 24 <= 2 ^ (width (LengthT X64) - 2)) as Hc by (simpl; lia).
  split; [exact Hw|]. split; [exact Hc|].
  exact (computeNextCapacity1_at_most_doubles (LengthT X64) 24 Hw Hc).
Defined.

(** X5: [computeNextCapacity(capacity, currentCapacity, initialCapacity)],
    for a request above the current capacity and below a quarter of the span
    of the type, returns a capacity that covers the request and is less than
    twice the request, whatever the initial capacity. *)
Theorem computeNextCapacity_covers_request (t : IntType)
    (target current initial : Z) :
  6 <= width t -> 0 <= current < target -> target < 2 ^ (width t - 2) ->
  exists r, computeNextCapacity t target current initial = Some r /\
            target <= r < 2 * target.
Proof. intros Hw. apply computeNextCapacity_bounds. exact Hw. Qed.

Lemma computeNextCapacity_covers_request_witness :
  6 <= width (SizeT X32) /\ 0 <= 10 < 100 /\ 100 < 2 ^ (width (SizeT X32) - 2) /\
  exists r, computeNextCapacity (SizeT X32) 100 10 0 = Some r /\
            100 <= r < 2 * 100.
Proof.
  assert (6 <= width (SizeT X32)) as Hw by (simpl; lia).
  assert (100 < 2 ^ (width (SizeT X32) - 2)) as Ht by (simpl; lia).
  split; [exact Hw|]. split; [lia|]. split; [exact Ht|].
  exact (computeNextCapacity_covers_request (SizeT X32) 100 10 0 Hw ltac:(lia) Ht).
Defined.

Lemma rem2_bounds (a : Z) :
  -1 <= Z.rem a 2 <= 1 /\ (0 <= a -> 0 <= Z.rem a 2) /\ (a <= 0 -> Z.rem a 2 <= 0).
Proof. Z.to_euclidean_division_equations. lia. Qed.

(** X6: [average] of two values of an integer type never leaves the range
    the two values span, differs from their exact mean by at most one half,
    and is the floor of the exact mean when both values are non-negative;
    the sum of the two values is never formed, so nothing overflows. *)
Theorem average_between (t : IntType) (a b : Z) :
  3 <= width t -> inRange t a -> inRange t b ->
  Z.min a b <= average t a b <= Z.max a b /\
  -1 <= 2 * average t a b - (a + b) <= 1 /\
  (0 <= a -> 0 <= b -> average t a b = (a + b) / 2).
Proof.
  intros Hw Ha Hb.
  pose proof (pow2_split (width t) Hw) as (E1 & E2 & E3 & Hp).
  pose proof (Z.quot_rem' a 2) as Qa. pose proof (Z.quot_rem' b 2) as Qb.
  destruct (rem2_bounds a) as (Ra & Ra1 & Ra2).
  destruct (rem2_bounds b) as (Rb & Rb1 & Rb2).
  set (s := Z.rem a 2 + Z.rem b 2) in *.
  pose proof (Z.quot_rem' s 2) as Qs.
  destruct (rem2_bounds s) as (Rs & Rs1 & Rs2).
  assert (average t a b = a ÷ 2 + b ÷ 2 + s ÷ 2) as E.
  { unfold average. fold s.
    assert (inRange t (a ÷ 2 + b ÷ 2) /\ inRange t s /\
            inRange t (a ÷ 2 + b ÷ 2 + s ÷ 2)) as (I1 & I2 & I3)
      by (destruct t as [w|w]; cbn [inRange width] in *; lia).
    rewrite (wrap_inRange t _ I1), (wrap_inRange t _ I2).
    apply wrap_inRange, I3. }
  rewrite E. split; [lia|]. split; [lia|].
  intros Ha0 Hb0. apply Z.div_unique with (r := Z.rem s 2); lia.
Qed.

Lemma average_between_witness :
  3 <= width (Signed 32) /\ inRange (Signed 32) 2147483647 /\
  inRange (Signed 32) 2147483645 /\
  average (Signed 32) 2147483647 2147483645 = 2147483646.
Proof.
  assert (inRange (Signed 32) 2147483647) as Ha by (simpl; lia).
  assert (inRange (Signed 32) 2147483645) as Hb by (simpl; lia).
  split; [simpl; lia|]. split; [exact Ha|]. split; [exact Hb|].
  destruct (average_between (Signed 32) 2147483647 2147483645
              ltac:(simpl; lia) Ha Hb) as (_ & _ & H).
  rewrite H by lia. reflexivity.
Defined.

(** X7: [average(size_t, size_t)] is the floor of the exact mean of its
    arguments, also when their sum does not fit in [size_t]. *)
Theorem averageSize_floor (p : Platform) (a b : Z) :
  inRange (SizeT p) a -> inRange (SizeT p) b ->
  averageSize p a b = (a + b) / 2.
Proof.
  unfold SizeT, averageSize. simpl. intros Ha Hb.
  assert (a + b = 2 * Z.land a b + Z.lxor a b) as E.
  { pose proof (Z.add_lor_land a b). pose proof (Z.sub_lor_land a b). lia. }
  assert (0 <= Z.lxor a b) by (apply Z.lxor_nonneg; lia).
  assert (0 <= Z.land a b) by (apply Z.land_nonneg; lia).
  rewrite Z.shiftr_div_pow2 by lia. change (2 ^ 1) with 2.
  pose proof (Z.div_mod (Z.lxor a b) 2 ltac:(lia)) as D.
  pose proof (Z.mod_pos_bound (Z.lxor a b) 2 ltac:(lia)) as M.
  assert (Z.land a b + Z.lxor a b / 2 = (a + b) / 2) as ->
    by (apply Z.div_unique with (r := Z.lxor a b mod 2); lia).
  apply Z.mod_small. split; [apply Z.div_pos; lia|].
  apply Z.div_lt_upper_bound; lia.
Qed.

Lemma averageSize_floor_witness :
  inRange (SizeT X32) 4294967295 /\ inRange (SizeT X32) 4294967293 /\
  averageSize X32 4294967295 4294967293 = 4294967294.
Proof.
  assert (inRange (SizeT X32) 4294967295) as Ha by (simpl; lia).
  assert (inRange (SizeT X32) 4294967293) as Hb by (simpl; lia).
  split; [exact Ha|]. split; [exact Hb|].
  rewrite (averageSize_floor X32 _ _ Ha Hb). reflexivity.
Defined.

End MathMore.

(** ** Arrays: the remaining operations *)

Module ArrayMore.
Import Containers ContainersFacts ArrayInv.

Section Ranges.
Context {Element : Type}.

(** A loop that writes [x] to every slot of a range. *)
Lemma fill_up (mid : list (Slot Element)) (x : Slot Element) : forall l1 rest,
  forUp (Z.of_nat (length l1)) (Z.of_nat (length l1 + length mid))
    (fun i data => wr data i x) (l1 ++ mid ++ rest)
  = l1 ++ replicate (length mid) x ++ rest.
Proof.
  induction mid as [|y mid IH]; intros l1 rest.
  - rewrite forUp_nil by (simpl; lia). reflexivity.
  - rewrite forUp_step by (simpl; lia).
    change (l1 ++ (y :: mid) ++ rest) with (l1 ++ y :: mid ++ rest).
    rewrite wr_middle by reflexivity.
    replace (l1 ++ x :: mid ++ rest) with ((l1 ++ [x]) ++ mid ++ rest)
      by (rewrite <- app_assoc; reflexivity).
    replace (Z.of_nat (length l1) + 1) with (Z.of_nat (length (l1 ++ [x])))
      by (rewrite length_app; simpl; lia).
    replace (Z.of_nat (length l1 + length (y :: mid)))
      with (Z.of_nat (length (l1 ++ [x]) + length mid))
      by (rewrite length_app; simpl; lia).
    rewrite IH, <- app_assoc. reflexivity.
Qed.

Lemma fill_down (mid : list (Slot Element)) (x : Slot Element) : forall l1 rest,
  forDown (Z.of_nat (length l1 + length mid) - 1) (Z.of_nat (length l1) - 1)
    (fun i data => wr data i x) (l1 ++ mid ++ rest)
  = l1 ++ replicate (length mid) x ++ rest.
Proof.
  induction mid as [|y mid IH] using rev_ind; intros l1 rest.
  - rewrite forDown_nil by (simpl; lia). reflexivity.
  - rewrite forDown_step by (rewrite length_app; simpl; lia).
    replace (l1 ++ (mid ++ [y]) ++ rest) with ((l1 ++ mid) ++ y :: rest)
      by (rewrite <- !app_assoc; reflexivity).
    rewrite wr_middle by (rewrite !length_app; simpl; lia).
    rewrite <- app_assoc.
    replace (Z.of_nat (length l1 + length (mid ++ [y])) - 1 - 1)
      with (Z.of_nat (length l1 + length mid) - 1)
      by (rewrite length_app; simpl; lia).
    rewrite (IH l1 (x :: rest)).
    rewrite length_app. simpl.
    rewrite Nat.add_1_r, replicate_S_end, <- !app_assoc. reflexivity.
Qed.

(** The shifting loop of [erase(start, count)] closes a gap of [cut] slots. *)
Lemma shift_down_gap_n (cut : nat) (l2 : list (Slot Element)) : forall l1 rest,
  (0 < cut)%nat ->
  forUp (Z.of_nat (length l1)) (Z.of_nat (length l1 + length l2))
    (fun i => moveSlot (i + Z.of_nat cut) i)
    (l1 ++ replicate cut None ++ l2 ++ rest)
  = l1 ++ l2 ++ replicate cut None ++ rest.
Proof.
  induction l2 as [|y l2 IH]; intros l1 rest Hcut.
  - rewrite forUp_nil by (simpl; lia). reflexivity.
  - rewrite forUp_step by (simpl; lia).
    destruct cut as [|c]; [lia|].
    assert (moveSlot (Z.of_nat (length l1) + Z.of_nat (S c)) (Z.of_nat (length l1))
              (l1 ++ replicate (S c) None ++ (y :: l2) ++ rest)
            = (l1 ++ [y]) ++ replicate (S c) None ++ l2 ++ rest) as ->.
    { unfold moveSlot.
      assert (l1 ++ replicate (S c) None ++ (y :: l2) ++ rest
              = (l1 ++ replicate (S c) None) ++ y :: l2 ++ rest) as E1
        by (rewrite <- !app_assoc; reflexivity).
      assert (rd (l1 ++ replicate (S c) None ++ (y :: l2) ++ rest)
                (Z.of_nat (length l1) + Z.of_nat (S c)) = y) as ->.
      { rewrite E1. apply rd_middle. rewrite length_app, length_replicate. lia. }
      change (l1 ++ replicate (S c) None ++ (y :: l2) ++ rest)
        with (l1 ++ None :: replicate c None ++ y :: l2 ++ rest).
      rewrite wr_middle by reflexivity.
      assert (l1 ++ y :: replicate c None ++ y :: l2 ++ rest
              = (l1 ++ y :: replicate c None) ++ y :: l2 ++ rest) as E2
        by (rewrite <- !app_assoc; reflexivity).
      rewrite E2.
      rewrite wr_middle by (rewrite length_app; simpl; rewrite length_replicate; lia).
      rewrite <- !app_assoc. simpl. f_equal. f_equal.
      change (None :: l2 ++ rest) with ([None] ++ l2 ++ rest).
      rewrite (app_assoc (replicate c None) [None]), <- replicate_S_end.
      reflexivity. }
    replace (Z.of_nat (length l1) + 1) with (Z.of_nat (length (l1 ++ [y])))
      by (rewrite length_app; simpl; lia).
    replace (Z.of_nat (length l1 + length (y :: l2)))
      with (Z.of_nat (length (l1 ++ [y]) + length l2))
      by (rewrite length_app; simpl; lia).
    rewrite IH by lia. rewrite <- !app_assoc. reflexivity.
Qed.

End Ranges.


Section ArrayMore.
Context (p : Platform) {Element : Type}.
Implicit Types (a : Array.t Element) (live : list Element)
  (spare : list (Slot Element)).

Lemma saturate_clamp (x hi : Z) :
  0 <= hi -> Math.saturate x 0 hi = Z.max 0 (Z.min x hi).
Proof.
  intros H. unfold Math.saturate.
  destruct (Z.ltb_spec 0 x).
  - destruct (Z.ltb_spec x hi); lia.
  - destruct (Z.ltb_spec 0 hi); lia.
Qed.

(** [reallocate] moves the elements to a buffer of the new capacity and
    keeps the pollute bit; without memory it changes nothing. *)
Lemma reallocate_spec (ok : bool) a live spare (c : Z) :
  represents p a live spare -> Z.of_nat (length live) <= c <= MaxLength p ->
  if ok then
    exists a', Array.reallocate p ok c a = (true, a') /\
      represents p a' live (replicate (Z.to_nat c - length live) None) /\
      Array.operator_bool p a' = Array.operator_bool p a
  else Array.reallocate p ok c a = (false, a).
Proof.
  intros H Hc. destruct ok; [|reflexivity].
  pose proof (represents_length p _ _ _ H) as Hlen.
  destruct H as (Hd & Hl & Hcap & Hm).
  unfold Array.reallocate, Array.alloc. rewrite Hlen.
  eexists. split; [reflexivity|].
  rewrite (forUp_ext 0 _ _ (fun i => moveAcross i (i + 0)))
    by (intros; rewrite Z.add_0_r; reflexivity).
  rewrite Hd.
  replace (replicate (Z.to_nat c) (@None Element))
    with ([] ++ replicate (length live) None
             ++ replicate (Z.to_nat c - length live) (@None Element))
    by (simpl; rewrite <- replicate_add; f_equal; lia).
  pose proof (move_across (Some <$> live) [] spare []
                (replicate (length live) None)
                (replicate (Z.to_nat c - length live) None) 0) as Hmv.
  simpl in Hmv. rewrite length_fmap in Hmv. change (Z.of_nat 0) with 0 in Hmv.
  cbn [app].
  rewrite Hmv by (rewrite ?length_replicate; lia). clear Hmv. cbn [snd].
  destruct (capacity_word p c (Array._capacity a) ltac:(lia)) as [Hw1 Hw2].
  split.
  - unfold represents. cbn [Array._data Array._capacity Array._length].
    rewrite length_replicate. repeat split; [exact Hl|rewrite Hw1; lia|lia].
  - unfold Array.operator_bool. cbn [Array._capacity]. rewrite Hw2. reflexivity.
Qed.

(** [capacity(Length)] keeps the elements, and either makes room for the
    requested number of them or, without memory, changes nothing. *)
Lemma capacity1_spec (ok : bool) a live spare (cap : Z) :
  represents p a live spare -> cap <= MaxLength p ->
  exists r a',
    Array.capacity1 p ok cap a = Some (r, a') /\
    if r : bool then
      exists spare', represents p a' live spare' /\
        cap <= Z.of_nat (length live + length spare') /\
        Array.operator_bool p a' = Array.operator_bool p a
    else a' = a /\ ok = false /\ Z.of_nat (length live + length spare) < cap.
Proof.
  intros H Hcap.
  pose proof (represents_capacity p _ _ _ H) as Hc.
  unfold Array.capacity1. rewrite Hc.
  assert (Math.max cap 0 = Z.max cap 0) as ->
    by (unfold Math.max; destruct (Z.ltb_spec cap 0); lia).
  destruct (Z.ltb_spec (Z.of_nat (length live + length spare)) (Z.max cap 0))
    as [Hgrow|Hfit].
  - assert (MaxLength p >= 0) by (destruct H as (_ & _ & _ & Hm); lia).
    destruct (computeCapacity_some p (Z.max cap 0)
                (Z.of_nat (length live + length spare)) ltac:(lia) ltac:(lia))
      as (c & Hcc & Hc1 & Hc2).
    rewrite Hcc. cbn [mbind option_bind].
    pose proof (reallocate_spec ok a live spare c H ltac:(lia)) as Hr.
    destruct ok.
    + destruct Hr as (a' & Hre & Hrep & Hb). rewrite Hre.
      exists true, a'. split; [reflexivity|].
      eexists. split; [exact Hrep|]. rewrite length_replicate. split; [lia|exact Hb].
    + rewrite Hr. exists false, a. split; [reflexivity|]. repeat split. lia.
  - exists true, a. split; [reflexivity|]. exists spare.
    split; [exact H|]. split; [lia|reflexivity].
Qed.

(** The capacity that [computeCapacity] settles on is below twice the
    target. *)
Lemma computeCapacity_double (target current c : Z) :
  0 <= current < target -> target <= MaxLength p ->
  computeCapacity p target current = Some c -> target <= c < 2 * target.
Proof.
  intros Hc Ht. unfold computeCapacity. rewrite floor_limit.
  cbn [mbind option_bind].
  pose proof (wordBits_ge p) as Hw.
  pose proof (MathFacts.pow2_split (wordBits p) ltac:(lia)) as (E1 & E2 & E3 & Hp).
  assert (MaxLength p = 2 ^ (wordBits p - 1) - 1) as EM by reflexivity.
  rewrite wrap_inRange by (unfold LengthT; simpl; lia).
  destruct (Z.ltb_spec target (2 ^ (wordBits p - 2))) as [Hlt|Hge];
    [|intros [= <-]; lia].
  destruct (MathMore.computeNextCapacity_bounds (LengthT p)
              ltac:(simpl; lia) target current 0 Hc Hlt) as (r & -> & Hr).
  intros [= <-]. exact Hr.
Qed.

(** A request whose byte count does not wrap around obtains room for all
    of its elements. *)
Lemma alloc_sized_exact (sizeofElement : Z) (ok : bool) (c : Z) :
  0 < sizeofElement -> 0 <= c -> c * sizeofElement < 2 ^ wordBits p ->
  Array.alloc_sized p sizeofElement ok c = Array.alloc (Element := Element) ok c.
Proof.
  intros Hs Hc Hfit. unfold Array.alloc_sized, Array.alloc, Array.allocBytes.
  assert (c <= c * sizeofElement) by nia.
  rewrite (wrap_inRange (SizeT p) c) by (unfold SizeT, inRange; lia).
  rewrite wrap_inRange by (unfold SizeT, inRange; nia).
  rewrite Z.div_mul by lia. reflexivity.
Qed.

Lemma reallocate_sized_exact (sizeofElement : Z) (ok : bool) a live spare (c : Z) :
  represents p a live spare -> Z.of_nat (length live) <= c ->
  0 < sizeofElement -> c * sizeofElement < 2 ^ wordBits p ->
  Array.reallocate_sized p sizeofElement ok c a = Some (Array.reallocate p ok c a).
Proof.
  intros H Hc Hs Hfit.
  pose proof (represents_length p _ _ _ H) as Hlen.
  unfold Array.reallocate_sized, Array.reallocate.
  rewrite alloc_sized_exact by lia.
  destruct ok; cbn [Array.alloc]; [|reflexivity].
  rewrite Hlen, length_replicate.
  destruct (Z.leb_spec (Z.of_nat (length live)) (Z.of_nat (Z.to_nat c))) as [_|]; [|lia].
  reflexivity.
Qed.

Lemma capacity1_sized_exact (sizeofElement : Z) (ok : bool) a live spare (cap : Z) :
  represents p a live spare -> cap <= MaxLength p ->
  0 < sizeofElement -> 2 * cap * sizeofElement < 2 ^ wordBits p ->
  Array.capacity1_sized p sizeofElement ok cap a = Array.capacity1 p ok cap a.
Proof.
  intros H Hcap Hs Hfit.
  pose proof (represents_capacity p _ _ _ H) as Hc.
  unfold Array.capacity1_sized, Array.capacity1. rewrite Hc.
  assert (Math.max cap 0 = Z.max cap 0) as ->
    by (unfold Math.max; destruct (Z.ltb_spec cap 0); lia).
  destruct (Z.ltb_spec (Z.of_nat (length live + length spare)) (Z.max cap 0))
    as [Hgrow|Hfits]; [|reflexivity].
  destruct (computeCapacity p (Z.max cap 0) (Z.of_nat (length live + length spare)))
    as [c|] eqn:Hcc; [|reflexivity].
  cbn [mbind option_bind].
  assert (Z.max cap 0 <= c < 2 * Z.max cap 0) as Hd
    by (apply (computeCapacity_double _ (Z.of_nat (length live + length spare)));
        [lia|lia|exact Hcc]).
  apply (reallocate_sized_exact sizeofElement ok a live spare c H); [lia|exact Hs|].
  nia.
Qed.

(** X8: [Array::capacity(Length)], when twice the requested capacity, in
    bytes, fits in [size_t], keeps the elements, the length and the pollute
    flag, and the buffer has a slot for every element of the capacity it
    reports.  When it reports success the capacity covers the request; it
    reports failure only when the buffer had to grow and the allocation
    failed, and the array is then as it was. *)
Theorem capacity_reserves (sizeofElement : Z) (ok : bool) a live spare (cap : Z) :
  represents p a live spare -> cap <= MaxLength p ->
  0 < sizeofElement -> 2 * cap * sizeofElement < 2 ^ wordBits p ->
  exists r a',
    Array.capacity1_sized p sizeofElement ok cap a = Some (r, a') /\
    Array.elements p a' = Array.elements p a /\
    Array.length p a' = Array.length p a /\
    Array.operator_bool p a' = Array.operator_bool p a /\
    (exists spare', represents p a' live spare') /\
    (r = true -> cap <= Array.capacity p a') /\
    (r = false -> a' = a /\ ok = false /\ Array.capacity p a < cap).
Proof.
  intros H Hcap Hs Hfit.
  rewrite (capacity1_sized_exact sizeofElement ok a live spare cap H Hcap Hs Hfit).
  destruct (capacity1_spec ok a live spare cap H Hcap) as (r & a' & Hr & Hpost).
  exists r, a'. split; [exact Hr|]. destruct r.
  - destruct Hpost as (spare' & Hrep & Hge & Hb).
    rewrite (represents_elements p _ _ _ Hrep), (represents_elements p _ _ _ H),
      (represents_length p _ _ _ Hrep), (represents_length p _ _ _ H),
      (represents_capacity p _ _ _ Hrep).
    split; [reflexivity|]. split; [reflexivity|]. split; [exact Hb|].
    split; [exists spare'; exact Hrep|].
    split; [intros _; exact Hge|discriminate].
  - destruct Hpost as (-> & -> & Hlt).
    rewrite (represents_capacity p _ _ _ H).
    split; [reflexivity|]. split; [reflexivity|]. split; [reflexivity|].
    split; [exists spare; exact H|].
    split; [discriminate|]. intros _. repeat split. exact Hlt.
Qed.

(** X9: [Array::add], on an array below the maximal length, either puts the
    element behind the others, returns its index (the old length) and keeps
    the pollute flag, or, when the buffer is full and the allocation fails,
    returns [NotFound] and leaves the array as it was. *)
Theorem add_appends (ok : bool) a live spare (x : Element) :
  represents p a live spare -> Z.of_nat (length live) < MaxLength p ->
  exists r a',
    Array.add p ok x a = Some (r, a') /\
    ((r = Z.of_nat (length live) /\
      Array.operator_bool p a' = Array.operator_bool p a /\
      exists spare', represents p a' (live ++ [x]) spare')
     \/ (r = NotFound /\ a' = a /\ ok = false /\ spare = [])).
Proof.
  intros H Hmax.
  pose proof (represents_length p _ _ _ H) as Hlen.
  unfold Array.add, Array.elementAdd. rewrite Hlen.
  destruct (Z.ltb_spec (Z.of_nat (length live)) (MaxLength p)); [|lia].
  destruct (capacity1_spec ok a live spare (Z.of_nat (length live) + 1) H ltac:(lia))
    as (r & a' & Hr & Hpost).
  rewrite Hr. cbn [mbind option_bind]. destruct r.
  - destruct Hpost as (spare' & (Hd & Hl & Hc & Hm) & Hge & Hb).
    eexists _, _. split; [reflexivity|]. left. split; [reflexivity|].
    destruct spare' as [|s spare'']; [simpl in Hge; lia|].
    split; [exact Hb|]. exists spare''.
    unfold represents. cbn [Array._data Array._capacity Array._length].
    rewrite Hd, wr_middle by (rewrite length_fmap; reflexivity).
    rewrite length_app. simpl in *. repeat split.
    + rewrite fmap_app, <- app_assoc. reflexivity.
    + rewrite wrap_inRange by (apply inRange_Size; lia). lia.
    + rewrite Hc. lia.
    + lia.
  - destruct Hpost as (-> & -> & Hlt).
    exists NotFound, a. split; [reflexivity|]. right. repeat split.
    destruct spare; [reflexivity|simpl in Hlt; lia].
Qed.

(** With memory available, [insert] refuses only a full array. *)
Lemma insert_refused a live spare (index : Z) (x : Element) (a' : Array.t Element) :
  represents p a live spare -> Z.of_nat (length live) < MaxLength p ->
  Array.insert p true index x a = Some (false, a') -> False.
Proof.
  intros H Hmax Hins.
  unfold Array.insert, Array.elementInsert in Hins.
  rewrite (represents_length p _ _ _ H) in Hins.
  destruct (Z.ltb_spec (Z.of_nat (length live)) (MaxLength p)); [|lia].
  destruct (_ <=? _); [discriminate|].
  destruct (computeCapacity _ _ _); [|discriminate].
  cbn [mbind option_bind Array.alloc] in Hins. discriminate.
Qed.

(** X10: [Array::insert] takes any index: a negative index inserts in front,
    an index beyond the end appends, any other index puts the element in
    front of the one that was at that index.  It fails only when the
    allocation fails, and the array is then as it was. *)
Theorem insert_clamps_index (ok : bool) a live spare (index : Z) (x : Element) :
  represents p a live spare -> Z.of_nat (length live) < MaxLength p ->
  exists r a',
    Array.insert p ok index x a = Some (r, a') /\
    if r : bool
    then exists spare',
      represents p a' (take (Z.to_nat index) live ++ x :: drop (Z.to_nat index) live)
        spare'
    else a' = a /\ ok = false.
Proof.
  intros H Hmax.
  pose proof (represents_length p _ _ _ H) as Hlen.
  set (n := Z.to_nat (Z.max 0 (Z.min index (Z.of_nat (length live))))).
  assert (Array.insert p ok index x a = Array.insert p ok (Z.of_nat n) x a) as ->.
  { unfold Array.insert, Array.elementInsert. rewrite Hlen.
    rewrite !saturate_clamp by lia.
    replace (Z.max 0 (Z.min (Z.of_nat n) (Z.of_nat (length live))))
      with (Z.max 0 (Z.min index (Z.of_nat (length live)))) by (unfold n; lia).
    reflexivity. }
  assert (take (Z.to_nat index) live ++ x :: drop (Z.to_nat index) live
          = take n live ++ x :: drop n live) as ->.
  { destruct (Z_le_gt_dec index (Z.of_nat (length live))) as [Hle|Hgt].
    - replace n with (Z.to_nat index) by (unfold n; lia). reflexivity.
    - replace n with (length live) by (unfold n; lia).
      rewrite !take_ge, !drop_ge by lia. reflexivity. }
  destruct (insert_spec p ok a live spare n x H ltac:(unfold n; lia) Hmax)
    as (r & a' & Hins & Hr).
  exists r, a'. split; [exact Hins|]. destruct r; [exact Hr|].
  split; [exact Hr|].
  subst a'. destruct ok; [exfalso|reflexivity].
  exact (insert_refused a live spare _ x a H Hmax Hins).
Qed.

(** X11: [Array::erase(Length index)] returns [true] exactly when the index
    lies in [0, length); it then removes that one element and moves the later
    ones down, and otherwise changes nothing.  Capacity and pollute flag are
    kept either way. *)
Theorem erase_index (index : Z) a live spare :
  represents p a live spare ->
  exists r a' spare',
    Array.erase1 p index a = (r, a') /\
    r = ((0 <=? index) && (index <? Z.of_nat (length live))) /\
    represents p a' (if r then delete (Z.to_nat index) live else live) spare' /\
    Array.capacity p a' = Array.capacity p a /\
    Array.operator_bool p a' = Array.operator_bool p a.
Proof.
  intros H.
  destruct (Z.leb_spec 0 index) as [Hnn|Hneg];
    [destruct (Z.ltb_spec index (Z.of_nat (length live))) as [Hin|Hout]|]; cbn [andb].
  - destruct (erase1_spec p a live spare (Z.to_nat index) H ltac:(lia))
      as (a' & spare' & He & Hr).
    rewrite Z2Nat.id in He by lia.
    exists true, a', spare'.
    split; [exact He|]. split; [reflexivity|]. split; [exact Hr|].
    unfold Array.erase1 in He. destruct (_ && _); [|discriminate].
    injection He as <-. split; reflexivity.
  - exists false, a, spare. rewrite (erase1_out p a live spare) by (assumption || lia).
    split; [reflexivity|]. split; [reflexivity|]. split; [exact H|]. split; reflexivity.
  - exists false, a, spare. rewrite (erase1_out p a live spare) by (assumption || lia).
    split; [reflexivity|]. split; [reflexivity|]. split; [exact H|]. split; reflexivity.
Qed.

Lemma min_spec (x y : Z) : Math.min x y = Z.min x y.
Proof. unfold Math.min. destruct (Z.leb_spec x y); lia. Qed.

Lemma max_spec (x y : Z) : Math.max x y = Z.max x y.
Proof. unfold Math.max. destruct (Z.ltb_spec x y); lia. Qed.

(** X12: [Array::erase(Length start, Length count)], for a representable
    [start + count], removes the existing elements at the positions from
    [max(start, 0)] to [start + count - 1] and keeps the others in order; it
    returns [false], and changes nothing, exactly when that range is empty or
    begins behind the last element. *)
Theorem erase_range (start count : Z) a live spare :
  represents p a live spare -> inRange (LengthT p) (start + count) ->
  exists r a' spare',
    Array.erase2 p start count a = (r, a') /\
    r = ((Z.max start 0 <? Z.of_nat (length live))
         && (Z.max start 0 <? start + count)) /\
    represents p a'
      (if r then take (Z.to_nat start) live ++ drop (Z.to_nat (start + count)) live
       else live) spare'.
Proof.
  intros H He.
  pose proof (represents_length p _ _ _ H) as Hlen.
  unfold Array.erase2. rewrite Hlen. unfold toBool.
  destruct (Z.eqb_spec (Z.of_nat (length live)) 0) as [Hz|Hnz]; cbn [negb].
  { exists false, a, spare. split; [reflexivity|]. split; [|exact H].
    destruct (Z.ltb_spec (Z.max start 0) (Z.of_nat (length live))); [lia|reflexivity]. }
  set (s := Z.max start 0). set (e := start + count) in *.
  assert ((if start <? 0 then 0 else start) = s) as ->
    by (unfold s; destruct (Z.ltb_spec start 0); lia).
  assert ((if start <? 0 then wrap (LengthT p) (count + start) else count) = e - s) as ->.
  { unfold s, e. destruct (Z.ltb_spec start 0).
    - rewrite wrap_inRange by (replace (count + start) with (start + count) by lia; exact He).
      lia.
    - lia. }
  replace (s + (e - s)) with e by lia.
  rewrite (wrap_inRange _ e) by exact He.
  destruct (Z.leb_spec (Z.of_nat (length live)) s) as [Hout|Hin]; cbn [orb].
  { exists false, a, spare. split; [reflexivity|]. split; [|exact H].
    destruct (Z.ltb_spec s (Z.of_nat (length live))); [lia|reflexivity]. }
  destruct (Z.leb_spec (e - s) 0) as [Hc0|Hc].
  { exists false, a, spare. split; [reflexivity|]. split; [|exact H].
    destruct (Z.ltb_spec s e); [lia|]. rewrite andb_false_r. reflexivity. }
  destruct (Z.ltb_spec s (Z.of_nat (length live))); [|lia].
  destruct (Z.ltb_spec s e); [|lia]. cbn [andb].
  rewrite min_spec.
  set (right := Z.min e (Z.of_nat (length live))).
  destruct H as (Hd & Hl & Hcap & Hm).
  assert (inRange (LengthT p) (right - s)) as Hrc
    by (apply inRange_Length; unfold right; lia).
  rewrite (wrap_inRange _ (right - s)) by exact Hrc.
  set (ns := Z.to_nat s). set (nr := Z.to_nat right).
  assert (ns < nr <= length live)%nat as Hn by (unfold ns, nr, right; lia).
  set (l1 := Some <$> take ns live).
  set (mid := Some <$> take (nr - ns) (drop ns live)).
  set (l2 := Some <$> drop nr live).
  assert (length l1 = ns) as El1 by (unfold l1; rewrite length_fmap, length_take; lia).
  assert (length mid = (nr - ns)%nat) as Emid
    by (unfold mid; rewrite length_fmap, length_take, length_drop; lia).
  assert (length l2 = (length live - nr)%nat) as El2
    by (unfold l2; rewrite length_fmap, length_drop; lia).
  assert (Array._data a = l1 ++ mid ++ l2 ++ spare) as Hd'.
  { rewrite Hd. unfold l1, mid, l2.
    rewrite !app_assoc, <- !fmap_app. f_equal. f_equal.
    rewrite <- (take_drop ns live) at 1. rewrite <- app_assoc. f_equal.
    rewrite <- (take_drop (nr - ns) (drop ns live)) at 1. f_equal.
    rewrite drop_drop. f_equal. lia. }
  eexists true, _, (replicate (nr - ns) None ++ spare). split; [reflexivity|].
  split; [reflexivity|].
  rewrite Hd'.
  replace (right - 1) with (Z.of_nat (length l1 + length mid) - 1) by lia.
  replace (s - 1) with (Z.of_nat (length l1) - 1) by lia.
  rewrite fill_down.
  replace s with (Z.of_nat (length l1)) at 1 by lia.
  replace (Z.of_nat (length live) - (right - s))
    with (Z.of_nat (length l1 + length l2)) by lia.
  rewrite (forUp_ext _ _ _ (fun i => moveSlot (i + Z.of_nat (length mid)) i))
    by (intros; replace (right - s) with (Z.of_nat (length mid)) by lia; reflexivity).
  rewrite shift_down_gap_n by lia.
  assert (take (Z.to_nat start) live = take ns live) as ->
    by (f_equal; unfold ns, s; lia).
  assert (drop (Z.to_nat e) live = drop nr live) as ->.
  { unfold nr, right. destruct (Z_le_gt_dec e (Z.of_nat (length live))).
    - f_equal. lia.
    - rewrite !drop_ge by lia. reflexivity. }
  unfold represents. cbn [Array._data Array._capacity Array._length].
  rewrite !length_app, length_take, length_drop, length_replicate.
  repeat split.
  - unfold l1, l2. rewrite fmap_app, <- !app_assoc, Emid. reflexivity.
  - rewrite wrap_inRange by (apply inRange_Size; lia). lia.
  - rewrite Hcap. lia.
  - lia.
Qed.

(** [length(Length, Element const&)] in terms of the list of elements. *)
Lemma length1_spec (ok : bool) (n : Z) (v : Element) a live spare :
  represents p a live spare -> n <= MaxLength p ->
  exists r a',
    Array.length1 p ok n v a = Some (r, a') /\
    if r : bool then
      exists spare',
        represents p a'
          (take (Z.to_nat n) live ++ replicate (Z.to_nat n - length live) v) spare'
    else a' = a /\ ok = false /\ Array.capacity p a < n.
Proof.
  intros H Hn.
  pose proof (represents_length p _ _ _ H) as Hlen.
  unfold Array.length1. rewrite Hlen, max_spec.
  destruct (Z.eqb_spec (Z.of_nat (length live)) (Z.max n 0)) as [Heq|Hne]; cbn [negb].
  { exists true, a. split; [reflexivity|]. exists spare.
    rewrite take_ge by lia.
    replace (Z.to_nat n - length live)%nat with 0%nat by lia.
    rewrite app_nil_r. exact H. }
  destruct (Z.ltb_spec (Z.of_nat (length live)) (Z.max n 0)) as [Hgrow|Hcut].
  - destruct (capacity1_spec ok a live spare (Z.max n 0) H ltac:(destruct H as (_&_&_&?); lia))
      as (r & a' & Hr & Hpost).
    rewrite Hr. cbn [mbind option_bind]. destruct r.
    + destruct Hpost as (spare' & (Hd & Hl & Hc & Hm) & Hge & Hb).
      eexists true, _. split; [reflexivity|].
      set (k := (Z.to_nat n - length live)%nat).
      exists (drop k spare').
      rewrite Hd. rewrite <- (take_drop k spare') at 1.
      assert (length (take k spare') = k) as Ek by (rewrite length_take; unfold k; lia).
      replace (Z.of_nat (length live))
        with (Z.of_nat (length (Some <$> live))) at 1 by (rewrite length_fmap; reflexivity).
      replace (Z.max n 0)
        with (Z.of_nat (length (Some <$> live) + length (take k spare')))
        by (rewrite length_fmap, Ek; unfold k; lia).
      rewrite fill_up, Ek.
      rewrite take_ge by lia.
      unfold represents. cbn [Array._data Array._capacity Array._length].
      rewrite length_app, length_replicate, length_drop, length_fmap.
      repeat split.
      * rewrite fmap_app, fmap_replicate, <- app_assoc. reflexivity.
      * rewrite wrap_inRange by (apply inRange_Size; lia). unfold k. lia.
      * rewrite Hc. unfold k. lia.
      * unfold k. lia.
    + destruct Hpost as (-> & -> & Hlt).
      exists false, a. split; [reflexivity|]. repeat split.
      rewrite (represents_capacity p _ _ _ H). lia.
  - destruct H as (Hd & Hl & Hc & Hm).
    eexists true, _. split; [reflexivity|].
    set (k := Z.to_nat (Z.max n 0)).
    exists (replicate (length live - k) None ++ spare).
    rewrite Hd. rewrite <- (take_drop k live) at 2.
    rewrite fmap_app, <- app_assoc.
    assert (length (Some <$> take k live) = k) as Et
      by (rewrite length_fmap, length_take; unfold k; lia).
    assert (length (Some <$> drop k live) = (length live - k)%nat) as Edr
      by (rewrite length_fmap, length_drop; lia).
    replace (Z.of_nat (length live) - 1)
      with (Z.of_nat (length (Some <$> take k live) + length (Some <$> drop k live)) - 1)
      by (rewrite Et, Edr; unfold k; lia).
    replace (Z.max n 0 - 1) with (Z.of_nat (length (Some <$> take k live)) - 1)
      by (rewrite Et; unfold k; lia).
    rewrite fill_down, Edr.
    replace (Z.to_nat n) with k by (unfold k; lia).
    replace (k - length live)%nat with 0%nat by (unfold k; lia).
    cbn [replicate]. rewrite app_nil_r.
    unfold represents. cbn [Array._data Array._capacity Array._length].
    rewrite length_take, length_app, length_replicate.
    repeat split.
    + rewrite wrap_inRange by (apply inRange_Size; unfold k; lia). unfold k. lia.
    + rewrite Hc. unfold k. lia.
    + unfold k. lia.
Qed.

Lemma length1_sized_exact (sizeofElement : Z) (ok : bool) (n : Z) (v : Element)
    a live spare :
  represents p a live spare -> n <= MaxLength p ->
  0 < sizeofElement -> 2 * n * sizeofElement < 2 ^ wordBits p ->
  Array.length1_sized p sizeofElement ok n v a = Array.length1 p ok n v a.
Proof.
  intros H Hn Hs Hfit.
  pose proof (represents_length p _ _ _ H) as Hlen.
  assert (0 <= MaxLength p) as Hm by (destruct H as (_ & _ & _ & ?); lia).
  unfold Array.length1_sized, Array.length1. rewrite Hlen, max_spec.
  destruct (negb (Z.of_nat (length live) =? Z.max n 0)); [|reflexivity].
  destruct (Z.ltb_spec (Z.of_nat (length live)) (Z.max n 0)) as [Hgrow|Hcut];
    [|reflexivity].
  assert (Z.max n 0 = n) as En by lia. rewrite En in *.
  rewrite (capacity1_sized_exact sizeofElement ok a live spare n H Hn Hs Hfit).
  destruct (capacity1_spec ok a live spare n H Hn) as (r & a' & Hr & Hpost).
  rewrite Hr. cbn [mbind option_bind]. destruct r; [|reflexivity].
  destruct Hpost as (spare' & (Hd & _) & Hge & _).
  rewrite Hd, length_app, length_fmap.
  destruct (Z.leb_spec n (Z.of_nat (length live + length spare'))) as [_|]; [|lia].
  reflexivity.
Qed.

(** X13: [Array::length(Length length, Element const& value)], for a length
    up to [MaxLength] (a negative one counts as 0) whose double, in bytes,
    fits in [size_t], cuts the array down to its first [length] elements or
    extends it with copies of [value].  It fails only when the new length
    exceeds the capacity and the allocation fails, and the array is then as
    it was. *)
Theorem resize_spec (sizeofElement : Z) (ok : bool) (n : Z) (v : Element)
    a live spare :
  represents p a live spare -> n <= MaxLength p ->
  0 < sizeofElement -> 2 * n * sizeofElement < 2 ^ wordBits p ->
  exists r a',
    Array.length1_sized p sizeofElement ok n v a = Some (r, a') /\
    if r : bool then
      exists spare',
        represents p a'
          (take (Z.to_nat n) live ++ replicate (Z.to_nat n - length live) v) spare'
    else a' = a /\ ok = false /\ Array.capacity p a < n.
Proof.
  intros H Hn Hs Hfit.
  rewrite (length1_sized_exact sizeofElement ok n v a live spare H Hn Hs Hfit).
  exact (length1_spec ok n v a live spare H Hn).
Qed.

(** The pollute flag and the capacity do not share bits of [_capacity]. *)
Lemma land_ldiff_PolluteBit (c : Z) :
  Z.land (Z.ldiff c (PolluteBit p)) (PolluteBit p) = 0 /\
  Z.land (Z.ldiff c (PolluteBit p)) (LengthMask p) = Z.land c (LengthMask p).
Proof.
  pose proof (wordBits_ge p) as Hw.
  destruct (MaxLength_eq p) as [_ ->]. unfold PolluteBit.
  split; apply Z.bits_inj'; intros i Hi;
    rewrite ?Z.land_spec, ?Z.ldiff_spec, ?Z.bits_0, ?Z.pow2_bits_eqb by lia.
  - destruct (Z.eqb_spec (wordBits p - 1) i); cbn [negb];
      rewrite ?andb_false_r; reflexivity.
  - rewrite !Z.testbit_ones_nonneg by lia.
    destruct (Z.eqb_spec (wordBits p - 1) i); cbn [negb].
    + destruct (Z.ltb_spec i (wordBits p - 1)); [lia|].
      rewrite !andb_false_r. reflexivity.
    + rewrite andb_true_r. reflexivity.
Qed.

Lemma land_lor_PolluteBit (c : Z) :
  Z.land (Z.lor c (PolluteBit p)) (PolluteBit p) = PolluteBit p /\
  Z.land (Z.lor c (PolluteBit p)) (LengthMask p) = Z.land c (LengthMask p).
Proof.
  pose proof (wordBits_ge p) as Hw.
  destruct (MaxLength_eq p) as [_ ->]. unfold PolluteBit.
  split; apply Z.bits_inj'; intros i Hi;
    rewrite ?Z.land_spec, ?Z.lor_spec, ?Z.pow2_bits_eqb by lia.
  - destruct (Z.eqb_spec (wordBits p - 1) i);
      rewrite ?orb_true_r, ?andb_false_r; reflexivity.
  - rewrite !Z.testbit_ones_nonneg by lia.
    destruct (Z.eqb_spec (wordBits p - 1) i).
    + destruct (Z.ltb_spec i (wordBits p - 1)); [lia|].
      rewrite !andb_false_r. reflexivity.
    + rewrite orb_false_r. reflexivity.
Qed.

Lemma PolluteBit_pos : 0 < PolluteBit p.
Proof. unfold PolluteBit. pose proof (wordBits_ge p). apply Z.pow_pos_nonneg; lia. Qed.

(** [pollute] and [unpollute] only touch the pollute flag. *)
Lemma pollute_flag_only a :
  Array.operator_bool p (Array.pollute p a) = false /\
  Array.operator_bool p (Array.unpollute p a) = true /\
  Array.capacity p (Array.pollute p a) = Array.capacity p a /\
  Array.capacity p (Array.unpollute p a) = Array.capacity p a /\
  Array.elements p (Array.pollute p a) = Array.elements p a /\
  Array.elements p (Array.unpollute p a) = Array.elements p a /\
  Array.unpollute p (Array.unpollute p a) = Array.unpollute p a /\
  Array.operator_bool p (Array.unpollute p (Array.pollute p a)) = true.
Proof.
  destruct (land_lor_PolluteBit (Array._capacity a)) as [Hp1 Hp2].
  destruct (land_ldiff_PolluteBit (Array._capacity a)) as [Hu1 Hu2].
  destruct (land_ldiff_PolluteBit (Z.lor (Array._capacity a) (PolluteBit p))) as [Hv1 _].
  pose proof PolluteBit_pos as Hpos.
  unfold Array.operator_bool, Array.capacity, Array.elements, Array.length,
    Array.pollute, Array.unpollute.
  cbn [Array._data Array._capacity Array._length].
  rewrite Hp1, Hp2, Hu1, Hu2, Hv1.
  destruct (Z.eqb_spec (PolluteBit p) 0); [lia|].
  repeat split.
  f_equal. apply Z.bits_inj'. intros i Hi. rewrite !Z.ldiff_spec.
  destruct (Z.testbit (Array._capacity a) i), (Z.testbit (PolluteBit p) i); reflexivity.
Qed.

(** X14: [Array::clear] destroys all the elements, keeps the buffer with its
    capacity, and resets the pollute flag. *)
Theorem clear_keeps_buffer a live spare :
  represents p a live spare ->
  represents p (Array.clear p a) [] (replicate (length live) None ++ spare) /\
  Array.length p (Array.clear p a) = 0 /\
  Array.capacity p (Array.clear p a) = Array.capacity p a /\
  Array.operator_bool p (Array.clear p a) = true.
Proof.
  intros H.
  pose proof (represents_length p _ _ _ H) as Hlen.
  pose proof (represents_capacity p _ _ _ H) as Hcap.
  destruct (land_ldiff_PolluteBit (Array._capacity a)) as [Hu1 Hu2].
  assert (represents p (Array.clear p a) [] (replicate (length live) None ++ spare)) as Hr.
  { destruct H as (Hd & Hl & Hc & Hm).
    unfold Array.clear. rewrite Hlen, Hd.
    pose proof (fill_down (Some <$> live) None [] spare) as Hf.
    rewrite length_fmap in Hf. simpl in Hf. change (Z.of_nat 0) with 0 in Hf.
    change (-1) with (0 - 1). rewrite Hf.
    unfold represents. cbn [Array._data Array._capacity Array._length].
    rewrite length_app, length_replicate, Hu2. simpl. repeat split; [lia|lia]. }
  split; [exact Hr|].
  rewrite (represents_length p _ _ _ Hr), (represents_capacity p _ _ _ Hr), Hcap.
  split; [reflexivity|]. split.
  - rewrite length_app, length_replicate. simpl. lia.
  - unfold Array.operator_bool, Array.clear. cbn [Array._capacity].
    rewrite Hu1. reflexivity.
Qed.

Lemma wr_insert (data : list (Slot Element)) (i : nat) (x : Slot Element) :
  wr data (Z.of_nat i) x = <[i := x]> data.
Proof.
  unfold wr. destruct (Z.ltb_spec (Z.of_nat i) 0); [lia|]. rewrite Nat2Z.id.
  reflexivity.
Qed.

(** [swap] exchanges two live elements. *)
Lemma swap_spec (i j : nat) (x y : Element) a live spare :
  represents p a live spare -> live !! i = Some x -> live !! j = Some y ->
  represents p (Array.swap (Z.of_nat i) (Z.of_nat j) a)
    (<[j := x]> (<[i := y]> live)) spare.
Proof.
  intros H Hx Hy.
  pose proof (represents_rd p a live spare i H) as Hri. rewrite Hx in Hri.
  pose proof (lookup_lt_Some _ _ _ Hx) as Hi.
  pose proof (lookup_lt_Some _ _ _ Hy) as Hj.
  destruct H as (Hd & Hl & Hc & Hm).
  unfold represents, Array.swap.
  cbn [Array._data Array._capacity Array._length].
  rewrite !length_insert. repeat split; try assumption.
  rewrite Hri, rd_wr, !wr_insert.
  rewrite list_insert_insert_eq.
  assert (Z.of_nat i < Z.of_nat (length (Array._data a))) as Hil
    by (rewrite Hd, length_app, length_fmap; lia).
  destruct (Z.leb_spec 0 (Z.of_nat i)); [|lia].
  destruct (Z.ltb_spec (Z.of_nat i) (Z.of_nat (length (Array._data a)))); [|lia].
  rewrite andb_true_l, andb_true_r.
  destruct (Z.eqb_spec (Z.of_nat i) (Z.of_nat j)) as [Eij|Nij].
  - assert (i = j) as -> by lia.
    rewrite !list_insert_insert_eq. 
    rewrite Hd, insert_app_l by (rewrite length_fmap; lia).
    rewrite list_fmap_insert. reflexivity.
  - pose proof (represents_rd p a live spare j
                  (conj Hd (conj Hl (conj Hc Hm)))) as Hrj.
    rewrite Hy in Hrj. rewrite Hrj.
    rewrite list_insert_insert_eq.
    rewrite Hd, !insert_app_l by (rewrite ?length_insert, length_fmap; lia).
    rewrite !list_fmap_insert. reflexivity.
Qed.

(** [swap] in terms of the list of elements. *)
Lemma swap_exchanges (i j : nat) (x y : Element) a live spare :
  represents p a live spare -> live !! i = Some x -> live !! j = Some y ->
  represents p (Array.swap (Z.of_nat i) (Z.of_nat j) a)
    (<[j := x]> (<[i := y]> live)) spare /\
  Array.length p (Array.swap (Z.of_nat i) (Z.of_nat j) a) = Array.length p a /\
  Array.capacity p (Array.swap (Z.of_nat i) (Z.of_nat j) a) = Array.capacity p a.
Proof.
  intros H Hx Hy. split; [apply swap_spec; assumption|]. split; reflexivity.
Qed.

(** The copying loop of the copy constructor. *)
Lemma copy_up (src : list (Slot Element)) (l : list (Slot Element)) :
  forall l1 junk rest,
  length junk = length l ->
  (forall k, (k < length l)%nat ->
     rd src (Z.of_nat (length l1 + k)) = default None (l !! k)) ->
  forUp (Z.of_nat (length l1)) (Z.of_nat (length l1 + length l))
    (fun i data => wr data i (rd src i)) (l1 ++ junk ++ rest)
  = l1 ++ l ++ rest.
Proof.
  induction l as [|y l IH]; intros l1 junk rest Hj Hsrc.
  - destruct junk; [|discriminate]. rewrite forUp_nil by (simpl; lia). reflexivity.
  - destruct junk as [|z junk]; [discriminate|]. simpl in Hj.
    rewrite forUp_step by (simpl; lia).
    change (l1 ++ (z :: junk) ++ rest) with (l1 ++ z :: junk ++ rest).
    rewrite wr_middle by reflexivity.
    pose proof (Hsrc 0%nat ltac:(simpl; lia)) as H0.
    rewrite Nat.add_0_r in H0. simpl in H0. rewrite H0.
    replace (l1 ++ y :: junk ++ rest) with ((l1 ++ [y]) ++ junk ++ rest)
      by (rewrite <- app_assoc; reflexivity).
    replace (Z.of_nat (length l1) + 1) with (Z.of_nat (length (l1 ++ [y])))
      by (rewrite length_app; simpl; lia).
    replace (Z.of_nat (length l1 + length (y :: l)))
      with (Z.of_nat (length (l1 ++ [y]) + length l))
      by (rewrite length_app; simpl; lia).
    rewrite IH.
    + rewrite <- app_assoc. reflexivity.
    + lia.
    + intros k Hk. rewrite length_app. simpl.
      replace (length l1 + 1 + k)%nat with (length l1 + S k)%nat by lia.
      rewrite Hsrc by (simpl; lia). reflexivity.
Qed.

(** X15: the copy constructor builds an array with the same elements and
    without spare capacity, and the copy is not polluted even if the original
    was.  When the original has elements and the allocation fails, the copy
    is the empty array with the pollute flag set. *)
Theorem copy_constructor (ok : bool) a live spare :
  represents p a live spare ->
  (ok = true \/ live = [] ->
     represents p (Array.Array_copy p ok a) live [] /\
     Array.operator_bool p (Array.Array_copy p ok a) = true) /\
  (ok = false -> live <> [] ->
     Array.Array_copy p ok a = Array.pollute p Array.empty).
Proof.
  intros H.
  pose proof (represents_length p _ _ _ H) as Hlen.
  unfold Array.Array_copy. rewrite Hlen. unfold toBool.
  destruct (Z.eqb_spec (Z.of_nat (length live)) 0) as [Hz|Hnz]; cbn [negb].
  { destruct live; [|simpl in Hz; lia]. split.
    - intros _. split; [apply represents_empty|].
      unfold Array.operator_bool, Array.empty. cbn [Array._capacity].
      rewrite Z.land_0_l. reflexivity.
    - intros _ Hne. contradiction. }
  split.
  - intros [Hok | Hnil]; [subst ok|subst live; simpl in Hnz; lia]. cbn [Array.alloc].
    rewrite Nat2Z.id.
    pose proof (copy_up (Array._data a) (Some <$> live) []
                  (replicate (length live) None) []) as Hcp.
    rewrite !app_nil_r, length_fmap in Hcp. simpl in Hcp.
    change (Z.of_nat 0) with 0 in Hcp.
    rewrite Hcp; cycle 1.
    { apply length_replicate. }
    { intros k Hk. rewrite (represents_rd p a live spare k H), list_lookup_fmap.
      destruct (lookup_lt_is_Some_2 live k Hk) as [x ->]. reflexivity. }
    destruct H as (Hd & Hl & Hc & Hm).
    assert (0 <= Z.of_nat (length live) <= MaxLength p) as Hr by lia.
    pose proof (capacity_word p _ 0 Hr) as Hw. cbn zeta in Hw.
    rewrite Z.land_0_l, Z.lor_0_r in Hw. destruct Hw as [Hw1 Hw2].
    split.
    + unfold represents. cbn [Array._data Array._capacity Array._length].
      rewrite app_nil_r, Hw1. simpl. rewrite Nat.add_0_r.
      repeat split; try lia.
      apply wrap_inRange, inRange_Size. lia.
    + unfold Array.operator_bool. cbn [Array._capacity]. rewrite Hw2. reflexivity.
  - intros -> _. reflexivity.
Qed.

(** X16: [Array::shrink], when it succeeds, leaves the same elements in a
    buffer without spare capacity, and keeps the pollute flag of a non-empty
    array.  It fails only when the array has elements and spare slots and
    the smaller buffer cannot be allocated, and the array is then as it
    was. *)
Theorem shrink_to_length (ok : bool) a live spare :
  represents p a live spare ->
  exists r a',
    Array.shrink p ok a = (r, a') /\
    if r : bool then
      represents p a' live [] /\
      (live <> [] -> Array.operator_bool p a' = Array.operator_bool p a)
    else a' = a /\ ok = false /\ live <> [] /\ spare <> [].
Proof.
  intros H.
  pose proof (represents_length p _ _ _ H) as Hlen.
  pose proof (represents_capacity p _ _ _ H) as Hcap.
  unfold Array.shrink. rewrite Hlen, Hcap. unfold toBool.
  destruct (Z.eqb_spec (Z.of_nat (length live)) (Z.of_nat (length live + length spare)))
    as [Heq|Hne]; cbn [negb].
  { exists true, a. split; [reflexivity|].
    destruct spare; [|simpl in Heq; lia]. split; [exact H|reflexivity]. }
  destruct (Z.eqb_spec (Z.of_nat (length live)) 0) as [Hz|Hnz]; cbn [negb].
  { exists true, (Array.mk [] 0 0). split; [reflexivity|].
    destruct live; [|simpl in Hz; lia]. split; [apply represents_empty|].
    intros Hc. contradiction. }
  assert (Z.of_nat (length live) <= Z.of_nat (length live) <= MaxLength p) as Hr
    by (destruct H as (_ & _ & _ & Hm); lia).
  pose proof (reallocate_spec ok a live spare _ H Hr) as Hre.
  destruct ok.
  - destruct Hre as (a' & -> & Hrep & Hb). exists true, a'. split; [reflexivity|].
    rewrite Nat2Z.id, Nat.sub_diag in Hrep. split; [exact Hrep|]. intros _. exact Hb.
  - rewrite Hre. exists false, a. split; [reflexivity|]. repeat split.
    + intros ->. simpl in Hnz. lia.
    + intros ->. simpl in Hne. lia.
Qed.

End ArrayMore.

Section BinarySearch.
Context (p : Platform) {Element : Type} (comparer : Element -> Element -> Z)
  (Hswo : StrictWeakOrder comparer).

(** Elements in ascending order, equivalent neighbours allowed. *)
Definition nondecreasing (live : list Element) : Prop :=
  forall (i j : nat) (x y : Element),
    (i < j)%nat -> live !! i = Some x -> live !! j = Some y -> comparer x y <= 0.

Lemma nondecreasing_below (live : list Element) (i j : nat) (x y e : Element) :
  nondecreasing live -> (i <= j)%nat -> live !! i = Some x -> live !! j = Some y ->
  comparer y e < 0 -> comparer x e < 0.
Proof.
  intros Hs Hij Hx Hy Hlt.
  destruct (Nat.eq_dec i j) as [->|Hne]; [congruence|].
  pose proof (Hs i j x y ltac:(lia) Hx Hy) as Hle.
  destruct (Z.eq_dec (comparer x y) 0) as [E|N].
  - apply (swo_equiv_less comparer Hswo x y e); assumption.
  - apply (swo_trans _ Hswo x y e); [lia|assumption].
Qed.

Lemma nondecreasing_above (live : list Element) (i j : nat) (x y e : Element) :
  nondecreasing live -> (i <= j)%nat -> live !! i = Some x -> live !! j = Some y ->
  0 < comparer x e -> 0 < comparer y e.
Proof.
  intros Hs Hij Hx Hy Hgt.
  destruct (Nat.eq_dec i j) as [->|Hne]; [congruence|].
  pose proof (Hs i j x y ltac:(lia) Hx Hy) as Hle.
  apply (swo_flip _ Hswo) in Hgt. apply (swo_flip _ Hswo).
  destruct (Z.eq_dec (comparer x y) 0) as [E|N].
  - apply (swo_less_equiv comparer Hswo e x y); assumption.
  - apply (swo_trans _ Hswo e x y); [assumption|lia].
Qed.

Lemma binarySearchLoop_spec (data : list (Slot Element)) (live : list Element)
    (element : Element) :
  (forall i e, live !! i = Some e -> rd data (Z.of_nat i) = Some e) ->
  nondecreasing live ->
  forall (fuel : nat) (left right : Z),
  0 <= left -> right < Z.of_nat (length live) ->
  Z.max 0 (right - left + 1) < Z.of_nat fuel ->
  exists r,
    Array.binarySearchLoop comparer fuel data element left right = Some r /\
    (r = NotFound ->
       forall i x, left <= Z.of_nat i <= right -> live !! i = Some x ->
                   comparer x element <> 0) /\
    (r <> NotFound ->
       left <= r <= right /\
       exists x, live !! Z.to_nat r = Some x /\ comparer x element = 0).
Proof.
  intros Hrd Hs. induction fuel as [|fuel IH]; intros left right Hl Hr Hfuel; [lia|].
  simpl. destruct (Z.leb_spec left right) as [Hle|Hgt].
  - rewrite Z.quot_div_nonneg by lia.
    set (pivot := left + (right - left) / 2).
    assert (left <= pivot <= right) as Hpv.
    { unfold pivot. pose proof (Z.div_pos (right - left) 2 ltac:(lia) ltac:(lia)).
      assert ((right - left) / 2 <= right - left)
        by (apply Z.div_le_upper_bound; lia). lia. }
    destruct (lookup_lt_is_Some_2 live (Z.to_nat pivot) ltac:(lia)) as [e He].
    pose proof (Hrd _ _ He) as Hrde. rewrite Z2Nat.id in Hrde by lia.
    rewrite Hrde. cbn [mbind option_bind].
    destruct (Z.eqb_spec (comparer e element) 0) as [Hz|Hnz].
    + exists pivot. split; [reflexivity|]. split.
      * unfold NotFound. lia.
      * intros _. split; [exact Hpv|]. exists e. split; assumption.
    + destruct (Z.ltb_spec (comparer e element) 0) as [Hneg|Hpos].
      * destruct (IH (pivot + 1) right ltac:(lia) Hr ltac:(lia)) as (r & Hres & Hnf & Hf).
        exists r. split; [exact Hres|]. split.
        -- intros Er i x Hi Hx.
           destruct (Z_le_gt_dec (Z.of_nat i) pivot) as [Hip|Hip].
           ++ pose proof (nondecreasing_below live i (Z.to_nat pivot) x e element Hs
                            ltac:(lia) Hx He Hneg). lia.
           ++ apply (Hnf Er i x); [lia|exact Hx].
        -- intros Nr. destruct (Hf Nr) as [Hb Hx]. split; [lia|exact Hx].
      * destruct (IH left (pivot - 1) Hl ltac:(lia) ltac:(lia)) as (r & Hres & Hnf & Hf).
        exists r. split; [exact Hres|]. split.
        -- intros Er i x Hi Hx.
           destruct (Z_le_gt_dec pivot (Z.of_nat i)) as [Hip|Hip].
           ++ pose proof (nondecreasing_above live (Z.to_nat pivot) i e x element Hs
                            ltac:(lia) He Hx ltac:(lia)). lia.
           ++ apply (Hnf Er i x); [lia|exact Hx].
        -- intros Nr. destruct (Hf Nr) as [Hb Hx]. split; [lia|exact Hx].
  - exists NotFound. split; [reflexivity|]. split.
    + intros _ i x Hi. lia.
    + intros N. contradiction.
Qed.

(** X17: [Array::binarySearch], on an array in ascending order under a
    comparer that is a strict weak ordering, with [first] and [last] clamped
    into the array, always returns.  It returns [NotFound] only if no element
    between the clamped bounds is equivalent to the searched one, and any
    other result is the index, between the bounds, of an equivalent
    element. *)
Theorem binarySearch_finds (element : Element) (first last : Z)
    (a : Array.t Element) (live : list Element) (spare : list (Slot Element)) :
  represents p a live spare -> nondecreasing live ->
  let lo := Z.max 0 (Z.min first (Z.of_nat (length live) - 1)) in
  let hi := Z.max 0 (Z.min last (Z.of_nat (length live) - 1)) in
  exists r,
    Array.binarySearch p comparer element first last a = Some r /\
    (r = NotFound ->
       forall i x, lo <= Z.of_nat i <= hi -> live !! i = Some x ->
                   comparer x element <> 0) /\
    (r <> NotFound ->
       lo <= r <= hi /\
       exists x, live !! Z.to_nat r = Some x /\ comparer x element = 0).
Proof.
  intros H Hs lo hi.
  pose proof (represents_length p _ _ _ H) as Hlen.
  unfold Array.binarySearch. rewrite Hlen. unfold toBool.
  destruct (Z.eqb_spec (Z.of_nat (length live)) 0) as [Hz|Hnz]; cbn [negb].
  - exists NotFound. split; [reflexivity|]. split.
    + intros _ i x Hi Hx. apply lookup_lt_Some in Hx. lia.
    + intros N. contradiction.
  - rewrite !ArrayMore.saturate_clamp by lia. fold lo hi.
    apply (binarySearchLoop_spec _ live).
    + intros i e He. rewrite (represents_rd p _ _ _ i H), He. reflexivity.
    + exact Hs.
    + unfold lo. lia.
    + unfold hi. lia.
    + unfold fuelOf, lo, hi. lia.
Qed.

End BinarySearch.


(** ** quickSort *)

Section Within.
Context {Element : Type}.
Implicit Types (live : list Element).

(** [live'] is [live] with the elements at the positions [f .. l]
    rearranged. *)
Definition within (f l : Z) live live' : Prop :=
  exists a m m' c,
    live = a ++ m ++ c /\ live' = a ++ m' ++ c /\
    Z.of_nat (length a) = f /\ Z.of_nat (length m) = l - f + 1 /\ m ≡ₚ m'.

Lemma within_refl (f l : Z) live :
  0 <= f <= l + 1 -> l < Z.of_nat (length live) -> within f l live live.
Proof.
  intros Hf Hl.
  exists (take (Z.to_nat f) live),
         (take (Z.to_nat (l - f + 1)) (drop (Z.to_nat f) live)),
         (take (Z.to_nat (l - f + 1)) (drop (Z.to_nat f) live)),
         (drop (Z.to_nat (l - f + 1)) (drop (Z.to_nat f) live)).
  rewrite !take_drop.
  split; [reflexivity|]. split; [reflexivity|].
  split; [rewrite length_take; lia|].
  split; [rewrite length_take, length_drop; lia|reflexivity].
Qed.

Lemma within_length (f l : Z) live live' :
  within f l live live' -> length live' = length live.
Proof.
  intros (a & m & m' & c & -> & -> & _ & _ & Hp).
  rewrite !length_app, (Permutation_length Hp). reflexivity.
Qed.

Lemma within_Permutation (f l : Z) live live' : within f l live live' -> live ≡ₚ live'.
Proof. intros (a & m & m' & c & -> & -> & _ & _ & Hp). rewrite Hp. reflexivity. Qed.

Lemma within_frame (f l : Z) live live' (i : nat) :
  within f l live live' -> Z.of_nat i < f \/ l < Z.of_nat i ->
  live' !! i = live !! i.
Proof.
  intros (a & m & m' & c & -> & -> & Ha & Hm & Hp) Hi.
  pose proof (Permutation_length Hp) as Hlen.
  destruct Hi as [Hi|Hi].
  - rewrite !lookup_app_l by lia. reflexivity.
  - rewrite !(lookup_app_r a) by lia.
    rewrite !lookup_app_r by lia. rewrite Hlen. reflexivity.
Qed.

Lemma within_forall (Q : Element -> Prop) (f l : Z) live live' :
  within f l live live' ->
  (forall (i : nat) x, f <= Z.of_nat i <= l -> live !! i = Some x -> Q x) ->
  forall (i : nat) x, f <= Z.of_nat i <= l -> live' !! i = Some x -> Q x.
Proof.
  intros (a & m & m' & c & -> & -> & Ha & Hm & Hp) HQ i x Hi Hx.
  pose proof (Permutation_length Hp) as Hlen.
  assert (Forall Q m) as HF.
  { apply Forall_lookup. intros k y Hk.
    apply (HQ (length a + k)%nat y).
    - apply lookup_lt_Some in Hk. lia.
    - rewrite lookup_app_r by lia. rewrite lookup_app_l by (apply lookup_lt_Some in Hk; lia).
      rewrite <- Hk. f_equal. lia. }
  rewrite Hp in HF.
  rewrite lookup_app_r in Hx by lia.
  rewrite lookup_app_l in Hx by lia.
  eapply Forall_lookup_1; eassumption.
Qed.

Lemma within_trans (f l : Z) (l1 l2 l3 : list Element) :
  within f l l1 l2 -> within f l l2 l3 -> within f l l1 l3.
Proof.
  intros (a & m & m' & c & -> & E2 & Ha & Hm & Hp)
         (a2 & m2 & m2' & c2 & E2' & -> & Ha2 & Hm2 & Hp2).
  rewrite E2 in E2'.
  pose proof (Permutation_length Hp) as Hlen.
  apply app_inj_1 in E2' as [<- E2']; [|lia].
  apply app_inj_1 in E2' as [<- <-]; [|lia].
  exists a, m, m2', c. repeat split; try assumption.
  rewrite Hp. exact Hp2.
Qed.

Lemma within_widen (f l f' l' : Z) live live' :
  0 <= f <= f' -> f' <= l' + 1 -> l' <= l -> l < Z.of_nat (length live) ->
  within f' l' live live' -> within f l live live'.
Proof.
  intros Hf Hfl Hl Hlen (a & m & m' & c & -> & -> & Ha & Hm & Hp).
  pose proof (Permutation_length Hp) as Hpl.
  rewrite !length_app in Hlen.
  exists (take (Z.to_nat f) a),
         (drop (Z.to_nat f) a ++ m ++ take (Z.to_nat (l - l')) c),
         (drop (Z.to_nat f) a ++ m' ++ take (Z.to_nat (l - l')) c),
         (drop (Z.to_nat (l - l')) c).
  repeat split.
  - rewrite <- !app_assoc, (app_assoc (take _ a)), take_drop, take_drop. reflexivity.
  - rewrite <- !app_assoc, (app_assoc (take _ a)), take_drop, take_drop. reflexivity.
  - rewrite length_take. lia.
  - rewrite !length_app, length_drop, length_take. lia.
  - rewrite Hp. reflexivity.
Qed.

Lemma insert_middle (l1 l2 : list Element) (x y : Element) (k : nat) :
  k = length l1 -> <[k := y]> (l1 ++ x :: l2) = l1 ++ y :: l2.
Proof.
  intros ->. induction l1 as [|z l1 IH]; [reflexivity|]. simpl. f_equal. exact IH.
Qed.

(** Exchanging two elements of the range. *)
Lemma within_swap (f l : Z) live (i j : nat) (x y : Element) :
  0 <= f <= Z.of_nat i -> (i < j)%nat -> Z.of_nat j <= l ->
  l < Z.of_nat (length live) ->
  live !! i = Some x -> live !! j = Some y ->
  within f l live (<[j := x]> (<[i := y]> live)).
Proof.
  intros Hf Hij Hl Hlen Hx Hy.
  apply (within_widen f l (Z.of_nat i) (Z.of_nat j)); try lia.
  pose proof (lookup_lt_Some _ _ _ Hy) as Hj.
  set (mid := take (j - i - 1) (drop (S i) live)).
  assert (length (take i live) = i) as Et by (rewrite length_take; lia).
  assert (length mid = (j - i - 1)%nat) as Emid
    by (unfold mid; rewrite length_take, length_drop; lia).
  assert (live = take i live ++ x :: mid ++ y :: drop (S j) live) as E.
  { rewrite <- (take_drop_middle live i x Hx) at 1. f_equal. f_equal.
    rewrite <- (take_drop (j - i - 1) (drop (S i) live)) at 1.
    fold mid. f_equal.
    rewrite drop_drop.
    replace (S i + (j - i - 1))%nat with j by lia.
    rewrite <- (take_drop_middle live j y Hy) at 1.
    rewrite drop_app_length' by (rewrite length_take; lia). reflexivity. }
  assert (<[j := x]> (<[i := y]> live)
          = take i live ++ y :: mid ++ x :: drop (S j) live) as E'.
  { rewrite E at 1.
    rewrite (insert_middle (take i live) _ x y i) by (symmetry; exact Et).
    assert (take i live ++ y :: mid ++ y :: drop (S j) live
            = (take i live ++ y :: mid) ++ y :: drop (S j) live) as ->
      by (rewrite <- app_assoc; reflexivity).
    rewrite (insert_middle (take i live ++ y :: mid) _ y x j)
      by (rewrite length_app; simpl; lia).
    rewrite <- app_assoc. reflexivity. }
  exists (take i live), (x :: mid ++ [y]), (y :: mid ++ [x]), (drop (S j) live).
  split; [rewrite E at 1; cbn [app]; rewrite <- app_assoc; reflexivity|].
  split; [rewrite E'; cbn [app]; rewrite <- app_assoc; reflexivity|].
  split; [rewrite length_take; lia|].
  split; [cbn [length]; rewrite length_app; simpl; lia|].
  rewrite (Permutation_app_comm mid [y]), (Permutation_app_comm mid [x]).
  cbn [app]. apply perm_swap.
Qed.

End Within.


Section QuickSort.
Context (p : Platform) {Element : Type} (comparer : Element -> Element -> Z)
  (Hswo : StrictWeakOrder comparer).
Implicit Types (a : Array.t Element) (live : list Element)
  (spare : list (Slot Element)).

(** The element at a [Length] index. *)
Definition nth_live live (i : Z) : option Element := live !! Z.to_nat i.

Lemma compareAt_live a live spare (i j : Z) (x y : Element) :
  represents p a live spare -> 0 <= i -> 0 <= j ->
  nth_live live i = Some x -> nth_live live j = Some y ->
  Array.compareAt comparer (Array._data a) i j = Some (comparer x y).
Proof.
  intros H Hi Hj Hx Hy. unfold Array.compareAt, nth_live in *.
  pose proof (represents_rd p a live spare (Z.to_nat i) H) as Ri.
  pose proof (represents_rd p a live spare (Z.to_nat j) H) as Rj.
  rewrite Z2Nat.id in Ri, Rj by lia. rewrite Hx in Ri. rewrite Hy in Rj.
  rewrite Ri, Rj. reflexivity.
Qed.

Lemma nth_live_Some live (i : Z) :
  0 <= i < Z.of_nat (length live) -> exists x, nth_live live i = Some x.
Proof. intros H. apply lookup_lt_is_Some_2. lia. Qed.

Lemma swap_live a live spare (i j : Z) (x y : Element) :
  represents p a live spare -> 0 <= i -> 0 <= j ->
  nth_live live i = Some x -> nth_live live j = Some y ->
  represents p (Array.swap i j a)
    (<[Z.to_nat j := x]> (<[Z.to_nat i := y]> live)) spare.
Proof.
  intros H Hi Hj Hx Hy.
  replace (Array.swap i j a)
    with (Array.swap (Z.of_nat (Z.to_nat i)) (Z.of_nat (Z.to_nat j)) a)
    by (rewrite !Z2Nat.id by lia; reflexivity).
  apply swap_spec; assumption.
Qed.

Lemma nth_swap_other live (i j k : Z) (x y : Element) :
  0 <= i -> 0 <= j -> 0 <= k -> k <> i -> k <> j ->
  nth_live (<[Z.to_nat j := x]> (<[Z.to_nat i := y]> live)) k = nth_live live k.
Proof.
  intros Hi Hj Hk Ni Nj. unfold nth_live.
  rewrite !list_lookup_insert_ne by lia. reflexivity.
Qed.

Lemma nth_swap_left live (i j : Z) (x y : Element) :
  0 <= i < Z.of_nat (length live) -> 0 <= j -> i <> j ->
  nth_live (<[Z.to_nat j := x]> (<[Z.to_nat i := y]> live)) i = Some y.
Proof.
  intros Hi Hj N. unfold nth_live.
  rewrite list_lookup_insert_ne by lia. apply list_lookup_insert_eq. lia.
Qed.

Lemma nth_swap_right live (i j : Z) (x y : Element) :
  0 <= j < Z.of_nat (length live) ->
  nth_live (<[Z.to_nat j := x]> (<[Z.to_nat i := y]> live)) j = Some x.
Proof.
  intros Hj. unfold nth_live. apply list_lookup_insert_eq.
  rewrite length_insert. lia.
Qed.

Lemma within_swap_live (f l : Z) live (i j : Z) (x y : Element) :
  0 <= f <= i -> i < j <= l -> l < Z.of_nat (length live) ->
  nth_live live i = Some x -> nth_live live j = Some y ->
  within f l live (<[Z.to_nat j := x]> (<[Z.to_nat i := y]> live)).
Proof.
  intros Hf Hij Hl Hx Hy. apply within_swap; (assumption || lia).
Qed.

Lemma within_nth (Q : Element -> Prop) (f l : Z) live live' :
  0 <= f -> within f l live live' ->
  (forall i x, f <= i <= l -> nth_live live i = Some x -> Q x) ->
  forall i x, f <= i <= l -> nth_live live' i = Some x -> Q x.
Proof.
  intros Hf Hw HQ i x Hi Hx.
  apply (within_forall Q f l live live' Hw) with (i := Z.to_nat i); [|lia|exact Hx].
  intros k y Hk Hy. apply (HQ (Z.of_nat k) y); [lia|].
  unfold nth_live. rewrite Nat2Z.id. exact Hy.
Qed.

Lemma within_nth_frame (f l : Z) live live' (i : Z) :
  within f l live live' -> 0 <= i -> i < f \/ l < i ->
  nth_live live' i = nth_live live i.
Proof. intros Hw Hi Ho. apply (within_frame f l); [exact Hw|lia]. Qed.

Section Partition.
Context (spare : list (Slot Element)) (first last : Z) (pivot : Element).
Hypothesis Hfirst : 0 <= first.

Lemma scanLeft_spec a live :
  represents p a live spare -> nth_live live first = Some pivot ->
  last < Z.of_nat (length live) ->
  forall (fuel : nat) (left : Z),
  first < left <= last + 1 -> last - left + 1 < Z.of_nat fuel ->
  exists left',
    Array.scanLeft comparer fuel (Array._data a) first last left = Some left' /\
    left <= left' <= last + 1 /\
    (forall i x, left <= i < left' -> nth_live live i = Some x -> comparer x pivot < 0) /\
    (left' <= last -> exists x, nth_live live left' = Some x /\ 0 <= comparer x pivot).
Proof.
  intros H Hp Hlast. induction fuel as [|fuel IH]; intros left Hl Hf; [lia|].
  simpl. destruct (Z.leb_spec left last) as [Hle|Hgt].
  - destruct (nth_live_Some live left ltac:(lia)) as [x Hx].
    rewrite (compareAt_live a live spare left first x pivot H) by (assumption || lia).
    cbn [mbind option_bind].
    destruct (Z.ltb_spec (comparer x pivot) 0) as [Hneg|Hnn].
    + destruct (IH (left + 1) ltac:(lia) ltac:(lia)) as (left' & Hs & Hr & Hlo & Hst).
      exists left'. split; [exact Hs|]. split; [lia|]. split; [|exact Hst].
      intros i y Hi Hy. destruct (Z.eq_dec i left) as [->|N].
      * congruence.
      * apply (Hlo i y); [lia|exact Hy].
    + exists left. split; [reflexivity|]. split; [lia|]. split.
      * intros i y Hi. lia.
      * intros _. exists x. split; [exact Hx|lia].
  - exists left. split; [reflexivity|]. split; [lia|]. split.
    + intros i y Hi. lia.
    + intros Hc. lia.
Qed.

Lemma scanRight_spec a live :
  represents p a live spare -> nth_live live first = Some pivot ->
  last < Z.of_nat (length live) ->
  forall (fuel : nat) (right : Z),
  first <= right <= last -> right - first < Z.of_nat fuel ->
  exists right',
    Array.scanRight comparer fuel (Array._data a) first right = Some right' /\
    first <= right' <= right /\
    (forall i x, right' < i <= right -> nth_live live i = Some x ->
                 0 <= comparer x pivot) /\
    (first < right' -> exists x, nth_live live right' = Some x /\ comparer x pivot < 0).
Proof.
  intros H Hp Hlast. induction fuel as [|fuel IH]; intros right Hr Hf; [lia|].
  simpl. destruct (Z.ltb_spec first right) as [Hlt|Hge].
  - destruct (nth_live_Some live right ltac:(lia)) as [x Hx].
    rewrite (compareAt_live a live spare right first x pivot H) by (assumption || lia).
    cbn [mbind option_bind].
    destruct (Z.leb_spec 0 (comparer x pivot)) as [Hnn|Hneg].
    + destruct (IH (right - 1) ltac:(lia) ltac:(lia)) as (right' & Hs & Hrr & Hhi & Hst).
      exists right'. split; [exact Hs|]. split; [lia|]. split; [|exact Hst].
      intros i y Hi Hy. destruct (Z.eq_dec i right) as [->|N].
      * congruence.
      * apply (Hhi i y); [lia|exact Hy].
    + exists right. split; [reflexivity|]. split; [lia|]. split.
      * intros i y Hi. lia.
      * intros _. exists x. split; [exact Hx|lia].
  - exists right. split; [reflexivity|]. split; [lia|]. split.
    + intros i y Hi. lia.
    + intros Hc. lia.
Qed.

(** What the partition loop knows about the elements it has passed. *)
Definition below live (left : Z) : Prop :=
  forall i x, first < i < left -> nth_live live i = Some x -> comparer x pivot < 0.

Definition above live (right : Z) : Prop :=
  forall i x, right < i <= last -> nth_live live i = Some x -> 0 <= comparer x pivot.

(** The state right after an exchange. *)
Definition exchanged live (left right : Z) : Prop :=
  left < right /\
  (exists x, nth_live live left = Some x /\ comparer x pivot < 0) /\
  (exists y, nth_live live right = Some y /\ 0 <= comparer y pivot).

Lemma partitionLoop_spec : forall (fuel : nat) (left right : Z) a live,
  represents p a live spare -> nth_live live first = Some pivot ->
  last < Z.of_nat (length live) ->
  first < left <= last + 1 -> first <= right <= last ->
  below live left -> above live right ->
  (1 <= fuel)%nat ->
  (left <= right ->
     (exchanged live left right /\ right - left + 3 <= 2 * Z.of_nat fuel)
     \/ right - left + 5 <= 2 * Z.of_nat fuel) ->
  exists right' a' live',
    Array.partitionLoop comparer fuel first last left right a = Some (right', a') /\
    represents p a' live' spare /\ within (first + 1) last live live' /\
    nth_live live' first = Some pivot /\ first <= right' <= last /\
    below live' (right' + 1) /\ above live' right'.
Proof.
  induction fuel as [|fuel IH]; intros left right a live H Hp Hlast Hl Hr Hbe Hab Hf1 Hf;
    [lia|].
  cbn [Array.partitionLoop]. destruct (Z.leb_spec left right) as [Hle|Hgt].
  - specialize (Hf Hle).
    destruct (scanLeft_spec a live H Hp Hlast (fuelOf (last - left)) left Hl
                ltac:(unfold fuelOf; lia)) as (left' & Hsl & Hl' & Hlo & Hlst).
    rewrite Hsl. cbn [mbind option_bind].
    destruct (scanRight_spec a live H Hp Hlast (fuelOf (right - first)) right Hr
                ltac:(unfold fuelOf; lia)) as (right' & Hsr & Hr' & Hhi & Hrst).
    rewrite Hsr. cbn [mbind option_bind].
    assert (below live left') as Hbe'.
    { intros i x Hi Hx. destruct (Z_lt_le_dec i left).
      - apply (Hbe i x); [lia|exact Hx].
      - apply (Hlo i x); [lia|exact Hx]. }
    assert (above live right') as Hab'.
    { intros i x Hi Hx. destruct (Z_lt_le_dec right i).
      - apply (Hab i x); [lia|exact Hx].
      - apply (Hhi i x); [lia|exact Hx]. }
    assert (left' <> right') as Hne.
    { intros E. destruct Hlst as (x & Hx & Hcx); [lia|].
      destruct Hrst as (y & Hy & Hcy); [lia|]. rewrite E in Hx. 
      rewrite Hx in Hy. injection Hy as ->. lia. }
    assert (exchanged live left right -> left < left' /\ right' < right) as Hadv.
    { intros (Hlr & (x & Hx & Hcx) & (y & Hy & Hcy)). split.
      - destruct (Z.eq_dec left' left) as [E|]; [|lia]. exfalso.
        destruct Hlst as (x' & Hx' & Hcx'); [lia|]. rewrite E in Hx'.
        rewrite Hx in Hx'. injection Hx' as ->. lia.
      - destruct (Z.eq_dec right' right) as [E|]; [|lia]. exfalso.
        destruct Hrst as (y' & Hy' & Hcy'); [lia|]. rewrite E in Hy'.
        rewrite Hy in Hy'. injection Hy' as ->. lia. }
    destruct (Z.ltb_spec left' right') as [Hlt|Hge].
    + destruct Hlst as (xl & Hxl & Hcl); [lia|].
      destruct Hrst as (xr & Hxr & Hcr); [lia|].
      set (live1 := <[Z.to_nat right' := xl]> (<[Z.to_nat left' := xr]> live)).
      pose proof (swap_live a live spare left' right' xl xr H ltac:(lia) ltac:(lia)
                    Hxl Hxr) as H1.
      pose proof (within_swap_live (first + 1) last live left' right' xl xr
                    ltac:(lia) ltac:(lia) Hlast Hxl Hxr) as Hw1.
      fold live1 in H1, Hw1.
      pose proof (within_length _ _ _ _ Hw1) as Hlen1.
      destruct (IH left' right' (Array.swap left' right' a) live1 H1)
        as (r & a' & live' & Hres & Hrep & Hw & Hpv & Hrr & Hb2 & Ha2).
      * rewrite (within_nth_frame (first + 1) last live live1 first Hw1) by lia.
        exact Hp.
      * lia.
      * lia.
      * lia.
      * intros i x Hi Hx. unfold live1 in Hx.
        rewrite nth_swap_other in Hx by lia. apply (Hbe' i x); [lia|exact Hx].
      * intros i x Hi Hx. unfold live1 in Hx.
        rewrite nth_swap_other in Hx by lia. apply (Hab' i x); [lia|exact Hx].
      * destruct Hf as [[Hex Hf]|Hf]; [apply Hadv in Hex|]; lia.
      * intros _. left. split.
        -- split; [exact Hlt|]. split.
           ++ exists xr. split; [|exact Hcr]. apply nth_swap_left; lia.
           ++ exists xl. split; [|exact Hcl]. apply nth_swap_right. lia.
        -- destruct Hf as [[Hex Hf]|Hf]; [apply Hadv in Hex|]; lia.
      * exists r, a', live'. split; [exact Hres|]. split; [exact Hrep|].
        split; [eapply within_trans; eassumption|]. auto.
    + destruct (IH left' right' a live H Hp Hlast)
        as (r & a' & live' & Hres & Hrep & Hw & Hpv & Hrr & Hb2 & Ha2);
        try assumption; try lia;
        try (destruct Hf as [[Hex Hf]|Hf]; [apply Hadv in Hex|]; lia).
      exists r, a', live'. auto 10.
  - exists right, a, live. split; [reflexivity|]. split; [exact H|].
    split; [apply within_refl; lia|]. split; [exact Hp|]. split; [lia|].
    split; [|exact Hab].
    intros i x Hi Hx. apply (Hbe i x); [lia|exact Hx].
Qed.

End Partition.


Lemma partitionQuickSort_spec a live spare (first last : Z) :
  represents p a live spare -> 0 <= first < last -> last < Z.of_nat (length live) ->
  exists split a' live' pivot,
    Array.partitionQuickSort comparer first last a = Some (split, a') /\
    represents p a' live' spare /\ within first last live live' /\
    first <= split <= last /\ nth_live live' split = Some pivot /\
    (forall i x, first <= i < split -> nth_live live' i = Some x ->
                 comparer x pivot < 0) /\
    (forall i x, split < i <= last -> nth_live live' i = Some x ->
                 0 <= comparer x pivot).
Proof.
  intros H Hf Hlast.
  destruct (nth_live_Some live first ltac:(lia)) as [pivot Hp].
  destruct (partitionLoop_spec spare first last pivot ltac:(lia)
              (fuelOf (last - first)) (first + 1) last a live H Hp Hlast)
    as (r & a1 & live1 & Hres & H1 & Hw1 & Hp1 & Hr & Hbe & Hab); try lia.
  { intros i x Hi. lia. }
  { intros i x Hi. lia. }
  { unfold fuelOf. lia. }
  { intros _. right. unfold fuelOf. lia. }
  unfold Array.partitionQuickSort. rewrite Hres. cbn [mbind option_bind].
  pose proof (within_length _ _ _ _ Hw1) as Hlen1.
  assert (within first last live live1) as Hw1'
    by (apply (within_widen first last (first + 1) last); (assumption || lia)).
  destruct (Z.eqb_spec first r) as [<-|Hne]; cbn [negb].
  - exists first, a1, live1, pivot. split; [reflexivity|]. split; [exact H1|].
    split; [exact Hw1'|]. split; [lia|]. split; [exact Hp1|]. split.
    + intros i x Hi. lia.
    + exact Hab.
  - destruct (nth_live_Some live1 r ltac:(lia)) as [xr Hxr].
    assert (comparer xr pivot < 0) as Hcr by (apply (Hbe r xr); [lia|exact Hxr]).
    exists r, (Array.swap first r a1),
      (<[Z.to_nat r := pivot]> (<[Z.to_nat first := xr]> live1)), pivot.
    split; [reflexivity|].
    split; [apply swap_live; (assumption || lia)|].
    split.
    { eapply within_trans; [exact Hw1'|].
      apply within_swap_live; (assumption || lia). }
    split; [lia|]. split; [apply nth_swap_right; lia|]. split.
    + intros i x Hi Hx. destruct (Z.eq_dec i first) as [->|N].
      * rewrite nth_swap_left in Hx by lia. injection Hx as <-. exact Hcr.
      * rewrite nth_swap_other in Hx by lia. apply (Hbe i x); [lia|exact Hx].
    + intros i x Hi Hx. rewrite nth_swap_other in Hx by lia.
      apply (Hab i x); [lia|exact Hx].
Qed.

(** The elements at [f .. l] are in ascending order, equivalent neighbours
    allowed. *)
Definition sortedIn (f l : Z) live : Prop :=
  forall i j x y, f <= i -> i < j -> j <= l ->
    nth_live live i = Some x -> nth_live live j = Some y -> comparer x y <= 0.

Lemma recursiveQuickSort_spec spare : forall (fuel : nat) (first last : Z) a live,
  represents p a live spare ->
  0 <= first <= last + 1 -> last < Z.of_nat (length live) ->
  Z.max 0 (last - first + 1) < Z.of_nat fuel ->
  exists a' live',
    Array.recursiveQuickSort comparer fuel first last a = Some a' /\
    represents p a' live' spare /\ within first last live live' /\
    sortedIn first last live'.
Proof.
  induction fuel as [|fuel IH]; intros first last a live H Hf Hlast Hfuel; [lia|].
  cbn [Array.recursiveQuickSort].
  destruct (Z.ltb_spec first last) as [Hlt|Hge].
  2:{ exists a, live. split; [reflexivity|]. split; [exact H|].
      split; [apply within_refl; lia|]. intros i j x y Hi Hij Hj. lia. }
  rewrite Z.quot_div_nonneg by lia.
  set (middle := first + (last - first) / 2).
  assert (first <= middle <= last) as Hmid.
  { unfold middle. pose proof (Z.div_pos (last - first) 2 ltac:(lia) ltac:(lia)).
    assert ((last - first) / 2 <= last - first)
      by (apply Z.div_le_upper_bound; lia). lia. }
  (* the pivot is brought to the front *)
  assert (exists a0 live0,
            (if negb (first =? middle) then Array.swap first middle a else a) = a0 /\
            represents p a0 live0 spare /\ within first last live live0)
    as (a0 & live0 & -> & H0 & Hw0).
  { destruct (Z.eqb_spec first middle) as [E|N]; cbn [negb].
    - exists a, live. split; [reflexivity|]. split; [exact H|].
      apply within_refl; lia.
    - destruct (nth_live_Some live first ltac:(lia)) as [x Hx].
      destruct (nth_live_Some live middle ltac:(lia)) as [y Hy].
      eexists _, _. split; [reflexivity|].
      split; [apply (swap_live a live spare first middle x y); (assumption || lia)|].
      apply within_swap_live; (assumption || lia). }
  pose proof (within_length _ _ _ _ Hw0) as Hlen0.
  destruct (partitionQuickSort_spec a0 live0 spare first last H0 ltac:(lia) ltac:(lia))
    as (split & a1 & live1 & pivot & Hpq & H1 & Hw1 & Hsp & Hpv & Hlo & Hhi).
  rewrite Hpq. cbn [mbind option_bind].
  pose proof (within_length _ _ _ _ Hw1) as Hlen1.
  destruct (IH first (split - 1) a1 live1 H1 ltac:(lia) ltac:(lia) ltac:(lia))
    as (a2 & live2 & Hr2 & H2 & Hw2 & Hs2).
  rewrite Hr2. cbn [mbind option_bind].
  pose proof (within_length _ _ _ _ Hw2) as Hlen2.
  destruct (IH (split + 1) last a2 live2 H2 ltac:(lia) ltac:(lia) ltac:(lia))
    as (a3 & live3 & Hr3 & H3 & Hw3 & Hs3).
  rewrite Hr3.
  pose proof (within_length _ _ _ _ Hw3) as Hlen3.
  exists a3, live3. split; [reflexivity|]. split; [exact H3|]. split.
  { eapply within_trans; [exact Hw0|]. eapply within_trans; [exact Hw1|].
    eapply within_trans.
    - apply (within_widen first last first (split - 1)); try lia. exact Hw2.
    - apply (within_widen first last (split + 1) last); try lia. exact Hw3. }
  (* the three parts of the sorted range *)
  assert (forall i x, first <= i < split -> nth_live live3 i = Some x ->
            comparer x pivot < 0) as Hleft.
  { intros i x Hi Hx.
    rewrite (within_nth_frame (split + 1) last live2 live3 i Hw3) in Hx by lia.
    revert i x Hi Hx.
    assert (forall i x, first <= i <= split - 1 -> nth_live live2 i = Some x ->
              comparer x pivot < 0) as Hq.
    { apply (within_nth (fun x => comparer x pivot < 0) first (split - 1) live1 live2);
        [lia|exact Hw2|].
      intros i x Hi Hx. apply (Hlo i x); [lia|exact Hx]. }
    intros i x Hi Hx. apply (Hq i x); [lia|exact Hx]. }
  assert (nth_live live3 split = Some pivot) as Hmidv.
  { rewrite (within_nth_frame (split + 1) last live2 live3 split Hw3) by lia.
    rewrite (within_nth_frame first (split - 1) live1 live2 split Hw2) by lia.
    exact Hpv. }
  assert (forall i x, split < i <= last -> nth_live live3 i = Some x ->
            0 <= comparer x pivot) as Hright.
  { assert (forall i x, split + 1 <= i <= last -> nth_live live3 i = Some x ->
              0 <= comparer x pivot) as Hq.
    { apply (within_nth (fun x => 0 <= comparer x pivot) (split + 1) last live2 live3);
        [lia|exact Hw3|].
      intros i x Hi Hx.
      rewrite (within_nth_frame first (split - 1) live1 live2 i Hw2) in Hx by lia.
      apply (Hhi i x); [lia|exact Hx]. }
    intros i x Hi Hx. apply (Hq i x); [lia|exact Hx]. }
  assert (forall y, 0 <= comparer y pivot -> comparer pivot y <= 0) as Hflip.
  { intros y Hy. destruct (Z.eq_dec (comparer y pivot) 0) as [E|N].
    - rewrite (swo_sym comparer Hswo _ _ E). lia.
    - assert (0 < comparer y pivot) as Hpos by lia.
      apply (swo_flip _ Hswo) in Hpos. lia. }
  intros i j x y Hi Hij Hj Hx Hy.
  destruct (Z_lt_le_dec j split) as [Hjs|Hjs].
  - (* both on the left *)
    rewrite (within_nth_frame (split + 1) last live2 live3 i Hw3) in Hx by lia.
    rewrite (within_nth_frame (split + 1) last live2 live3 j Hw3) in Hy by lia.
    apply (Hs2 i j x y); (assumption || lia).
  - destruct (Z_lt_le_dec split i) as [His|His].
    + (* both on the right *)
      apply (Hs3 i j x y); (assumption || lia).
    + destruct (Z.eq_dec i split) as [Ei|Ni]; destruct (Z.eq_dec j split) as [Ej|Nj];
        try lia.
      * (* the pivot and an element on the right *)
        subst i. rewrite Hmidv in Hx. injection Hx as <-.
        apply Hflip, (Hright j y); [lia|exact Hy].
      * (* an element on the left and the pivot *)
        subst j. rewrite Hmidv in Hy. injection Hy as <-.
        pose proof (Hleft i x ltac:(lia) Hx). lia.
      * (* left and right *)
        pose proof (Hleft i x ltac:(lia) Hx) as Hxl.
        pose proof (Hflip y (Hright j y ltac:(lia) Hy)) as Hyr.
        destruct (Z.eq_dec (comparer pivot y) 0) as [E|N].
        -- pose proof (swo_less_equiv comparer Hswo x pivot y Hxl E). lia.
        -- pose proof (swo_trans _ Hswo x pivot y Hxl ltac:(lia)). lia.
Qed.

(** X18: [Array::quickSort], under a comparer that is a strict weak ordering,
    always returns; the array then holds a permutation of its elements, the
    elements outside the clamped range from [first] to [last] are where they
    were, and the elements of the range are in ascending order.  Capacity
    and spare slots are untouched. *)
Theorem quickSort_sorts (first last : Z) a live spare :
  represents p a live spare ->
  let lo := Z.max 0 (Z.min first (Z.of_nat (length live) - 1)) in
  let hi := Z.max 0 (Z.min last (Z.of_nat (length live) - 1)) in
  exists a' live',
    Array.quickSort p comparer first last a = Some a' /\
    represents p a' live' spare /\ live ≡ₚ live' /\
    (forall i : nat, Z.of_nat i < lo \/ hi < Z.of_nat i -> live' !! i = live !! i) /\
    (forall (i j : nat) x y,
       lo <= Z.of_nat i -> (i < j)%nat -> Z.of_nat j <= hi ->
       live' !! i = Some x -> live' !! j = Some y -> comparer x y <= 0).
Proof.
  intros H lo hi.
  pose proof (represents_length p _ _ _ H) as Hlen.
  unfold Array.quickSort. rewrite Hlen.
  destruct (Z.ltb_spec 1 (Z.of_nat (length live))) as [Hbig|Hsmall].
  - rewrite !saturate_clamp by lia. fold lo hi.
    destruct (Z_le_gt_dec lo (hi + 1)) as [Hle|Hgt].
    + destruct (recursiveQuickSort_spec spare (fuelOf (Z.of_nat (length live)))
                  lo hi a live H ltac:(unfold lo; lia) ltac:(unfold hi; lia)
                  ltac:(unfold fuelOf, lo, hi; lia))
        as (a' & live' & Hr & Hrep & Hw & Hs).
      exists a', live'. split; [exact Hr|]. split; [exact Hrep|].
      split; [eapply within_Permutation; exact Hw|]. split.
      * intros i Hi. apply (within_frame lo hi); assumption.
      * intros i j x y Hi Hij Hj Hx Hy.
        apply (Hs (Z.of_nat i) (Z.of_nat j) x y); try lia;
          unfold nth_live; rewrite Nat2Z.id; assumption.
    + exists a, live. split.
      * unfold fuelOf. cbn [Array.recursiveQuickSort].
        destruct (Z.ltb_spec lo hi); [lia|reflexivity].
      * split; [exact H|]. split; [reflexivity|]. split; [reflexivity|].
        intros i j x y Hi Hij Hj. lia.
  - exists a, live. split; [reflexivity|]. split; [exact H|].
    split; [reflexivity|]. split; [reflexivity|].
    intros i j x y Hi Hij Hj. unfold hi in Hj. lia.
Qed.

End QuickSort.


(** An array of three elements in a buffer of four. *)
Definition sample : Array.t Z := Array.mk [Some 5; Some 7; Some 9; None] 4 3.

Lemma sample_represents : represents X64 sample [5; 7; 9] [None].
Proof. unfold represents, sample. simpl. repeat split; vm_compute; congruence. Qed.

Lemma sample_nondecreasing : nondecreasing DefaultComparer_int [5; 7; 9].
Proof.
  intros i j x y Hij Hx Hy.
  destruct i as [|[|[|i]]]; destruct j as [|[|[|j]]]; simpl in Hx, Hy;
    try discriminate; try lia;
    injection Hx as <-; injection Hy as <-; vm_compute; discriminate.
Qed.

Lemma capacity_reserves_witness :
  represents X64 sample [5; 7; 9] [None] /\ 100 <= MaxLength X64 /\
  0 < 4 /\ 2 * 100 * 4 < 2 ^ wordBits X64 /\
  exists r a',
    Array.capacity1_sized X64 4 false 100 sample = Some (r, a') /\
    Array.elements X64 a' = Array.elements X64 sample /\
    Array.length X64 a' = Array.length X64 sample /\
    Array.operator_bool X64 a' = Array.operator_bool X64 sample /\
    (exists spare', represents X64 a' [5; 7; 9] spare') /\
    (r = true -> 100 <= Array.capacity X64 a') /\
    (r = false -> a' = sample /\ false = false /\ Array.capacity X64 sample < 100).
Proof.
  assert (100 <= MaxLength X64) as H by (vm_compute; discriminate).
  assert (2 * 100 * 4 < 2 ^ wordBits X64) as Hfit by (vm_compute; reflexivity).
  split; [exact sample_represents|]. split; [exact H|]. split; [lia|].
  split; [exact Hfit|].
  exact (capacity_reserves X64 4 false sample [5; 7; 9] [None] 100 sample_represents H
           ltac:(lia) Hfit).
Defined.

(** Without the bound on the byte count: on the 64-bit target, with
    elements of eight bytes, [capacity(2 ^ 61)] asks for [2 ^ 64] bytes, that
    is for none.  The three elements of [sample] are then moved behind the
    end of the block, and an empty array ends up reporting a capacity of
    [2 ^ 61] over a buffer without a single slot. *)
Lemma capacity_request_wraps :
  Array.allocBytes X64 8 (2 ^ 61) = 0 /\
  Array.capacity1_sized X64 8 true (2 ^ 61) sample = None /\
  exists a', Array.capacity1_sized X64 8 true (2 ^ 61) (Array.empty (Element := Z))
             = Some (true, a') /\
             Array.capacity X64 a' = 2 ^ 61 /\ Array._data a' = [].
Proof.
  split; [vm_compute; reflexivity|]. split; [vm_compute; reflexivity|].
  eexists. split; [vm_compute; reflexivity|].
  split; vm_compute; reflexivity.
Qed.

Lemma add_appends_witness :
  represents X64 sample [5; 7; 9] [None] /\
  Z.of_nat (length [5; 7; 9]) < MaxLength X64 /\
  exists r a',
    Array.add X64 true 11 sample = Some (r, a') /\
    ((r = Z.of_nat (length [5; 7; 9]) /\
      Array.operator_bool X64 a' = Array.operator_bool X64 sample /\
      exists spare', represents X64 a' ([5; 7; 9] ++ [11]) spare')
     \/ (r = NotFound /\ a' = sample /\ true = false /\ [@None Z] = [])).
Proof.
  assert (Z.of_nat (length [5; 7; 9]) < MaxLength X64) as H by (vm_compute; reflexivity).
  split; [exact sample_represents|]. split; [exact H|].
  exact (add_appends X64 true sample [5; 7; 9] [None] 11 sample_represents H).
Defined.

Lemma insert_clamps_index_witness :
  represents X64 sample [5; 7; 9] [None] /\
  Z.of_nat (length [5; 7; 9]) < MaxLength X64 /\
  exists r a',
    Array.insert X64 true (-4) 1 sample = Some (r, a') /\
    if r : bool
    then exists spare',
      represents X64 a'
        (take (Z.to_nat (-4)) [5; 7; 9] ++ 1 :: drop (Z.to_nat (-4)) [5; 7; 9]) spare'
    else a' = sample /\ true = false.
Proof.
  assert (Z.of_nat (length [5; 7; 9]) < MaxLength X64) as H by (vm_compute; reflexivity).
  split; [exact sample_represents|]. split; [exact H|].
  exact (insert_clamps_index X64 true sample [5; 7; 9] [None] (-4) 1 sample_represents H).
Defined.

Lemma erase_index_witness :
  represents X64 sample [5; 7; 9] [None] /\
  exists r a' spare',
    Array.erase1 X64 1 sample = (r, a') /\
    r = ((0 <=? 1) && (1 <? Z.of_nat (length [5; 7; 9]))) /\
    represents X64 a' (if r then delete (Z.to_nat 1) [5; 7; 9] else [5; 7; 9]) spare' /\
    Array.capacity X64 a' = Array.capacity X64 sample /\
    Array.operator_bool X64 a' = Array.operator_bool X64 sample.
Proof.
  split; [exact sample_represents|].
  exact (erase_index X64 1 sample [5; 7; 9] [None] sample_represents).
Defined.

Lemma erase_range_witness :
  represents X64 sample [5; 7; 9] [None] /\ inRange (LengthT X64) (-1 + 3) /\
  exists r a' spare',
    Array.erase2 X64 (-1) 3 sample = (r, a') /\
    r = ((Z.max (-1) 0 <? Z.of_nat (length [5; 7; 9])) && (Z.max (-1) 0 <? -1 + 3)) /\
    represents X64 a'
      (if r then take (Z.to_nat (-1)) [5; 7; 9] ++ drop (Z.to_nat (-1 + 3)) [5; 7; 9]
       else [5; 7; 9]) spare'.
Proof.
  assert (inRange (LengthT X64) (-1 + 3)) as H by (vm_compute; split; [discriminate|reflexivity]).
  split; [exact sample_represents|]. split; [exact H|].
  exact (erase_range X64 (-1) 3 sample [5; 7; 9] [None] sample_represents H).
Defined.

Lemma resize_spec_witness :
  represents X64 sample [5; 7; 9] [None] /\ 6 <= MaxLength X64 /\
  0 < 4 /\ 2 * 6 * 4 < 2 ^ wordBits X64 /\
  exists r a',
    Array.length1_sized X64 4 true 6 0 sample = Some (r, a') /\
    if r : bool then
      exists spare',
        represents X64 a'
          (take (Z.to_nat 6) [5; 7; 9] ++ replicate (Z.to_nat 6 - length [5; 7; 9]) 0)
          spare'
    else a' = sample /\ true = false /\ Array.capacity X64 sample < 6.
Proof.
  assert (6 <= MaxLength X64) as H by (vm_compute; discriminate).
  assert (2 * 6 * 4 < 2 ^ wordBits X64) as Hfit by (vm_compute; reflexivity).
  split; [exact sample_represents|]. split; [exact H|]. split; [lia|].
  split; [exact Hfit|].
  exact (resize_spec X64 4 true 6 0 sample [5; 7; 9] [None] sample_represents H
           ltac:(lia) Hfit).
Defined.

Lemma clear_keeps_buffer_witness :
  represents X64 (Array.pollute X64 sample) [5; 7; 9] [None] /\
  Array.operator_bool X64 (Array.clear X64 (Array.pollute X64 sample)) = true.
Proof.
  assert (represents X64 (Array.pollute X64 sample) [5; 7; 9] [None]) as H
    by (unfold represents, sample; simpl; repeat split; vm_compute; congruence).
  split; [exact H|].
  exact (proj2 (proj2 (proj2
           (clear_keeps_buffer X64 (Array.pollute X64 sample) [5; 7; 9] [None] H)))).
Defined.

Lemma copy_constructor_witness :
  represents X64 (Array.pollute X64 sample) [5; 7; 9] [None] /\
  represents X64 (Array.Array_copy X64 true (Array.pollute X64 sample)) [5; 7; 9] [] /\
  Array.operator_bool X64 (Array.Array_copy X64 true (Array.pollute X64 sample)) = true /\
  Array.Array_copy X64 false (Array.pollute X64 sample) = Array.pollute X64 Array.empty.
Proof.
  assert (represents X64 (Array.pollute X64 sample) [5; 7; 9] [None]) as H
    by (unfold represents, sample; simpl; repeat split; vm_compute; congruence).
  split; [exact H|].
  destruct (copy_constructor X64 true _ _ _ H) as [[H1 H2] _]; [left; reflexivity|].
  destruct (copy_constructor X64 false _ _ _ H) as [_ H3].
  split; [exact H1|]. split; [exact H2|].
  apply H3; [reflexivity|discriminate].
Defined.

Lemma shrink_to_length_witness :
  represents X64 sample [5; 7; 9] [None] /\
  exists r a',
    Array.shrink X64 true sample = (r, a') /\
    if r : bool then
      represents X64 a' [5; 7; 9] [] /\
      ([5; 7; 9] <> [] -> Array.operator_bool X64 a' = Array.operator_bool X64 sample)
    else a' = sample /\ true = false /\ [5; 7; 9] <> [] /\ [@None Z] <> [].
Proof.
  split; [exact sample_represents|].
  exact (shrink_to_length X64 true sample [5; 7; 9] [None] sample_represents).
Defined.

Lemma binarySearch_finds_witness :
  StrictWeakOrder DefaultComparer_int /\
  represents X64 sample [5; 7; 9] [None] /\
  nondecreasing DefaultComparer_int [5; 7; 9] /\
  exists r,
    Array.binarySearch X64 DefaultComparer_int 9 (-3) 100 sample = Some r /\
    (r <> NotFound ->
       0 <= r <= 2 /\
       exists x, [5; 7; 9] !! Z.to_nat r = Some x /\ DefaultComparer_int x 9 = 0).
Proof.
  split; [exact FlatFacts.DefaultComparer_int_swo|].
  split; [exact sample_represents|]. split; [exact sample_nondecreasing|].
  destruct (binarySearch_finds X64 DefaultComparer_int FlatFacts.DefaultComparer_int_swo
              9 (-3) 100 sample [5; 7; 9] [None] sample_represents sample_nondecreasing)
    as (r & Hr & _ & Hf).
  exists r. split; [exact Hr|exact Hf].
Defined.

(** Three elements out of order. *)
Definition unsorted : Array.t Z := Array.mk [Some 9; Some 5; Some 7; None] 4 3.

Lemma unsorted_represents : represents X64 unsorted [9; 5; 7] [None].
Proof. unfold represents, unsorted. simpl. repeat split; vm_compute; congruence. Qed.

Lemma quickSort_sorts_witness :
  StrictWeakOrder DefaultComparer_int /\
  represents X64 unsorted [9; 5; 7] [None] /\
  exists a' live',
    Array.quickSort X64 DefaultComparer_int 0 100 unsorted = Some a' /\
    represents X64 a' live' [None] /\ [9; 5; 7] ≡ₚ live' /\
    (forall (i j : nat) x y,
       0 <= Z.of_nat i -> (i < j)%nat -> Z.of_nat j <= 2 ->
       live' !! i = Some x -> live' !! j = Some y -> DefaultComparer_int x y <= 0).
Proof.
  split; [exact FlatFacts.DefaultComparer_int_swo|].
  split; [exact unsorted_represents|].
  destruct (quickSort_sorts X64 DefaultComparer_int FlatFacts.DefaultComparer_int_swo
              0 100 unsorted [9; 5; 7] [None] unsorted_represents)
    as (a' & live' & Hr & Hrep & Hperm & _ & Hs).
  exists a', live'. split; [exact Hr|]. split; [exact Hrep|]. split; [exact Hperm|].
  exact Hs.
Defined.

End ArrayMore.

(** ** FlatMap as an association list *)

Module FlatMore.
Import Containers ContainersFacts ArrayInv FlatFacts.

Section MapLookup.
Context (p : Platform) {Key Value : Type} (comparer : Key -> Key -> Z)
  (Hswo : StrictWeakOrder comparer).
Implicit Types (m : FlatMap.t Key Value) (live : list (Pair Key Value)).

(** The value stored with the first key equivalent to [k]. *)
Fixpoint assoc (k : Key) live : option Value :=
  match live with
  | [] => None
  | e :: live' => if comparer (key e) k =? 0 then Some (value e) else assoc k live'
  end.

Lemma assoc_none (k : Key) live :
  (forall i e, live !! i = Some e -> comparer (key e) k <> 0) -> assoc k live = None.
Proof.
  induction live as [|e live IH]; intros H; [reflexivity|]. simpl.
  destruct (Z.eqb_spec (comparer (key e) k) 0) as [E|N].
  - exfalso. apply (H 0%nat e); [reflexivity|exact E].
  - apply IH. intros i e' He'. apply (H (S i) e'). exact He'.
Qed.

Lemma assoc_first (k : Key) live : forall (i : nat) (e : Pair Key Value),
  live !! i = Some e -> comparer (key e) k = 0 ->
  (forall j e', (j < i)%nat -> live !! j = Some e' -> comparer (key e') k <> 0) ->
  assoc k live = Some (value e).
Proof.
  induction live as [|e0 live IH]; intros i e He Hz Hlt; [discriminate|]. simpl.
  destruct i as [|i].
  - injection He as ->. rewrite Hz. reflexivity.
  - destruct (Z.eqb_spec (comparer (key e0) k) 0) as [E|N].
    + exfalso. apply (Hlt 0%nat e0); [lia|reflexivity|exact E].
    + apply (IH i e He Hz). intros j e' Hj He'. apply (Hlt (S j) e'); [lia|exact He'].
Qed.

Lemma assoc_app (k : Key) (l1 l2 : list (Pair Key Value)) :
  assoc k (l1 ++ l2) = match assoc k l1 with Some v => Some v | None => assoc k l2 end.
Proof.
  induction l1 as [|e l1 IH]; [reflexivity|]. simpl.
  destruct (comparer (key e) k =? 0); [reflexivity|exact IH].
Qed.

Lemma equiv_not (a b c : Key) :
  comparer a b = 0 -> comparer c b <> 0 -> comparer a c <> 0.
Proof.
  intros Hab Hcb Hac. apply Hcb.
  apply (swo_equiv _ Hswo c a b); [apply (swo_sym comparer Hswo); exact Hac|exact Hab].
Qed.

(** What a search on a sorted map says about the association list. *)
Lemma searchPost_assoc (k : Key) live (found : bool) (index : nat) :
  asc comparer (key <$> live) ->
  searchPost comparer key live k found index ->
  (if found then exists e, live !! index = Some e /\ comparer (key e) k = 0 /\
                           assoc k live = Some (value e)
   else assoc k live = None).
Proof.
  intros Hasc Hpost. destruct found; simpl in Hpost.
  - destruct Hpost as (e & He & Hz). exists e. split; [exact He|]. split; [exact Hz|].
    apply (assoc_first k live index e He Hz).
    intros j e' Hj He'.
    assert (comparer (key e') (key e) < 0) as Hlt.
    { apply (Hasc j index); [exact Hj| |];
        rewrite list_lookup_fmap; [rewrite He'|rewrite He]; reflexivity. }
    pose proof (swo_less_equiv comparer Hswo _ _ _ Hlt Hz). lia.
  - destruct Hpost as (Hidx & Hlo & Hhi). apply assoc_none.
    intros i e He.
    destruct (Nat.lt_ge_cases i index) as [Hi|Hi].
    + pose proof (Hlo i e Hi He). lia.
    + pose proof (Hhi i e Hi He). lia.
Qed.

Lemma value_of_assoc (k : Key) m live n :
  MapInv p comparer m live n -> Z.of_nat n <= 2 ^ (wordBits p - 2) ->
  FlatMap.value_of p comparer k m = Some (assoc k live) /\
  FlatMap.exists_ p comparer k m = Some (bool_decide (is_Some (assoc k live))).
Proof.
  intros Hinv Hb.
  destruct (map_search p comparer Hswo m live n k Hinv Hb) as (found & index & Hs & Hpost).
  destruct Hinv as ([spare H] & Hasc & Hn).
  pose proof (searchPost_assoc k live found index Hasc Hpost) as Ha.
  unfold FlatMap.value_of, FlatMap.exists_. rewrite Hs. cbn [mbind option_bind fmap option_fmap option_map fst].
  destruct found.
  - destruct Ha as (e & He & Hz & ->).
    rewrite (represents_rd p _ _ _ index H), He. split; reflexivity.
  - rewrite Ha. split; reflexivity.
Qed.

Lemma assoc_equiv (k k' : Key) live :
  comparer k' k = 0 -> assoc k' live = assoc k live.
Proof.
  intros Hk. induction live as [|e live IH]; [reflexivity|]. simpl. rewrite IH.
  destruct (Z.eqb_spec (comparer (key e) k') 0) as [E|N];
    destruct (Z.eqb_spec (comparer (key e) k) 0) as [E'|N']; try reflexivity; exfalso.
  - apply N'. apply (swo_equiv _ Hswo _ k'); assumption.
  - apply N. apply (swo_equiv _ Hswo _ k); [assumption|].
    apply (swo_sym comparer Hswo). exact Hk.
Qed.

Lemma assoc_skip (k : Key) (e : Pair Key Value) (l1 l2 : list (Pair Key Value)) :
  comparer (key e) k <> 0 -> assoc k (l1 ++ e :: l2) = assoc k (l1 ++ l2).
Proof.
  intros N. rewrite !assoc_app. simpl.
  destruct (Z.eqb_spec (comparer (key e) k) 0); [contradiction|reflexivity].
Qed.

Lemma assoc_hit (k : Key) (e : Pair Key Value) (l1 l2 : list (Pair Key Value)) :
  comparer (key e) k = 0 ->
  (forall i e', l1 !! i = Some e' -> comparer (key e') k <> 0) ->
  assoc k (l1 ++ e :: l2) = Some (value e).
Proof.
  intros E Hl1. rewrite assoc_app, (assoc_none k l1 Hl1). simpl. rewrite E. reflexivity.
Qed.

Lemma take_below (k : Key) live (index : nat) :
  (forall i e, (i < index)%nat -> live !! i = Some e -> comparer (key e) k < 0) ->
  forall i e', take index live !! i = Some e' -> comparer (key e') k <> 0.
Proof.
  intros Hlo i e' He'.
  destruct (Nat.lt_ge_cases i index) as [Hi|Hi].
  - rewrite lookup_take_lt in He' by exact Hi. pose proof (Hlo i e' Hi He'). lia.
  - rewrite lookup_take_ge in He' by exact Hi. discriminate.
Qed.

(** The association list after [add]. *)
Lemma map_add_live (ok : bool) (k : Key) (v : Value) m live n :
  MapInv p comparer m live n -> Z.of_nat n < 2 ^ (wordBits p - 2) ->
  exists location m',
    FlatMap.add p comparer ok k v m = Some (location, m') /\
    ((Location_bool location = true /\
      exists live', MapInv p comparer m' live' (S n) /\
        forall k', assoc k' live' =
                   if comparer k' k =? 0 then Some v else assoc k' live)
     \/ (location = mkLocation NotFound /\ m' = m /\ ok = false)).
Proof.
  intros Hinv Hb.
  destruct (map_search p comparer Hswo m live n k Hinv ltac:(lia))
    as (found & index & Hs & Hpost).
  destruct Hinv as ([spare H] & Hasc & Hn).
  pose proof (wordBits_ge p) as Hw.
  pose proof (MathFacts.pow2_split (wordBits p) ltac:(lia)) as (E1 & E2 & E3 & Hp).
  unfold FlatMap.add. rewrite Hs. cbn [mbind option_bind].
  assert (Location_bool (mkLocation (Z.of_nat index)) = true) as Hloc.
  { unfold Location_bool, NotFound. cbn [Containers.index].
    destruct (Z.eqb_spec (Z.of_nat index) (-1)); [lia|reflexivity]. }
  destruct found; simpl in Hpost.
  - destruct Hpost as (e & He & Hcmp).
    rewrite (represents_rd p _ _ _ index H), He. cbn [mbind option_bind].
    eexists _, _. split; [reflexivity|]. left. split; [exact Hloc|].
    pose proof (lookup_lt_Some _ _ _ He) as Hlt.
    exists (<[index := mkPair (key e) v]> live). split.
    + repeat split.
      * exists spare. apply assign_spec; [exact H|exact Hlt].
      * rewrite list_fmap_insert. cbn [key].
        rewrite list_insert_id by (rewrite list_lookup_fmap, He; reflexivity).
        exact Hasc.
      * rewrite length_insert. lia.
    + intros k'.
      assert (forall i e', take index live !! i = Some e' -> comparer (key e') k <> 0)
        as Hbelow.
      { apply take_below. intros i e' Hi He'.
        assert (comparer (key e') (key e) < 0) as Hl.
        { apply (Hasc i index); [exact Hi| |];
            rewrite list_lookup_fmap; [rewrite He'|rewrite He]; reflexivity. }
        apply (swo_less_equiv comparer Hswo _ _ _ Hl Hcmp). }
      rewrite insert_take_drop by exact Hlt.
      rewrite <- (take_drop_middle live index e He) at 3.
      destruct (Z.eqb_spec (comparer k' k) 0) as [Ek|Nk].
      * rewrite (assoc_equiv k k' _ Ek).
        apply (assoc_hit k (mkPair (key e) v)); [exact Hcmp|exact Hbelow].
      * assert (comparer (key e) k' <> 0) as Ne by (apply (equiv_not _ k); assumption).
        rewrite !assoc_skip by exact Ne. reflexivity.
  - destruct Hpost as (Hidx & Hlo & Hhi).
    destruct (insert_spec p ok _ live spare index (mkPair k v) H Hidx)
      as (r & a' & Hins & Hr).
    { unfold MaxLength. lia. }
    rewrite Hins. cbn [mbind option_bind].
    destruct r.
    + destruct Hr as [spare' Hr].
      eexists _, _. split; [reflexivity|]. left. split; [exact Hloc|].
      eexists. split.
      * repeat split.
        -- exists spare'. exact Hr.
        -- rewrite fmap_app, fmap_cons, fmap_take, fmap_drop. cbn [key].
           apply asc_insert.
           ++ apply (swo_trans _ Hswo).
           ++ exact Hasc.
           ++ rewrite length_fmap. exact Hidx.
           ++ intros i x Hi Hx. rewrite list_lookup_fmap in Hx.
              destruct (live !! i) as [e|] eqn:He; [|discriminate].
              injection Hx as <-. eapply Hlo; eassumption.
           ++ intros i x Hi Hx. rewrite list_lookup_fmap in Hx.
              destruct (live !! i) as [e|] eqn:He; [|discriminate].
              injection Hx as <-. apply (swo_flip _ Hswo). eapply Hhi; eassumption.
        -- rewrite length_app, length_take. simpl. rewrite length_drop. lia.
      * intros k'.
        destruct (Z.eqb_spec (comparer k' k) 0) as [Ek|Nk].
        -- rewrite (assoc_equiv k k' _ Ek).
           apply (assoc_hit k (mkPair k v)); [apply (swo_irrefl _ Hswo)|].
           apply take_below. exact Hlo.
        -- assert (comparer k k' <> 0) as Ne.
           { intros E. apply Nk. apply (swo_sym comparer Hswo). exact E. }
           rewrite (assoc_skip k' (mkPair k v)) by exact Ne.
           rewrite take_drop. reflexivity.
    + subst a'. eexists _, _. split; [reflexivity|]. right.
      split; [reflexivity|]. split; [destruct m; reflexivity|].
      destruct ok; [exfalso|reflexivity].
      apply (ArrayMore.insert_refused p _ live spare _ _ _ H ltac:(unfold MaxLength; lia) Hins).
Qed.

(** X19: in a map of fewer pairs than a quarter of the span of [Length],
    after [FlatMap::add(key, value)] returned a valid location [value()] gives
    the new value for every key equivalent to [key] and the same answer as
    before for every other key.  With memory available the location is
    valid; when it is not valid, the map is as it was. *)
Theorem add_then_value (ok : bool) (k : Key) (v : Value) m live n :
  MapInv p comparer m live n -> Z.of_nat n < 2 ^ (wordBits p - 2) ->
  exists location m',
    FlatMap.add p comparer ok k v m = Some (location, m') /\
    (ok = true -> Location_bool location = true) /\
    (Location_bool location = true ->
       forall k', FlatMap.value_of p comparer k' m' =
                  if comparer k' k =? 0 then Some (Some v)
                  else FlatMap.value_of p comparer k' m) /\
    (Location_bool location = false -> m' = m).
Proof.
  intros Hinv Hb.
  destruct (map_add_live ok k v m live n Hinv Hb) as (location & m' & Ha & Hcase).
  exists location, m'. split; [exact Ha|].
  destruct Hcase as [(Hloc & live' & Hinv' & Hassoc)|(-> & -> & ->)].
  - split; [intros _; exact Hloc|]. split; [|rewrite Hloc; discriminate].
    intros _ k'.
    rewrite (proj1 (value_of_assoc k' m' live' (S n) Hinv' ltac:(lia))).
    rewrite (proj1 (value_of_assoc k' m live n Hinv ltac:(lia))).
    rewrite Hassoc. destruct (comparer k' k =? 0); reflexivity.
  - split; [discriminate|]. split; [|reflexivity].
    intros Hc. vm_compute in Hc. discriminate.
Qed.

(** X20: [FlatMap::erase(key)] returns what [exists(key)] answered before the
    call.  Afterwards [value()] finds nothing under a key equivalent to [key]
    and gives the same answer as before for every other key; when the result
    is [false] the map is as it was. *)
Theorem erase_then_absent (k : Key) m live n :
  MapInv p comparer m live n -> Z.of_nat n <= 2 ^ (wordBits p - 2) ->
  exists r m',
    FlatMap.erase p comparer k m = Some (r, m') /\
    FlatMap.exists_ p comparer k m = Some r /\
    (forall k', FlatMap.value_of p comparer k' m' =
                if comparer k' k =? 0 then Some None
                else FlatMap.value_of p comparer k' m) /\
    (r = false -> m' = m).
Proof.
  intros Hinv Hb.
  destruct (map_search p comparer Hswo m live n k Hinv Hb) as (found & index & Hs & Hpost).
  pose proof Hinv as ([spare H] & Hasc & Hn).
  pose proof (searchPost_assoc k live found index Hasc Hpost) as Hfa.
  unfold FlatMap.erase, FlatMap.exists_. rewrite Hs.
  cbn [mbind option_bind fmap option_fmap option_map fst].
  destruct found.
  - destruct Hfa as (e & He & Hz & Hav).
    pose proof (lookup_lt_Some _ _ _ He) as Hlt.
    destruct (erase1_spec p _ live spare index H Hlt) as (a' & spare' & Her & Hrep).
    rewrite Her. exists true, (FlatMap.mk a'). split; [reflexivity|].
    split; [reflexivity|]. split; [|discriminate].
    assert (MapInv p comparer (FlatMap.mk a') (delete index live) n) as Hinv'.
    { repeat split.
      - exists spare'. exact Hrep.
      - rewrite list_fmap_delete. apply asc_delete. exact Hasc.
      - pose proof (length_delete live index (lookup_lt_is_Some_2 live index Hlt)). lia. }
    intros k'.
    rewrite (proj1 (value_of_assoc k' _ _ n Hinv' Hb)).
    rewrite (proj1 (value_of_assoc k' m live n Hinv Hb)).
    rewrite delete_take_drop.
    rewrite <- (take_drop_middle live index e He) at 3.
    destruct (Z.eqb_spec (comparer k' k) 0) as [Ek|Nk].
    + f_equal. rewrite (assoc_equiv k k' _ Ek). apply assoc_none.
      intros i e' He'. rewrite <- delete_take_drop in He'.
      assert (exists j, j <> index /\ live !! j = Some e') as (j & Hj & Hje).
      { destruct (Nat.lt_ge_cases i index) as [Hi|Hi].
        - exists i. rewrite list_lookup_delete_lt in He' by exact Hi. split; [lia|exact He'].
        - exists (S i). rewrite list_lookup_delete_ge in He' by exact Hi.
          split; [lia|exact He']. }
      intros Ez.
      apply (asc_distinct comparer Hswo (key <$> live) j index (key e') (key e)).
      * exact Hasc.
      * exact Hj.
      * rewrite list_lookup_fmap, Hje. reflexivity.
      * rewrite list_lookup_fmap, He. reflexivity.
      * apply (swo_equiv _ Hswo _ k); [exact Ez|apply (swo_sym comparer Hswo); exact Hz].
    + assert (comparer (key e) k' <> 0) as Ne by (apply (equiv_not _ k); assumption).
      rewrite (assoc_skip k' e) by exact Ne. reflexivity.
  - exists false, m. split; [reflexivity|]. split; [reflexivity|]. split; [|reflexivity].
    intros k'. rewrite (proj1 (value_of_assoc k' m live n Hinv Hb)).
    destruct (Z.eqb_spec (comparer k' k) 0) as [Ek|Nk]; [|reflexivity].
    rewrite (assoc_equiv k k' _ Ek), Hfa. reflexivity.
Qed.

End MapLookup.


Section SetPresent.
Context (p : Platform) {Value : Type} (comparer : Value -> Value -> Z)
  (Hswo : StrictWeakOrder comparer).

(** X21: when the set holds a value equivalent to the given one,
    [FlatSet::add] returns the location of the stored value and leaves the set
    as it is, while [FlatSet::update] overwrites the stored value with the
    given one, in place, and keeps the set ordered. *)
Theorem set_add_keeps_update_replaces (ok : bool) (v e : Value) (i : nat)
    (s : FlatSet.t Value) (live : list Value) (n : nat) :
  SetInv p comparer s live n -> Z.of_nat n <= 2 ^ (wordBits p - 2) ->
  live !! i = Some e -> comparer e v = 0 ->
  FlatSet.add p comparer ok v s = Some (mkLocation (Z.of_nat i), s) /\
  exists s',
    FlatSet.update p comparer ok v s = Some (true, s') /\
    setValues p s' = Some <$> <[i := v]> live /\
    SetInv p comparer s' (<[i := v]> live) n.
Proof.
  intros Hinv Hb He Hz.
  destruct (set_search p comparer Hswo s live n v Hinv Hb) as (found & index & Hs & Hpost).
  destruct Hinv as ([spare H] & Hasc & Hn).
  assert (found = true /\ index = i) as [-> ->].
  { destruct found; simpl in Hpost.
    - split; [reflexivity|]. destruct Hpost as (e' & He' & Hz').
      destruct (Nat.eq_dec index i) as [E|N]; [exact E|exfalso].
      apply (asc_distinct comparer Hswo live index i e' e Hasc N He' He).
      apply (swo_equiv _ Hswo _ v); [exact Hz'|apply (swo_sym comparer Hswo); exact Hz].
    - exfalso. destruct Hpost as (_ & Hlo & Hhi).
      destruct (Nat.lt_ge_cases i index) as [Hi|Hi].
      + pose proof (Hlo i e Hi He). simpl in *. lia.
      + pose proof (Hhi i e Hi He). simpl in *. lia. }
  unfold FlatSet.add, FlatSet.update. rewrite Hs. cbn [mbind option_bind negb].
  split; [reflexivity|]. eexists. split; [reflexivity|].
  pose proof (lookup_lt_Some _ _ _ He) as Hlt.
  pose proof (assign_spec p _ live spare i v H Hlt) as H'.
  split.
  - unfold setValues. cbn [FlatSet._values].
    apply (represents_elements p _ _ _ H').
  - repeat split.
    + exists spare. exact H'.
    + eapply asc_replace; eassumption.
    + rewrite length_insert. exact Hn.
Qed.

End SetPresent.

(** A map of two pairs and a set of two values. *)
Definition twoPairs : FlatMap.t Z Z :=
  FlatMap.mk (Array.mk [Some (mkPair 3 30); Some (mkPair 5 50)] 2 2).

Definition twoValues : FlatSet.t (Z * Z) :=
  FlatSet.mk (Array.mk [Some (3, 30); Some (5, 50)] 2 2).

(** Pairs compared by their first component only. *)
Definition firstComparer (left right : Z * Z) : Z :=
  DefaultComparer_int (fst left) (fst right).

Lemma firstComparer_swo : StrictWeakOrder firstComparer.
Proof.
  destruct DefaultComparer_int_swo as [H1 H2 H3 H4].
  split; unfold firstComparer; intros.
  - apply H1.
  - apply H2.
  - eapply H3; eassumption.
  - eapply H4; eassumption.
Qed.

Lemma twoPairs_inv :
  MapInv X64 DefaultComparer_int twoPairs [mkPair 3 30; mkPair 5 50] 2.
Proof.
  repeat split.
  - exists []. unfold represents, twoPairs. simpl. repeat split; vm_compute; congruence.
  - intros i j x y Hij Hx Hy.
    destruct i as [|[|i]]; destruct j as [|[|j]]; simpl in Hx, Hy;
      try discriminate; try lia.
    injection Hx as <-. injection Hy as <-. reflexivity.
  - simpl. lia.
Qed.

Lemma twoValues_inv : SetInv X64 firstComparer twoValues [(3, 30); (5, 50)] 2.
Proof.
  repeat split.
  - exists []. unfold represents, twoValues. simpl. repeat split; vm_compute; congruence.
  - intros i j x y Hij Hx Hy.
    destruct i as [|[|i]]; destruct j as [|[|j]]; simpl in Hx, Hy;
      try discriminate; try lia.
    injection Hx as <-. injection Hy as <-. reflexivity.
  - simpl. lia.
Qed.

Lemma add_then_value_witness :
  MapInv X64 DefaultComparer_int twoPairs [mkPair 3 30; mkPair 5 50] 2 /\
  Z.of_nat 2 < 2 ^ (wordBits X64 - 2) /\
  exists location m',
    FlatMap.add X64 DefaultComparer_int true 4 40 twoPairs = Some (location, m') /\
    (true = true -> Location_bool location = true) /\
    (Location_bool location = true ->
       forall k', FlatMap.value_of X64 DefaultComparer_int k' m' =
                  if DefaultComparer_int k' 4 =? 0 then Some (Some 40)
                  else FlatMap.value_of X64 DefaultComparer_int k' twoPairs) /\
    (Location_bool location = false -> m' = twoPairs).
Proof.
  assert (Z.of_nat 2 < 2 ^ (wordBits X64 - 2)) as H by (vm_compute; reflexivity).
  split; [exact twoPairs_inv|]. split; [exact H|].
  exact (add_then_value X64 DefaultComparer_int DefaultComparer_int_swo true 4 40
           twoPairs _ 2 twoPairs_inv H).
Defined.

Lemma erase_then_absent_witness :
  MapInv X64 DefaultComparer_int twoPairs [mkPair 3 30; mkPair 5 50] 2 /\
  Z.of_nat 2 <= 2 ^ (wordBits X64 - 2) /\
  exists r m',
    FlatMap.erase X64 DefaultComparer_int 5 twoPairs = Some (r, m') /\
    FlatMap.exists_ X64 DefaultComparer_int 5 twoPairs = Some r /\
    (forall k', FlatMap.value_of X64 DefaultComparer_int k' m' =
                if DefaultComparer_int k' 5 =? 0 then Some None
                else FlatMap.value_of X64 DefaultComparer_int k' twoPairs) /\
    (r = false -> m' = twoPairs).
Proof.
  assert (Z.of_nat 2 <= 2 ^ (wordBits X64 - 2)) as H by (vm_compute; discriminate).
  split; [exact twoPairs_inv|]. split; [exact H|].
  exact (erase_then_absent X64 DefaultComparer_int DefaultComparer_int_swo 5
           twoPairs _ 2 twoPairs_inv H).
Defined.

Lemma set_add_keeps_update_replaces_witness :
  SetInv X64 firstComparer twoValues [(3, 30); (5, 50)] 2 /\
  Z.of_nat 2 <= 2 ^ (wordBits X64 - 2) /\
  firstComparer (5, 50) (5, 77) = 0 /\
  FlatSet.add X64 firstComparer true (5, 77) twoValues
    = Some (mkLocation (Z.of_nat 1), twoValues) /\
  exists s',
    FlatSet.update X64 firstComparer true (5, 77) twoValues = Some (true, s') /\
    setValues X64 s' = Some <$> <[1%nat := (5, 77)]> [(3, 30); (5, 50)] /\
    SetInv X64 firstComparer s' (<[1%nat := (5, 77)]> [(3, 30); (5, 50)]) 2.
Proof.
  assert (Z.of_nat 2 <= 2 ^ (wordBits X64 - 2)) as H by (vm_compute; discriminate).
  split; [exact twoValues_inv|]. split; [exact H|]. split; [reflexivity|].
  exact (set_add_keeps_update_replaces X64 firstComparer firstComparer_swo true
           (5, 77) (5, 50) 1 twoValues _ 2 twoValues_inv H eq_refl eq_refl).
Defined.

End FlatMore.

(** ** Strings: comparison and search *)

Module StrMore.
Import Str StrFacts.

(** Three-way lexicographic comparison of byte sequences; a proper prefix
    comes first. *)
Fixpoint lexcmp (l r : list Z) : Z :=
  match l, r with
  | [], [] => 0
  | [], _ :: _ => -1
  | _ :: _, [] => 1
  | x :: l', y :: r' => if x =? y then lexcmp l' r' else if x <? y then -1 else 1
  end.

Lemma lexcmp_refl (l : list Z) : lexcmp l l = 0.
Proof. induction l as [|x l IH]; [reflexivity|]. simpl. rewrite Z.eqb_refl. exact IH. Qed.

Lemma lexcmp_flip (l : list Z) : forall r, lexcmp r l = - lexcmp l r.
Proof.
  induction l as [|x l IH]; intros [|y r]; simpl; try reflexivity.
  rewrite (Z.eqb_sym y x).
  destruct (Z.eqb_spec x y) as [->|N]; [apply IH|].
  destruct (Z.ltb_spec x y), (Z.ltb_spec y x); lia.
Qed.

Lemma lexcmp_eq (l : list Z) : forall r, lexcmp l r = 0 -> l = r.
Proof.
  induction l as [|x l IH]; intros [|y r]; simpl; try reflexivity; try discriminate.
  destruct (Z.eqb_spec x y) as [->|N].
  - intros H. f_equal. apply IH, H.
  - destruct (x <? y); discriminate.
Qed.

Lemma lexcmp_values (l : list Z) : forall r,
  lexcmp l r = -1 \/ lexcmp l r = 0 \/ lexcmp l r = 1.
Proof.
  induction l as [|x l IH]; intros [|y r]; simpl; auto.
  destruct (x =? y); [apply IH|]. destruct (x <? y); auto.
Qed.

Lemma lexcmp_trans (a : list Z) : forall b c,
  lexcmp a b < 0 -> lexcmp b c < 0 -> lexcmp a c < 0.
Proof.
  induction a as [|x a IH]; intros [|y b] [|z c]; simpl; try lia.
  destruct (Z.eqb_spec x y) as [->|Nxy].
  - destruct (Z.eqb_spec y z) as [->|Nyz]; [apply IH|]. auto.
  - destruct (Z.ltb_spec x y) as [Lxy|Gxy]; [|lia]. intros _.
    destruct (Z.eqb_spec y z) as [->|Nyz].
    + intros _. destruct (Z.eqb_spec x z); [lia|].
      destruct (Z.ltb_spec x z); lia.
    + destruct (Z.ltb_spec y z) as [Lyz|Gyz]; [|lia]. intros _.
      destruct (Z.eqb_spec x z); [lia|]. destruct (Z.ltb_spec x z); lia.
Qed.

(** The first [n] bytes behind a pointer. *)
Definition bytesAt (pointer : list Z) (n : nat) : list Z :=
  take n (pointer ++ replicate n 0).

Lemma bytesAt_S (pointer : list Z) (n : nat) :
  bytesAt pointer (S n) = byteAt pointer 0 :: bytesAt (tail pointer) n.
Proof.
  unfold bytesAt, byteAt. destruct pointer as [|x l]; simpl.
  - reflexivity.
  - f_equal. change (0 :: replicate n 0) with (replicate (S n) 0).
    rewrite replicate_S_end, app_assoc.
    rewrite take_app_le; [reflexivity|]. rewrite length_app, length_replicate. lia.
Qed.

Lemma bytesAt_0 (pointer : list Z) : bytesAt pointer 0 = [].
Proof. reflexivity. Qed.

Lemma bytesAt_fits (pointer : list Z) (n : nat) :
  (n <= Datatypes.length pointer)%nat -> bytesAt pointer n = take n pointer.
Proof. intros H. unfold bytesAt. apply take_app_le. exact H. Qed.

Lemma length_bytesAt (pointer : list Z) (n : nat) :
  Datatypes.length (bytesAt pointer n) = n.
Proof. unfold bytesAt. rewrite length_take, length_app, length_replicate. lia. Qed.

Lemma memcmp_values (n : nat) : forall l r,
  memcmp l r n = -1 \/ memcmp l r n = 0 \/ memcmp l r n = 1.
Proof.
  induction n as [|n IH]; intros l r; simpl; auto.
  destruct (_ =? _); [apply IH|]. destruct (_ <? _); auto.
Qed.

(** [memcmp] over [n] bytes is zero exactly when the bytes agree. *)
Lemma memcmp_zero (n : nat) : forall l r,
  memcmp l r n = 0 <-> bytesAt l n = bytesAt r n.
Proof.
  induction n as [|n IH]; intros l r.
  - simpl. unfold bytesAt. rewrite !take_0. tauto.
  - rewrite !bytesAt_S. simpl.
    destruct (Z.eqb_spec (byteAt l 0) (byteAt r 0)) as [E|N].
    + rewrite IH, E. split; [intros ->; reflexivity|].
      intros H. injection H as H. exact H.
    + split.
      * destruct (_ <? _); discriminate.
      * intros H. injection H as H _. contradiction.
Qed.

(** The result of [memcmp] on the common length, completed by the
    difference of the lengths, has the sign of the lexicographic
    comparison. *)
Lemma memcmp_lexcmp (na : nat) : forall (nb : nat) (l r : list Z),
  let c := memcmp l r (Nat.min na nb) in
  Z.sgn (if c =? 0 then Z.of_nat na - Z.of_nat nb else c)
  = lexcmp (bytesAt l na) (bytesAt r nb).
Proof.
  induction na as [|na IH]; intros nb l r; cbn zeta.
  - rewrite Nat.min_0_l, bytesAt_0. cbn [memcmp].
    destruct nb as [|nb]; [reflexivity|].
    rewrite bytesAt_S. cbn [lexcmp]. change (0 =? 0) with true. cbv iota.
    change (Z.of_nat 0) with 0. lia.
  - destruct nb as [|nb].
    + rewrite Nat.min_0_r, bytesAt_S, bytesAt_0. cbn [memcmp lexcmp].
      change (0 =? 0) with true. cbv iota. lia.
    + rewrite !bytesAt_S.
      replace (Nat.min (S na) (S nb)) with (S (Nat.min na nb)) by lia.
      cbn [memcmp lexcmp].
      destruct (Z.eqb_spec (byteAt l 0) (byteAt r 0)) as [E|N].
      * rewrite <- (IH nb (tail l) (tail r)).
        replace (Z.of_nat (S na) - Z.of_nat (S nb)) with (Z.of_nat na - Z.of_nat nb)
          by lia.
        reflexivity.
      * destruct (_ <? _); reflexivity.
Qed.

Section Compare.
Context (p : Platform).

(** The characters of a string as [data()] and [length()] give them. *)
Definition bytesOf (s : t) : list Z :=
  bytesAt (data p s) (Z.to_nat (length p s)).

Lemma bytesOf_chars (s : t) :
  length p s <= Z.of_nat (Datatypes.length (data p s)) -> bytesOf s = chars p s.
Proof. intros H. unfold bytesOf, chars. apply bytesAt_fits. lia. Qed.

Lemma compareStr_lexcmp (A B : t) :
  Z.sgn (compareStr p A B 0) = lexcmp (bytesOf A) (bytesOf B).
Proof.
  unfold compareStr, bytesOf.
  pose proof (length_range p A) as Ha. pose proof (length_range p B) as Hb.
  set (la := length p A) in *. set (lb := length p B) in *.
  change (0 <? 0) with false. cbv iota.
  assert (Math.min la lb = Z.min la lb) as ->
    by (unfold Math.min; destruct (Z.leb_spec la lb); lia).
  replace (Z.to_nat (Z.min la lb)) with (Nat.min (Z.to_nat la) (Z.to_nat lb)) by lia.
  pose proof (LongBit_pos p) as (H1 & H2 & H3 & H4 & H5).
  rewrite wrap_inRange
    by (unfold LengthT, inRange; fold (LongBit p); lia).
  pose proof (memcmp_lexcmp (Z.to_nat la) (Z.to_nat lb) (data p A) (data p B)) as Hm.
  cbn zeta in Hm. rewrite !Z2Nat.id in Hm by lia.
  rewrite <- Hm.
  destruct ((0 <? la) && (0 <? lb)) eqn:Hpos; [reflexivity|].
  assert (Nat.min (Z.to_nat la) (Z.to_nat lb) = 0%nat) as ->.
  { apply andb_false_iff in Hpos as [Hp|Hp]; apply Z.ltb_ge in Hp; lia. }
  reflexivity.
Qed.

(** X22: [compareStr(String const&, String const&)] with the default length is
    a strict weak ordering on all strings.  [operator <] holds exactly when
    the characters of the left string, as bytes, come before those of the
    right one lexicographically, a proper prefix first; [operator ==] holds
    exactly for strings with the same characters, whatever their
    representation, capacity or pollute flag. *)
Theorem compareStr_orders :
  StrictWeakOrder (fun left right => compareStr p left right 0) /\
  (forall A B : t, operator_lt p A B = true <-> lexcmp (bytesOf A) (bytesOf B) < 0) /\
  (forall A B : t,
     length p A <= Z.of_nat (Datatypes.length (data p A)) ->
     length p B <= Z.of_nat (Datatypes.length (data p B)) ->
     (operator_eq p A B = true <-> chars p A = chars p B)).
Proof.
  assert (forall A B, compareStr p A B 0 < 0 <-> lexcmp (bytesOf A) (bytesOf B) < 0) as Hlt.
  { intros A B. rewrite <- compareStr_lexcmp. lia. }
  assert (forall A B, compareStr p A B 0 = 0 <-> lexcmp (bytesOf A) (bytesOf B) = 0) as Hz.
  { intros A B. rewrite <- compareStr_lexcmp. lia. }
  assert (forall A B, 0 < compareStr p A B 0 <-> 0 < lexcmp (bytesOf A) (bytesOf B)) as Hgt.
  { intros A B. rewrite <- compareStr_lexcmp. lia. }
  split; [|split].
  - split.
    + intros a. apply Hz, lexcmp_refl.
    + intros a b. rewrite Hgt, Hlt, (lexcmp_flip (bytesOf a) (bytesOf b)). lia.
    + intros a b c. rewrite !Hlt. apply lexcmp_trans.
    + intros a b c. rewrite !Hz. intros E1 E2.
      apply lexcmp_eq in E1, E2. rewrite E1, E2. apply lexcmp_refl.
  - intros A B. unfold operator_lt. rewrite Z.ltb_lt. apply Hlt.
  - intros A B HA HB. unfold operator_eq. rewrite Z.eqb_eq, Hz.
    rewrite (bytesOf_chars A HA), (bytesOf_chars B HB). split.
    + apply lexcmp_eq.
    + intros ->. apply lexcmp_refl.
Qed.

End Compare.


Lemma findLoop_spec (test : Z -> bool) (count : nat) : forall i : Z,
  0 <= i ->
  let r := findLoop test count i in
  (r = NotFound /\ forall j, i <= j < i + Z.of_nat count -> test j = false) \/
  (i <= r < i + Z.of_nat count /\ test r = true /\
   forall j, i <= j < r -> test j = false).
Proof.
  induction count as [|count IH]; intros i Hi; cbn zeta.
  - left. split; [reflexivity|]. intros j Hj. lia.
  - simpl findLoop. destruct (test i) eqn:Ht.
    + right. split; [lia|]. split; [exact Ht|]. intros j Hj. lia.
    + destruct (IH (i + 1) ltac:(lia)) as [[Hr Hn]|(Hr & Htr & Hn)].
      * left. split; [exact Hr|]. intros j Hj.
        destruct (Z.eq_dec j i) as [->|N]; [exact Ht|]. apply Hn. lia.
      * right. split; [lia|]. split; [exact Htr|]. intros j Hj.
        destruct (Z.eq_dec j i) as [->|N]; [exact Ht|]. apply Hn. lia.
Qed.

(** A window of a buffer that lies inside the characters. *)
Lemma sub_chars (d : list Z) (n j m : Z) :
  0 <= j -> 0 <= m -> j + m <= n -> n <= Z.of_nat (Datatypes.length d) ->
  bytesAt (drop (Z.to_nat j) d) (Z.to_nat m)
  = take (Z.to_nat m) (drop (Z.to_nat j) (take (Z.to_nat n) d)).
Proof.
  intros Hj Hm Hjm Hn.
  rewrite bytesAt_fits by (rewrite length_drop; lia).
  rewrite <- (take_drop (Z.to_nat n) d) at 1.
  rewrite drop_app_le by (rewrite length_take; lia).
  rewrite take_app_le by (rewrite length_drop, length_take; lia).
  reflexivity.
Qed.

Section Find.
Context (p : Platform).

Lemma clipWindow_spec (n position length' : Z) :
  0 <= n <= LongLengthMask p -> inRange (LengthT p) position ->
  inRange (LengthT p) (position + (if length' =? 0 then n else length')) ->
  let '(lo, len) := clipWindow p n position length' in
  0 <= lo /\ lo + len <= n /\ wrap (LengthT p) (lo + len) = lo + len /\
  inRange (LengthT p) lo.
Proof.
  intros Hn Hpos Hr. unfold clipWindow.
  pose proof (LongBit_pos p) as (H1 & H2 & H3 & H4 & H5).
  set (l0 := if length' =? 0 then n else length') in *.
  assert (inRange (LengthT p) (l0 + position)) as Hr'
    by (replace (l0 + position) with (position + l0) by lia; exact Hr).
  set (l1 := if position <? 0 then wrap (LengthT p) (l0 + position) else l0).
  set (p1 := if position <? 0 then 0 else position).
  assert (0 <= p1 /\ p1 + l1 = position + l0) as [Hp1 Hsum].
  { unfold p1, l1. destruct (Z.ltb_spec position 0).
    - rewrite wrap_inRange by exact Hr'. lia.
    - lia. }
  rewrite Hsum, (wrap_inRange _ (position + l0)) by exact Hr.
  assert (inRange (LengthT p) p1) as Hp1r.
  { unfold p1. destruct (Z.ltb_spec position 0).
    - unfold LengthT, inRange. fold (LongBit p). lia.
    - exact Hpos. }
  destruct (Z.ltb_spec n (position + l0)) as [Hclip|Hfit].
  - unfold Math.min, Math.max.
    assert (inRange (LengthT p) (n - p1)) as Hd.
    { unfold LengthT, inRange in *. fold (LongBit p) in *. lia. }
    rewrite (wrap_inRange _ (n - p1)) by exact Hd.
    destruct (Z.leb_spec p1 n), (Z.ltb_spec (n - p1) 0); try lia.
    + split; [lia|]. split; [lia|]. split; [|exact Hp1r].
      apply wrap_inRange. unfold LengthT, inRange. fold (LongBit p). lia.
    + split; [lia|]. split; [lia|]. split.
      * apply wrap_inRange. unfold LengthT, inRange. fold (LongBit p). lia.
      * unfold LengthT, inRange. fold (LongBit p). lia.
  - rewrite Hsum. split; [exact Hp1|]. split; [lia|]. split; [|exact Hp1r].
    apply wrap_inRange. exact Hr.
Qed.

(** The buffer behind [data()] holds the characters. *)
Definition fits (s : t) : Prop :=
  length p s <= Z.of_nat (Datatypes.length (data p s)).

(** The [m] characters of [s] from position [j] on. *)
Definition sub (s : t) (j m : Z) : list Z :=
  take (Z.to_nat m) (drop (Z.to_nat j) (chars p s)).

Lemma memcmp_sub (S M : t) (j : Z) :
  fits S -> fits M -> 0 <= j -> j + length p M <= length p S ->
  (memcmp (data p M) (drop (Z.to_nat j) (data p S)) (Z.to_nat (length p M)) =? 0)
  = bool_decide (sub S j (length p M) = chars p M).
Proof.
  intros HS HM Hj Hjm. pose proof (length_range p M) as Hm.
  assert (bytesAt (data p M) (Z.to_nat (length p M)) = chars p M) as EM
    by (apply bytesAt_fits; unfold fits in HM; lia).
  assert (bytesAt (drop (Z.to_nat j) (data p S)) (Z.to_nat (length p M))
          = sub S j (length p M)) as ES
    by (apply sub_chars; unfold fits in HS; lia).
  destruct (Z.eqb_spec (memcmp (data p M) (drop (Z.to_nat j) (data p S))
                          (Z.to_nat (length p M))) 0) as [E|N].
  - apply memcmp_zero in E. rewrite EM, ES in E.
    symmetry. apply bool_decide_eq_true. congruence.
  - symmetry. apply bool_decide_eq_false. intros E. apply N, memcmp_zero.
    rewrite EM, ES. congruence.
Qed.

(** X23: [findStr] works on the window that the position and the length
    select: the window lies inside the string, and is the whole string for
    the default arguments.  A result other than [NotFound] is a position
    where the non-empty match stands entirely inside the window, and it is
    the first such position; when there is one, the result is not
    [NotFound]. *)
Theorem findStr_first_occurrence (S M : t) (position length' : Z) :
  fits S -> fits M -> inRange (LengthT p) position ->
  0 <= position + (if length' =? 0 then length p S else length') <= LongLengthMask p ->
  let '(lo, len) := clipWindow p (length p S) position length' in
  let r := findStr p S M position length' in
  0 <= lo /\ lo + len <= length p S /\
  (position = 0 -> length' = 0 -> lo = 0 /\ len = length p S) /\
  (r = NotFound \/
   (lo <= r /\ r + length p M <= lo + len /\ 0 < length p M /\
    sub S r (length p M) = chars p M)) /\
  (forall j, lo <= j -> j + length p M <= lo + len -> 0 < length p M ->
     sub S j (length p M) = chars p M -> r <> NotFound /\ r <= j).
Proof.
  intros HS HM Hpos Hend.
  pose proof (length_range p S) as Hn. pose proof (length_range p M) as Hm.
  pose proof (LongBit_pos p) as (H1 & H2 & H3 & H4 & H5).
  assert (inRange (LengthT p)
            (position + (if length' =? 0 then length p S else length'))) as Hr
    by (unfold LengthT, inRange; fold (LongBit p); lia).
  pose proof (clipWindow_spec (length p S) position length' Hn Hpos Hr) as Hw.
  assert (let '(lo, len) := clipWindow p (length p S) position length' in
          0 <= lo + len) as Hw0.
  { unfold clipWindow.
    set (l0 := if length' =? 0 then length p S else length') in *.
    assert ((if position <? 0 then 0 else position)
            + (if position <? 0 then wrap (LengthT p) (l0 + position) else l0)
            = position + l0) as Hsum.
    { destruct (Z.ltb_spec position 0); [|lia].
      rewrite wrap_inRange
        by (replace (l0 + position) with (position + l0) by lia; exact Hr). lia. }
    rewrite Hsum, (wrap_inRange _ (position + l0)) by exact Hr.
    destruct (Z.ltb_spec (length p S) (position + l0)); [|lia].
    unfold Math.min, Math.max.
    destruct (Z.leb_spec (if position <? 0 then 0 else position) (length p S));
      destruct (Z.ltb_spec (wrap (LengthT p)
                  (length p S - (if position <? 0 then 0 else position))) 0);
      destruct (Z.ltb_spec position 0); lia. }
  assert (position = 0 -> length' = 0 ->
          clipWindow p (length p S) position length' = (0, length p S)) as Hdef.
  { intros -> ->. unfold clipWindow. simpl.
    rewrite wrap_inRange by (unfold LengthT, inRange; fold (LongBit p); lia).
    rewrite Z.add_0_l, Z.ltb_irrefl. reflexivity. }
  unfold findStr.
  destruct (clipWindow p (length p S) position length') as [lo len].
  destruct Hw as (Hlo & Hhi & Hwr & Hlor). cbn zeta.
  split; [exact Hlo|]. split; [exact Hhi|].
  split; [intros E1 E2; specialize (Hdef E1 E2); injection Hdef as -> ->; auto|].
  destruct (Z.eqb_spec len 0) as [Hl0|Hl0]; cbn [negb].
  { split; [left; reflexivity|]. intros j Hj1 Hj2 Hj3. lia. }
  destruct (Z.eqb_spec (length p M) 0) as [Hm0|Hm0]; cbn [negb].
  { split; [left; reflexivity|]. intros j Hj1 Hj2 Hj3. lia. }
  rewrite Hwr.
  assert (Math.min (lo + len) (length p S) = lo + len) as ->
    by (unfold Math.min; destruct (Z.leb_spec (lo + len) (length p S)); lia).
  rewrite wrap_inRange.
  2:{ unfold LengthT, inRange in *. fold (LongBit p) in *. lia. }
  set (count := Z.to_nat (lo + len - length p M - lo + 1)).
  set (test := fun i => memcmp _ _ _ =? 0).
  pose proof (findLoop_spec test count lo Hlo) as Hf. cbn zeta in Hf.
  assert (forall j, lo <= j < lo + Z.of_nat count ->
            test j = bool_decide (sub S j (length p M) = chars p M)) as Htest.
  { intros j Hj. unfold test. apply memcmp_sub; try assumption; unfold count in Hj; lia. }
  destruct Hf as [[Hnf Hall]|(Hrng & Htr & Hbefore)].
  - rewrite Hnf. split; [left; reflexivity|].
    intros j Hj1 Hj2 Hj3 Hsub. exfalso.
    assert (lo <= j < lo + Z.of_nat count) as Hjr by (unfold count; lia).
    pose proof (Hall j Hjr) as Hf. rewrite (Htest j Hjr) in Hf.
    apply bool_decide_eq_false in Hf. contradiction.
  - set (r := findLoop test count lo) in *.
    rewrite (Htest r Hrng) in Htr. apply bool_decide_eq_true in Htr.
    split.
    + right. split; [lia|]. split; [unfold count in Hrng; lia|]. split; [lia|exact Htr].
    + intros j Hj1 Hj2 Hj3 Hsub. split; [unfold NotFound; lia|].
      destruct (Z_lt_le_dec j r) as [Hlt|]; [exfalso|lia].
      assert (lo <= j < lo + Z.of_nat count) as Hjr by lia.
      pose proof (Hbefore j ltac:(lia)) as Hf. rewrite (Htest j Hjr) in Hf.
      apply bool_decide_eq_false in Hf. contradiction.
Qed.

Lemma clipWindow_end (n position length' : Z) :
  0 <= n <= LongLengthMask p ->
  0 <= position + (if length' =? 0 then n else length') <= LongLengthMask p ->
  let '(lo, len) := clipWindow p n position length' in 0 <= lo + len.
Proof.
  intros Hn Hend. unfold clipWindow.
  pose proof (LongBit_pos p) as (H1 & H2 & H3 & H4 & H5).
  set (l0 := if length' =? 0 then n else length') in *.
  assert (inRange (LengthT p) (position + l0)) as Hr
    by (unfold LengthT, inRange; fold (LongBit p); lia).
  assert ((if position <? 0 then 0 else position)
          + (if position <? 0 then wrap (LengthT p) (l0 + position) else l0)
          = position + l0) as Hsum.
  { destruct (Z.ltb_spec position 0); [|lia].
    rewrite wrap_inRange
      by (replace (l0 + position) with (position + l0) by lia; exact Hr). lia. }
  rewrite Hsum, (wrap_inRange _ (position + l0)) by exact Hr.
  destruct (Z.ltb_spec n (position + l0)); [|lia].
  unfold Math.min, Math.max.
  destruct (Z.leb_spec (if position <? 0 then 0 else position) n);
    destruct (Z.ltb_spec (wrap (LengthT p)
                (n - (if position <? 0 then 0 else position))) 0);
    destruct (Z.ltb_spec position 0); lia.
Qed.

(** A loop that runs to its end and keeps the last hit. *)
Lemma lastLoop_spec (test : Z -> bool) (f : Z -> Z) (count : nat) :
  let r := forUp 0 (Z.of_nat count)
             (fun i index => if test i then f i else index) NotFound in
  (r = NotFound /\ forall j, 0 <= j < Z.of_nat count -> test j = false) \/
  (exists k, 0 <= k < Z.of_nat count /\ r = f k /\ test k = true /\
             forall j, k < j < Z.of_nat count -> test j = false).
Proof.
  cbn zeta. induction count as [|count IH].
  - left. split; [reflexivity|]. intros j Hj. lia.
  - unfold forUp in *. rewrite Z.sub_0_r in *.
    rewrite Nat2Z.inj_succ, <- Z.add_1_r.
    replace (Z.of_nat count + 1) with (Z.of_nat (S count)) by lia.
    rewrite seqZ_S, foldl_app. cbn [foldl]. rewrite Z.add_0_l.
    destruct (test (Z.of_nat count)) eqn:Ht.
    + right. exists (Z.of_nat count). split; [lia|]. split; [reflexivity|].
      split; [exact Ht|]. intros j Hj. lia.
    + destruct IH as [[Hr Hn]|(k & Hk & Hr & Htk & Hn)].
      * left. split; [exact Hr|]. intros j Hj.
        destruct (Z.eq_dec j (Z.of_nat count)) as [->|N]; [exact Ht|]. apply Hn. lia.
      * right. exists k. split; [lia|]. split; [exact Hr|]. split; [exact Htk|].
        intros j Hj.
        destruct (Z.eq_dec j (Z.of_nat count)) as [->|N]; [exact Ht|]. apply Hn. lia.
Qed.

Lemma byteAt_chars (S : t) (lo i : Z) (c : Z) :
  fits S -> 0 <= lo -> 0 <= i -> lo + i < length p S ->
  (byteAt (drop (Z.to_nat lo) (data p S)) i =? c)
  = bool_decide (chars p S !! Z.to_nat (lo + i) = Some c).
Proof.
  intros HS Hlo Hi Hlt. unfold fits in HS. unfold byteAt, chars.
  rewrite lookup_drop, lookup_take_lt by lia.
  replace (Z.to_nat lo + Z.to_nat i)%nat with (Z.to_nat (lo + i)) by lia.
  destruct (lookup_lt_is_Some_2 (data p S) (Z.to_nat (lo + i)) ltac:(lia)) as [x Hx].
  rewrite Hx. cbn [default]. unfold id.
  destruct (Z.eqb_spec x c) as [->|N].
  - symmetry. apply bool_decide_eq_true. reflexivity.
  - symmetry. apply bool_decide_eq_false. congruence.
Qed.

(** X24: [findChar] returns the first and [findCharLast] the last position of
    the character inside the window that the position and the length select;
    one returns [NotFound] exactly when the other does, which is when the
    character does not occur in the window. *)
Theorem findChar_first_last (S : t) (charCode position length' : Z) :
  fits S -> inRange (LengthT p) position ->
  0 <= position + (if length' =? 0 then length p S else length') <= LongLengthMask p ->
  let '(lo, len) := clipWindow p (length p S) position length' in
  let first := findChar p S charCode position length' in
  let last := findCharLast p S charCode position length' in
  (first = NotFound <-> last = NotFound) /\
  (first <> NotFound ->
     lo <= first <= last /\ last < lo + len /\
     chars p S !! Z.to_nat first = Some charCode /\
     chars p S !! Z.to_nat last = Some charCode) /\
  (forall j, lo <= j < lo + len -> chars p S !! Z.to_nat j = Some charCode ->
     first <> NotFound /\ first <= j <= last).
Proof.
  intros HS Hpos Hend.
  pose proof (length_range p S) as Hn.
  pose proof (LongBit_pos p) as (H1 & H2 & H3 & H4 & H5).
  assert (inRange (LengthT p)
            (position + (if length' =? 0 then length p S else length'))) as Hr
    by (unfold LengthT, inRange; fold (LongBit p); lia).
  pose proof (clipWindow_spec (length p S) position length' Hn Hpos Hr) as Hw.
  pose proof (clipWindow_end (length p S) position length' Hn Hend) as Hw0.
  unfold findChar, findCharLast.
  destruct (clipWindow p (length p S) position length') as [lo len].
  destruct Hw as (Hlo & Hhi & Hwr & Hlor). cbn zeta.
  destruct (Z.eqb_spec len 0) as [Hl0|Hl0]; cbn [negb].
  { split; [tauto|]. split; [intros N; contradiction|]. intros j Hj. lia. }
  destruct (Z_lt_le_dec len 0) as [Hneg|Hnn].
  { replace (Z.to_nat len) with 0%nat by lia. cbn [findLoop].
    rewrite forUp_nil by lia. change (NotFound =? NotFound) with true. cbv iota.
    split; [tauto|]. split; [intros N; contradiction|]. intros j Hj. lia. }
  set (test := fun i => byteAt (drop (Z.to_nat lo) (data p S)) i =? charCode).
  change (forUp 0 len _ NotFound)
    with (forUp 0 len
            (fun i index => if test i then wrap (LengthT p) (lo + i) else index)
            NotFound).
  assert (forall i, 0 <= i < len ->
            test i = bool_decide (chars p S !! Z.to_nat (lo + i) = Some charCode))
    as Htest.
  { intros i Hi. unfold test. apply byteAt_chars; try assumption; lia. }
  assert (forall i, 0 <= i < len -> wrap (LengthT p) (lo + i) = lo + i) as Hwrap.
  { intros i Hi. apply wrap_inRange. unfold LengthT, inRange. fold (LongBit p). lia. }
  pose proof (findLoop_spec test (Z.to_nat len) 0 ltac:(lia)) as Hf. cbn zeta in Hf.
  pose proof (lastLoop_spec test (fun i => wrap (LengthT p) (lo + i)) (Z.to_nat len))
    as Hl. cbn zeta in Hl. rewrite Z2Nat.id in Hf, Hl by lia.
  destruct Hf as [[Hnf Hall]|(Hrng & Htr & Hbefore)].
  - rewrite Hnf. change (NotFound =? NotFound) with true. cbv iota.
    destruct Hl as [[Hlnf _]|(k & Hk & _ & Htk & _)].
    + rewrite Hlnf. split; [tauto|]. split; [intros N; contradiction|].
      intros j Hj Hc. exfalso.
      pose proof (Hall (j - lo) ltac:(lia)) as Hf.
      rewrite (Htest (j - lo)) in Hf by lia.
      apply bool_decide_eq_false in Hf. apply Hf.
      replace (lo + (j - lo)) with j by lia. exact Hc.
    + rewrite (Hall k ltac:(lia)) in Htk. discriminate.
  - set (i := findLoop test (Z.to_nat len) 0) in *.
    destruct (Z.eqb_spec i NotFound) as [E|_]; [unfold NotFound in E; lia|].
    rewrite (Hwrap i) by lia.
    destruct Hl as [[_ Hall]|(k & Hk & Hlr & Htk & Hafter)].
    + rewrite (Hall i ltac:(lia)) in Htr. discriminate.
    + rewrite Hlr, (Hwrap k) by lia.
      assert (i <= k) as Hik.
      { destruct (Z_lt_le_dec k i) as [Hlt|]; [|lia].
        rewrite (Hbefore k ltac:(lia)) in Htk. discriminate. }
      rewrite (Htest i) in Htr by lia. apply bool_decide_eq_true in Htr.
      rewrite (Htest k) in Htk by lia. apply bool_decide_eq_true in Htk.
      split; [unfold NotFound; split; lia|].
      split; [intros _; repeat split; try lia; assumption|].
      intros j Hj Hc.
      assert (test (j - lo) = true) as Htj.
      { rewrite (Htest (j - lo)) by lia. apply bool_decide_eq_true.
        replace (lo + (j - lo)) with j by lia. exact Hc. }
      split; [unfold NotFound; lia|]. split.
      * destruct (Z_lt_le_dec (j - lo) i) as [Hlt|]; [|lia].
        rewrite (Hbefore (j - lo) ltac:(lia)) in Htj. discriminate.
      * destruct (Z_lt_le_dec k (j - lo)) as [Hlt|]; [|lia].
        rewrite (Hafter (j - lo) ltac:(lia)) in Htj. discriminate.
Qed.

Lemma length_chars (s : t) : fits s -> Datatypes.length (chars p s) = Z.to_nat (length p s).
Proof. intros H. unfold chars, fits in *. rewrite length_take. lia. Qed.

Lemma memcmp_sub_l (S M : t) (j : Z) :
  fits S -> fits M -> 0 <= j -> j + length p M <= length p S ->
  memcmp (drop (Z.to_nat j) (data p S)) (data p M) (Z.to_nat (length p M)) = 0
  <-> sub S j (length p M) = chars p M.
Proof.
  intros HS HM Hj Hjm. pose proof (length_range p M) as Hm.
  rewrite memcmp_zero.
  rewrite (bytesAt_fits (data p M)) by (unfold fits in HM; lia).
  rewrite (sub_chars (data p S) (length p S)) by (unfold fits in HS; lia).
  reflexivity.
Qed.

(** X25: [startsWith] is [true] exactly when the match is not empty, has room
    in the string from [max(position, 0)] on and equals the characters that
    stand there; [endsWith] is [true] exactly when the match is not empty and
    the string ends with it. *)
Theorem startsWith_endsWith (S M : t) (position : Z) :
  fits S -> fits M -> inRange (LengthT p) position ->
  (startsWith p S M position = true <->
     0 < length p M /\ Z.max position 0 + length p M <= length p S /\
     sub S (Z.max position 0) (length p M) = chars p M) /\
  (endsWith p S M = true <->
     0 < length p M /\ exists front, chars p S = front ++ chars p M).
Proof.
  intros HS HM Hpos.
  pose proof (length_range p S) as Hn. pose proof (length_range p M) as Hm.
  pose proof (LongBit_pos p) as (H1 & H2 & H3 & H4 & H5).
  pose proof (length_chars S HS) as ELS. pose proof (length_chars M HM) as ELM.
  split.
  - unfold startsWith.
    assert (Math.max position 0 = Z.max position 0) as ->
      by (unfold Math.max; destruct (Z.ltb_spec position 0); lia).
    set (pos := Z.max position 0).
    rewrite wrap_inRange
      by (unfold LengthT, inRange in *; fold (LongBit p) in *; lia).
    destruct (Z.eqb_spec (length p M) 0) as [E0|N0]; cbn [negb andb].
    { split; [discriminate|]. intros (Hc & _). lia. }
    destruct (Z.leb_spec (length p M) (length p S - pos)) as [Hfit|Hno].
    + rewrite Z.eqb_eq, (memcmp_sub_l S M pos HS HM) by lia.
      split; [intros E; repeat split; (lia || exact E)|intros (_ & _ & E); exact E].
    + split; [discriminate|]. intros (_ & Hc & _). lia.
  - unfold endsWith.
    destruct (Z.eqb_spec (length p S) 0) as [E0|N0]; cbn [negb andb].
    { split; [discriminate|]. intros (Hc & front & Hf).
      apply (f_equal Datatypes.length) in Hf. rewrite length_app, ELS, ELM in Hf. lia. }
    destruct (Z.eqb_spec (length p M) 0) as [E1|N1]; cbn [negb andb].
    { split; [discriminate|]. intros (Hc & _). lia. }
    destruct (Z.leb_spec (length p M) (length p S)) as [Hfit|Hno].
    + rewrite wrap_inRange
        by (unfold LengthT, inRange; fold (LongBit p); lia).
      rewrite Z.eqb_eq, (memcmp_sub_l S M _ HS HM) by lia.
      unfold sub.
      assert (take (Z.to_nat (length p M))
                (drop (Z.to_nat (length p S - length p M)) (chars p S))
              = drop (Z.to_nat (length p S - length p M)) (chars p S)) as ->
        by (apply take_ge; rewrite length_drop, ELS; lia).
      split.
      * intros E. split; [lia|].
        exists (take (Z.to_nat (length p S - length p M)) (chars p S)).
        rewrite <- E. symmetry. apply take_drop.
      * intros (_ & front & Hf).
        assert (Datatypes.length front = Z.to_nat (length p S - length p M)) as Elf.
        { apply (f_equal Datatypes.length) in Hf.
          rewrite length_app, ELS, ELM in Hf. lia. }
        rewrite Hf, <- Elf. apply drop_app_length.
    + split; [discriminate|]. intros (_ & front & Hf).
      apply (f_equal Datatypes.length) in Hf. rewrite length_app, ELS, ELM in Hf. lia.
Qed.

Lemma upperCase_test (x y : Z) :
  (x =? y) || (upperCase x =? upperCase y) = true <-> upperCase x = upperCase y.
Proof.
  rewrite orb_true_iff, !Z.eqb_eq. split; [intros [->|E]; [reflexivity|exact E]|auto].
Qed.

(** X26: [startsWithText] compares the match, letters a to z without regard
    to case, with the FIRST characters of the string, whatever [position] is:
    the position only enters the test that the match has room in the rest of
    the string. *)
Theorem startsWithText_ignores_position (S M : t) (position : Z) :
  fits S -> fits M -> inRange (LengthT p) position ->
  (startsWithText p S M position = true <->
     0 < length p M /\ Z.max position 0 + length p M <= length p S /\
     Forall2 (fun x y => upperCase x = upperCase y)
       (take (Z.to_nat (length p M)) (chars p S)) (chars p M)).
Proof.
  intros HS HM Hpos.
  pose proof (length_range p S) as Hn. pose proof (length_range p M) as Hm.
  pose proof (LongBit_pos p) as (H1 & H2 & H3 & H4 & H5).
  pose proof (length_chars S HS) as ELS. pose proof (length_chars M HM) as ELM.
  unfold startsWithText.
  assert (Math.max position 0 = Z.max position 0) as ->
    by (unfold Math.max; destruct (Z.ltb_spec position 0); lia).
  set (pos := Z.max position 0).
  rewrite wrap_inRange
    by (unfold LengthT, inRange in *; fold (LongBit p) in *; lia).
  destruct (Z.eqb_spec (length p M) 0) as [E0|N0]; cbn [negb andb].
  { split; [discriminate|]. intros (Hc & _). lia. }
  destruct (Z.leb_spec (length p M) (length p S - pos)) as [Hfit|Hno].
  2:{ split; [discriminate|]. intros (_ & Hc & _). lia. }
  rewrite forallb_forall.
  assert (forall i : nat, (i < Z.to_nat (length p M))%nat ->
            byteAt (data p S) (Z.of_nat i)
              = default 0 (take (Z.to_nat (length p M)) (chars p S) !! i) /\
            byteAt (data p M) (Z.of_nat i) = default 0 (chars p M !! i)) as Hbytes.
  { intros i Hi. unfold byteAt, chars. rewrite Nat2Z.id.
    rewrite !lookup_take_lt by lia. split; reflexivity. }
  split.
  - intros Hall. split; [lia|]. split; [lia|].
    apply Forall2_same_length_lookup. split.
    + rewrite length_take, ELS, ELM. lia.
    + intros i x y Hx Hy.
      assert (i < Z.to_nat (length p M))%nat as Hi
        by (apply lookup_lt_Some in Hy; lia).
      destruct (Hbytes i Hi) as [Bx By]. rewrite Hx in Bx. rewrite Hy in By.
      cbn [default] in Bx, By.
      specialize (Hall (Z.of_nat i)).
      rewrite Bx, By in Hall. apply upperCase_test, Hall.
      apply list_elem_of_In, elem_of_seqZ. lia.
  - intros (_ & _ & HF) i Hi.
    apply list_elem_of_In, elem_of_seqZ in Hi.
    destruct (Hbytes (Z.to_nat i) ltac:(lia)) as [Bx By].
    rewrite Z2Nat.id in Bx, By by lia. rewrite Bx, By.
    apply upperCase_test.
    destruct (lookup_lt_is_Some_2 (chars p M) (Z.to_nat i) ltac:(lia)) as [y Hy].
    destruct (lookup_lt_is_Some_2 (take (Z.to_nat (length p M)) (chars p S))
                (Z.to_nat i) ltac:(rewrite length_take; lia)) as [x Hx].
    rewrite Hx, Hy. cbn [default]. unfold id.
    exact (Forall2_lookup_lr _ _ _ _ _ _ HF Hx Hy).
Qed.

End Find.


Lemma take_written (b src : list Z) (n : Z) :
  (Z.to_nat n + Datatypes.length src <= Datatypes.length b)%nat ->
  take (Z.to_nat n + Datatypes.length src) (blit b n src) = take (Z.to_nat n) b ++ src.
Proof.
  intros H. unfold blit. rewrite app_assoc. apply take_app_length'.
  rewrite length_app, length_take. lia.
Qed.

Lemma blit_lookup_at (b : list Z) (n x : Z) :
  (Z.to_nat n < Datatypes.length b)%nat -> blit b n [x] !! Z.to_nat n = Some x.
Proof.
  intros H. unfold blit.
  rewrite lookup_app_r by (rewrite length_take; lia).
  rewrite length_take. replace (Z.to_nat n - _)%nat with 0%nat by lia. reflexivity.
Qed.

Section Content.
Context (p : Platform).

(** Writing [src] behind the first [n] characters and setting the length
    to the end of what was written. *)
Lemma write_chars (s1 : t) (src : list Z) (n dest : Z) :
  wf p s1 -> length p s1 = n ->
  Z.of_nat (Datatypes.length src) = dest - n ->
  dest <= capacity p s1 -> dest <= MaxLength p ->
  (longBit p s1 = true ->
   capacity p s1 + NullLength <= Z.of_nat (Datatypes.length (heap s1))) ->
  let r := writeLength p dest (writeData p n src s1) in
  wf p r /\ length p r = dest /\ operator_bool p r = operator_bool p s1 /\
  capacity p r = capacity p s1 /\ longBit p r = longBit p s1 /\
  chars p r = take (Z.to_nat n) (data p s1) ++ src /\
  data p r !! Z.to_nat dest = Some 0.
Proof.
  intros Hwf Hlen Hsrc Hcap Hmax Hroom. cbn zeta.
  pose proof (length_range p s1) as Hn. rewrite Hlen in Hn.
  pose proof (LongBit_pos p) as (H1 & H2 & H3 & H4 & H5).
  pose proof (ShortCapacity_small p) as (S1 & S2 & S3 & S4).
  unfold NullLength in *.
  assert (longBit p s1 = false -> dest <= ShortCapacity p - 1) as Hshort
    by (intros Hb; apply (fits_short p dest s1 Hcap Hb)).
  destruct (writeData_keeps p n src s1 Hwf ltac:(lia)) as (D1 & D2 & D3 & D4 & D5 & D6).
  { intros Hb. specialize (Hshort Hb). lia. }
  set (s2 := writeData p n src s1) in *.
  destruct (writeLength_spec p dest s2 D1 ltac:(lia)) as (L1 & L2 & L3 & L4 & L5).
  { intros Hb. rewrite D2 in Hb. unfold NullLength. auto. }
  cbn zeta in L1, L2, L3, L4, L5.
  split; [exact L1|]. split; [exact L3|]. split; [congruence|].
  split; [congruence|]. split; [congruence|].
  unfold chars. rewrite L3.
  destruct (longBit p s1) eqn:Hb.
  - specialize (Hroom eq_refl).
    rewrite (data_long p _ (eq_trans L2 D2)), (writeLength_long p _ _ D2).
    unfold s2. rewrite (writeData_long p _ _ _ Hb). cbn [heap].
    rewrite (data_long p _ Hb).
    assert (Datatypes.length (blit (heap s1) n src) = Datatypes.length (heap s1))
      as Ebl by (apply blit_length; lia).
    split.
    + rewrite blit_take_before by (cbn [Datatypes.length]; lia).
      replace (Z.to_nat dest) with (Z.to_nat n + Datatypes.length src)%nat by lia.
      apply take_written. lia.
    + apply blit_lookup_at. lia.
  - specialize (Hshort eq_refl).
    assert (longBit p s2 = false) as Hb2 by congruence.
    assert (data p (writeLength p dest s2) = _bytes (writeLength p dest s2)) as ->
      by (unfold data; rewrite L2, Hb2; reflexivity).
    unfold writeLength. rewrite Hb2. unfold setByte. cbn [_bytes].
    unfold s2, writeData. rewrite Hb. cbn [_bytes].
    assert (data p s1 = _bytes s1) as -> by (unfold data; rewrite Hb; reflexivity).
    pose proof (wf_length p s1 Hwf) as Hbl.
    assert (ShortLengthOffset p = ShortLength p - 1) as Eoff by reflexivity.
    assert (Datatypes.length (blit (_bytes s1) n src) = Datatypes.length (_bytes s1))
      as Ebl by (apply blit_length; lia).
    split.
    + rewrite take_insert_ge by lia.
      rewrite take_insert_ge by lia.
      replace (Z.to_nat dest) with (Z.to_nat n + Datatypes.length src)%nat by lia.
      apply take_written. lia.
    + apply list_lookup_insert_eq. rewrite length_insert, Ebl. lia.
Qed.

(** X27: [append(String const&)] on a string that owns its buffer, when the
    two lengths together stay below a quarter of the span of [Length], always
    returns.  If the suffix is empty, the capacity suffices or the allocation
    succeeds, the string then holds its characters followed by those of the
    suffix and is polluted exactly if it or the suffix was; otherwise it keeps
    its length and characters and is polluted. *)
Theorem append_concatenates (alloc : option Alloc) (A B : t) :
  wf p A -> holds p A -> wrapped p A = false ->
  length p B <= Z.of_nat (Datatypes.length (data p B)) ->
  length p A + length p B + 1 < 2 ^ (wordBits p - 2) ->
  exists r, append p alloc B A = Some r /\ wf p r /\
    if (length p B =? 0) || (length p A + length p B <=? capacity p A)
       || bool_decide (is_Some alloc)
    then length p r = length p A + length p B /\
         chars p r = chars p A ++ chars p B /\
         operator_bool p r = operator_bool p A && operator_bool p B
    else length p r = length p A /\ chars p r = chars p A /\
         operator_bool p r = false.
Proof.
  intros Hwf HA Hnw HB Hq.
  pose proof (LongBit_pos p) as (H1 & H2 & H3 & H4 & H5).
  pose proof (ShortCapacity_small p) as (S1 & S2 & S3 & S4).
  pose proof (length_range p A) as Hn. pose proof (length_range p B) as Hm.
  pose proof (wordBits_ge32 p) as Hw.
  pose proof (MathFacts.pow2_split (wordBits p) ltac:(lia)) as (_ & E2 & _).
  fold (LongBit p) in E2.
  destruct HA as (HA1 & HA2 & HA3). specialize (HA3 Hnw).
  destruct (no_overflow p _ _ (proj1 Hm) (proj1 Hn) ltac:(lia)) as (Hov & _ & _ & _).
  unfold append, internalAppend. rewrite Hov. cbn [negb].
  assert (forall s : t, wf p s ->
            let r := if negb true || negb (operator_bool p B) then pollute p s else s in
            wf p r /\ length p r = length p s /\ chars p r = chars p s /\
            operator_bool p r = operator_bool p s && operator_bool p B) as Hfin.
  { intros s Hs. cbn zeta. cbn [negb orb].
    destruct (operator_bool p B); cbn [negb].
    - rewrite andb_true_r. auto.
    - destruct (pollute_spec p s Hs) as (P1 & P2 & P3 & _).
      rewrite andb_false_r. split; [exact P1|]. split; [exact P3|].
      split; [apply pollute_chars, Hs|exact P2]. }
  destruct (Z.eqb_spec (length p B) 0) as [Em|Nm]; cbn [negb orb].
  - cbn [mbind option_bind]. eexists. split; [reflexivity|].
    destruct (Hfin A Hwf) as (F1 & F2 & F3 & F4).
    split; [exact F1|]. split; [lia|]. split; [|exact F4].
    rewrite F3. unfold chars at 3. rewrite Em. cbn. rewrite app_nil_r. reflexivity.
  - set (dest := length p A + length p B) in *.
    destruct (internalCapacity_returns p alloc dest A ltac:(lia) ltac:(lia))
      as [[ok s1] Hic].
    rewrite Hic. cbn [mbind option_bind].
    destruct (internalCapacity_keeps p alloc dest A s1 ok Hwf
                ltac:(lia) ltac:(rewrite Hnw; discriminate) Hic)
      as (K1 & K2 & K3 & K4 & K5 & K6).
    destruct ok.
    + specialize (K4 eq_refl).
      assert (chars p s1 = chars p A /\
              (longBit p s1 = true ->
               capacity p s1 + NullLength <= Z.of_nat (Datatypes.length (heap s1))))
        as [Ech Eroom].
      { destruct (Z_lt_le_dec (capacity p A) dest) as [Hlt|Hge].
        - destruct (K6 eq_refl Hlt ltac:(lia) HA1) as (c & Hc1 & Hc2 & Hc3).
          split; [exact Hc2|]. intros Hb.
          destruct (Hc3 Hb) as (-> & -> & _). unfold NullLength. lia.
        - unfold internalCapacity in Hic.
          destruct (Z.ltb_spec (capacity p A) dest); [lia|].
          injection Hic as <-. split; [reflexivity|exact HA2]. }
      set (src := take (Z.to_nat (length p B)) (data p B)).
      destruct (write_chars s1 src (length p A) dest K1 K3) as
        (W1 & W2 & W3 & W4 & W5 & W6 & W7); try assumption; try lia.
      { unfold src. rewrite length_take. unfold dest. lia. }
      eexists. split; [reflexivity|].
      destruct (Hfin _ W1) as (F1 & F2 & F3 & F4).
      split; [exact F1|].
      assert ((dest <=? capacity p A) || bool_decide (is_Some alloc) = true) as ->.
      { destruct (Z.leb_spec dest (capacity p A)) as [|Hlt]; [reflexivity|].
        cbn [orb]. destruct alloc as [a|]; [reflexivity|]. exfalso.
        unfold internalCapacity in Hic.
        destruct (Z.ltb_spec (capacity p A) dest); [|lia].
        destruct (Math.computeNextCapacity _ _ _ _);
          cbn [mbind option_bind] in Hic; [|discriminate].
        unfold reallocate in Hic. unfold wrapped in Hnw.
        destruct (longBit p A); cbn [andb] in Hnw;
          [rewrite Hnw in Hic; cbn [negb] in Hic|]; discriminate. }
      split; [lia|]. split.
      * rewrite F3, W6. f_equal. rewrite <- Ech. unfold chars. rewrite K3. reflexivity.
      * rewrite F4, W3, K2. reflexivity.
    + destruct (K5 eq_refl) as (-> & -> & Hlt).
      eexists. split; [reflexivity|]. cbn [negb orb].
      destruct (pollute_spec p A Hwf) as (P1 & P2 & P3 & _).
      split; [exact P1|].
      destruct (Z.leb_spec dest (capacity p A)) as [|_]; [lia|].
      cbn [orb bool_decide]. split; [exact P3|].
      split; [apply pollute_chars, Hwf|exact P2].
Qed.

(** Writing the characters and the terminator from the start of a string
    whose length is already set. *)
Lemma write_from_start (s2 : t) (cs : list Z) :
  wf p s2 -> length p s2 = Z.of_nat (Datatypes.length cs) ->
  (longBit p s2 = false ->
   Z.of_nat (Datatypes.length cs) <= ShortCapacity p - NullLength) ->
  let r := writeData p 0 (cs ++ [0]) s2 in
  wf p r /\ length p r = length p s2 /\ operator_bool p r = operator_bool p s2 /\
  chars p r = cs /\ c_str p r = cs ++ [0].
Proof.
  intros Hwf Hlen Hshort. cbn zeta.
  pose proof (ShortCapacity_small p) as (S1 & S2 & S3 & S4).
  unfold NullLength in *.
  destruct (writeData_keeps p 0 (cs ++ [0]) s2 Hwf ltac:(lia))
    as (D1 & D2 & D3 & D4 & _).
  { intros Hb. specialize (Hshort Hb). rewrite length_app. simpl. lia. }
  split; [exact D1|]. split; [exact D3|]. split; [exact D4|].
  assert (data p (writeData p 0 (cs ++ [0]) s2)
          = blit (data p s2) 0 (cs ++ [0])) as Ed.
  { unfold data. rewrite D2. unfold writeData.
    destruct (longBit p s2); reflexivity. }
  unfold chars, c_str. rewrite Ed, D3, Hlen. unfold NullLength. split.
  - rewrite blit_take0 by (rewrite length_app, Nat2Z.id; lia).
    rewrite Nat2Z.id. apply take_app_length.
  - rewrite blit_take0 by (rewrite length_app; simpl; lia).
    apply take_ge. rewrite length_app. simpl. lia.
Qed.

(** The text of the C string that starts with the bytes [cs]: the bytes in
    front of the first zero. *)
Fixpoint textOf (cs : list Z) : list Z :=
  match cs with
  | [] => []
  | c :: cs' => if c =? 0 then [] else c :: textOf cs'
  end.

Lemma calculateLengthLoop_text (cs : list Z) :
  forall count limit : Z,
    0 <= count -> count + Z.of_nat (Datatypes.length (textOf cs)) <= limit ->
    limit <= MaxLength p ->
    calculateLengthLoop p cs count limit
    = count + Z.of_nat (Datatypes.length (textOf cs)).
Proof.
  pose proof (LongBit_pos p) as (H1 & H2 & H3 & H4 & H5).
  induction cs as [|c cs IH]; intros count limit Hc Hl Hm;
    cbn [calculateLengthLoop textOf] in *.
  - simpl. lia.
  - destruct (Z.eqb_spec c 0) as [E|N]; cbn [negb andb]; [simpl; lia|].
    cbn [Datatypes.length] in Hl.
    destruct (Z.ltb_spec count limit) as [_|]; [|lia].
    rewrite wrap_inRange by (unfold LengthT, inRange; fold (LongBit p); lia).
    rewrite IH by lia. cbn [Datatypes.length]. lia.
Qed.

Lemma take_text (cs : list Z) :
  take (S (Datatypes.length (textOf cs))) (cs ++ [0]) = textOf cs ++ [0].
Proof.
  induction cs as [|c cs IH]; [reflexivity|]. cbn [textOf app].
  destruct (Z.eqb_spec c 0) as [->|N]; [reflexivity|].
  cbn [Datatypes.length]. rewrite firstn_cons, IH. reflexivity.
Qed.

(** The constructor sees of [cs] its text only. *)
Lemma fromCString_text (alloc : option Alloc) (cs : list Z) :
  Z.of_nat (Datatypes.length (textOf cs)) + 1 < 2 ^ (wordBits p - 2) ->
  fromCString p alloc cs =
  '(ok, s) ← length1 p alloc (Z.of_nat (Datatypes.length (textOf cs))) (empty p);
  Some (if ok : bool then writeData p 0 (textOf cs ++ [0]) s else pollute p s).
Proof.
  intros Hq.
  pose proof (LongBit_pos p) as (H1 & H2 & H3 & H4 & H5).
  pose proof (wordBits_ge32 p) as Hw.
  pose proof (MathFacts.pow2_split (wordBits p) ltac:(lia)) as (_ & E2 & _).
  fold (LongBit p) in E2.
  set (n := Z.of_nat (Datatypes.length (textOf cs))) in *.
  unfold fromCString, calculateLength. cbn [Z.leb Z.compare].
  rewrite calculateLengthLoop_text by (fold n; lia).
  rewrite Z.add_0_l. fold n.
  rewrite (wrap_Size_small p n) by lia.
  rewrite (wrap_Size_small p (MaxLength p)) by lia.
  rewrite wrap_inRange by (unfold LengthT, inRange; fold (LongBit p); lia).
  destruct (Z.leb_spec n (MaxLength p)) as [_|]; [|lia].
  unfold NullLength.
  replace (Z.to_nat (n + 1)) with (S (Datatypes.length (textOf cs))) by lia.
  rewrite take_text. reflexivity.
Qed.

(** X28: the constructor [String(char const* string)], for a text shorter
    than a quarter of the span of [Length], builds a string that is not
    polluted, holds exactly the characters in front of the first zero byte,
    and whose [c_str()] is that text with its terminator, provided that the
    text fits in the inline storage or the allocation succeeds; otherwise the
    result is the empty string, polluted. *)
Theorem fromCString_round_trip (alloc : option Alloc) (cs : list Z) :
  Z.of_nat (Datatypes.length (textOf cs)) + 1 < 2 ^ (wordBits p - 2) ->
  exists s, fromCString p alloc cs = Some s /\ wf p s /\
    if (Z.of_nat (Datatypes.length (textOf cs)) <=? ShortCapacity p - NullLength)
       || bool_decide (is_Some alloc)
    then operator_bool p s = true /\
         length p s = Z.of_nat (Datatypes.length (textOf cs)) /\
         chars p s = textOf cs /\ c_str p s = textOf cs ++ [0]
    else operator_bool p s = false /\ length p s = 0.
Proof.
  intros Hq. rewrite (fromCString_text alloc cs Hq).
  generalize dependent (textOf cs). clear cs. intros cs Hq.
  pose proof (LongBit_pos p) as (H1 & H2 & H3 & H4 & H5).
  pose proof (ShortCapacity_small p) as (S1 & S2 & S3 & S4).
  pose proof (wordBits_ge32 p) as Hw.
  pose proof (MathFacts.pow2_split (wordBits p) ltac:(lia)) as (_ & E2 & _).
  fold (LongBit p) in E2.
  destruct (empty_ok p) as (He & Heb & Hew & Hel).
  assert (wf p (empty p)) as Hwe by (left; exact He).
  destruct (short_fields p _ He) as (_ & _ & Hec & _).
  set (n := Z.of_nat (Datatypes.length cs)) in *.
  unfold length1.
  destruct (Z.leb_spec 0 n) as [_|]; [|lia].
  destruct (Z.leb_spec n (MaxLength p)) as [_|]; [|lia]. cbn [andb].
  rewrite Hel.
  destruct (Z.eqb_spec 0 n) as [E0|N0]; cbn [negb mbind option_bind].
  - eexists. split; [reflexivity|].
    destruct (write_from_start (empty p) cs Hwe) as (R1 & R2 & R3 & R4 & R5).
    { rewrite Hel. exact E0. }
    { intros _. fold n. unfold NullLength. lia. }
    split; [exact R1|].
    destruct (Z.leb_spec n (ShortCapacity p - NullLength)) as [_|Hc];
      [|unfold NullLength in Hc; lia].
    cbn [orb]. split; [congruence|]. split; [fold n; lia|]. split; assumption.
  - destruct (internalCapacity_returns p alloc n (empty p) ltac:(lia) ltac:(lia))
      as [[ok s1] Hic].
    rewrite Hic. cbn [mbind option_bind].
    destruct (internalCapacity_keeps p alloc n (empty p) s1 ok Hwe
                ltac:(lia) ltac:(rewrite Hew; discriminate) Hic)
      as (K1 & K2 & K3 & K4 & K5 & _).
    destruct ok; cbn [mbind option_bind].
    + specialize (K4 eq_refl).
      destruct (writeLength_spec p n s1 K1 ltac:(lia)) as (L1 & L2 & L3 & L4 & L5).
      { intros Hb. apply (fits_short p n s1 K4 Hb). }
      cbn zeta in L1, L2, L3, L4, L5.
      destruct (write_from_start (writeLength p n s1) cs L1 L3)
        as (R1 & R2 & R3 & R4 & R5).
      { intros Hb. rewrite L2 in Hb. apply (fits_short p n s1 K4 Hb). }
      eexists. split; [reflexivity|]. split; [exact R1|].
      assert ((n <=? ShortCapacity p - NullLength) || bool_decide (is_Some alloc) = true)
        as ->.
      { destruct (Z.leb_spec n (ShortCapacity p - NullLength)) as [|Hlt]; [reflexivity|].
        cbn [orb]. destruct alloc as [a|]; [reflexivity|]. exfalso.
        unfold internalCapacity in Hic. rewrite Hec in Hic.
        destruct (Z.ltb_spec (ShortCapacity p - NullLength) n); [|lia].
        destruct (Math.computeNextCapacity _ _ _ _);
          cbn [mbind option_bind] in Hic; [|discriminate].
        unfold reallocate in Hic. rewrite (short_longBit p _ He) in Hic.
        discriminate. }
      split; [congruence|]. split; [congruence|]. split; assumption.
    + destruct (K5 eq_refl) as (-> & -> & Hlt).
      eexists. split; [reflexivity|].
      destruct (pollute_spec p _ Hwe) as (P1 & P2 & P3 & _).
      split; [exact P1|]. rewrite Hec in Hlt.
      destruct (Z.leb_spec n (ShortCapacity p - NullLength)) as [|_]; [lia|].
      cbn [orb bool_decide]. split; [exact P2|]. congruence.
Qed.

End Content.


(** The strings ["hello"] and ["LL"] on the 64-bit target. *)
Definition hello : t :=
  Eval vm_compute in
    default (empty X64) (fromCString X64 None [104; 101; 108; 108; 111]).

Definition upperLL : t :=
  Eval vm_compute in default (empty X64) (fromCString X64 None [76; 76]).

Definition lowerLo : t :=
  Eval vm_compute in default (empty X64) (fromCString X64 None [108; 111]).

Lemma hello_fits : fits X64 hello.
Proof. unfold fits. vm_compute. discriminate. Qed.

Lemma upperLL_fits : fits X64 upperLL.
Proof. unfold fits. vm_compute. discriminate. Qed.

Lemma lowerLo_fits : fits X64 lowerLo.
Proof. unfold fits. vm_compute. discriminate. Qed.

Lemma zero_inRange : inRange (LengthT X64) 0.
Proof. vm_compute. split; [discriminate|reflexivity]. Qed.

Lemma hello_window :
  0 <= 0 + (if 0 =? 0 then length X64 hello else 0) <= LongLengthMask X64.
Proof. vm_compute. split; discriminate. Qed.

Lemma hello_wf : wf X64 hello.
Proof.
  left. unfold shortOk, tagOk. vm_compute.
  repeat split; try discriminate; reflexivity.
Qed.

Lemma hello_holds : holds X64 hello.
Proof.
  unfold holds. vm_compute. repeat split; intros; discriminate.
Qed.

Lemma compareStr_orders_witness :
  fits X64 hello /\ fits X64 lowerLo /\
  (operator_eq X64 hello lowerLo = true <-> chars X64 hello = chars X64 lowerLo).
Proof.
  split; [exact hello_fits|]. split; [exact lowerLo_fits|].
  exact (proj2 (proj2 (compareStr_orders X64)) hello lowerLo hello_fits lowerLo_fits).
Defined.

Lemma findStr_first_occurrence_witness :
  fits X64 hello /\ fits X64 lowerLo /\ inRange (LengthT X64) 0 /\
  0 <= 0 + (if 0 =? 0 then length X64 hello else 0) <= LongLengthMask X64 /\
  let '(lo, len) := clipWindow X64 (length X64 hello) 0 0 in
  let r := findStr X64 hello lowerLo 0 0 in
  0 <= lo /\ lo + len <= length X64 hello /\
  (0 = 0 -> 0 = 0 -> lo = 0 /\ len = length X64 hello) /\
  (r = NotFound \/
   (lo <= r /\ r + length X64 lowerLo <= lo + len /\ 0 < length X64 lowerLo /\
    sub X64 hello r (length X64 lowerLo) = chars X64 lowerLo)) /\
  (forall j, lo <= j -> j + length X64 lowerLo <= lo + len -> 0 < length X64 lowerLo ->
     sub X64 hello j (length X64 lowerLo) = chars X64 lowerLo -> r <> NotFound /\ r <= j).
Proof.
  split; [exact hello_fits|]. split; [exact lowerLo_fits|].
  split; [exact zero_inRange|]. split; [exact hello_window|].
  exact (findStr_first_occurrence X64 hello lowerLo 0 0 hello_fits lowerLo_fits
           zero_inRange hello_window).
Defined.

Lemma findChar_first_last_witness :
  fits X64 hello /\ inRange (LengthT X64) 0 /\
  0 <= 0 + (if 0 =? 0 then length X64 hello else 0) <= LongLengthMask X64 /\
  let '(lo, len) := clipWindow X64 (length X64 hello) 0 0 in
  let first := findChar X64 hello 108 0 0 in
  let last := findCharLast X64 hello 108 0 0 in
  (first = NotFound <-> last = NotFound) /\
  (first <> NotFound ->
     lo <= first <= last /\ last < lo + len /\
     chars X64 hello !! Z.to_nat first = Some 108 /\
     chars X64 hello !! Z.to_nat last = Some 108) /\
  (forall j, lo <= j < lo + len -> chars X64 hello !! Z.to_nat j = Some 108 ->
     first <> NotFound /\ first <= j <= last).
Proof.
  split; [exact hello_fits|]. split; [exact zero_inRange|]. split; [exact hello_window|].
  exact (findChar_first_last X64 hello 108 0 0 hello_fits zero_inRange hello_window).
Defined.

Lemma startsWith_endsWith_witness :
  fits X64 hello /\ fits X64 lowerLo /\ inRange (LengthT X64) 0 /\
  (startsWith X64 hello lowerLo 0 = true <->
     0 < length X64 lowerLo /\ Z.max 0 0 + length X64 lowerLo <= length X64 hello /\
     sub X64 hello (Z.max 0 0) (length X64 lowerLo) = chars X64 lowerLo) /\
  (endsWith X64 hello lowerLo = true <->
     0 < length X64 lowerLo /\
     exists front, chars X64 hello = front ++ chars X64 lowerLo).
Proof.
  split; [exact hello_fits|]. split; [exact lowerLo_fits|]. split; [exact zero_inRange|].
  exact (startsWith_endsWith X64 hello lowerLo 0 hello_fits lowerLo_fits zero_inRange).
Defined.

Lemma startsWithText_ignores_position_witness :
  fits X64 hello /\ fits X64 upperLL /\ inRange (LengthT X64) 0 /\
  (startsWithText X64 hello upperLL 0 = true <->
     0 < length X64 upperLL /\ Z.max 0 0 + length X64 upperLL <= length X64 hello /\
     Forall2 (fun x y => upperCase x = upperCase y)
       (take (Z.to_nat (length X64 upperLL)) (chars X64 hello)) (chars X64 upperLL)).
Proof.
  split; [exact hello_fits|]. split; [exact upperLL_fits|]. split; [exact zero_inRange|].
  exact (startsWithText_ignores_position X64 hello upperLL 0
           hello_fits upperLL_fits zero_inRange).
Defined.

Lemma append_concatenates_witness :
  wf X64 hello /\ holds X64 hello /\ wrapped X64 hello = false /\
  length X64 lowerLo <= Z.of_nat (Datatypes.length (data X64 lowerLo)) /\
  length X64 hello + length X64 lowerLo + 1 < 2 ^ (wordBits X64 - 2) /\
  exists r, append X64 None lowerLo hello = Some r /\ wf X64 r /\
    if (length X64 lowerLo =? 0)
       || (length X64 hello + length X64 lowerLo <=? capacity X64 hello)
       || bool_decide (is_Some (@None Alloc))
    then length X64 r = length X64 hello + length X64 lowerLo /\
         chars X64 r = chars X64 hello ++ chars X64 lowerLo /\
         operator_bool X64 r = operator_bool X64 hello && operator_bool X64 lowerLo
    else length X64 r = length X64 hello /\ chars X64 r = chars X64 hello /\
         operator_bool X64 r = false.
Proof.
  assert (length X64 hello + length X64 lowerLo + 1 < 2 ^ (wordBits X64 - 2)) as H
    by (vm_compute; reflexivity).
  split; [exact hello_wf|]. split; [exact hello_holds|]. split; [reflexivity|].
  split; [exact lowerLo_fits|]. split; [exact H|].
  exact (append_concatenates X64 None hello lowerLo hello_wf hello_holds eq_refl
           lowerLo_fits H).
Defined.

Lemma fromCString_round_trip_witness :
  textOf [104; 105; 0; 33] = [104; 105] /\
  Z.of_nat (Datatypes.length (textOf [104; 105; 0; 33])) + 1 < 2 ^ (wordBits X64 - 2) /\
  exists s, fromCString X64 None [104; 105; 0; 33] = Some s /\ wf X64 s /\
    operator_bool X64 s = true /\ length X64 s = 2 /\
    chars X64 s = [104; 105] /\ c_str X64 s = [104; 105; 0].
Proof.
  assert (Z.of_nat (Datatypes.length (textOf [104; 105; 0; 33])) + 1
          < 2 ^ (wordBits X64 - 2)) as H by (vm_compute; reflexivity).
  split; [reflexivity|]. split; [exact H|].
  destruct (fromCString_round_trip X64 None [104; 105; 0; 33] H)
    as (s & Hs & Hwf & Hpost).
  exists s. split; [exact Hs|]. split; [exact Hwf|]. exact Hpost.
Defined.

End StrMore.

(** ** MemoryStream: writing, seeking and reading back *)

Module MemoryStreamFacts.
Import Stream MemoryStream.

Section Facts.
Context (p : Platform).

(** The block is as big as [_capacity] says, the size is within it, and
    the capacity is below half the span of [size_t]. *)
Definition consistent (s : t) : Prop :=
  Z.of_nat (length (_buffer s)) = _capacity s /\
  0 <= _size s <= _capacity s /\ 0 <= _position s /\
  _capacity s < 2 ^ (wordBits p - 1).

Lemma width_SizeT : 6 <= MathMore.width (SizeT p).
Proof. simpl. pose proof (ContainersFacts.wordBits_ge p). lia. Qed.

Lemma wrap_Size (x : Z) : 0 <= x < 2 ^ (wordBits p - 1) -> wrap (SizeT p) x = x.
Proof.
  intros H. apply wrap_inRange. unfold SizeT, inRange.
  pose proof (ContainersFacts.wordBits_ge p) as Hw.
  pose proof (MathFacts.pow2_split (wordBits p) ltac:(lia)) as (E1 & E2 & E3 & Hp).
  lia.
Qed.

Lemma wrap_StreamSize (x : Z) :
  0 <= x < 2 ^ (wordBits p - 1) -> wrap (StreamSizeT p) x = x.
Proof. intros H. apply wrap_inRange. unfold StreamSizeT, inRange. lia. Qed.

Lemma wrap_Offset (x : Z) : 0 <= x < 2 ^ (wordBits p - 1) -> wrap OffsetT x = x.
Proof.
  intros H. apply wrap_inRange. unfold OffsetT, inRange.
  assert (2 ^ (wordBits p - 1) <= 2 ^ (64 - 1))
    by (apply Z.pow_le_mono_r; destruct p; simpl; lia).
  lia.
Qed.

(** X29: [MemoryStream::write] of a non-empty buffer, when the block has room
    or [realloc] succeeds, writes all the bytes, advances the position by
    their number, raises the size to the new position if it was smaller, and
    keeps the bytes of the block outside the written range; seeking back and
    reading the same number of bytes then returns the bytes written and
    leaves the stream in the state after the write.  Otherwise the result is
    [Failure] and the stream is as it was. *)
Theorem write_read_round_trip (realloc : option Z) (src : list Z) (s : t) :
  consistent s -> src <> [] ->
  _position s + Z.of_nat (length src) < 2 ^ (wordBits p - 2) ->
  let pos := _position s in
  let n := Z.of_nat (length src) in
  exists w s1,
    write p realloc src n s = Some (w, s1) /\
    if (pos + n <=? _capacity s) || bool_decide (is_Some realloc) then
      w = n /\ consistent s1 /\
      _position s1 = pos + n /\ _size s1 = Z.max (_size s) (pos + n) /\
      (forall i : nat, Z.of_nat i < _capacity s ->
         ~ (pos <= Z.of_nat i < pos + n) -> _buffer s1 !! i = _buffer s !! i) /\
      read p n (snd (seek p pos Beginning s1)) = (n, src, s1)
    else w = Failure /\ s1 = s.
Proof.
  intros (Hb & Hs & Hp & Hc) Hne Hq. cbn zeta.
  pose proof (ContainersFacts.wordBits_ge p) as Hw.
  pose proof (MathFacts.pow2_split (wordBits p) ltac:(lia)) as (E1 & E2 & E3 & Hpw).
  set (pos := _position s) in *. set (n := Z.of_nat (length src)) in *.
  assert (0 < n) as Hn by (unfold n; destruct src; [contradiction|simpl; lia]).
  unfold write. fold pos.
  destruct (Z.leb_spec 0 n) as [_|]; [|lia].
  rewrite (wrap_Size n) by lia.
  assert (wrap (SizeT p) (SizeMax p - pos) = SizeMax p - pos) as ->
    by (apply wrap_inRange; unfold SizeT, inRange, SizeMax; lia).
  assert (Math.min n (SizeMax p - pos) = n) as ->
    by (unfold Math.min, SizeMax; destruct (Z.leb_spec n (2 ^ wordBits p - 1 - pos)); lia).
  rewrite (wrap_StreamSize n) by lia.
  destruct (Z.eqb_spec n 0) as [|_]; [lia|]. cbn [negb].
  rewrite (wrap_Size n), (wrap_Size (pos + n)) by lia.
  assert (take (Z.to_nat n) src = src) as Etake
    by (apply take_ge; unfold n; lia).
  (* what happens once the block is big enough *)
  assert (forall s0 : t,
            _position s0 = pos -> _size s0 = _size s ->
            Z.of_nat (length (_buffer s0)) = _capacity s0 ->
            pos + n <= _capacity s0 < 2 ^ (wordBits p - 1) ->
            _capacity s <= _capacity s0 ->
            (forall i : nat, Z.of_nat i < _capacity s ->
               _buffer s0 !! i = _buffer s !! i) ->
            let s1 := mk (blit (_buffer s0) (_position s0) (take (Z.to_nat n) src))
                         (_capacity s0) (pos + n)
                         (Math.max (_size s0) (pos + n)) (_status s0) in
            consistent s1 /\ _position s1 = pos + n /\
            _size s1 = Z.max (_size s) (pos + n) /\
            (forall i : nat, Z.of_nat i < _capacity s ->
               ~ (pos <= Z.of_nat i < pos + n) -> _buffer s1 !! i = _buffer s !! i) /\
            read p n (snd (seek p pos Beginning s1)) = (n, src, s1)) as Hdone.
  { intros s0 Ep Es Eb Ec Ecc Esame. cbn zeta. rewrite Ep, Es, Etake.
    assert (Math.max (_size s) (pos + n) = Z.max (_size s) (pos + n)) as ->
      by (unfold Math.max; destruct (Z.ltb_spec (_size s) (pos + n)); lia).
    assert (length (blit (_buffer s0) pos src) = length (_buffer s0)) as Ebl
      by (apply blit_length; unfold n in *; lia).
    split; [|split; [reflexivity|split; [reflexivity|split]]].
    - unfold consistent. cbn [_buffer _capacity _position _size].
      rewrite Ebl. repeat split; lia.
    - cbn [_buffer]. intros i Hi Hout. rewrite <- (Esame i Hi).
      destruct (Z_lt_le_dec (Z.of_nat i) pos).
      + apply blit_lookup_before; unfold n in *; lia.
      + apply blit_lookup_after; unfold n in *; lia.
    - unfold seek, read. cbn [snd _buffer _capacity _position _size _status].
      destruct (Z.leb_spec 0 pos) as [_|]; [|lia].
      rewrite (wrap_Size pos) by lia.
      destruct (Z.leb_spec 0 n) as [_|]; [|lia].
      destruct (Z.eqb_spec n 0) as [|_]; [lia|]. cbn [negb].
      destruct (Z.leb_spec pos (Z.max (_size s) (pos + n))) as [_|]; [|lia].
      rewrite (wrap_Size (Z.max (_size s) (pos + n) - pos)) by lia.
      rewrite (wrap_StreamSize (Z.max (_size s) (pos + n) - pos)) by lia.
      assert (Math.min n (Z.max (_size s) (pos + n) - pos) = n) as ->
        by (unfold Math.min;
            destruct (Z.leb_spec n (Z.max (_size s) (pos + n) - pos)); lia).
      destruct (Z.eqb_spec n 0) as [|_]; [lia|]. cbn [negb].
      rewrite (wrap_Size n), (wrap_Size (pos + n)) by lia.
      f_equal. f_equal. unfold n. rewrite Nat2Z.id.
      apply blit_written. unfold n in *. lia. }
  destruct (Z.leb_spec (pos + n) (_capacity s)) as [Hfit|Hgrow].
  - cbn [mbind option_bind orb]. fold pos.
    rewrite (wrap_Size (pos + n)) by lia.
    eexists _, _. split; [reflexivity|]. split; [reflexivity|].
    apply (Hdone s); try reflexivity; try lia; exact Hb.
  - destruct (MathMore.computeNextCapacity_bounds (SizeT p) width_SizeT
                (pos + n) (_capacity s) 0 ltac:(lia) ltac:(simpl; lia))
      as (c & Hcc & Hc1 & Hc2).
    rewrite Hcc. cbn [mbind option_bind orb].
    destruct realloc as [fill|]; cbn [reallocate bool_decide].
    + cbn [_position]. fold pos. rewrite (wrap_Size (pos + n)) by lia.
      eexists _, _. split; [reflexivity|]. split; [reflexivity|].
      set (s0 := mk (take (Z.to_nat c) (_buffer s)
                       ++ replicate (Z.to_nat c - length (_buffer s)) fill)
                    c (_position s) (_size s) (_status s)).
      apply (Hdone s0); try reflexivity.
      * unfold s0. cbn [_buffer _capacity].
        rewrite length_app, length_take, length_replicate. lia.
      * unfold s0. cbn [_capacity]. lia.
      * unfold s0. cbn [_capacity]. lia.
      * intros i Hi. unfold s0. cbn [_buffer].
        rewrite take_ge by lia. apply lookup_app_l. lia.
    + destruct (Z.eqb_spec c 0) as [|_]; [lia|].
      eexists _, _. split; [reflexivity|]. split; reflexivity.
Qed.

(** The position that an offset is relative to. *)
Definition base (origin : SeekOrigin) (s : t) : Z :=
  match origin with
  | Beginning => 0
  | Current => _position s
  | End' => _size s
  end.

(** X30: [seek] moves the position to the origin (start, position or size)
    plus the offset, clamped at zero but not at the size, returns it, and
    leaves contents and size alone.  A [read] from there returns [Failure]
    for a negative count and otherwise the smaller of the count and the
    number of bytes between the position and the size (none when the position
    is behind the size); it delivers exactly those bytes and advances the
    position by their number. *)
Theorem seek_clamps_read_bounds (offset : Z) (origin : SeekOrigin) (n : Z) (s : t) :
  consistent s ->
  _position s < 2 ^ (wordBits p - 2) -> _capacity s < 2 ^ (wordBits p - 2) ->
  - 2 ^ (wordBits p - 2) < offset < 2 ^ (wordBits p - 2) ->
  inRange (StreamSizeT p) n ->
  let s1 := snd (seek p offset origin s) in
  fst (seek p offset origin s) = Z.max 0 (base origin s + offset) /\
  _position s1 = Z.max 0 (base origin s + offset) /\
  _buffer s1 = _buffer s /\ _size s1 = _size s /\
  let '(k, bytes, s2) := read p n s1 in
  k = (if n <? 0 then Failure else Z.min n (Z.max 0 (_size s - _position s1))) /\
  bytes = take (Z.to_nat k)
            (drop (Z.to_nat (_position s1)) (take (Z.to_nat (_size s)) (_buffer s))) /\
  _position s2 = _position s1 + Z.max 0 k /\
  _buffer s2 = _buffer s /\ _size s2 = _size s.
Proof.
  intros (Hb & Hs & Hp & Hc) Hpq Hcq Ho Hn. cbn zeta.
  pose proof (ContainersFacts.wordBits_ge p) as Hw.
  pose proof (MathFacts.pow2_split (wordBits p) ltac:(lia)) as (E1 & E2 & E3 & Hpw).
  set (r := Z.max 0 (base origin s + offset)).
  assert (0 <= r < 2 ^ (wordBits p - 1)) as Hr
    by (unfold r, base; destruct origin; lia).
  assert (seek p offset origin s
          = (r, mk (_buffer s) (_capacity s) r (_size s) (_status s))) as ->.
  { unfold seek.
    assert ((match origin with
             | Beginning => if 0 <=? offset then wrap (SizeT p) offset else 0
             | Current =>
                 if 0 <=? offset
                 then wrap (SizeT p) (_position s + wrap (SizeT p) offset)
                 else
                   if _position s <? wrap (SizeT p) (wrap OffsetT (- offset)) then 0
                   else wrap (SizeT p)
                          (_position s - wrap (SizeT p) (wrap OffsetT (- offset)))
             | End' =>
                 if 0 <=? offset
                 then wrap (SizeT p) (_size s + wrap (SizeT p) offset)
                 else
                   if _size s <? wrap (SizeT p) (wrap OffsetT (- offset)) then 0
                   else wrap (SizeT p)
                          (_size s - wrap (SizeT p) (wrap OffsetT (- offset)))
             end) = r) as ->.
    { unfold r, base. destruct origin.
      - destruct (Z.leb_spec 0 offset); [rewrite wrap_Size by lia|]; lia.
      - destruct (Z.leb_spec 0 offset).
        + rewrite (wrap_Size offset), wrap_Size by lia. lia.
        + rewrite (wrap_Offset (- offset)), (wrap_Size (- offset)) by lia.
          destruct (Z.ltb_spec (_position s) (- offset)); [lia|].
          rewrite wrap_Size by lia. lia.
      - destruct (Z.leb_spec 0 offset).
        + rewrite (wrap_Size offset), wrap_Size by lia. lia.
        + rewrite (wrap_Offset (- offset)), (wrap_Size (- offset)) by lia.
          destruct (Z.ltb_spec (_size s) (- offset)); [lia|].
          rewrite wrap_Size by lia. lia. }
    rewrite (wrap_Offset r) by lia. reflexivity. }
  cbn [fst snd _position _buffer _size].
  split; [reflexivity|]. split; [reflexivity|]. split; [reflexivity|].
  split; [reflexivity|].
  unfold read. cbn [_position _buffer _size _capacity _status].
  destruct (Z.leb_spec 0 n) as [Hn0|Hneg].
  2:{ destruct (Z.ltb_spec n 0); [|lia]. unfold Failure. cbn [_position _buffer _size].
      repeat split. lia. }
  destruct (Z.ltb_spec n 0); [lia|].
  destruct (Z.eqb_spec n 0) as [->|Nn]; cbn [negb].
  { cbn [_position _buffer _size].
    replace (Z.min 0 (Z.max 0 (_size s - r))) with 0 by lia.
    repeat split. lia. }
  set (remaining := Z.max 0 (_size s - r)).
  assert ((if r <=? _size s then wrap (SizeT p) (_size s - r) else 0) = remaining) as ->.
  { unfold remaining. destruct (Z.leb_spec r (_size s)); [|lia].
    rewrite wrap_Size by lia. lia. }
  rewrite (wrap_StreamSize remaining) by (unfold remaining; lia).
  assert (Math.min n remaining = Z.min n remaining) as ->
    by (unfold Math.min; destruct (Z.leb_spec n remaining); lia).
  set (k := Z.min n remaining).
  destruct (Z.eqb_spec k 0) as [E0|N0]; cbn [negb _position _buffer _size].
  { rewrite E0. repeat split. lia. }
  assert (0 < k /\ r + k <= _size s) as [Hk Hrk] by (unfold k, remaining in *; lia).
  rewrite (wrap_Size k), wrap_Size by lia.
  split; [reflexivity|]. split; [|repeat split; lia].
  rewrite <- (take_drop (Z.to_nat (_size s)) (_buffer s)) at 1.
  rewrite drop_app_le by (rewrite length_take; lia).
  rewrite take_app_le by (rewrite length_drop, length_take; lia).
  reflexivity.
Qed.

End Facts.

(** A stream of six bytes in a block of eight, positioned at two. *)
Definition six : t := mk [1; 2; 3; 4; 5; 6; 0; 0] 8 2 6 0.

Lemma six_consistent : consistent X64 six.
Proof. unfold consistent, six. simpl. repeat split; try lia. Qed.

Lemma write_read_round_trip_witness :
  consistent X64 six /\ [7; 8; 9; 10; 11; 12; 13] <> [] /\
  _position six + Z.of_nat (length [7; 8; 9; 10; 11; 12; 13]) < 2 ^ (wordBits X64 - 2) /\
  let pos := _position six in
  let n := Z.of_nat (length [7; 8; 9; 10; 11; 12; 13]) in
  exists w s1,
    write X64 (Some 170) [7; 8; 9; 10; 11; 12; 13] n six = Some (w, s1) /\
    if (pos + n <=? _capacity six) || bool_decide (is_Some (Some 170)) then
      w = n /\ consistent X64 s1 /\
      _position s1 = pos + n /\ _size s1 = Z.max (_size six) (pos + n) /\
      (forall i : nat, Z.of_nat i < _capacity six ->
         ~ (pos <= Z.of_nat i < pos + n) -> _buffer s1 !! i = _buffer six !! i) /\
      read X64 n (snd (seek X64 pos Beginning s1))
        = (n, [7; 8; 9; 10; 11; 12; 13], s1)
    else w = Failure /\ s1 = six.
Proof.
  assert (_position six + Z.of_nat (length [7; 8; 9; 10; 11; 12; 13])
          < 2 ^ (wordBits X64 - 2)) as H by (vm_compute; reflexivity).
  split; [exact six_consistent|]. split; [discriminate|]. split; [exact H|].
  exact (write_read_round_trip X64 (Some 170) [7; 8; 9; 10; 11; 12; 13] six
           six_consistent ltac:(discriminate) H).
Defined.

Lemma seek_clamps_read_bounds_witness :
  consistent X64 six /\
  fst (seek X64 (-3) End' six) = Z.max 0 (base End' six + -3) /\
  fst (seek X64 (-9) Current six) = Z.max 0 (base Current six + -9).
Proof.
  assert (_position six < 2 ^ (wordBits X64 - 2)) as H1 by (vm_compute; reflexivity).
  assert (_capacity six < 2 ^ (wordBits X64 - 2)) as H2 by (vm_compute; reflexivity).
  assert (- 2 ^ (wordBits X64 - 2) < -3 < 2 ^ (wordBits X64 - 2)) as H3
    by (vm_compute; split; reflexivity).
  assert (- 2 ^ (wordBits X64 - 2) < -9 < 2 ^ (wordBits X64 - 2)) as H4
    by (vm_compute; split; reflexivity).
  assert (inRange (StreamSizeT X64) 4) as H5
    by (vm_compute; split; [discriminate|reflexivity]).
  pose proof (seek_clamps_read_bounds X64 (-3) End' 4 six six_consistent H1 H2 H3 H5) as HE.
  pose proof (seek_clamps_read_bounds X64 (-9) Current 4 six six_consistent H1 H2 H4 H5)
    as HC.
  cbv zeta in HE, HC.
  destruct HE as [HE _]. destruct HC as [HC _].
  split; [exact six_consistent|]. split; [exact HE|exact HC].
Defined.

End MemoryStreamFacts.
